(** * Package resolution and conflict engine of the Project Zomboid server image

    A shallow embedding of the mod-configuration scripts
    ([process_mods.py], [init/update_server_ini.py],
    [init/update_server_ini_map.py], [init/cleanup.py]) and the properties
    of their dependency sorter, conflict detectors and configuration
    rewriters.

    Conventions of the embedding.
    - A Python [str] is a [string]; characters are bytes (a code point
      outside the ASCII range is the bytes of its UTF-8 encoding), and the
      character classes of [str.strip], [\s], [\d] and [(?i)] are the
      ones Python uses on the ASCII range.
    - A [dict] is a [gmap], a [set] is a [gset]; a subscript [d[k]] on a key
      that the source guarantees to be present is the total lookup [d !!! k].
    - [sys.exit] after a message on stderr is the [Exit] outcome of the
      [result] monad; everything after it is not executed.
    - A file holds bytes.  [read_text] and [open] decode them as UTF-8
      with [errors="replace"] and read ["\r\n"] and ["\r"] as ["\n"]
      ([fs.text_of]); [write_text] writes the UTF-8 encoding of its text,
      which is the text itself (the scripts run on Linux, where ["\n"] is
      written as it is).
    - A request to the file system (of a path of the run, or of a
      traversal of the workshop root) may raise [OSError], as the
      environment decides; an exception that nothing catches ends the
      process with exit status 1 and a traceback on stderr, which is the
      outcome [uncaught exc]: [Exit 1] with the text [traceback exc].
    - A usage error of [argparse] ends the process with exit status 2
      before [main] does anything else ([main_from_argv]). *)

From Stdlib Require Import Ascii.
From stdpp Require Import gmap strings list sorting pretty relations.

#[local] Set Warnings "-clear-no-such-hyp".

Open Scope Z_scope.
Open Scope nat_scope.

(** ** Outcomes: a returned value or [sys.exit(code)] with text on stderr *)

Inductive result (A : Type) : Type :=
  | Ok (a : A)
  | Exit (code : Z) (stderr : string).
Arguments Ok {A} a.
Arguments Exit {A} code stderr.

Global Instance result_ret : MRet result := λ A a, Ok a.
Global Instance result_bind : MBind result := λ A B k r,
  match r with
  | Ok a => k a
  | Exit c e => Exit c e
  end.

(** ** Python string and list primitives *)

Module py.

(** [c.isspace()], which is also the class [\s] of [re] on [str]. *)
Definition isspace (c : ascii) : bool :=
  match c with
  | "009" | "010" | "011" | "012" | "013"
  | "028" | "029" | "030" | "031" | " " => true
  | _ => false
  end%char.

(** The class [\d]. *)
Definition isdigit (c : ascii) : bool :=
  match Ascii.is_nat c with Some _ => true | None => false end.

(** The class [[A-Za-z]]. *)
Definition isalpha (c : ascii) : bool :=
  let n := nat_of_ascii c in
  (65 <=? n) && (n <=? 90) || (97 <=? n) && (n <=? 122).

(** The class [[A-Za-z0-9_]], which is [\w] on the ASCII range. *)
Definition isword (c : ascii) : bool :=
  isalpha c || isdigit c || bool_decide (c = "_"%char).

Definition lower_char (c : ascii) : ascii :=
  let n := nat_of_ascii c in
  if (65 <=? n) && (n <=? 90) then ascii_of_nat (n + 32) else c.

(** [s.lower()] *)
Fixpoint lower (s : string) : string :=
  match s with
  | "" => ""
  | String c s' => String (lower_char c) (lower s')
  end.

Fixpoint drop_while (p : ascii → bool) (s : string) : string :=
  match s with
  | "" => ""
  | String c s' => if p c then drop_while p s' else s
  end.

Fixpoint take_while (p : ascii → bool) (s : string) : string :=
  match s with
  | "" => ""
  | String c s' => if p c then String c (take_while p s') else ""
  end.

(** [s.rstrip(chars)], the stripped characters given by a predicate. *)
Fixpoint rstrip_with (p : ascii → bool) (s : string) : string :=
  match s with
  | "" => ""
  | String c s' =>
      match rstrip_with p s' with
      | "" => if p c then "" else String c ""
      | r => String c r
      end
  end.

(** [s.strip()] *)
Definition strip (s : string) : string :=
  rstrip_with isspace (drop_while isspace s).

(** [s.rstrip("\r\n")] *)
Definition rstrip_crlf (s : string) : string :=
  rstrip_with (λ c, bool_decide (c = "013"%char) || bool_decide (c = "010"%char)) s.

(** [s.rstrip("\n")] *)
Definition rstrip_lf (s : string) : string :=
  rstrip_with (λ c, bool_decide (c = "010"%char)) s.

(** [s.startswith(prefix)], returning what follows the prefix. *)
Fixpoint after_prefix (prefix s : string) : option string :=
  match prefix, s with
  | "", _ => Some s
  | String a prefix', String c s' =>
      if bool_decide (a = c) then after_prefix prefix' s' else None
  | String _ _, "" => None
  end.

Definition startswith (s prefix : string) : bool :=
  bool_decide (is_Some (after_prefix prefix s)).

(** A literal of a [(?i)] pattern, matched at the start of [s]; the
    literal is given in lower case. *)
Fixpoint after_prefix_ci (prefix s : string) : option string :=
  match prefix, s with
  | "", _ => Some s
  | String a prefix', String c s' =>
      if bool_decide (a = lower_char c) then after_prefix_ci prefix' s' else None
  | String _ _, "" => None
  end.

(** [sep.join(items)] *)
Fixpoint join (sep : string) (items : list string) : string :=
  match items with
  | [] => ""
  | [x] => x
  | x :: rest => x +:+ sep +:+ join sep rest
  end.

(** ["".join(items)] *)
Definition concat (items : list string) : string :=
  foldr String.app "" items.

(** [s.replace("\x00", "")] *)
Fixpoint strip_nul (s : string) : string :=
  match s with
  | "" => ""
  | String c s' => if bool_decide (c = "000"%char) then strip_nul s'
                   else String c (strip_nul s')
  end.

(** [s.split(sep)] for a one-character separator. *)
Fixpoint split_char (sep : ascii) (s : string) : list string :=
  match s with
  | "" => [""]
  | String c s' =>
      if bool_decide (c = sep) then "" :: split_char sep s'
      else match split_char sep s' with
           | [] => [String c ""]
           | piece :: pieces => String c piece :: pieces
           end
  end.

(** The line boundaries of [str.splitlines] on the ASCII range. *)
Definition is_linebreak (c : ascii) : bool :=
  match c with
  | "010" | "011" | "012" | "013" | "028" | "029" | "030" => true
  | _ => false
  end%char.

(** [s.splitlines(keepends=True)]: a line keeps its terminator, and
    ["\r\n"] is one terminator. *)
Fixpoint splitlines_keepends (s : string) : list string :=
  match s with
  | "" => []
  | String c s' =>
      let glue :=
        match splitlines_keepends s' with
        | [] => [String c ""]
        | line :: lines => String c line :: lines
        end in
      if is_linebreak c then
        match c, s' with
        | "013"%char, String "010"%char _ => glue
        | _, _ => String c "" :: splitlines_keepends s'
        end
      else glue
  end.

(** [s.splitlines()] *)
Definition splitlines (s : string) : list string :=
  rstrip_with is_linebreak <$> splitlines_keepends s.

(** The lines a text-mode file object yields ([for raw_line in fh]):
    universal newlines, so a line ends at ["\n"], ["\r"] or ["\r\n"],
    each read as ["\n"]. *)
Fixpoint readlines (s : string) : list string :=
  match s with
  | "" => []
  | String c s' =>
      let glue (c : ascii) :=
        match readlines s' with
        | [] => [String c ""]
        | line :: lines => String c line :: lines
        end in
      match c, s' with
      | "013"%char, String "010"%char _ => readlines s'
      | "013"%char, _ | "010"%char, _ => String "010"%char "" :: readlines s'
      | _, _ => glue c
      end
  end.

(** Universal newlines of a text-mode file object: ["\r\n"] and
    ["\r"] are read as ["\n"]. *)
Fixpoint universal_newlines (s : string) : string :=
  match s with
  | "" => ""
  | String c s' =>
      match c, s' with
      | "013"%char, String "010"%char _ => universal_newlines s'
      | "013"%char, _ => String "010"%char (universal_newlines s')
      | _, _ => String c (universal_newlines s')
      end
  end.

(** U+FFFD in UTF-8. *)
Definition replacement : string := String "239" (String "191" (String "189" "")).

(** For the first byte of a UTF-8 sequence of more than one byte: the
    number of continuation bytes and the range of the first of them. *)
Definition utf8_lead (n : nat) : option (nat * nat * nat) :=
  if (194 <=? n) && (n <=? 223) then Some (1, 128, 191)
  else if n =? 224 then Some (2, 160, 191)
  else if n =? 237 then Some (2, 128, 159)
  else if (225 <=? n) && (n <=? 239) then Some (2, 128, 191)
  else if n =? 240 then Some (3, 144, 191)
  else if (241 <=? n) && (n <=? 243) then Some (3, 128, 191)
  else if n =? 244 then Some (3, 128, 143)
  else None.

(** [bytes.decode("utf-8", errors="replace")], the [str] given by its
    UTF-8 encoding: a well-formed sequence is kept; an invalid first
    byte, and a first byte with the continuation bytes that are valid
    after it when the next byte is not (or the input ends), become one
    U+FFFD.  [pending] holds the bytes of the sequence being read,
    [need] the number of continuation bytes still to come and [lo],
    [hi] the range of the next one. *)
Fixpoint decode_from (pending : string) (need lo hi : nat) (s : string) : string :=
  match s with
  | "" => if bool_decide (pending = "") then "" else replacement
  | String c s' =>
      let n := nat_of_ascii c in
      if negb (bool_decide (pending = "")) && (lo <=? n) && (n <=? hi) then
        if need =? 1 then (pending +:+ String c "") +:+ decode_from "" 0 0 0 s'
        else decode_from (pending +:+ String c "") (need - 1) 128 191 s'
      else
        (if bool_decide (pending = "") then "" else replacement)
        +:+ (if n <? 128 then String c (decode_from "" 0 0 0 s')
             else match utf8_lead n with
                  | Some (need', lo', hi') => decode_from (String c "") need' lo' hi' s'
                  | None => replacement +:+ decode_from "" 0 0 0 s'
                  end)
  end.

Definition decode_utf8 (bytes : string) : string := decode_from "" 0 0 0 bytes.

(** [int(s)] for a string of decimal digits. *)
Definition int_of_digits (s : string) : Z :=
  let fix go (acc : Z) (s : string) : Z :=
    match s with
    | "" => acc
    | String c s' =>
        go (10 * acc + Z.of_nat (default 0%nat (Ascii.is_nat c)))%Z s'
    end in
  go 0%Z s.

Fixpoint contains_char (c : ascii) (s : string) : bool :=
  match s with
  | "" => false
  | String a s' => bool_decide (a = c) || contains_char c s'
  end.

Definition hex_digit (n : nat) : ascii :=
  ascii_of_nat (if n <? 10 then 48 + n else 87 + n).

(** [repr(s)] of a [str] whose characters above the ASCII range are
    printable. *)
Definition repr (s : string) : string :=
  let quote : ascii :=
    if contains_char "'" s && negb (contains_char "034" s) then "034"%char
    else "'"%char in
  let fix go (s : string) : string :=
    match s with
    | "" => ""
    | String c s' =>
        let n := nat_of_ascii c in
        (if bool_decide (c = quote) || bool_decide (c = "\"%char)
         then String "\" (String c "")
         else if bool_decide (c = "009"%char) then "\t"
         else if bool_decide (c = "010"%char) then "\n"
         else if bool_decide (c = "013"%char) then "\r"
         else if (n <? 32) || bool_decide (n = 127)
         then String "\" (String "x" (String (hex_digit (n / 16))
                                        (String (hex_digit (n mod 16)) "")))
         else String c "") +:+ go s'
    end in
  String quote (go s +:+ String quote "").

(** [str(n)] for a non-negative [int] *)
Definition str_nat (n : nat) : string := pretty n.

(** [str(z)] *)
Definition str_Z (z : Z) : string := pretty z.

(** [{k: v for k, v in pairs}]: a later pair overrides an earlier one. *)
Definition dict_of {K V} `{Countable K} (pairs : list (K * V)) : gmap K V :=
  foldl (λ m kv, <[kv.1 := kv.2]> m) ∅ pairs.

(** [enumerate(l)] with the index second, as the comprehensions use it. *)
Definition enumerate {A} (l : list A) : list (A * nat) :=
  imap (λ i x, (x, i)) l.

End py.

(** ** Files *)

Module fs.

(** [Path.write_text] opens the file for writing, which empties it, and
    then writes the text; [Path.replace] renames one path over another. *)
Inductive fs_op :=
  | OpenTruncate (path : string)
  | WriteData (path data : string)
  | Replace (src dst : string).

Definition apply_op (files : gmap string string) (op : fs_op) : gmap string string :=
  match op with
  | OpenTruncate path => <[path := ""]> files
  | WriteData path data => <[path := default "" (files !! path) +:+ data]> files
  | Replace src dst =>
      match files !! src with
      | Some text => <[dst := text]> (delete src files)
      | None => files
      end
  end.

Definition write_text_ops (path data : string) : list fs_op :=
  [OpenTruncate path; WriteData path data].

(** The text that [Path.read_text(encoding="utf-8", errors="replace")]
    returns, and that a file object opened with these arguments yields,
    for a file that holds [bytes]. *)
Definition text_of (bytes : string) : string :=
  py.universal_newlines (py.decode_utf8 bytes).

(** The files a reader finds when the process stops after its first
    [n] file operations. *)
Definition interrupted (files : gmap string string) (ops : list fs_op) (n : nat)
    : gmap string string :=
  foldl apply_op files (take n ops).

End fs.

Export fs.

(** ** process_mods.py *)

Module process_mods.

(** [_fatal(msg)]: print on stderr and [sys.exit(1)]. *)
Definition _fatal {A} (msg : string) : result A :=
  Exit 1%Z ("ERROR: " +:+ msg).

(** *** 1. Parse mods.txt *)

Record ModBlock := mkModBlock {
  workshop_id : string;
  mod_ids : list string
}.

(** [re.match(r"(?i)^workshop\s+id\s*:\s*(\S+)", line)], giving
    [m.group(1)]. *)
Definition match_workshop_id (line : string) : option string :=
  r ← py.after_prefix_ci "workshop" line;
  if bool_decide (py.take_while py.isspace r = "") then None else
  r ← py.after_prefix_ci "id" (py.drop_while py.isspace r);
  r ← py.after_prefix ":" (py.drop_while py.isspace r);
  let g := py.take_while (λ c, negb (py.isspace c)) (py.drop_while py.isspace r) in
  if bool_decide (g = "") then None else Some g.

(** [re.match(r"(?i)^mod\s+id\s*:\s*(.+)", line)], giving
    [m.group(1).strip()].  The lines it is applied to hold no newline, so
    [.+] runs to the end of the line. *)
Definition match_mod_id (line : string) : option string :=
  r ← py.after_prefix_ci "mod" line;
  if bool_decide (py.take_while py.isspace r = "") then None else
  r ← py.after_prefix_ci "id" (py.drop_while py.isspace r);
  r ← py.after_prefix ":" (py.drop_while py.isspace r);
  if bool_decide (r = "") then None else Some (py.strip r).

(** The parser state: the blocks appended so far and [current], which
    is [None] or an alias of one of them (its index in [blocks]). *)
Record parser := mkParser {
  blocks : list ModBlock;
  current : option nat
}.

(** The body of [for raw_line in fh]. *)
Definition parse_line (st : parser) (raw_line : string) : parser :=
  let line := py.strip raw_line in
  if bool_decide (line = "") || py.startswith line "#" then st
  else if bool_decide (line = "---") then mkParser (blocks st) None
  else match match_workshop_id line with
  | Some wid =>
      mkParser (blocks st ++ [mkModBlock wid []]) (Some (length (blocks st)))
  | None =>
      match current st with
      | None => st
      | Some cur =>
          match match_mod_id line with
          | Some mid =>
              if bool_decide (mid ≠ "")
                 && bool_decide (mid ∉ default [] (mod_ids <$> blocks st !! cur))
              then mkParser
                     (alter (λ b, mkModBlock (workshop_id b) (mod_ids b ++ [mid]))
                            cur (blocks st))
                     (current st)
              else st
          | None => st
          end
      end
  end.

(** [parse_mods_blocks(path)], on the text of the file. *)
Definition parse_mods_blocks (text : string) : list ModBlock :=
  blocks (foldl parse_line (mkParser [] None) (py.readlines text)).

(** The loop of [parse_mods_txt] over the blocks:
    [(workshop_ids, seen_workshops, mod_ids, seen_mods)]. *)
Definition add_block_mods (acc : list string * gset string) (mids : list string)
    : list string * gset string :=
  foldl (λ '(mod_ids, seen_mods) mid,
           if bool_decide (mid ≠ "") && bool_decide (mid ∉ seen_mods)
           then (mod_ids ++ [mid], seen_mods ∪ {[mid]})
           else (mod_ids, seen_mods)) acc mids.

Definition parse_mods_txt_loop (bs : list ModBlock)
    : (list string * gset string) * (list string * gset string) :=
  foldl (λ '((workshop_ids, seen_workshops), mods) block,
           let wid := workshop_id block in
           (if bool_decide (wid ∉ seen_workshops)
            then (workshop_ids ++ [wid], seen_workshops ∪ {[wid]})
            else (workshop_ids, seen_workshops),
            add_block_mods mods (mod_ids block)))
        (([], ∅), ([], ∅)) bs.

(** [parse_mods_txt(path)], on the text of the file. *)
Definition parse_mods_txt (text : string) : list string * list string :=
  let '((workshop_ids, _), (mod_ids, _)) :=
    parse_mods_txt_loop (parse_mods_blocks text) in
  (workshop_ids, mod_ids).

(** *** 2. Collect mod.info metadata *)

(** What the scripts read of one [mod.info] file below a workshop item:
    its path (the parts below the item directory), its text, and the
    names of the directories inside [<parent>/media/maps] (none when that
    is not a directory), in [iterdir] order. *)
Record ModInfoFile := mkModInfoFile {
  mi_path : list string;
  mi_text : string;
  mi_maps : list string
}.

(** What the scripts read of one workshop item directory: its name, its
    [mod.info] files in [rglob] order, and the names of the files that
    [rglob("*.lotheader")] yields. *)
Record ItemDir := mkItemDir {
  item_name : string;
  item_mod_infos : list ModInfoFile;
  item_lotheaders : list string
}.

(** [workshop_root]: the sub-directories by name; [(workshop_root /
    wid).is_dir()] is a lookup that succeeds. *)
Abbreviation WorkshopRoot := (gmap string ItemDir).

(** [re.match(r"^\s*(\w+)\s*=\s*(.+)", line)], giving
    [(m.group(1), m.group(2).strip())]. *)
Definition match_key_value (line : string) : option (string * string) :=
  let r := py.drop_while py.isspace line in
  let key := py.take_while py.isword r in
  if bool_decide (key = "") then None else
  r ← py.after_prefix "=" (py.drop_while py.isspace (py.drop_while py.isword r));
  if bool_decide (r = "") then None else Some (key, py.strip r).

(** [_parse_mod_info_file(path)], on the text of the file. *)
Definition _parse_mod_info_file (text : string) : gmap string string :=
  foldl (λ data line,
           match match_key_value (py.rstrip_crlf line) with
           | Some (k, v) => <[py.lower k := v]> data
           | None => data
           end) ∅ (py.readlines text).

(** The order of [pathlib] paths: the lists of their parts, compared
    lexicographically. *)
Fixpoint path_le (a b : list string) : bool :=
  match a, b with
  | [], _ => true
  | _ :: _, [] => false
  | x :: a', y :: b' =>
      String.ltb x y || (bool_decide (x = y) && path_le a' b')
  end.

(** [sorted(l, key=key)] for keys ordered by [le]: a stable insertion
    sort. *)
Definition sorted_by {A K} (le : K → K → bool) (key : A → K) (l : list A) : list A :=
  foldr (fix insert (x : A) (l : list A) : list A :=
           match l with
           | [] => [x]
           | y :: l' => if le (key x) (key y) then x :: y :: l' else y :: insert x l'
           end) [] l.

(** [info.get(k, "").strip()] *)
Definition info_get (info : gmap string string) (k : string) : string :=
  py.strip (default "" (info !! k)).

(** [[d.strip() for d in raw_require.split(",") if d.strip()]] *)
Definition parse_require (raw_require : string) : list string :=
  if bool_decide (raw_require = "") then []
  else filter (λ d, d ≠ "") (py.strip <$> py.split_char "," raw_require).

(** The state of [collect_mod_info]:
    [requires], [workshop_to_mods], [seen_global]. *)
Definition collect_item (wid : string) (item : ItemDir)
    (st : gmap string (list string) * gmap string (list string) * gset string)
    : gmap string (list string) * gmap string (list string) * gset string :=
  let '(requires, workshop_to_mods, seen_global, item_mods) :=
    foldl (λ '(requires, workshop_to_mods, seen_global, item_mods) modinfo,
             let info := _parse_mod_info_file (mi_text modinfo) in
             let mod_id := info_get info "id" in
             if bool_decide (mod_id = "")
             then (requires, workshop_to_mods, seen_global, item_mods)
             else
               let '(requires, seen_global) :=
                 if bool_decide (mod_id ∉ seen_global)
                 then (<[mod_id := parse_require (info_get info "require")]> requires,
                       seen_global ∪ {[mod_id]})
                 else (requires, seen_global) in
               (requires, workshop_to_mods, seen_global,
                if bool_decide (mod_id ∉ item_mods) then item_mods ++ [mod_id]
                else item_mods))
          (st, [])
          (sorted_by path_le mi_path (item_mod_infos item)) in
  (requires,
   if bool_decide (item_mods ≠ []) then <[wid := item_mods]> workshop_to_mods
   else workshop_to_mods,
   seen_global).

Definition collect_mod_info (workshop_root : WorkshopRoot) (workshop_ids : list string)
    : gmap string (list string) * gmap string (list string) :=
  (foldl (λ st wid,
            match workshop_root !! wid with
            | None => st
            | Some item => collect_item wid item st
            end) (∅, ∅, ∅) workshop_ids).1.

(** *** 3. Map conflict checks and dynamic Map= collection *)

Definition VANILLA_MAPS : list string :=
  ["Muldraugh, KY"; "Riverside, KY"; "Rosewood, KY"; "West Point, KY";
   "Louisville, KY"].

(** [re.match(r"(?i)^\s*name\s*=\s*(.+)", line)], giving
    [m.group(1).strip()]. *)
Definition match_name (line : string) : option string :=
  r ← py.after_prefix_ci "name" (py.drop_while py.isspace line);
  r ← py.after_prefix "=" (py.drop_while py.isspace r);
  if bool_decide (r = "") then None else Some (py.strip r).

(** [_mod_label_for_dir(item_dir)] *)
Definition _mod_label_for_dir (item : ItemDir) : string :=
  match item_mod_infos item with
  | modinfo :: _ =>
      match omap match_name (py.splitlines (mi_text modinfo)) with
      | name :: _ => name +:+ " [" +:+ item_name item +:+ "]"
      | [] => item_name item
      end
  | [] => item_name item
  end.

(** [re.match(r"(?i)^tiledef\s*=\s*\S+\s+(\d+)", line)], giving
    [int(m.group(1))]. *)
Definition match_tiledef (line : string) : option Z :=
  r ← py.after_prefix_ci "tiledef" line;
  r ← py.after_prefix "=" (py.drop_while py.isspace r);
  let r := py.drop_while py.isspace r in
  if bool_decide (py.take_while (λ c, negb (py.isspace c)) r = "") then None else
  let r := py.drop_while (λ c, negb (py.isspace c)) r in
  if bool_decide (py.take_while py.isspace r = "") then None else
  let digits := py.take_while py.isdigit (py.drop_while py.isspace r) in
  if bool_decide (digits = "") then None else Some (py.int_of_digits digits).

(** [re.match(r"^(\d+)_(\d+)\.lotheader$", name)], giving the pair
    [(int(p.group(1)), int(p.group(2)))]. *)
Definition match_lotheader (name : string) : option (Z * Z) :=
  let x := py.take_while py.isdigit name in
  if bool_decide (x = "") then None else
  r ← py.after_prefix "_" (py.drop_while py.isdigit name);
  let y := py.take_while py.isdigit r in
  if bool_decide (y = "") then None else
  if bool_decide (py.drop_while py.isdigit r = ".lotheader")
  then Some (py.int_of_digits x, py.int_of_digits y) else None.

(** The claims of one item in the order they are met: the tiledef
    numbers of all lines of all its [mod.info] files, and the cells of
    all its lotheader files. *)
Definition tiledef_claims (item : ItemDir) : list Z :=
  modinfo ← item_mod_infos item;
  omap (λ line, match_tiledef (py.strip line)) (py.splitlines (mi_text modinfo)).

Definition coord_claims (item : ItemDir) : list (Z * Z) :=
  omap match_lotheader (item_lotheaders item).

(** The body shared by the two detectors, for one item: every claim not
    yet [seen] for this item appends the item's label under the claim. *)
Definition claim_item {V} `{Countable V} (label : string) (claims : list V)
    (value_to_mods : gmap V (list string)) : gmap V (list string) :=
  (foldl (λ '(value_to_mods, seen) v,
            if bool_decide (v ∉ seen)
            then (<[v := default [] (value_to_mods !! v) ++ [label]]> value_to_mods,
                  seen ∪ {[v]})
            else (value_to_mods, seen))
         (value_to_mods, (∅ : gset V)) claims).1.

Definition check_conflicts {V} `{Countable V} (claims : ItemDir → list V)
    (workshop_root : WorkshopRoot) (workshop_ids : list string)
    : gmap V (list string) :=
  filter (λ kv, 1 < length kv.2)
    (foldl (λ value_to_mods wid,
              match workshop_root !! wid with
              | None => value_to_mods
              | Some item => claim_item (_mod_label_for_dir item) (claims item) value_to_mods
              end) ∅ workshop_ids).

Definition check_tiledef_conflicts (workshop_root : WorkshopRoot)
    (workshop_ids : list string) : gmap Z (list string) :=
  check_conflicts tiledef_claims workshop_root workshop_ids.

Definition check_map_coord_conflicts (workshop_root : WorkshopRoot)
    (workshop_ids : list string) : gmap (Z * Z) (list string) :=
  check_conflicts coord_claims workshop_root workshop_ids.

(** [collect_workshop_maps(workshop_root, workshop_ids, active_mod_ids)] *)
Definition collect_workshop_maps (workshop_root : WorkshopRoot)
    (workshop_ids : list string) (active_mod_ids : gset string) : list string :=
  let scan_modinfo (st : gset string * gset (string * string)) (modinfo : ModInfoFile) :=
    let mod_id := info_get (_parse_mod_info_file (mi_text modinfo)) "id" in
    if bool_decide (mod_id = "") || bool_decide (mod_id ∉ active_mod_ids) then st
    else foldl (λ '(found, seen_mod_map) name,
                  if bool_decide ((mod_id, name) ∉ seen_mod_map)
                  then (found ∪ {[name]}, seen_mod_map ∪ {[(mod_id, name)]})
                  else (found, seen_mod_map)) st (mi_maps modinfo) in
  let found :=
    (foldl (λ st wid,
              match workshop_root !! wid with
              | None => st
              | Some item => foldl scan_modinfo st (item_mod_infos item)
              end) (∅, ∅) workshop_ids).1 in
  sorted_by String.leb id (elements found).

(** *** 3b. Rewrite mods.txt with proper Workshop ID → Mod ID groupings *)

(** The keys of [mod_to_workshop]; the function only tests membership
    in that dict. *)
Definition mod_to_workshop (workshop_to_mods : gmap string (list string))
    : gset string :=
  map_fold (λ _ mids keys, list_to_set mids ∪ keys) ∅ workshop_to_mods.

(** [_group_for(wid)] *)
Definition _group_for (workshop_to_mods : gmap string (list string))
    (mod_ids_set : gset string) (sorted_pos : gmap string nat) (wid : string)
    : list string :=
  let cache_mods := default [] (workshop_to_mods !! wid) in
  if bool_decide (cache_mods = []) then []
  else sorted_by Nat.leb (λ m, sorted_pos !!! m)
         (filter (λ m, m ∈ mod_ids_set) cache_mods).

Definition empty_block_warning (wid : string) : string :=
  "  Workshop ID " +:+ wid +:+ ": empty block, not in cache "
  +:+ "— remove its block from mods.txt to stop tracking it".

(** The text that step 5 writes. *)
Definition mods_txt_text (workshop_ids : list string)
    (new_groups : gmap string (list string)) (new_orphans : list string) : string :=
  let out_lines :=
    (wid ← workshop_ids;
       ["Workshop ID: " +:+ wid]
       ++ ((λ mid, "Mod ID: " +:+ mid) <$> default [] (new_groups !! wid))
       ++ ["---"; ""])
    ++ (if bool_decide (new_orphans ≠ [])
        then ["# Mod IDs not yet attributed to any downloaded workshop item"]
             ++ ((λ mid, "Mod ID: " +:+ mid) <$> new_orphans)
             ++ ["---"; ""]
        else []) in
  py.rstrip_lf (py.join "
" out_lines) +:+ "
".

(** [rewrite_mods_txt(mods_txt_path, workshop_ids, mod_ids_sorted,
    workshop_to_mods)] on the text of the file: the returned pair
    [(changed, validation_warnings)] and the text written, if any. *)
Definition rewrite_mods_txt (text : string) (workshop_ids mod_ids_sorted : list string)
    (workshop_to_mods : gmap string (list string))
    : (bool * list string) * option string :=
  let blocks := parse_mods_blocks text in
  let mod_ids_set : gset string := list_to_set mod_ids_sorted in
  let sorted_pos : gmap string nat := py.dict_of (py.enumerate mod_ids_sorted) in
  let new_groups : gmap string (list string) :=
    py.dict_of ((λ wid, (wid, _group_for workshop_to_mods mod_ids_set sorted_pos wid))
                  <$> workshop_ids) in
  let new_orphans :=
    filter (λ m, m ∉ mod_to_workshop workshop_to_mods) mod_ids_sorted in
  let original_block_mods : gmap string (list string) :=
    py.dict_of ((λ b, (workshop_id b, mod_ids b)) <$> blocks) in
  let warnings :=
    wid ← workshop_ids;
    if bool_decide (new_groups !!! wid = [])
    then if bool_decide (default [] (workshop_to_mods !! wid) ≠ []) then []
         else if bool_decide (default [] (original_block_mods !! wid) ≠ []) then []
         else [empty_block_warning wid]
    else [] in
  let existing : gmap string (list string) :=
    py.dict_of ((λ b, (workshop_id b, mod_ids b)) <$> blocks) in
  let existing_order := workshop_id <$> blocks in
  let existing_orphans :=
    b ← blocks;
    if bool_decide (workshop_id b ∉ (list_to_set workshop_ids : gset string))
    then mod_ids b else [] in
  let changed :=
    bool_decide (existing_order ≠ workshop_ids)
    || existsb (λ wid, bool_decide (default [] (existing !! wid) ≠ new_groups !!! wid))
               workshop_ids
    || bool_decide (existing_orphans ≠ new_orphans) in
  if changed
  then ((true, warnings), Some (mods_txt_text workshop_ids new_groups new_orphans))
  else ((false, warnings), None).

(** *** 4. Topological-order auto-sort *)

Definition topological_error (mod_id dep : string) : string :=
  "Topological error: '" +:+ mod_id +:+ "' requires '" +:+ dep +:+ "', "
  +:+ "but '" +:+ dep +:+ "' is not listed in mods.txt." +:+ "
" +:+ "Add 'Mod ID: " +:+ dep +:+ "' to mods.txt.".

(** The inner loop [for dep in requires_map.get(mod_id, [])]. *)
Fixpoint add_prereqs (requires_map : gmap string (list string))
    (mod_id_set : gset string) (mod_id : string) (deps : list string)
    (prereqs : gmap string (gset string)) : result (gmap string (gset string)) :=
  match deps with
  | [] => Ok prereqs
  | dep :: deps' =>
      if decide (dep ∈ dom requires_map) then
        if decide (dep ∈ mod_id_set) then
          add_prereqs requires_map mod_id_set mod_id deps'
            (<[mod_id := (prereqs !!! mod_id) ∪ {[dep]}]> prereqs)
        else _fatal (topological_error mod_id dep)
      else add_prereqs requires_map mod_id_set mod_id deps' prereqs
  end.

(** The outer loop [for mod_id in mod_ids] over the rest of the list. *)
Fixpoint build_prereqs_loop (requires_map : gmap string (list string))
    (mod_id_set : gset string) (todo : list string)
    (prereqs : gmap string (gset string)) : result (gmap string (gset string)) :=
  match todo with
  | [] => Ok prereqs
  | mod_id :: todo' =>
      prereqs' ← add_prereqs requires_map mod_id_set mod_id
                   (default [] (requires_map !! mod_id)) prereqs;
      build_prereqs_loop requires_map mod_id_set todo' prereqs'
  end.

(** "Build effective prerequisite sets (only known, present deps)". *)
Definition build_prereqs (mod_ids : list string)
    (requires_map : gmap string (list string)) : result (gmap string (gset string)) :=
  build_prereqs_loop requires_map (list_to_set mod_ids) mod_ids
    (py.dict_of ((λ mid, (mid, ∅)) <$> mod_ids)).

(** "Fast check: is the existing order already valid?" *)
Definition order_is_valid (mod_ids : list string) (original_pos : gmap string nat)
    (prereqs : gmap string (gset string)) : bool :=
  forallb (λ mod_id,
    forallb (λ dep, bool_decide (original_pos !!! dep < original_pos !!! mod_id))
            (elements (prereqs !!! mod_id))) mod_ids.

(** [dependents[dep].append(mod_id)] for every [dep] of [mod_id]. *)
Definition build_dependents (mod_ids : list string)
    (prereqs : gmap string (gset string)) : gmap string (list string) :=
  foldl (λ dependents mod_id,
           foldl (λ dependents dep,
                    <[dep := (dependents !!! dep) ++ [mod_id]]> dependents)
                 dependents (elements (prereqs !!! mod_id)))
        (py.dict_of ((λ mid, (mid, [])) <$> mod_ids)) mod_ids.

(** The heap holds [(original_pos, mod_id)] tuples.  [heapq] is observed
    only through [heappop], which returns the least tuple, so the heap is
    kept as the ascending list of its elements. *)
Definition tuple_lt (a b : nat * string) : bool :=
  bool_decide (a.1 < b.1) || (bool_decide (a.1 = b.1) && String.ltb a.2 b.2).

Fixpoint heappush (heap : list (nat * string)) (x : nat * string)
    : list (nat * string) :=
  match heap with
  | [] => [x]
  | y :: heap' => if tuple_lt x y then x :: y :: heap' else y :: heappush heap' x
  end.

Definition heapify (items : list (nat * string)) : list (nat * string) :=
  foldl heappush [] items.

(** The loop [for dependent in dependents[mid]] of one Kahn step. *)
Fixpoint release (original_pos : gmap string nat) (deps : list string)
    (in_degree : gmap string Z) (heap : list (nat * string))
    : gmap string Z * list (nat * string) :=
  match deps with
  | [] => (in_degree, heap)
  | dependent :: deps' =>
      let d := ((in_degree !!! dependent) - 1)%Z in
      let in_degree' := <[dependent := d]> in_degree in
      if decide (d = 0%Z)
      then release original_pos deps' in_degree'
             (heappush heap (original_pos !!! dependent, dependent))
      else release original_pos deps' in_degree' heap
  end.

(** [while heap: ...]; [None] when the fuel is used up before the heap is
    empty. *)
Fixpoint kahn_loop (fuel : nat) (original_pos : gmap string nat)
    (dependents : gmap string (list string)) (in_degree : gmap string Z)
    (heap : list (nat * string)) (result : list string) : option (list string) :=
  match heap with
  | [] => Some result
  | (_, mid) :: heap' =>
      match fuel with
      | O => None
      | S fuel' =>
          let '(in_degree', heap'') :=
            release original_pos (dependents !!! mid) in_degree heap' in
          kahn_loop fuel' original_pos dependents in_degree' heap'' (result ++ [mid])
      end
  end.

(** Every iteration pops one tuple, and a tuple is pushed only when a
    positive in-degree reaches zero: the loop runs at most
    [len(heap) + len(in_degree)] times. *)
Definition kahn_fuel (in_degree : gmap string Z) (heap : list (nat * string)) : nat :=
  length heap + size in_degree.

Definition cycle_mods (mod_ids result : list string) : list string :=
  filter (λ m, m ∉ (list_to_set result : gset string)) mod_ids.

Definition cycle_error (cycle_mods : list string) : string :=
  "Dependency cycle detected among " +:+ py.str_nat (length cycle_mods)
  +:+ " mod(s): " +:+ py.join ", " (take 10 cycle_mods)
  +:+ (if bool_decide (10 < length cycle_mods) then " ..." else "").

Definition reorder_note (mid : string) (original_pos new_pos : nat) : string :=
  "  " +:+ py.repr mid +:+ ": position " +:+ py.str_nat original_pos
  +:+ " → " +:+ py.str_nat new_pos.

Definition reorder_notes (mod_ids : list string)
    (original_pos new_pos : gmap string nat) : list string :=
  (λ mid, reorder_note mid (original_pos !!! mid) (new_pos !!! mid))
    <$> filter (λ mid, original_pos !!! mid ≠ new_pos !!! mid) mod_ids.

(** "Kahn's algorithm with stable original-position tiebreaking": the
    list [result] when the [while] loop ends, [None] if the loop outlives
    its fuel. *)
Definition kahn_sort (mod_ids : list string) (original_pos : gmap string nat)
    (prereqs : gmap string (gset string)) : option (list string) :=
  let in_degree : gmap string Z :=
    py.dict_of ((λ mid, (mid, Z.of_nat (size (prereqs !!! mid)))) <$> mod_ids) in
  let dependents := build_dependents mod_ids prereqs in
  let heap :=
    heapify ((λ mid, (original_pos !!! mid, mid))
               <$> filter (λ mid, in_degree !!! mid = 0%Z) mod_ids) in
  kahn_loop (kahn_fuel in_degree heap) original_pos dependents in_degree heap [].

(** [ensure_topological_order(mod_ids, requires_map)].  The outer [option]
    is [None] only if the [while] loop outlives its fuel. *)
Definition ensure_topological_order (mod_ids : list string)
    (requires_map : gmap string (list string))
    : option (result (list string * list string)) :=
  let original_pos : gmap string nat := py.dict_of (py.enumerate mod_ids) in
  match build_prereqs mod_ids requires_map with
  | Exit c e => Some (Exit c e)
  | Ok prereqs =>
      if order_is_valid mod_ids original_pos prereqs then Some (Ok (mod_ids, []))
      else
        result ← kahn_sort mod_ids original_pos prereqs;
        if decide (length result ≠ length mod_ids)
        then Some (_fatal (cycle_error (cycle_mods mod_ids result)))
        else
          let new_pos : gmap string nat := py.dict_of (py.enumerate result) in
          Some (Ok (result, reorder_notes mod_ids original_pos new_pos))
  end.

(** *** 4. Update default.ini *)

(** [re.match(r"[A-Za-z][A-Za-z0-9_]*\s*=", s)] *)
Definition looks_like_key (s : string) : bool :=
  match s with
  | "" => false
  | String c s' =>
      py.isalpha c
      && py.startswith (py.drop_while py.isspace (py.drop_while py.isword s')) "="
  end.

(** "A continuation line does not look like a new INI key or
      blank/comment." *)
Definition _is_continuation (s : string) : bool :=
  let s := py.rstrip_crlf s in
  bool_decide (s ≠ "") && negb (py.startswith s "#") && negb (looks_like_key s).

(** [re.match(r"(?i)^<key>\s*=", stripped)], the key given in lower
    case. *)
Definition matches_key (key stripped : string) : bool :=
  match py.after_prefix_ci key stripped with
  | Some r => py.startswith (py.drop_while py.isspace r) "="
  | None => false
  end.

Definition key_line (key value : string) : string :=
  key +:+ "=" +:+ value +:+ "
".

(** The variables of the loop of [update_ini]; [current_skip_key] is
    assigned but never read. *)
Record ini_state := mkIni {
  output_lines : list string;
  wrote_mods : bool;
  wrote_workshop : bool;
  skip_continuation : bool
}.

(** The body of [for raw in original.splitlines(keepends=True)]. *)
Definition update_ini_step (mods_csv workshop_csv : string)
    (st : ini_state) (raw : string) : ini_state :=
  let stripped := py.rstrip_crlf raw in
  if skip_continuation st && _is_continuation stripped then st
  else if matches_key "mods" stripped then
    mkIni (output_lines st ++ [key_line "Mods" mods_csv]) true (wrote_workshop st) true
  else if matches_key "workshopitems" stripped then
    mkIni (output_lines st ++ [key_line "WorkshopItems" workshop_csv])
          (wrote_mods st) true true
  else mkIni (output_lines st ++ [raw]) (wrote_mods st) (wrote_workshop st) false.

(** [update_ini(ini_path, mods_csv, workshop_csv)]: the text written
    for the text read. *)
Definition update_ini (original mods_csv workshop_csv : string) : string :=
  let original := py.strip_nul original in
  let st := foldl (update_ini_step mods_csv workshop_csv)
                  (mkIni [] false false false) (py.splitlines_keepends original) in
  py.concat (output_lines st
             ++ (if wrote_mods st then [] else [key_line "Mods" mods_csv])
             ++ (if wrote_workshop st then [] else [key_line "WorkshopItems" workshop_csv])).


(** The file operations of [update_ini] on [ini_path]. *)
Definition update_ini_ops (ini_path original mods_csv workshop_csv : string)
    : list fs_op :=
  write_text_ops ini_path (update_ini original mods_csv workshop_csv).

(** The loop of [update_map_line]: [(output_lines, wrote, skip)]. *)
Definition update_map_line_step (map_csv : string)
    (st : list string * bool * bool) (raw : string) : list string * bool * bool :=
  let '(output_lines, wrote, skip) := st in
  let stripped := py.rstrip_crlf raw in
  if skip && _is_continuation stripped then st
  else if matches_key "map" stripped
  then (output_lines ++ [key_line "Map" map_csv], true, true)
  else (output_lines ++ [raw], wrote, false).

Definition update_map_line (original map_csv : string) : string :=
  let original := py.strip_nul original in
  let '(output_lines, wrote, _) :=
    foldl (update_map_line_step map_csv) ([], false, false)
          (py.splitlines_keepends original) in
  py.concat (output_lines ++ (if wrote then [] else [key_line "Map" map_csv])).

(** [update_public_name(ini_path, public_name)] *)
Definition update_public_name (original public_name : string) : string :=
  let '(output_lines, wrote) :=
    foldl (λ '(output_lines, wrote) raw,
             if matches_key "publicname" (py.rstrip_crlf raw)
             then (output_lines ++ [key_line "PublicName" public_name], true)
             else (output_lines ++ [raw], wrote))
          ([], false) (py.splitlines_keepends original) in
  py.concat (output_lines
             ++ (if wrote then [] else [key_line "PublicName" public_name])).

(** *** The files and the process *)

(** The state a run acts on: the files (their bytes), the lines printed
    on stdout, the file operations performed so far, and what the
    environment answers to the requests to the file system:
    [io_errors n] is the exception that the request number [n] raises,
    if it raises one, and [io_count] is the number of requests made so
    far. *)
Record machine := Machine {
  files : gmap string string;
  stdout : list string;
  ops : list fs_op;
  io_errors : nat → option string;
  io_count : nat
}.

(** A machine on which no request raises. *)
Definition mkMachine (files : gmap string string) (stdout : list string)
    (ops : list fs_op) : machine :=
  Machine files stdout ops (λ _, None) 0.

Definition prog (A : Type) : Type := machine → machine * result A.

#[global] Instance prog_ret : MRet prog := λ A a m, (m, Ok a).
#[global] Instance prog_bind : MBind prog := λ A B k p m,
  match p m with
  | (m', Ok a) => k a m'
  | (m', Exit c e) => (m', Exit c e)
  end.

(** An exception that nothing catches: exit status 1, with the
    traceback on stderr; of the traceback the embedding keeps the first
    line and the last, which names the exception. *)
Definition traceback (exc : string) : string :=
  "Traceback (most recent call last):
" +:+ exc.

Definition uncaught {A} (exc : string) : result A := Exit 1%Z (traceback exc).

(** A request to the file system: it raises when the environment says
    so, and is answered otherwise. *)
Definition request {A} (answer : prog A) : prog A :=
  λ m, let m' := Machine (files m) (stdout m) (ops m) (io_errors m) (S (io_count m)) in
       match io_errors m (io_count m) with
       | Some exc => (m', uncaught exc)
       | None => answer m'
       end.

(** A file operation that the file system has performed. *)
Definition perform (op : fs_op) : prog unit :=
  λ m, (Machine (apply_op (files m) op) (stdout m) (ops m ++ [op])
                (io_errors m) (io_count m), Ok ()).

Definition print (line : string) : prog unit :=
  λ m, (Machine (files m) (stdout m ++ [line]) (ops m) (io_errors m) (io_count m),
        Ok ()).

Definition fatal {A} (msg : string) : prog A := λ m, (m, _fatal msg).

Definition lift {A} (r : result A) : prog A := λ m, (m, r).

(** A traversal of the workshop root ([is_dir], [rglob], [iterdir],
    [open] of the files read there): it gives [found], what the
    traversal collects from the workshop root, unless a request of it
    raises. *)
Definition traverse {A} (found : A) : prog A := request (λ m, (m, Ok found)).

(** [path.exists()] *)
Definition path_exists (path : string) : prog bool :=
  request (λ m, (m, Ok (bool_decide (is_Some (files m !! path))))).

(** [path.read_text(encoding="utf-8", errors="replace")], and reading
    all of [path.open(encoding="utf-8", errors="replace")]. *)
Definition read_text (path : string) : prog string :=
  request (λ m, match files m !! path with
                | Some bytes => (m, Ok (text_of bytes))
                | None =>
                    (m, uncaught ("FileNotFoundError: [Errno 2] No such file or directory: "
                                  +:+ py.repr path))
                end).

(** [path.write_text(data, encoding="utf-8")]: the open for writing,
    which empties the file, and then the write; each of the two may
    raise. *)
Definition write_text (path data : string) : prog unit :=
  request (perform (OpenTruncate path));;
  request (perform (WriteData path data)).

Definition when (b : bool) (p : prog unit) : prog unit :=
  if b then p else mret ().

Fixpoint for_each {A} (l : list A) (body : A → prog unit) : prog unit :=
  match l with
  | [] => mret ()
  | x :: l' => body x;; for_each l' body
  end.

(** *** CLI entry-point *)

Record args := mkArgs {
  arg_mods_txt : string;
  arg_workshop_root : WorkshopRoot;
  arg_ini : string;
  arg_public_name : string
}.

Definition print_conflicts (tiledef_conflicts : gmap Z (list string))
    (map_coord_conflicts : gmap (Z * Z) (list string)) : prog unit :=
  if bool_decide (tiledef_conflicts ≠ ∅) || bool_decide (map_coord_conflicts ≠ ∅) then
    when (bool_decide (tiledef_conflicts ≠ ∅))
      (print ("WARNING: " +:+ py.str_nat (size tiledef_conflicts)
              +:+ " tiledef fileNumber conflict(s) detected:");;
       for_each (sorted_by Z.leb id (elements (dom tiledef_conflicts)))
         (λ num, print ("  fileNumber " +:+ py.str_Z num +:+ ": "
                        +:+ py.join ", " (tiledef_conflicts !!! num))));;
    when (bool_decide (map_coord_conflicts ≠ ∅))
      (let sample :=
         take 10 (sorted_by (λ a b : Z * Z,
                               Z.ltb a.1 b.1 || (Z.eqb a.1 b.1 && Z.leb a.2 b.2))
                            fst (map_to_list map_coord_conflicts)) in
       print ("WARNING: " +:+ py.str_nat (size map_coord_conflicts)
              +:+ " map chunk coordinate conflict(s) detected:");;
       for_each sample
         (λ '((cx, cy), mods),
            print ("  (" +:+ py.str_Z cx +:+ "," +:+ py.str_Z cy +:+ "): "
                   +:+ py.join ", " mods));;
       when (bool_decide (10 < size map_coord_conflicts))
         (print ("  ... and " +:+ py.str_nat (size map_coord_conflicts - 10)
                 +:+ " more")));;
    print "WARNING: Continuing despite map conflicts — resolve before production use."
  else print "Map conflict checks:  OK".

(** [main()] from the return of [ap.parse_args()] with the arguments
    [a]; the outer [option] is that of [ensure_topological_order]. *)
Definition main (a : args) : machine → option (machine * result unit) := λ m0,
  let before_sort : prog (list string * list string * list string
                          * gmap string (list string) * gmap string (list string)) :=
    ex ← path_exists (arg_mods_txt a);
    when (negb ex) (fatal ("mods.txt not found: " +:+ arg_mods_txt a));;
    ex ← path_exists (arg_ini a);
    when (negb ex) (fatal ("default.ini not found: " +:+ arg_ini a));;
    text ← read_text (arg_mods_txt a);
    let '(workshop_ids, mod_ids) := parse_mods_txt text in
    when (bool_decide (workshop_ids = []))
      (fatal "mods.txt contains no 'Workshop ID:' lines.");;
    when (bool_decide (mod_ids = []))
      (fatal "mods.txt contains no 'Mod ID:' lines.");;
    print ("mods.txt: " +:+ py.str_nat (length workshop_ids) +:+ " workshop IDs, "
           +:+ py.str_nat (length mod_ids) +:+ " mod IDs");;
    '(requires_map, workshop_to_mods) ←
      traverse (collect_mod_info (arg_workshop_root a) workshop_ids);
    print ("mod.info: loaded metadata for " +:+ py.str_nat (size requires_map)
           +:+ " mod(s) across " +:+ py.str_nat (size workshop_to_mods)
           +:+ " workshop item(s) on disk");;
    tiledef_conflicts ←
      traverse (check_tiledef_conflicts (arg_workshop_root a) workshop_ids);
    map_coord_conflicts ←
      traverse (check_map_coord_conflicts (arg_workshop_root a) workshop_ids);
    print_conflicts tiledef_conflicts map_coord_conflicts;;
    workshop_maps ←
      traverse (collect_workshop_maps (arg_workshop_root a) workshop_ids
                  (list_to_set mod_ids));
    let vanilla_maps := filter (λ v, v ∉ workshop_maps) VANILLA_MAPS in
    let all_maps := workshop_maps ++ vanilla_maps in
    print ("Map= will contain " +:+ py.str_nat (length all_maps) +:+ " maps ("
           +:+ py.str_nat (length workshop_maps) +:+ " from mods, "
           +:+ py.str_nat (length vanilla_maps) +:+ " vanilla)");;
    mret (workshop_ids, mod_ids, all_maps, requires_map, workshop_to_mods) in
  match before_sort m0 with
  | (m, Exit c e) => Some (m, Exit c e)
  | (m, Ok (workshop_ids, mod_ids, all_maps, requires_map, workshop_to_mods)) =>
      sorted ← ensure_topological_order mod_ids requires_map;
      Some ((
        '(mod_ids, reorder_notes) ← lift sorted;
        (if bool_decide (reorder_notes ≠ []) then
           print ("WARNING: mods.txt order violated "
                  +:+ py.str_nat (length reorder_notes) +:+ " dependency "
                  +:+ "constraint(s) — auto-sorted (stable). Reordered mods:");;
           for_each reorder_notes print;;
           print "Update mods.txt to match this order to suppress this warning."
         else print "Topological order: OK (stable)");;
        text ← read_text (arg_mods_txt a);
        let '((changed, val_warnings), written) :=
          rewrite_mods_txt text workshop_ids mod_ids workshop_to_mods in
        match written with
        | Some text' => write_text (arg_mods_txt a) text'
        | None => mret ()
        end;;
        when (bool_decide (val_warnings ≠ []))
          (print ("WARNING: " +:+ py.str_nat (length val_warnings)
                  +:+ " workshop block(s) have no Mod IDs "
                  +:+ "and are not yet in the cache (not downloaded?):");;
           for_each val_warnings print);;
        '(workshop_ids, mod_ids) ←
          (if changed then
             text ← read_text (arg_mods_txt a);
             print "Rewrote mods.txt";;
             mret (parse_mods_txt text)
           else mret (workshop_ids, mod_ids));
        let mods_csv := py.join ";" ((λ m, "\" +:+ m) <$> mod_ids) in
        let workshop_csv := py.join ";" workshop_ids in
        original ← read_text (arg_ini a);
        write_text (arg_ini a) (update_ini original mods_csv workshop_csv);;
        print ("Updated " +:+ arg_ini a +:+ ": Mods=("
               +:+ py.str_nat (length mod_ids) +:+ " entries), WorkshopItems=("
               +:+ py.str_nat (length workshop_ids) +:+ " entries)");;
        let map_csv := py.join ";" all_maps in
        original ← read_text (arg_ini a);
        write_text (arg_ini a) (update_map_line original map_csv);;
        print ("Updated Map=: " +:+ py.str_nat (length all_maps) +:+ " entries");;
        when (bool_decide (arg_public_name a ≠ ""))
          (original ← read_text (arg_ini a);
           write_text (arg_ini a) (update_public_name original (arg_public_name a));;
           print ("Set PublicName=" +:+ arg_public_name a))
      ) m)
  end.

(** [main()] from its first line.  [ap.parse_args()] returns the
    arguments or ends the process itself (exit status 2 with the usage
    on stderr for a usage error); [parsed] is what it does. *)
Definition main_from_argv (parsed : result args)
    : machine → option (machine * result unit) := λ m0,
  match parsed with
  | Ok a => main a m0
  | Exit c e => Some (m0, Exit c e)
  end.

End process_mods.


(** ** init/update_server_ini.py *)

Module update_server_ini.

Definition _is_continuation_line (s : string) : bool :=
  let s := py.rstrip_crlf s in
  bool_decide (s ≠ "") && negb (py.startswith s "#")
  && negb (process_mods.looks_like_key s).

(** The variables of the loop of [rewrite_ini_keys]. *)
Record keys_state := mkKeys {
  out_lines : list string;
  wrote_mods : bool;
  wrote_workshop : bool;
  wrote_map : bool;
  skipping : bool
}.

Definition rewrite_ini_keys_step (mods_csv workshop_csv : string)
    (map_csv : option string) (st : keys_state) (raw : string) : keys_state :=
  let stripped := py.rstrip_crlf raw in
  if skipping st && _is_continuation_line stripped then st
  else if process_mods.matches_key "mods" stripped then
    mkKeys (out_lines st ++ [process_mods.key_line "Mods" mods_csv])
           true (wrote_workshop st) (wrote_map st) true
  else if process_mods.matches_key "workshopitems" stripped then
    mkKeys (out_lines st ++ [process_mods.key_line "WorkshopItems" workshop_csv])
           (wrote_mods st) true (wrote_map st) true
  else match map_csv with
  | Some csv =>
      if process_mods.matches_key "map" stripped then
        mkKeys (out_lines st ++ [process_mods.key_line "Map" csv])
               (wrote_mods st) (wrote_workshop st) true true
      else mkKeys (out_lines st ++ [raw]) (wrote_mods st) (wrote_workshop st)
                  (wrote_map st) false
  | None =>
      mkKeys (out_lines st ++ [raw]) (wrote_mods st) (wrote_workshop st)
             (wrote_map st) false
  end.

(** [rewrite_ini_keys(ini_path, mods_csv=, workshop_csv=, map_csv=)]:
    the text written for the text read. *)
Definition rewrite_ini_keys (original mods_csv workshop_csv : string)
    (map_csv : option string) : string :=
  let original := py.strip_nul original in
  let st := foldl (rewrite_ini_keys_step mods_csv workshop_csv map_csv)
                  (mkKeys [] false false false false)
                  (py.splitlines_keepends original) in
  py.concat (out_lines st
             ++ (if wrote_mods st then []
                 else [process_mods.key_line "Mods" mods_csv])
             ++ (if wrote_workshop st then []
                 else [process_mods.key_line "WorkshopItems" workshop_csv])
             ++ (match map_csv with
                 | Some csv => if wrote_map st then []
                               else [process_mods.key_line "Map" csv]
                 | None => []
                 end)).


(** The file operations of [rewrite_ini_keys] on [ini_path]. *)
Definition rewrite_ini_keys_ops (ini_path original mods_csv workshop_csv : string)
    (map_csv : option string) : list fs_op :=
  write_text_ops ini_path (rewrite_ini_keys original mods_csv workshop_csv map_csv).

(** [while s.startswith("\\"): s = s[1:]] *)
Definition strip_backslashes (s : string) : string :=
  py.drop_while (λ c, bool_decide (c = "\"%char)) s.

(** The body of the loop of [mod_ids_to_pz_mods_csv]: what is appended
    to [norm] for the mod ID [m], if anything. *)
Definition normalized (m : string) : option string :=
  let s := py.strip m in
  if bool_decide (s = "") then None else Some (strip_backslashes s).

(** [mod_ids_to_pz_mods_csv(mod_ids)], the mod IDs being strings. *)
Definition mod_ids_to_pz_mods_csv (mod_ids : list string) : string :=
  let norm := omap normalized mod_ids in
  py.join ";" ((λ m, "\" +:+ m) <$> norm).

End update_server_ini.

(** ** init/update_server_ini_map.py *)

Module update_server_ini_map.

(** [_fatal(msg)]: print on stderr and [raise SystemExit(2)]. *)
Definition _fatal {A} (msg : string) : result A :=
  Exit 2%Z ("ERROR: " +:+ msg).

Definition rewrite_ini_map_key_step (map_csv : string)
    (st : list string * bool * bool) (raw : string) : list string * bool * bool :=
  let '(out_lines, wrote_map, skipping) := st in
  let stripped := py.rstrip_crlf raw in
  if skipping && update_server_ini._is_continuation_line stripped then st
  else if process_mods.matches_key "map" stripped
  then (out_lines ++ [process_mods.key_line "Map" map_csv], true, true)
  else (out_lines ++ [raw], wrote_map, false).

(** [rewrite_ini_map_key(ini_path, map_csv=)]: the text written for the
    text read. *)
Definition rewrite_ini_map_key (original map_csv : string) : string :=
  let original := py.strip_nul original in
  let '(out_lines, wrote_map, _) :=
    foldl (rewrite_ini_map_key_step map_csv) ([], false, false)
          (py.splitlines_keepends original) in
  py.concat (out_lines
             ++ (if wrote_map then [] else [process_mods.key_line "Map" map_csv])).

(** A discovered map folder, with the names of the files that
    [_iter_lotheaders(map_dir)] yields. *)
Record MapSource := mkMapSource {
  workshop_id : string;
  map_name : string;
  map_dir : string;
  lotheaders : list string
}.

Record MapCellClaim := mkMapCellClaim {
  claim_map_name : string;
  claim_workshop_id : string;
  cell_x : Z;
  cell_y : Z;
  source_file : string
}.

(** A group [(-?\d+)] at the start of [s]: its integer and the rest. *)
Definition signed_int (s : string) : option (Z * string) :=
  let '(neg, r) := match py.after_prefix "-" s with
                   | Some r => (true, r)
                   | None => (false, s)
                   end in
  let digits := py.take_while py.isdigit r in
  if bool_decide (digits = "") then None
  else Some (if neg then (- py.int_of_digits digits)%Z else py.int_of_digits digits,
             py.drop_while py.isdigit r).

(** [_LOTHEADER_RE.match(name)], giving [(int(x), int(y))]. *)
Definition match_lotheader (name : string) : option (Z * Z) :=
  '(x, r) ← signed_int name;
  r ← py.after_prefix "_" r;
  '(y, r) ← signed_int r;
  if bool_decide (py.lower r = ".lotheader") then Some (x, y) else None.

Definition discover_cell_claims (map_sources : list MapSource) : list MapCellClaim :=
  src ← map_sources;
  omap (λ lh, '(cx, cy) ← match_lotheader lh;
              Some (mkMapCellClaim (map_name src) (workshop_id src) cx cy
                                   (map_dir src +:+ "/" +:+ lh)))
       (lotheaders src).

Definition cell_le (a b : Z * Z) : bool :=
  Z.ltb a.1 b.1 || (Z.eqb a.1 b.1 && Z.leb a.2 b.2).

Definition claim_key_le (a b : string * string * string) : bool :=
  String.ltb a.1.1 b.1.1
  || (bool_decide (a.1.1 = b.1.1)
      && (String.ltb a.1.2 b.1.2
          || (bool_decide (a.1.2 = b.1.2) && String.leb a.2 b.2))).

(** The cells claimed by more than one [(map_name, workshop_id)], each
    with its claims, ascending by cell. *)
Definition overlaps (map_sources : list MapSource)
    : list ((Z * Z) * list MapCellClaim) :=
  let by_cell : gmap (Z * Z) (list MapCellClaim) :=
    foldl (λ by_cell c,
             <[(cell_x c, cell_y c) :=
                 default [] (by_cell !! (cell_x c, cell_y c)) ++ [c]]> by_cell)
          ∅ (discover_cell_claims map_sources) in
  process_mods.sorted_by cell_le fst
    (filter (λ '(_, cs),
               1 < size (list_to_set
                           ((λ x, (claim_map_name x, claim_workshop_id x)) <$> cs)
                         : gset (string * string)))
            (map_to_list by_cell)).

Definition overlap_message (overlaps_sorted : list ((Z * Z) * list MapCellClaim))
    : string :=
  let max_cells := 50 in
  py.join "
" (["map overlap conflicts detected (multiple maps claim the same cell via .lotheader):"]
    ++ ('(cell, cs) ← take max_cells overlaps_sorted;
        ("- cell " +:+ py.str_Z cell.1 +:+ "_" +:+ py.str_Z cell.2 +:+ " has "
         +:+ py.str_nat (length cs) +:+ " claims:")
        :: ((λ c, "    map=" +:+ claim_map_name c +:+ " workshop_id="
                  +:+ claim_workshop_id c +:+ " file=" +:+ source_file c)
              <$> process_mods.sorted_by claim_key_le
                    (λ z, (py.lower (claim_map_name z), claim_workshop_id z,
                           source_file z)) cs))
    ++ (if bool_decide (max_cells < length overlaps_sorted)
        then ["... plus " +:+ py.str_nat (length overlaps_sorted - max_cells)
              +:+ " more overlapping cells"]
        else [])).

(** [detect_conflicts(map_sources)] *)
Definition detect_conflicts (map_sources : list MapSource) : result unit :=
  let overlaps := overlaps map_sources in
  if bool_decide (overlaps ≠ []) then _fatal (overlap_message overlaps)
  else Ok ().

(** [_unique_preserve_order(items)] *)
Definition _unique_preserve_order (items : list string) : list string :=
  (foldl (λ '(out, seen) x,
            let s := py.strip x in
            if bool_decide (s = "") || bool_decide (s ∈ seen) then (out, seen)
            else (out ++ [s], seen ∪ {[s]}))
         ([], (∅ : gset string)) items).1.

(** [order_maps(map_sources, base_map=, workshop_ids_in_order=)] *)
Definition order_maps (map_sources : list MapSource) (base_map : string)
    (workshop_ids_in_order : list string) : list string :=
  let per_mod : gmap string (list string) :=
    foldl (λ per_mod src,
             <[workshop_id src :=
                 default [] (per_mod !! workshop_id src) ++ [map_name src]]> per_mod)
          ∅ map_sources in
  _unique_preserve_order
    (base_map :: (wid ← workshop_ids_in_order; default [] (per_mod !! wid))).

(** [main] from the conflict detection on, for a run without
    [--spawnregions-out]: the scan result [map_sources] and the enabled
    [workshop_ids] are given; the result is the list of file operations
    performed. *)
Definition main_after_scan (ini_path original base_map : string) (require_map : bool)
    (workshop_ids : list string) (map_sources : list MapSource)
    : result (list fs_op) :=
  detect_conflicts map_sources;;
  (if require_map && bool_decide (map_sources = [])
   then _fatal "no map folders discovered under media/maps for enabled workshop items"
   else Ok ());;
  let map_names_ordered := order_maps map_sources base_map workshop_ids in
  let map_csv := py.join ";" map_names_ordered in
  Ok (write_text_ops ini_path (rewrite_ini_map_key original map_csv)).

End update_server_ini_map.

(** ** init/cleanup.py *)

Module cleanup.

(** [save_json(path, data)]: the file operations, [json_text] being
    what [json.dump(data, fh, indent=2, sort_keys=False)] writes.
    [path.with_suffix(path.suffix + ".tmp")] appends [".tmp"] to the
    file name. *)
Definition save_json (path json_text : string) : list fs_op :=
  let tmp := path +:+ ".tmp" in
  [OpenTruncate tmp; WriteData tmp json_text; WriteData tmp "
"; Replace tmp path].

(** What an entry of the workshop content root is, as far as the
    target of a symlink depends on it.  A directory is whole, or damaged
    by a [shutil.rmtree] that raised after removing a part of it. *)
Inductive Kind :=
  | IsDirectory (undamaged : bool)
  | IsFile
  | IsSymlink
  | IsSpecial.

(** An entry of the workshop content root.  What [is_dir()] and
    [is_file()] answer for a symlink depends on its target, and so on
    the other entries of the content root: [link_is_dir present] and
    [link_is_file present] are the answers when [present] gives the
    entries that are there, by name. *)
Inductive Entry :=
  | Directory (undamaged : bool)
  | RegularFile
  | Symlink (link_is_dir link_is_file : gmap string Kind → bool)
  | Special.

(** The workshop content root: [None] when it is not a directory, else
    its entries by name. *)
Definition ContentRoot := option (gmap string Entry).

Definition kind_of (e : Entry) : Kind :=
  match e with
  | Directory undamaged => IsDirectory undamaged
  | RegularFile => IsFile
  | Symlink _ _ => IsSymlink
  | Special => IsSpecial
  end.

(** The entries that are there, by name. *)
Definition present_entries (entries : gmap string Entry) : gmap string Kind :=
  kind_of <$> entries.

(** [p.is_dir()], [p.is_symlink()] and [p.is_file()] for an entry of
    the content root that holds [entries]. *)
Definition entry_is_dir (entries : gmap string Entry) (e : Entry) : bool :=
  match e with
  | Directory _ => true
  | Symlink link_is_dir _ => link_is_dir (present_entries entries)
  | RegularFile | Special => false
  end.

Definition entry_is_symlink (e : Entry) : bool :=
  match e with
  | Symlink _ _ => true
  | _ => false
  end.

Definition entry_is_file (entries : gmap string Entry) (e : Entry) : bool :=
  match e with
  | RegularFile => true
  | Symlink _ link_is_file => link_is_file (present_entries entries)
  | Directory _ | Special => false
  end.

(** [p.is_dir() or p.is_symlink()] *)
Definition is_item_dir (e : Entry) : bool :=
  match e with
  | Directory _ | Symlink _ _ => true
  | RegularFile | Special => false
  end.

(** [list_item_dirs(content_root)]: the names of the paths returned, in
    the order [iterdir] yields the entries. *)
Definition list_item_dirs (content_root : ContentRoot) : list string :=
  match content_root with
  | None => []
  | Some entries => (filter (λ kv, is_item_dir kv.2 = true) (map_to_list entries)).*1
  end.

(** The variables of the loop of [prune_workshop_dirs] and the entries
    left in the content root. *)
Record prune_state := mkPrune {
  pruned : list string;
  kept : list string;
  entries : gmap string Entry
}.

(** What removing the entry [e] named [item_id] leaves: [unlink] for a
    symlink or a file and [shutil.rmtree] for a directory.  [removable]
    tells for which items the call ends without an exception; an
    exception is caught and reported, the entry stays, and a directory
    is then damaged. *)
Definition remove_item (removable : string → bool) (item_id : string) (e : Entry)
    (entries : gmap string Entry) : gmap string Entry :=
  if removable item_id then delete item_id entries
  else match e with
       | Directory _ => <[item_id := Directory false]> entries
       | _ => entries
       end.

(** The body of the loop of [prune_workshop_dirs] for one item. *)
Definition prune_item (removable : string → bool) (keep_ids : gset string)
    (dry_run : bool) (st : prune_state) (item_id : string) : prune_state :=
  if bool_decide (item_id ∈ keep_ids)
  then mkPrune (pruned st) (kept st ++ [item_id]) (entries st)
  else match entries st !! item_id with
  | Some e =>
      if is_item_dir e then
        mkPrune (pruned st ++ [item_id]) (kept st)
                (if dry_run then entries st
                 else remove_item removable item_id e (entries st))
      else st
  | None => st
  end.

(** [prune_workshop_dirs(content_root=, keep_ids=, dry_run=)]: the
    returned pair [(pruned, kept)] and the content root it leaves. *)
Definition prune_workshop_dirs (removable : string → bool) (content_root : ContentRoot)
    (keep_ids : gset string) (dry_run : bool)
    : (list string * list string) * ContentRoot :=
  let st :=
    foldl (prune_item removable keep_ids dry_run)
          (mkPrune [] [] (default ∅ content_root))
          (process_mods.sorted_by String.leb id (list_item_dirs content_root)) in
  ((pruned st, kept st), (λ _, entries st) <$> content_root).

(** [verify_workshop_dirs(content_root, desired_ids)] *)
Definition verify_workshop_dirs (content_root : ContentRoot)
    (desired_ids : list string) : list string :=
  filter (λ wid, match content_root with
                 | Some entries =>
                     default false (entry_is_dir entries <$> entries !! wid)
                 | None => false
                 end = false)
         desired_ids.

End cleanup.

Import process_mods.

(** * Notions used to state the properties *)

(** The prerequisites [requires_map.get(mod_id, [])] declares. *)
Definition declared (requires_map : gmap string (list string)) (mod_id : string)
    : list string :=
  default [] (requires_map !! mod_id).

(** The declared prerequisites whose own metadata is known. *)
Definition known_prereqs (requires_map : gmap string (list string)) (mod_id : string)
    : gset string :=
  list_to_set (filter (λ dep, dep ∈ dom requires_map) (declared requires_map mod_id)).

(** [d] requires [p], both are listed, and the metadata of [p] is known. *)
Definition effective_edge (mod_ids : list string)
    (requires_map : gmap string (list string)) (d p : string) : Prop :=
  d ∈ mod_ids ∧ p ∈ mod_ids ∧ p ∈ declared requires_map d ∧ p ∈ dom requires_map.

(** [x] is listed and declares [y], whose metadata is known, but [y] is
    not listed. *)
Definition missing_dependency (mod_ids : list string)
    (requires_map : gmap string (list string)) (x y : string) : Prop :=
  x ∈ mod_ids ∧ y ∈ declared requires_map x ∧ y ∈ dom requires_map ∧ y ∉ mod_ids.

(** [(x, y)] is the first missing dependency that the two loops of the
    edge construction meet. *)
Definition first_missing_dependency (mod_ids : list string)
    (requires_map : gmap string (list string)) (x y : string) : Prop :=
  ∃ done_mods rest before after,
    mod_ids = done_mods ++ x :: rest
    ∧ declared requires_map x = before ++ y :: after
    ∧ (∀ x' d, x' ∈ done_mods → ¬ missing_dependency mod_ids requires_map x' d)
    ∧ (∀ d, d ∈ before → d ∈ dom requires_map → d ∈ mod_ids)
    ∧ y ∈ dom requires_map ∧ y ∉ mod_ids.

(** Every element of [result] comes after all its prerequisites. *)
Definition prereqs_first (prereqs : gmap string (gset string)) (result : list string)
    : Prop :=
  ∀ i x, result !! i = Some x → prereqs !!! x ⊆ list_to_set (take i result).

(** The invariant of the elimination loop. *)
Record kahn_inv (mod_ids : list string) (prereqs : gmap string (gset string))
    (in_degree : gmap string Z) (heap : list (nat * string))
    (result : list string) : Prop := {
  inv_nodup : NoDup result;
  inv_listed : ∀ x, x ∈ result → x ∈ mod_ids;
  inv_degree : ∀ x, x ∈ mod_ids →
    in_degree !!! x = Z.of_nat (size (prereqs !!! x ∖ list_to_set result));
  inv_heap_nodup : NoDup heap.*2;
  inv_heap : ∀ x, x ∈ heap.*2 ↔ x ∈ mod_ids ∧ (x ∉ result) ∧ in_degree !!! x = 0%Z;
  inv_order : prereqs_first prereqs result
}.

(** The message [msg] names [s]: the text of [s] occurs in it. *)
Definition names (msg s : string) : Prop :=
  ∃ pre post, msg = pre +:+ s +:+ post.

(** The test for [names]. *)
Fixpoint occurs (s msg : string) : bool :=
  bool_decide (is_Some (py.after_prefix s msg))
  || match msg with
     | "" => false
     | String _ msg' => occurs s msg'
     end.

(** * Inputs of the examples *)

(** A chain: A requires B, B requires C. *)
Definition chain_requires : gmap string (list string) :=
  py.dict_of [("A", ["B"]); ("B", ["C"]); ("C", [])].

(** A three-node cycle: A requires B, B requires C, C requires A. *)
Definition cycle_requires : gmap string (list string) :=
  py.dict_of [("A", ["B"]); ("B", ["C"]); ("C", ["A"])].

(** X requires Y; the metadata of both is known. *)
Definition x_requires_y : gmap string (list string) :=
  py.dict_of [("X", ["Y"]); ("Y", [])].

(** ModA requires LibB and ModC requires LibD; all four are known. *)
Definition two_requirements : gmap string (list string) :=
  py.dict_of [("ModA", ["LibB"]); ("ModC", ["LibD"]); ("LibB", []); ("LibD", [])].

(** * Notions for the parser and the conflict detectors *)

(** A list with only the first occurrence of each element kept. *)
Fixpoint first_occurrences (l : list string) : list string :=
  match l with
  | [] => []
  | x :: l' => x :: filter (λ y, y ≠ x) (first_occurrences l')
  end.

(** The labels of the workshop items of [workshop_ids], in that order,
    that are directories under [workshop_root] and claim the value [v]. *)
Definition claimants {V} `{EqDecision V} (claims : ItemDir → list V)
    (workshop_root : gmap string ItemDir) (workshop_ids : list string) (v : V)
    : list string :=
  omap (λ wid, item ← workshop_root !! wid;
               if decide (v ∈ claims item) then Some (_mod_label_for_dir item)
               else None) workshop_ids.

(** Two workshop items that both hold the lotheader of cell (5,7); the
    first one holds it twice and declares tiledef number 100 in two
    mod.info files, the second one declares it once. *)
Definition two_item_root : gmap string ItemDir :=
  py.dict_of
    [("111", mkItemDir "111"
               [mkModInfoFile ["mods"; "A"; "42"; "mod.info"] "name=Mod A
id=ModA
tiledef=packA 100
" [];
                mkModInfoFile ["mods"; "A"; "common"; "mod.info"] "id=ModA
tiledef=packA 100
tiledef=packA 101
" []]
               ["5_7.lotheader"; "05_007.lotheader"; "1_2.lotheader"]);
     ("222", mkItemDir "222"
               [mkModInfoFile ["mods"; "B"; "mod.info"] "id=LibB
tiledef=packX 100
" []]
               ["5_7.lotheader"])].

(** * Notions for the configuration rewriters *)

(** [rewritten target cont lines out]: [out] is [lines] with every line
    that [target] maps to a new line replaced by that one line, the
    continuation lines ([cont]) that immediately follow it left out, and
    every other line kept as it is, in place. *)
Inductive rewritten (target : string → option string) (cont : string → bool)
    : list string → list string → Prop :=
  | rewritten_nil : rewritten target cont [] []
  | rewritten_keep line lines out :
      target (py.rstrip_crlf line) = None →
      rewritten target cont lines out →
      rewritten target cont (line :: lines) (line :: out)
  | rewritten_key line new conts lines out :
      target (py.rstrip_crlf line) = Some new →
      Forall (λ l, cont (py.rstrip_crlf l) = true) conts →
      (∀ l, head lines = Some l → cont (py.rstrip_crlf l) = false) →
      rewritten target cont lines out →
      rewritten target cont (line :: conts ++ lines) (new :: out).

(** The replacement lines of [update_ini]. *)
Definition update_ini_target (mods_csv workshop_csv stripped : string) : option string :=
  if matches_key "mods" stripped then Some (key_line "Mods" mods_csv)
  else if matches_key "workshopitems" stripped
  then Some (key_line "WorkshopItems" workshop_csv)
  else None.

(** The replacement lines of [rewrite_ini_keys]. *)
Definition rewrite_ini_keys_target (mods_csv workshop_csv : string)
    (map_csv : option string) (stripped : string) : option string :=
  if matches_key "mods" stripped then Some (key_line "Mods" mods_csv)
  else if matches_key "workshopitems" stripped
  then Some (key_line "WorkshopItems" workshop_csv)
  else match map_csv with
       | Some csv => if matches_key "map" stripped then Some (key_line "Map" csv)
                     else None
       | None => None
       end.

(** Some line of the document assigns [key]. *)
Definition has_key (key : string) (lines : list string) : bool :=
  existsb (λ raw, matches_key key (py.rstrip_crlf raw)) lines.

(** The loop shared by the rewriters, on the output lines and the skip
    flag alone. *)
Definition scan_step (target : string → option string) (cont : string → bool)
    (st : list string * bool) (raw : string) : list string * bool :=
  let stripped := py.rstrip_crlf raw in
  if st.2 && cont stripped then st
  else match target stripped with
       | Some new => (st.1 ++ [new], true)
       | None => (st.1 ++ [raw], false)
       end.

(** The keys are words of letters. *)
Fixpoint all_alpha (key : string) : bool :=
  match key with
  | "" => true
  | String k key' => py.isalpha k && all_alpha key'
  end.

(** * Notions for the file operations *)

(** A sequence of file operations is atomic on [path] when a process
    stopped at any point of it leaves [path] either as it was or as the
    whole sequence leaves it. *)
Definition atomic_on (files : gmap string string) (ops : list fs_op) (path : string)
    : Prop :=
  ∀ n, interrupted files ops n !! path = files !! path
       ∨ interrupted files ops n !! path = foldl apply_op files ops !! path.

(** The operation renames one path over another. *)
Definition is_replace (op : fs_op) : bool :=
  match op with
  | Replace _ _ => true
  | _ => false
  end.

(** A server INI with one setting. *)
Definition one_setting_ini : gmap string string :=
  {[ "default.ini" := "Port=16261
" ]}.

(** * Worlds of the pipeline examples *)

(** mods.txt listing the two workshop items of the examples. *)
Definition two_item_mods_txt : string :=
  "Workshop ID: 111
Mod ID: ModA
---
Workshop ID: 222
Mod ID: LibB
---
".

Definition two_item_files : gmap string string :=
  py.dict_of [("mods.txt", two_item_mods_txt); ("default.ini", "Mods=
Map=Muldraugh, KY
")].

(** Both items hold the lotheader of cell (5,7); neither declares a
    tiledef. *)
Definition coord_conflict_root : gmap string ItemDir :=
  py.dict_of
    [("111", mkItemDir "111" [mkModInfoFile ["mod.info"] "name=Mod A
id=ModA
" []] ["5_7.lotheader"]);
     ("222", mkItemDir "222" [mkModInfoFile ["mod.info"] "id=LibB
" []] ["5_7.lotheader"])].

(** Both items declare tiledef number 100; neither holds a lotheader. *)
Definition tiledef_conflict_root : gmap string ItemDir :=
  py.dict_of
    [("111", mkItemDir "111" [mkModInfoFile ["mod.info"] "name=Mod A
id=ModA
tiledef=packA 100
" []] []);
     ("222", mkItemDir "222" [mkModInfoFile ["mod.info"] "id=LibB
tiledef=packB 100
" []] [])].

(** The same overlap as the map scan of [update_server_ini_map] sees it. *)
Definition overlapping_map_sources : list update_server_ini_map.MapSource :=
  [update_server_ini_map.mkMapSource "111" "MapA" "/w/111/media/maps/MapA"
     ["5_7.lotheader"];
   update_server_ini_map.mkMapSource "222" "MapB" "/w/222/media/maps/MapB"
     ["5_7.lotheader"]].

(** What a run leaves of its machine: the lines printed, the file
    operations, and the outcome. *)
Definition observe (run : option (machine * result unit))
    : option (list string * list fs_op * result unit) :=
  '(m, r) ← run; Some (stdout m, ops m, r).

(** A second run on the files the first run left. *)
Definition run_twice (a : args) (m0 : machine) : option (machine * result unit) :=
  '(m1, _) ← main a m0; main a (mkMachine (files m1) [] []).

(** mods.txt with one block whose workshop item is not downloaded. *)
Definition not_downloaded_mods_txt : string :=
  "Workshop ID: 1
Mod ID: a
---
".

Definition not_downloaded_files : gmap string string :=
  py.dict_of [("mods.txt", not_downloaded_mods_txt); ("default.ini", "Mods=
")].

(** Tactics for statements about concrete inputs. *)

Ltac by_computation := apply (bool_decide_unpack _); vm_compute; exact I.

Ltac effective_edge_holds :=
  unfold effective_edge; repeat split; by_computation.


(** * Notions for the further properties *)

(** A string is empty or starts with a character outside [p]. *)
Definition head_not (p : ascii → bool) (s : string) : Prop :=
  match s with
  | "" => True
  | String c _ => p c = false
  end.

(** An identifier as the writers take it: not empty and without
    surrounding whitespace. *)
Definition stripped_id (s : string) : Prop := s ≠ "" ∧ py.strip s = s.

(** The cell and the claimant of a lotheader claim. *)
Definition claim_cell (c : update_server_ini_map.MapCellClaim) : Z * Z :=
  (update_server_ini_map.cell_x c, update_server_ini_map.cell_y c).

Definition claim_owner (c : update_server_ini_map.MapCellClaim) : string * string :=
  (update_server_ini_map.claim_map_name c, update_server_ini_map.claim_workshop_id c).

(** The map source holds a lotheader file that names the cell. *)
Definition source_claims (src : update_server_ini_map.MapSource) (cell : Z * Z) : Prop :=
  ∃ lh, lh ∈ update_server_ini_map.lotheaders src
        ∧ update_server_ini_map.match_lotheader lh = Some cell.

Definition source_owner (src : update_server_ini_map.MapSource) : string * string :=
  (update_server_ini_map.map_name src, update_server_ini_map.workshop_id src).

(** A step of a run that writes no file: it leaves the files, the list
    of file operations and the environment as they are, and ends with a
    value that satisfies [Q] or exits with code 1. *)
Definition quiet {A} (p : prog A) (m : machine) (Q : A → Prop) : Prop :=
  match p m with
  | (m', Ok a) =>
      files m' = files m ∧ ops m' = ops m ∧ io_errors m' = io_errors m ∧ Q a
  | (m', Exit c e) => c = 1%Z ∧ files m' = files m ∧ ops m' = ops m
  end.

(** The process ended with the traceback of an exception that a request
    to the file system raised. *)
Definition raised (m : machine) (e : string) : Prop :=
  ∃ n exc, io_errors m n = Some exc ∧ e = traceback exc.

(** A step of a run, started with the files [paths] in place, that ends
    early only when a request to the file system raises; it leaves the
    files in place. *)
Definition guarded (paths : list string) {A} (p : prog A) : Prop :=
  ∀ m, Forall (λ path, is_Some (files m !! path)) paths →
    match p m with
    | (m', Ok _) =>
        Forall (λ path, is_Some (files m' !! path)) paths
        ∧ io_errors m' = io_errors m
    | (m', Exit c e) => c = 1%Z ∧ raised m e
    end.

(** Every character of [s] satisfies [p]. *)
Fixpoint all_chars (p : ascii → bool) (s : string) : bool :=
  match s with
  | "" => true
  | String c s' => p c && all_chars p s'
  end.

(** The characters at which a text-mode file object ends a line. *)
Definition is_newline (c : ascii) : bool :=
  bool_decide (c = "010"%char) || bool_decide (c = "013"%char).

(** A piece of text within one line. *)
Definition one_line (s : string) : Prop := all_chars (λ c, negb (is_newline c)) s = true.

(** A workshop ID as the parser reads it: a non-empty run of characters
    that are not whitespace. *)
Definition workshop_token (s : string) : Prop :=
  s ≠ "" ∧ all_chars (λ c, negb (py.isspace c)) s = true.

(** A mod ID as the parser reads it: not empty, within one line, without
    surrounding whitespace. *)
Definition mod_token (s : string) : Prop := stripped_id s ∧ one_line s.

(** The blocks that [rewrite_mods_txt] writes for [workshop_ids]. *)
Definition written_blocks (workshop_ids : list string)
    (new_groups : gmap string (list string)) : list ModBlock :=
  (λ wid, mkModBlock wid (default [] (new_groups !! wid))) <$> workshop_ids.

(** What [prune_workshop_dirs] leaves of an entry named [k]: an item
    directory outside [keep_ids] is removed, unless the run is a dry run;
    when the removal raises, the entry stays, a directory damaged. *)
Definition after_prune (removable : string → bool) (keep_ids : gset string)
    (dry_run : bool) (k : string) (e : cleanup.Entry) : option cleanup.Entry :=
  if cleanup.is_item_dir e && bool_decide (k ∉ keep_ids) && negb dry_run
  then if removable k then None
       else Some (match e with
                  | cleanup.Directory _ => cleanup.Directory false
                  | _ => e
                  end)
  else Some e.

(** A content root in which the kept item ["111"] is a symlink to the
    stale item directory ["999"]. *)
Definition linked_root : gmap string cleanup.Entry :=
  {[ "111" := cleanup.Symlink
                (λ present, match present !! "999" with
                            | Some (cleanup.IsDirectory _) => true
                            | _ => false
                            end)
                (λ _, false);
     "999" := cleanup.Directory true ]}.

(** ** Lines of an INI text *)

(** A line with its terminator: a body without line boundary followed
    by one boundary character or by ["\r\n"]. *)
Fixpoint terminated (l : string) : bool :=
  match l with
  | "" => false
  | String c l' =>
      if py.is_linebreak c
      then bool_decide (l' = "")
           || (bool_decide (c = "013"%char) && bool_decide (l' = String "010" ""))
      else terminated l'
  end.

Fixpoint last_char (s : string) : option ascii :=
  match s with
  | "" => None
  | String c s' => match s' with "" => Some c | _ => last_char s' end
  end.

Definition ends_cr (l : string) : bool := bool_decide (last_char l = Some "013"%char).

Definition starts_lf (s : string) : bool :=
  match s with
  | String c _ => bool_decide (c = "010"%char)
  | "" => false
  end.

(** Lines that [splitlines(keepends=True)] gives back one by one when
    they are concatenated: each has its terminator, and no line that ends
    in ["\r"] is followed by a line that starts with ["\n"]. *)
Inductive chain : list string → Prop :=
  | chain_nil : chain []
  | chain_one a : terminated a = true → chain [a]
  | chain_cons a b rest :
      terminated a = true → ends_cr a && starts_lf b = false →
      chain (b :: rest) → chain (a :: b :: rest).

(** The text is empty or ends with a line boundary. *)
Definition ends_with_newline (s : string) : Prop :=
  s = "" ∨ ∃ c, last_char s = Some c ∧ py.is_linebreak c = true.

Definition no_nul (s : string) : Prop :=
  all_chars (λ c, negb (bool_decide (c = "000"%char))) s = true.

(** A value written after [key=]: within one line and without NUL. *)
Definition ini_value (v : string) : Prop :=
  all_chars (λ c, negb (py.is_linebreak c)) v = true ∧ no_nul v.

(** The rewriters of the INI as one scheme: [table] lists, in the order
    in which the loop tests them, the keys (in lower case) with the line
    that replaces a line assigning the key. *)
Fixpoint table_target (table : list (string * string)) (stripped : string)
    : option string :=
  match table with
  | [] => None
  | (key, line) :: table' =>
      if matches_key key stripped then Some line else table_target table' stripped
  end.

Definition missing_keys (table : list (string * string)) (lines : list string)
    : list string :=
  omap (λ '(key, line), if has_key key lines then None else Some line) table.

Definition rewrite_with (table : list (string * string)) (original : string) : string :=
  let lines := py.splitlines_keepends (py.strip_nul original) in
  py.concat ((foldl (scan_step (table_target table) _is_continuation) ([], false) lines).1
             ++ missing_keys table lines).

(** A line that stays as it is when the loop meets it again. *)
Inductive settled (target : string → option string) (cont : string → bool)
    : list string → Prop :=
  | settled_nil : settled target cont []
  | settled_keep l ls :
      target (py.rstrip_crlf l) = None → settled target cont ls →
      settled target cont (l :: ls)
  | settled_key l ls :
      target (py.rstrip_crlf l) = Some l →
      (∀ b, head ls = Some b → cont (py.rstrip_crlf b) = false) →
      settled target cont ls → settled target cont (l :: ls).

(** What the proofs need of a table: its keys are words of letters, and
    the line of a key assigns that key, is one complete line ending in
    ["\n"], and replaces every line that assigns the key. *)
Definition table_ok (table : list (string * string)) : Prop :=
  ∀ key line, (key, line) ∈ table →
    key ≠ "" ∧ all_alpha key = true
    ∧ matches_key key (py.rstrip_crlf line) = true
    ∧ terminated line = true ∧ starts_lf line = false ∧ ends_cr line = false
    ∧ no_nul line
    ∧ ∀ s, matches_key key s = true → table_target table s = Some line.

Definition update_ini_table (mods_csv workshop_csv : string) : list (string * string) :=
  [("mods", key_line "Mods" mods_csv); ("workshopitems", key_line "WorkshopItems" workshop_csv)].

Definition map_table (map_csv : string) : list (string * string) :=
  [("map", key_line "Map" map_csv)].

Definition rewrite_ini_keys_table (mods_csv workshop_csv : string)
    (map_csv : option string) : list (string * string) :=
  update_ini_table mods_csv workshop_csv
  ++ match map_csv with Some csv => map_table csv | None => [] end.

(** What [update_public_name] puts in the place of a line. *)
Definition public_name_line (public_name raw : string) : string :=
  if matches_key "publicname" (py.rstrip_crlf raw)
  then key_line "PublicName" public_name else raw.

(** The line does not assign [PublicName]. *)
Definition other_line (raw : string) : Prop :=
  matches_key "publicname" (py.rstrip_crlf raw) = false.

(** ** The cache of [collect_mod_info] *)

(** The [id] that a [mod.info] file declares. *)
Definition mod_info_id (modinfo : ModInfoFile) : string :=
  info_get (_parse_mod_info_file (mi_text modinfo)) "id".

(** The mod IDs of a workshop item: the non-empty IDs of its [mod.info]
    files in the order of their paths, each at its first occurrence. *)
Definition item_mod_ids (item : ItemDir) : list string :=
  first_occurrences
    (filter (λ s, s ≠ "") (mod_info_id <$> sorted_by path_le mi_path (item_mod_infos item))).

(** The entry of [workshop_to_mods] for [wid]: the mod IDs of the item,
    when [wid] is listed, its directory exists and declares a mod. *)
Definition cached_mods (workshop_root : gmap string ItemDir) (workshop_ids : list string)
    (wid : string) : option (list string) :=
  if bool_decide (wid ∈ workshop_ids)
  then item ← workshop_root !! wid;
       if bool_decide (item_mod_ids item = []) then None else Some (item_mod_ids item)
  else None.

(** The map folders that [collect_workshop_maps] visits, each with the
    mod that holds it, in the order of the visit. *)
Definition visited_maps (workshop_root : gmap string ItemDir) (workshop_ids : list string)
    (active_mod_ids : gset string) : list (string * string) :=
  wid ← workshop_ids;
  modinfo ← match workshop_root !! wid with
            | Some item => item_mod_infos item
            | None => []
            end;
  if bool_decide (mod_info_id modinfo = "")
     || bool_decide (mod_info_id modinfo ∉ active_mod_ids)
  then [] else (λ name, (mod_info_id modinfo, name)) <$> mi_maps modinfo.

(** ** The files that a run touches *)

(** A file operation that writes in place to one of [paths]. *)
Definition writes_to (paths : list string) (op : fs_op) : Prop :=
  match op with
  | OpenTruncate path | WriteData path _ => path ∈ paths
  | Replace _ _ => False
  end.

(** From [m] to [m'] only files of [paths] have changed, by operations
    that write in place to them. *)
Definition touches_only (paths : list string) (m m' : machine) : Prop :=
  (∀ path, path ∉ paths → files m' !! path = files m !! path)
  ∧ ∃ new_ops, ops m' = ops m ++ new_ops ∧ Forall (writes_to paths) new_ops.

Definition confined {A} (paths : list string) (p : prog A) : Prop :=
  ∀ m, touches_only paths m (p m).1.

(** * Documents *)

(** The text is in the ASCII range, on which the character classes of the
    embedding are those of Python. *)
Definition is_ascii (s : string) : bool := all_chars (λ c, nat_of_ascii c <? 128) s.


(** ** The key-value configuration document *)






(** The line end ["\r\n"]. *)
Definition crlf : string := String "013" (String "010" "").





(** ** The block-format registry document (mods.txt) *)

(** The lines of the grammar: [Workshop ID: <id>] begins a block,
    [Mod ID: <id>] declares a mod, [---] ends the block; blank lines and
    lines that start with [#] are ignored. *)
Inductive registry_line :=
  | Header (wid : string)
  | Entry (mid : string)
  | Separator
  | Blank
  | Comment (text : string).

Definition render_line (l : registry_line) : string :=
  match l with
  | Header wid => "Workshop ID: " +:+ wid
  | Entry mid => "Mod ID: " +:+ mid
  | Separator => "---"
  | Blank => ""
  | Comment text => String "#" text
  end.

(** The bytes of the document: every line with its line end. *)
Definition registry_text (doc : list registry_line) : string :=
  py.concat ((λ l, render_line l +:+ String "010" "") <$> doc).

(** The IDs are ASCII tokens: a workshop ID without whitespace, a mod ID
    within one line and without surrounding whitespace. *)
Definition well_formed_line (l : registry_line) : Prop :=
  match l with
  | Header wid => workshop_token wid ∧ is_ascii wid = true
  | Entry mid => mod_token mid ∧ is_ascii mid = true
  | Comment text => one_line text ∧ is_ascii text = true
  | Separator | Blank => True
  end.

(** The workshop IDs of the document, in document order. *)
Definition registry_workshop_ids (doc : list registry_line) : list string :=
  omap (λ l, match l with Header wid => Some wid | _ => None end) doc.

(** The mod IDs of the blocks of the document, in document order: the
    entries between a header and the end of its block.  [in_block] tells
    whether a block is open; an entry outside a block belongs to no
    block. *)
Fixpoint block_entries (in_block : bool) (doc : list registry_line) : list string :=
  match doc with
  | [] => []
  | Header _ :: doc' => block_entries true doc'
  | Entry mid :: doc' =>
      if in_block then mid :: block_entries true doc' else block_entries false doc'
  | Separator :: doc' => block_entries false doc'
  | (Blank | Comment _) :: doc' => block_entries in_block doc'
  end.

Definition registry_mod_ids (doc : list registry_line) : list string :=
  block_entries false doc.

(** A registry document with duplicates: workshop ID 1 in two blocks, mod
    ID a twice in one block, mod ID b in two blocks; and the same
    document with CRLF line ends. *)
Definition duplicates_doc : list registry_line :=
  [Comment " server mods"; Header "1"; Entry "a"; Entry "a"; Entry "b"; Separator; Blank;
   Header "2"; Entry "b"; Entry "c"; Separator; Entry "orphan";
   Header "1"; Entry "d"; Separator].

Definition duplicates_crlf : string :=
  py.concat ((λ l, render_line l +:+ crlf) <$> duplicates_doc).

(** * Properties *)


(** ** Dictionaries built by comprehensions *)

Section dict_of.
Context {K V : Type} `{Countable K}.

Lemma dict_of_snoc (l : list (K * V)) (kv : K * V) :
  py.dict_of (l ++ [kv]) = <[kv.1 := kv.2]> (py.dict_of l).
Proof. unfold py.dict_of. by rewrite foldl_snoc. Qed.

Lemma dict_of_nil : py.dict_of ([] : list (K * V)) = ∅.
Proof. done. Qed.

(** A comprehension [{k: f(k) for k in l}]. *)
Lemma dict_of_keys_lookup (f : K → V) (l : list K) (k : K) :
  py.dict_of ((λ x, (x, f x)) <$> l) !! k
  = if decide (k ∈ l) then Some (f k) else None.
Proof.
  induction l as [|x l IH] using rev_ind.
  - done.
  - rewrite fmap_app. simpl. rewrite dict_of_snoc. simpl.
    destruct (decide (x = k)) as [->|Hne].
    + rewrite lookup_insert_eq.
      rewrite decide_True; [done|]. apply elem_of_app. right. by left.
    + rewrite lookup_insert_ne by done. rewrite IH.
      destruct (decide (k ∈ l)) as [Hin|Hout].
      * rewrite decide_True; [done|]. apply elem_of_app. by left.
      * rewrite decide_False; [done|]. intros [?|Hk]%elem_of_app; [done|].
        by apply list_elem_of_singleton in Hk.
Qed.

Lemma dict_of_keys_total `{Inhabited V} (f : K → V) (l : list K) (k : K) :
  k ∈ l → py.dict_of ((λ x, (x, f x)) <$> l) !!! k = f k.
Proof.
  intros Hk. rewrite lookup_total_alt, dict_of_keys_lookup.
  by rewrite decide_True.
Qed.

Lemma dict_of_keys_dom (f : K → V) (l : list K) :
  dom (py.dict_of ((λ x, (x, f x)) <$> l)) = list_to_set l.
Proof.
  apply set_eq. intros k. rewrite elem_of_dom, dict_of_keys_lookup.
  rewrite elem_of_list_to_set. destruct (decide (k ∈ l)); [by eauto|].
  split; [by intros [? ?]|done].
Qed.

End dict_of.

(** [{x: i for i, x in enumerate(l)}] on a list without duplicates gives
    each element its index. *)
Lemma dict_of_enumerate_lookup {A} `{Countable A} (l : list A) (x : A) (i : nat) :
  NoDup l → l !! i = Some x → py.dict_of (py.enumerate l) !! x = Some i.
Proof.
  revert i. induction l as [|y l IH] using rev_ind; intros i Hnd Hi; [done|].
  apply NoDup_app in Hnd as (Hnd & Hdisj & _).
  unfold py.enumerate in *. rewrite imap_app. simpl. rewrite dict_of_snoc. simpl.
  destruct (decide (i < length l)) as [Hlt|Hge].
  - rewrite lookup_app_l in Hi by done.
    rewrite lookup_insert_ne.
    + by apply IH.
    + intros ->. apply (Hdisj x); [by eapply list_elem_of_lookup_2|set_solver].
  - rewrite lookup_app_r in Hi by lia.
    apply list_lookup_singleton_Some in Hi as [Hi ->].
    rewrite Nat.add_0_r. replace i with (length l) by lia.
    apply lookup_insert_eq.
Qed.

Lemma dict_of_enumerate_total {A} `{Countable A} (l : list A) (x : A) (i : nat) :
  NoDup l → l !! i = Some x → py.dict_of (py.enumerate l) !!! x = i.
Proof.
  intros Hnd Hi. rewrite lookup_total_alt.
  by rewrite (dict_of_enumerate_lookup l x i).
Qed.

(** ** Edge construction *)

Section edges.
Context (requires_map : gmap string (list string)) (mod_id_set : gset string).

Lemma add_prereqs_ok mod_id deps prereqs prereqs' :
  add_prereqs requires_map mod_id_set mod_id deps prereqs = Ok prereqs' →
  (∀ dep, dep ∈ deps → dep ∈ dom requires_map → dep ∈ mod_id_set)
  ∧ ∀ y, prereqs' !!! y
         = if decide (y = mod_id)
           then prereqs !!! mod_id
                ∪ list_to_set (filter (λ dep, dep ∈ dom requires_map) deps)
           else prereqs !!! y.
Proof.
  revert prereqs. induction deps as [|dep deps IH]; intros prereqs Hok; simpl in Hok.
  - injection Hok as <-. split; [by intros ? ?%elem_of_nil|].
    intros y. destruct (decide (y = mod_id)) as [->|]; [|done].
    simpl. set_solver.
  - destruct (decide (dep ∈ dom requires_map)) as [Hk|Hk].
    + destruct (decide (dep ∈ mod_id_set)) as [Hs|Hs]; [|done].
      apply IH in Hok as [Hall Hlk]. split.
      * intros d [->|Hd]%elem_of_cons; auto.
      * intros y. rewrite Hlk. destruct (decide (y = mod_id)) as [->|Hne].
        -- rewrite lookup_total_insert_eq. rewrite filter_cons_True by done.
           set_solver.
        -- by rewrite lookup_total_insert_ne.
    + apply IH in Hok as [Hall Hlk]. split.
      * intros d [->|Hd]%elem_of_cons; [done|auto].
      * intros y. rewrite Hlk. by rewrite filter_cons_False.
Qed.

(** A failure names the first declared requires_map prerequisite that is known but
    not listed. *)
Lemma add_prereqs_exit mod_id deps prereqs c e :
  add_prereqs requires_map mod_id_set mod_id deps prereqs = Exit c e →
  ∃ before dep after,
    deps = before ++ dep :: after
    ∧ (∀ d, d ∈ before → d ∈ dom requires_map → d ∈ mod_id_set)
    ∧ dep ∈ dom requires_map ∧ (dep ∉ mod_id_set)
    ∧ c = 1%Z ∧ e = ("ERROR: " +:+ topological_error mod_id dep).
Proof.
  revert prereqs. induction deps as [|dep deps IH]; intros prereqs Hex; simpl in Hex;
    [done|].
  destruct (decide (dep ∈ dom requires_map)) as [Hk|Hk].
  - destruct (decide (dep ∈ mod_id_set)) as [Hs|Hs].
    + apply IH in Hex as (before & d & after & -> & Hb & ? & ? & ? & ?).
      exists (dep :: before), d, after. split_and!; try done.
      intros d' [->|?]%elem_of_cons; auto.
    + injection Hex as <- <-. exists [], dep, deps. split_and!; try done.
      by intros ? ?%elem_of_nil.
  - apply IH in Hex as (before & d & after & -> & Hb & ? & ? & ? & ?).
    exists (dep :: before), d, after. split_and!; try done.
    intros d' [->|?]%elem_of_cons; [done|auto].
Qed.

Lemma build_prereqs_loop_ok todo prereqs prereqs' :
  build_prereqs_loop requires_map mod_id_set todo prereqs = Ok prereqs' →
  (∀ x dep, x ∈ todo → dep ∈ declared requires_map x → dep ∈ dom requires_map → dep ∈ mod_id_set)
  ∧ ∀ y, prereqs' !!! y
         = if decide (y ∈ todo) then prereqs !!! y ∪ known_prereqs requires_map y
           else prereqs !!! y.
Proof.
  revert prereqs. induction todo as [|x todo IH]; intros prereqs Hok; simpl in Hok.
  - injection Hok as <-. split; [by intros ? ? ?%elem_of_nil|]. done.
  - destruct (add_prereqs _ _ x _ prereqs) as [p1|] eqn:Hadd; [|done]. simpl in Hok.
    apply add_prereqs_ok in Hadd as [Hall1 Hlk1].
    apply IH in Hok as [Hall Hlk]. split.
    + intros x' dep [->|Hx]%elem_of_cons; eauto.
    + intros y. rewrite Hlk, !Hlk1. unfold known_prereqs, declared.
      destruct (decide (y ∈ todo)) as [Hy|Hy], (decide (y = x)) as [->|Hne].
      * rewrite decide_True by (by left). set_solver.
      * rewrite decide_True by (by right). done.
      * rewrite decide_True by (by left). done.
      * rewrite decide_False; [done|]. by intros [?|?]%elem_of_cons.
Qed.

(** A failure names the first pair, in the order of the two loops, of a
    listed mod and a declared requires_map prerequisite that is known but not listed. *)
Lemma build_prereqs_loop_exit todo prereqs c e :
  build_prereqs_loop requires_map mod_id_set todo prereqs = Exit c e →
  ∃ done_mods x rest before dep after,
    todo = done_mods ++ x :: rest
    ∧ declared requires_map x = before ++ dep :: after
    ∧ (∀ x' d, x' ∈ done_mods → d ∈ declared requires_map x' → d ∈ dom requires_map → d ∈ mod_id_set)
    ∧ (∀ d, d ∈ before → d ∈ dom requires_map → d ∈ mod_id_set)
    ∧ dep ∈ dom requires_map ∧ (dep ∉ mod_id_set)
    ∧ c = 1%Z ∧ e = ("ERROR: " +:+ topological_error x dep).
Proof.
  revert prereqs. induction todo as [|x todo IH]; intros prereqs Hex; simpl in Hex;
    [done|].
  destruct (add_prereqs _ _ x _ prereqs) as [p1|c1 e1] eqn:Hadd; simpl in Hex.
  - apply add_prereqs_ok in Hadd as [Hall1 _].
    apply IH in Hex as (dm & x' & rest & before & dep & after & -> & ? & Hdm & ?).
    exists (x :: dm), x', rest, before, dep, after. split_and!; try tauto.
    intros x'' d [->|?]%elem_of_cons; eauto.
  - injection Hex as <- <-.
    apply add_prereqs_exit in Hadd as (before & dep & after & ? & ? & ? & ? & ? & ?).
    exists [], x, todo, before, dep, after. split_and!; try done.
    by intros ? ? ?%elem_of_nil.
Qed.

End edges.

(** ** The heap and the dependents table *)

Lemma heappush_perm (heap : list (nat * string)) (x : nat * string) :
  heappush heap x ≡ₚ x :: heap.
Proof.
  induction heap as [|y heap IH]; simpl; [done|].
  destruct (tuple_lt x y); [done|]. rewrite IH. apply Permutation_swap.
Qed.

Lemma heapify_perm (items : list (nat * string)) : heapify items ≡ₚ items.
Proof.
  unfold heapify. induction items as [|x items IH] using rev_ind; [done|].
  rewrite foldl_snoc, heappush_perm, IH. by rewrite Permutation_cons_append.
Qed.

Lemma append_dependent_lookup (x : string) (deps : list string)
    (dependents : gmap string (list string)) (p : string) :
  NoDup deps →
  foldl (λ dependents dep, <[dep := (dependents !!! dep) ++ [x]]> dependents)
        dependents deps !!! p
  = dependents !!! p ++ (if decide (p ∈ deps) then [x] else []).
Proof.
  revert dependents. induction deps as [|d deps IH]; intros dependents Hnd; simpl.
  - by rewrite app_nil_r.
  - apply NoDup_cons in Hnd as [Hd Hnd]. rewrite IH by done.
    destruct (decide (p = d)) as [->|Hne].
    + rewrite lookup_total_insert_eq. rewrite decide_False by done.
      rewrite decide_True by (by left). by rewrite app_nil_r.
    + rewrite lookup_total_insert_ne by done.
      destruct (decide (p ∈ deps)).
      * by rewrite decide_True by (by right).
      * rewrite decide_False; [done|]. by intros [?|?]%elem_of_cons.
Qed.

Lemma build_dependents_fold (prereqs : gmap string (gset string)) (p : string)
    (l : list string) (d : gmap string (list string)) :
  foldl (λ dependents mod_id,
           foldl (λ dependents dep,
                    <[dep := (dependents !!! dep) ++ [mod_id]]> dependents)
                 dependents (elements (prereqs !!! mod_id))) d l !!! p
  = d !!! p ++ filter (λ x, p ∈ prereqs !!! x) l.
Proof.
  induction l as [|x l IH] using rev_ind; simpl.
  - by rewrite app_nil_r.
  - rewrite foldl_snoc, append_dependent_lookup by apply NoDup_elements.
    rewrite IH, filter_app, <-(assoc_L (++)). f_equal. f_equal.
    destruct (decide (p ∈ elements (prereqs !!! x))) as [Hin|Hout].
    + apply elem_of_elements in Hin. by rewrite filter_cons_True.
    + rewrite filter_cons_False; [done|]. by rewrite <-elem_of_elements.
Qed.

(** [dependents[p]] lists, in the order of [mod_ids], the mods that have
    [p] among their prerequisites. *)
Lemma build_dependents_lookup (mod_ids : list string)
    (prereqs : gmap string (gset string)) (p : string) :
  build_dependents mod_ids prereqs !!! p = filter (λ x, p ∈ prereqs !!! x) mod_ids.
Proof.
  unfold build_dependents. rewrite build_dependents_fold.
  rewrite lookup_total_alt, (dict_of_keys_lookup (λ _, [])).
  by destruct (decide (p ∈ mod_ids)).
Qed.

(** ** One step of the elimination *)

Lemma filter_ext_elem_of {A} (P Q : A → Prop) `{!∀ x, Decision (P x)}
    `{!∀ x, Decision (Q x)} (l : list A) :
  (∀ x, x ∈ l → P x ↔ Q x) → filter P l = filter Q l.
Proof.
  induction l as [|a l IH]; intros Hext; [done|].
  assert (Hl : filter P l = filter Q l).
  { apply IH. intros x Hx. apply Hext. by right. }
  destruct (decide (P a)) as [Ha|Ha].
  - rewrite !filter_cons_True; [by rewrite Hl| |done]. apply Hext; [by left|done].
  - rewrite !filter_cons_False; [done| |done]. intros HQ. apply Ha, Hext; [by left|done].
Qed.

Lemma release_spec (original_pos : gmap string nat) (deps : list string)
    (in_degree : gmap string Z) (heap : list (nat * string)) :
  NoDup deps →
  (∀ x, (release original_pos deps in_degree heap).1 !!! x
        = (in_degree !!! x - (if decide (x ∈ deps) then 1 else 0))%Z)
  ∧ (release original_pos deps in_degree heap).2.*2
    ≡ₚ heap.*2 ++ filter (λ x, (in_degree !!! x - 1)%Z = 0%Z) deps.
Proof.
  revert in_degree heap. induction deps as [|d deps IH]; intros in_degree heap Hnd.
  - simpl. split; [intros x; lia|by rewrite app_nil_r].
  - apply NoDup_cons in Hnd as [Hd Hnd]. simpl.
    assert (Hrest : filter (λ x, (<[d:=(in_degree !!! d - 1)%Z]> in_degree !!! x - 1)%Z = 0%Z) deps
                    = filter (λ x, (in_degree !!! x - 1)%Z = 0%Z) deps).
    { apply filter_ext_elem_of. intros x Hx.
      rewrite lookup_total_insert_ne; [done|]. by intros ->. }
    assert (Hlk : ∀ (in_degree' : gmap string Z) x,
      (∀ y, in_degree' !!! y
            = (<[d:=(in_degree !!! d - 1)%Z]> in_degree !!! y
               - (if decide (y ∈ deps) then 1 else 0))%Z) →
      in_degree' !!! x
      = (in_degree !!! x - (if decide (x ∈ d :: deps) then 1 else 0))%Z).
    { intros in_degree' x ->. destruct (decide (x = d)) as [->|Hne].
      - rewrite lookup_total_insert_eq, decide_False by done.
        rewrite decide_True by (by left). lia.
      - rewrite lookup_total_insert_ne by done.
        destruct (decide (x ∈ deps)).
        + by rewrite decide_True by (by right).
        + rewrite decide_False; [done|]. by intros [?|?]%elem_of_cons. }
    destruct (decide ((in_degree !!! d - 1)%Z = 0%Z)) as [Hz|Hz].
    + destruct (IH (<[d:=(in_degree !!! d - 1)%Z]> in_degree)
                   (heappush heap (original_pos !!! d, d)) Hnd) as [H1 H2].
      split; [intros x; by apply Hlk|].
      rewrite H2, Hrest, heappush_perm, filter_cons_True by done. simpl.
      by rewrite Permutation_middle.
    + destruct (IH (<[d:=(in_degree !!! d - 1)%Z]> in_degree) heap Hnd) as [H1 H2].
      split; [intros x; by apply Hlk|].
      by rewrite H2, Hrest, filter_cons_False.
Qed.

Lemma size_difference_snoc (X : gset string) (R : list string) (mid : string) :
  mid ∉ R →
  Z.of_nat (size (X ∖ list_to_set (R ++ [mid])))
  = (Z.of_nat (size (X ∖ list_to_set R)) - (if decide (mid ∈ X) then 1 else 0))%Z.
Proof.
  intros Hmid.
  assert (Heq : X ∖ list_to_set (R ++ [mid])
                = (X ∖ list_to_set R) ∖ ({[mid]} : gset string)).
  { rewrite list_to_set_app_L. simpl. set_solver. }
  rewrite Heq. destruct (decide (mid ∈ X)) as [Hin|Hout].
  - rewrite size_difference by set_solver. rewrite size_singleton.
    assert (size (X ∖ list_to_set R) ≠ 0).
    { intros Hz%size_empty_inv. set_solver. }
    lia.
  - replace ((X ∖ list_to_set R) ∖ {[mid]}) with (X ∖ list_to_set R) by set_solver.
    lia.
Qed.

(** ** The invariant of the elimination loop *)

Lemma fmap_snd_pair {A B} (f : A → B) (l : list A) : ((λ x, (f x, x)) <$> l).*2 = l.
Proof. induction l as [|x l IH]; [done|]. rewrite !fmap_cons. simpl. by f_equal. Qed.

Section kahn.
Context (mod_ids : list string) (prereqs : gmap string (gset string))
        (original_pos : gmap string nat).
Hypothesis mod_ids_nodup : NoDup mod_ids.

Let in_degree0 : gmap string Z :=
  py.dict_of ((λ mid, (mid, Z.of_nat (size (prereqs !!! mid)))) <$> mod_ids).
Let dependents := build_dependents mod_ids prereqs.
Let heap0 :=
  heapify ((λ mid, (original_pos !!! mid, mid))
             <$> filter (λ mid, in_degree0 !!! mid = 0%Z) mod_ids).

Lemma kahn_inv_init : kahn_inv mod_ids prereqs in_degree0 heap0 [].
Proof.
  assert (Hheap : heap0.*2 ≡ₚ filter (λ mid, in_degree0 !!! mid = 0%Z) mod_ids).
  { unfold heap0. by rewrite heapify_perm, fmap_snd_pair. }
  split.
  - constructor.
  - by intros x ?%elem_of_nil.
  - intros x Hx. unfold in_degree0.
    rewrite (dict_of_keys_total (λ mid, Z.of_nat (size (prereqs !!! mid)))) by done.
    simpl. by rewrite difference_empty_L.
  - rewrite Hheap. by apply NoDup_filter.
  - intros x. rewrite Hheap, list_elem_of_filter. split.
    + intros [? ?]. split_and!; [done| |done]. by intros ?%elem_of_nil.
    + intros (? & _ & ?). done.
  - by intros i x ?.
Qed.

Lemma dependents_nodup mid : NoDup (dependents !!! mid).
Proof.
  unfold dependents. rewrite build_dependents_lookup. by apply NoDup_filter.
Qed.

Lemma elem_of_dependents mid x :
  x ∈ dependents !!! mid ↔ x ∈ mod_ids ∧ mid ∈ prereqs !!! x.
Proof.
  unfold dependents. rewrite build_dependents_lookup, list_elem_of_filter. tauto.
Qed.

(** An element whose in-degree is zero has all its prerequisites in
    [result]. *)
Lemma zero_degree_subset in_degree heap result x :
  kahn_inv mod_ids prereqs in_degree heap result → x ∈ mod_ids → in_degree !!! x = 0%Z →
  prereqs !!! x ⊆ list_to_set result.
Proof.
  intros Hinv Hx Hz. rewrite (inv_degree _ _ _ _ _ Hinv) in Hz by done.
  assert (Hsz : size (prereqs !!! x ∖ list_to_set result) = 0) by lia.
  apply size_empty_inv in Hsz. set_solver.
Qed.

Lemma prereqs_first_subset result x :
  prereqs_first prereqs result → x ∈ result → prereqs !!! x ⊆ list_to_set result.
Proof.
  intros Hord [i Hi]%list_elem_of_lookup. specialize (Hord i x Hi).
  intros p Hp. apply Hord in Hp. apply elem_of_list_to_set in Hp.
  apply elem_of_list_to_set. apply elem_of_take in Hp as (j & Hj & _).
  by eapply list_elem_of_lookup_2.
Qed.

Lemma kahn_inv_step in_degree k mid heap result :
  kahn_inv mod_ids prereqs in_degree ((k, mid) :: heap) result →
  kahn_inv mod_ids prereqs (release original_pos (dependents !!! mid) in_degree heap).1
           (release original_pos (dependents !!! mid) in_degree heap).2
           (result ++ [mid]).
Proof.
  intros Hinv.
  destruct (release_spec original_pos (dependents !!! mid) in_degree heap
              (dependents_nodup mid)) as [Hdeg Hheap].
  pose proof (inv_heap_nodup _ _ _ _ _ Hinv) as Hhnd. simpl in Hhnd.
  apply NoDup_cons in Hhnd as [Hmid_heap Hhnd].
  destruct (proj1 (inv_heap _ _ _ _ _ Hinv mid)) as (Hmid & Hmid_res & Hmid_deg);
    [by left|].
  assert (Hmid_sub := zero_degree_subset _ _ _ _ Hinv Hmid Hmid_deg).
  split.
  - apply NoDup_app. split_and!; [by apply Hinv| |apply NoDup_singleton].
    intros x Hx Heq%list_elem_of_singleton. by subst.
  - intros x [?|Heq%list_elem_of_singleton]%elem_of_app; [by apply Hinv|by subst].
  - intros x Hx. rewrite Hdeg, size_difference_snoc by done.
    rewrite (inv_degree _ _ _ _ _ Hinv) by done.
    destruct (decide (x ∈ dependents !!! mid)) as [Hd|Hd];
      rewrite elem_of_dependents in Hd.
    + by rewrite decide_True by tauto.
    + by rewrite decide_False by tauto.
  - rewrite Hheap. apply NoDup_app. split_and!; [done| |].
    + intros x Hx [Hx' _]%list_elem_of_filter.
      destruct (proj1 (inv_heap _ _ _ _ _ Hinv x)) as (_ & _ & Hz); [by right|]. lia.
    + apply NoDup_filter, dependents_nodup.
  - intros x. rewrite Hheap, elem_of_app, list_elem_of_filter, elem_of_dependents.
    rewrite Hdeg. split.
    + intros [Hx|[Hz [Hx Hp]]].
      * destruct (proj1 (inv_heap _ _ _ _ _ Hinv x)) as (Hx1 & Hx2 & Hx3); [by right|].
        assert (x ≠ mid) by (by intros ->).
        assert (mid ∉ prereqs !!! x).
        { intros Hp. apply Hmid_res.
          apply (zero_degree_subset _ _ _ _ Hinv Hx1 Hx3) in Hp.
          by apply elem_of_list_to_set in Hp. }
        split_and!; [done| |].
        -- intros [?|?%list_elem_of_singleton]%elem_of_app; done.
        -- rewrite decide_False; [lia|]. rewrite elem_of_dependents. tauto.
      * assert (x ≠ mid) by (intros ->; lia).
        split_and!; [done| |].
        -- intros [Hxr|?%list_elem_of_singleton]%elem_of_app; [|done].
           apply Hmid_res.
           pose proof (prereqs_first_subset _ _ (inv_order _ _ _ _ _ Hinv) Hxr mid Hp)
             as Hin.
           by apply elem_of_list_to_set in Hin.
        -- rewrite decide_True; [lia|]. by rewrite elem_of_dependents.
    + intros (Hx & Hres & Hz).
      assert ((x ∉ result) ∧ x ≠ mid) as [Hxr Hne].
      { split; [intros ?|intros ->]; apply Hres, elem_of_app;
          [by left|right; by left]. }
      destruct (decide (x ∈ dependents !!! mid)) as [Hd|Hd].
      * right. split; [lia|].
        by apply elem_of_dependents.
      * left.
        assert (Hin : x ∈ ((k, mid) :: heap).*2).
        { apply (inv_heap _ _ _ _ _ Hinv). split_and!; [done|done|lia]. }
        rewrite fmap_cons in Hin. by apply elem_of_cons in Hin as [?|?].
  - intros i x Hi. destruct (decide (i < length result)) as [Hlt|Hge].
    + rewrite lookup_app_l in Hi by done. rewrite take_app_le by lia.
      by apply (inv_order _ _ _ _ _ Hinv).
    + rewrite lookup_app_r in Hi by lia.
      apply list_lookup_singleton_Some in Hi as [Hi <-].
      rewrite take_app_le, take_ge by lia. done.
Qed.

(** The loop ends within [fuel] steps when [fuel] covers the mods not
    yet in [result], and its invariant holds at the end. *)
Lemma kahn_loop_spec fuel in_degree heap result :
  kahn_inv mod_ids prereqs in_degree heap result →
  length mod_ids ≤ fuel + length result →
  ∃ in_degree' result',
    kahn_loop fuel original_pos dependents in_degree heap result = Some result'
    ∧ kahn_inv mod_ids prereqs in_degree' [] result'.
Proof.
  revert in_degree heap result.
  induction fuel as [|fuel IH]; intros in_degree heap result Hinv Hfuel.
  - destruct heap as [|[k mid] heap]; [by exists in_degree, result|].
    exfalso.
    destruct (proj1 (inv_heap _ _ _ _ _ Hinv mid)) as (Hmid & Hmid_res & _); [by left|].
    assert (Hsub : mid :: result ⊆+ mod_ids).
    { apply NoDup_submseteq.
      - apply NoDup_cons. split; [done|apply Hinv].
      - intros x [->|?]%elem_of_cons; [done|by apply Hinv]. }
    apply submseteq_length in Hsub. simpl in *. lia.
  - destruct heap as [|[k mid] heap]; [by exists in_degree, result|].
    simpl.
    pose proof (kahn_inv_step _ _ _ _ _ Hinv) as Hstep.
    destruct (release original_pos (dependents !!! mid) in_degree heap)
      as [in_degree' heap'] eqn:Hrel.
    simpl in Hstep. apply IH; [done|]. rewrite length_app. simpl. lia.
Qed.

End kahn.

(** ** The dependency sorter *)

Lemma first_missing_is_missing mod_ids requires_map x y :
  first_missing_dependency mod_ids requires_map x y →
  missing_dependency mod_ids requires_map x y.
Proof.
  intros (dm & rest & before & after & -> & Hdecl & _ & _ & ? & ?).
  split_and!; [|rewrite Hdecl|done|done].
  - apply elem_of_app. right. by left.
  - apply elem_of_app. right. by left.
Qed.

Section build_prereqs.
Context (mod_ids : list string) (requires_map : gmap string (list string)).

Lemma initial_prereqs_lookup y :
  py.dict_of ((λ mid : string, (mid, (∅ : gset string))) <$> mod_ids) !!! y = ∅.
Proof.
  rewrite lookup_total_alt, (dict_of_keys_lookup (λ _, ∅)).
  by destruct (decide (y ∈ mod_ids)).
Qed.

(** When the edge construction returns, no dependency is missing, and
    the prerequisite set of a listed mod holds its declared
    prerequisites with known metadata. *)
Lemma build_prereqs_ok prereqs :
  build_prereqs mod_ids requires_map = Ok prereqs →
  (∀ x y, ¬ missing_dependency mod_ids requires_map x y)
  ∧ ∀ x, prereqs !!! x
         = if decide (x ∈ mod_ids) then known_prereqs requires_map x else ∅.
Proof.
  unfold build_prereqs. intros [Hall Hlk]%build_prereqs_loop_ok. split.
  - intros x y (Hx & Hy & Hk & Hn). apply Hn.
    specialize (Hall x y Hx Hy Hk). by apply elem_of_list_to_set in Hall.
  - intros x. rewrite Hlk, initial_prereqs_lookup.
    destruct (decide (x ∈ mod_ids)); [|done]. set_solver.
Qed.

Lemma build_prereqs_exit c e :
  build_prereqs mod_ids requires_map = Exit c e →
  ∃ x y, first_missing_dependency mod_ids requires_map x y
         ∧ c = 1%Z ∧ e = ("ERROR: " +:+ topological_error x y).
Proof.
  unfold build_prereqs.
  intros (dm & x & rest & before & y & after & Hm & Hd & Hdm & Hb & Hk & Hn & -> & ->)
    %build_prereqs_loop_exit.
  exists x, y. split; [|done].
  exists dm, rest, before, after. split_and!; try done.
  - intros x' d Hx' (_ & Hd' & Hk' & Hn'). apply Hn'.
    specialize (Hdm x' d Hx' Hd' Hk'). by apply elem_of_list_to_set in Hdm.
  - intros d Hd' Hk'. specialize (Hb d Hd' Hk'). by apply elem_of_list_to_set in Hb.
  - by rewrite elem_of_list_to_set in Hn.
Qed.

Lemma build_prereqs_total :
  (∀ x y, ¬ missing_dependency mod_ids requires_map x y) →
  ∃ prereqs, build_prereqs mod_ids requires_map = Ok prereqs.
Proof.
  intros Hnone. destruct (build_prereqs mod_ids requires_map) as [p|c e] eqn:Hb;
    [by eexists|].
  apply build_prereqs_exit in Hb as (x & y & Hfirst & _).
  by apply first_missing_is_missing, Hnone in Hfirst.
Qed.

(** The prerequisite sets are the effective edges. *)
Lemma elem_of_prereqs prereqs d p :
  build_prereqs mod_ids requires_map = Ok prereqs →
  p ∈ prereqs !!! d ↔ effective_edge mod_ids requires_map d p.
Proof.
  intros [Hnone Hlk]%build_prereqs_ok. rewrite Hlk. unfold effective_edge.
  destruct (decide (d ∈ mod_ids)) as [Hd|Hd].
  - unfold known_prereqs. rewrite elem_of_list_to_set, list_elem_of_filter.
    split; [|tauto]. intros [Hk Hp]. split_and!; try done.
    destruct (decide (p ∈ mod_ids)) as [|Hn]; [done|].
    by destruct (Hnone d p).
  - split; [by intros ?%elem_of_empty|tauto].
Qed.

End build_prereqs.

Section sorter.
Context (mod_ids : list string) (requires_map : gmap string (list string)).
Hypothesis mod_ids_nodup : NoDup mod_ids.

Let original_pos : gmap string nat := py.dict_of (py.enumerate mod_ids).

Lemma original_pos_total i x : mod_ids !! i = Some x → original_pos !!! x = i.
Proof. by apply dict_of_enumerate_total. Qed.

(** The fast check succeeds exactly when the listed order has every
    prerequisite before its dependent. *)
Lemma order_is_valid_spec prereqs :
  build_prereqs mod_ids requires_map = Ok prereqs →
  order_is_valid mod_ids original_pos prereqs = true
  ↔ ∀ d p i j, effective_edge mod_ids requires_map d p →
               mod_ids !! i = Some p → mod_ids !! j = Some d → i < j.
Proof.
  intros Hb. unfold order_is_valid.
  rewrite <-Is_true_true, forallb_True, Forall_forall.
  split.
  - intros Hall d p i j Hedge Hi Hj.
    assert (Hd : d ∈ mod_ids) by (by eapply list_elem_of_lookup_2).
    specialize (Hall d Hd). rewrite forallb_True, Forall_forall in Hall.
    specialize (Hall p). rewrite elem_of_elements, (elem_of_prereqs _ _ _ _ _ Hb) in Hall.
    specialize (Hall Hedge). apply bool_decide_unpack in Hall.
    by rewrite (original_pos_total i p), (original_pos_total j d) in Hall.
  - intros Hall d Hd. rewrite forallb_True, Forall_forall. intros p Hp.
    rewrite elem_of_elements, (elem_of_prereqs _ _ _ _ _ Hb) in Hp.
    apply bool_decide_pack.
    destruct Hp as (Hd' & Hp' & Hrest).
    apply list_elem_of_lookup in Hd as [j Hj].
    pose proof Hp' as [i Hi]%list_elem_of_lookup.
    rewrite (original_pos_total i p), (original_pos_total j d) by done.
    eapply Hall; [|done|done]. split; [by eapply list_elem_of_lookup_2|done].
Qed.

(** The elimination loop never outlives its fuel, and its result
    satisfies the invariant with an empty heap. *)
Lemma kahn_sort_spec prereqs :
  ∃ in_degree result,
    kahn_sort mod_ids original_pos prereqs = Some result
    ∧ kahn_inv mod_ids prereqs in_degree [] result.
Proof.
  unfold kahn_sort. apply kahn_loop_spec; [done|apply kahn_inv_init; done|].
  unfold kahn_fuel. simpl. rewrite <-size_dom.
  rewrite (dict_of_keys_dom (λ mid, Z.of_nat (size (prereqs !!! mid)))).
  rewrite size_list_to_set by done. lia.
Qed.

(** A complete result is a permutation of the list. *)
Lemma kahn_result_permutation prereqs in_degree result :
  kahn_inv mod_ids prereqs in_degree [] result →
  length result = length mod_ids → result ≡ₚ mod_ids.
Proof.
  intros Hinv Hlen. apply submseteq_length_Permutation; [|lia].
  apply NoDup_submseteq; apply Hinv.
Qed.

Lemma prereqs_first_positions prereqs result d p :
  prereqs_first prereqs result → d ∈ result → p ∈ prereqs !!! d →
  ∃ i j, result !! i = Some p ∧ result !! j = Some d ∧ i < j.
Proof.
  intros Hord [j Hj]%list_elem_of_lookup Hp.
  apply (Hord j d Hj), elem_of_list_to_set, elem_of_take in Hp as (i & Hi & Hlt).
  by exists i, j.
Qed.

(** Along a chain of prerequisites inside a result that puts
    prerequisites first, positions decrease. *)
Lemma prereqs_first_chain prereqs result x y :
  NoDup result → prereqs_first prereqs result →
  tc (λ d p, p ∈ prereqs !!! d) x y → x ∈ result →
  ∃ i j, result !! i = Some y ∧ result !! j = Some x ∧ i < j.
Proof.
  intros Hnd Hord Htc. induction Htc as [x y Hxy|x y z Hxy Hyz IH]; intros Hx.
  - by eapply prereqs_first_positions.
  - destruct (prereqs_first_positions _ _ _ _ Hord Hx Hxy) as (i & j & Hi & Hj & Hij).
    destruct IH as (i' & j' & Hi' & Hj' & Hij'); [by eapply list_elem_of_lookup_2|].
    exists i', j. split_and!; [done|done|].
    assert (j' = i) as -> by (by eapply NoDup_lookup). lia.
Qed.

(** No mod on a cycle of prerequisites is in such a result. *)
Lemma prereqs_first_acyclic prereqs result x :
  NoDup result → prereqs_first prereqs result →
  tc (λ d p, p ∈ prereqs !!! d) x x → x ∉ result.
Proof.
  intros Hnd Hord Htc Hx.
  destruct (prereqs_first_chain _ _ _ _ Hnd Hord Htc Hx) as (i & j & Hi & Hj & Hij).
  assert (i = j) by (by eapply NoDup_lookup). lia.
Qed.

Lemma tc_effective_edge prereqs x y :
  build_prereqs mod_ids requires_map = Ok prereqs →
  tc (effective_edge mod_ids requires_map) x y →
  tc (λ d p, p ∈ prereqs !!! d) x y.
Proof.
  intros Hb Htc. induction Htc as [x y Hxy|x y z Hxy Hyz IH].
  - apply tc_once. by apply (elem_of_prereqs _ _ _ _ _ Hb).
  - eapply tc_l; [|done]. by apply (elem_of_prereqs _ _ _ _ _ Hb).
Qed.

(** What [ensure_topological_order] returns once the edges are built. *)
Lemma ensure_topological_order_built prereqs :
  build_prereqs mod_ids requires_map = Ok prereqs →
  ∃ in_degree result,
    kahn_sort mod_ids original_pos prereqs = Some result
    ∧ kahn_inv mod_ids prereqs in_degree [] result
    ∧ ensure_topological_order mod_ids requires_map
      = Some (if order_is_valid mod_ids original_pos prereqs
              then Ok (mod_ids, [])
              else if decide (length result ≠ length mod_ids)
              then _fatal (cycle_error (cycle_mods mod_ids result))
              else Ok (result,
                       reorder_notes mod_ids original_pos
                                     (py.dict_of (py.enumerate result)))).
Proof.
  intros Hb. destruct (kahn_sort_spec prereqs) as (in_degree & result & Hk & Hinv).
  exists in_degree, result. split_and!; [done|done|].
  unfold ensure_topological_order. rewrite Hb. fold original_pos.
  destruct (order_is_valid mod_ids original_pos prereqs); [done|].
  rewrite Hk. simpl. by destruct (decide (length result ≠ length mod_ids)).
Qed.

Lemma ensure_topological_order_terminates :
  is_Some (ensure_topological_order mod_ids requires_map).
Proof.
  destruct (build_prereqs mod_ids requires_map) as [prereqs|c e] eqn:Hb.
  - destruct (ensure_topological_order_built prereqs Hb) as (? & ? & _ & _ & ->).
    by eexists.
  - unfold ensure_topological_order. rewrite Hb. by eexists.
Qed.

End sorter.

(** ** Strings *)

Lemma string_app_cons (c : ascii) (a b : string) :
  String c a +:+ b = String c (a +:+ b).
Proof. done. Qed.

Lemma string_app_nil_l (a : string) : "" +:+ a = a.
Proof. done. Qed.

Lemma string_app_assoc (a b c : string) : (a +:+ b) +:+ c = a +:+ b +:+ c.
Proof.
  induction a as [|x a IH]; [done|]. by rewrite !string_app_cons, IH.
Qed.

Lemma string_app_nil_r (a : string) : a +:+ "" = a.
Proof. induction a as [|x a IH]; [done|]. by rewrite string_app_cons, IH. Qed.

Lemma after_prefix_app (s post : string) : py.after_prefix s (s +:+ post) = Some post.
Proof.
  induction s as [|c s IH]; [by destruct post|].
  rewrite string_app_cons. simpl. by rewrite bool_decide_eq_true_2.
Qed.

Lemma names_occurs (msg s : string) : names msg s → occurs s msg = true.
Proof.
  intros (pre & post & ->). induction pre as [|c pre IH].
  - rewrite string_app_nil_l.
    destruct (s +:+ post) eqn:Heq; simpl; rewrite <-Heq, after_prefix_app; done.
  - rewrite string_app_cons. simpl. rewrite IH. apply orb_true_r.
Qed.

Lemma topological_error_names (x y : string) :
  names (topological_error x y) x ∧ names (topological_error x y) y.
Proof.
  unfold topological_error. split.
  - by eexists _, _.
  - exists ("Topological error: '" +:+ x +:+ "' requires '"). eexists.
    by rewrite !string_app_assoc.
Qed.

(** ** Properties of [ensure_topological_order] *)

Lemma first_split_unique {A} (P : A → Prop) (l1 l2 r1 r2 : list A) (x y : A) :
  l1 ++ x :: r1 = l2 ++ y :: r2 →
  (∀ a, a ∈ l1 → ¬ P a) → P x → (∀ a, a ∈ l2 → ¬ P a) → P y →
  l1 = l2 ∧ x = y ∧ r1 = r2.
Proof.
  revert l2. induction l1 as [|a l1 IH]; intros [|b l2] Heq H1 Hx H2 Hy;
    simpl in Heq; injection Heq as Hhd Htl.
  - by subst.
  - subst b. destruct (H2 x); [by left|done].
  - subst a. destruct (H1 y); [by left|done].
  - subst b. destruct (IH l2) as (-> & -> & ->); try done.
    + intros c Hc. apply H1. by right.
    + intros c Hc. apply H2. by right.
Qed.

Lemma first_missing_dependency_unique mod_ids requires_map x y x' y' :
  first_missing_dependency mod_ids requires_map x y →
  first_missing_dependency mod_ids requires_map x' y' →
  x = x' ∧ y = y'.
Proof.
  intros H1 H2.
  pose proof (first_missing_is_missing _ _ _ _ H1) as Hm1.
  pose proof (first_missing_is_missing _ _ _ _ H2) as Hm2.
  destruct H1 as (dm & rest & before & after & Hl & Hd & Hdm & Hb & Hk & Hn).
  destruct H2 as (dm' & rest' & before' & after' & Hl' & Hd' & Hdm' & Hb' & Hk' & Hn').
  destruct (first_split_unique (λ a, ∃ d, missing_dependency mod_ids requires_map a d)
              dm dm' rest rest' x x') as (_ & <- & _).
  - by rewrite <-Hl, <-Hl'.
  - intros a Ha [d Hmd]. by eapply Hdm.
  - by exists y.
  - intros a Ha [d Hmd]. by eapply Hdm'.
  - by exists y'.
  - split; [done|].
    destruct (first_split_unique (λ d, d ∈ dom requires_map ∧ d ∉ mod_ids)
                before before' after after' y y') as (_ & <- & _); try done.
    + by rewrite <-Hd, <-Hd'.
    + intros d Hd'' [? ?]. auto.
    + intros d Hd'' [? ?]. auto.
Qed.

(** C4.  On a list of distinct mod IDs [ensure_topological_order] ends,
    with an order or with an error; whenever it returns an order, the order
    is a permutation of the list, and every prerequisite of an effective
    dependency edge stands at a strictly smaller position than its
    dependent. *)
Theorem ensure_topological_order_valid (mod_ids : list string)
    (requires_map : gmap string (list string)) :
  NoDup mod_ids →
  is_Some (ensure_topological_order mod_ids requires_map)
  ∧ ∀ order notes : list string,
      ensure_topological_order mod_ids requires_map = Some (Ok (order, notes)) →
      order ≡ₚ mod_ids
      ∧ ∀ d p, effective_edge mod_ids requires_map d p →
               ∃ i j, order !! i = Some p ∧ order !! j = Some d ∧ i < j.
Proof.
  intros Hnd. split; [by apply ensure_topological_order_terminates|].
  intros order notes Hret.
  destruct (build_prereqs mod_ids requires_map) as [prereqs|c e] eqn:Hb;
    [|unfold ensure_topological_order in Hret; by rewrite Hb in Hret].
  destruct (ensure_topological_order_built _ _ Hnd _ Hb)
    as (in_degree & result & _ & Hinv & Heq).
  rewrite Heq in Hret. clear Heq.
  destruct (order_is_valid _ _ prereqs) eqn:Hvalid.
  - injection Hret as <- <-. split; [done|].
    intros d p Hedge. pose proof Hedge as (Hd & Hp & _).
    apply list_elem_of_lookup in Hd as [j Hj].
    apply list_elem_of_lookup in Hp as [i Hi].
    exists i, j. split_and!; [done|done|].
    by eapply (proj1 (order_is_valid_spec _ _ Hnd _ Hb) Hvalid).
  - destruct (decide (length result ≠ length mod_ids)) as [Hlen|Hlen]; [done|].
    injection Hret as <- <-.
    assert (Hperm : result ≡ₚ mod_ids).
    { eapply kahn_result_permutation; [done|]. lia. }
    split; [done|]. intros d p Hedge.
    eapply prereqs_first_positions; [by apply Hinv| |by eapply elem_of_prereqs].
    rewrite Hperm. by destruct Hedge.
Qed.

(** C5, as amended.  If no known prerequisite of a listed mod is missing
    from a list of distinct mod IDs, and the list already places every
    known, present prerequisite strictly before each mod that requires it,
    then [ensure_topological_order] returns exactly the list, with no
    reorder note. *)
Theorem ensure_topological_order_fast_path (mod_ids : list string)
    (requires_map : gmap string (list string)) :
  NoDup mod_ids →
  (∀ x y, ¬ missing_dependency mod_ids requires_map x y) →
  (∀ d p i j, effective_edge mod_ids requires_map d p →
              mod_ids !! i = Some p → mod_ids !! j = Some d → i < j) →
  ensure_topological_order mod_ids requires_map = Some (Ok (mod_ids, [])).
Proof.
  intros Hnd Hnone Horder.
  destruct (build_prereqs_total _ _ Hnone) as [prereqs Hb].
  destruct (ensure_topological_order_built _ _ Hnd _ Hb) as (? & ? & _ & _ & ->).
  by rewrite (proj2 (order_is_valid_spec _ _ Hnd _ Hb) Horder).
Qed.

(** C6, as amended.  For a listed mod [x] with a declared prerequisite
    [y]: if [y] is known but not listed, the run fails, and the message
    names both identifiers of the first such pair that the edge
    construction meets, which is [(x, y)] itself when that pair is the
    first; if [y] is unknown, [y] causes no failure (the edge construction
    succeeds whenever no known prerequisite is missing) and no edge to
    [y] is created. *)
Theorem missing_dependency_rejected (mod_ids : list string)
    (requires_map : gmap string (list string)) (x y : string) :
  x ∈ mod_ids → y ∈ declared requires_map x →
  (y ∈ dom requires_map → y ∉ mod_ids →
   ∃ x' y',
     first_missing_dependency mod_ids requires_map x' y'
     ∧ ensure_topological_order mod_ids requires_map
       = Some (Exit 1 ("ERROR: " +:+ topological_error x' y'))
     ∧ names ("ERROR: " +:+ topological_error x' y') x'
     ∧ names ("ERROR: " +:+ topological_error x' y') y'
     ∧ (first_missing_dependency mod_ids requires_map x y → x' = x ∧ y' = y))
  ∧ (y ∉ dom requires_map →
     ((∀ a b, ¬ missing_dependency mod_ids requires_map a b) →
      ∃ prereqs, build_prereqs mod_ids requires_map = Ok prereqs)
     ∧ ∀ prereqs, build_prereqs mod_ids requires_map = Ok prereqs →
                  y ∉ prereqs !!! x).
Proof.
  intros Hx Hy. split.
  - intros Hk Hn.
    destruct (build_prereqs mod_ids requires_map) as [prereqs|c e] eqn:Hb.
    { by destruct (proj1 (build_prereqs_ok _ _ _ Hb) x y). }
    pose proof Hb as (x' & y' & Hfirst & -> & ->)%build_prereqs_exit.
    exists x', y'. split_and!; [done| | | |].
    + unfold ensure_topological_order. by rewrite Hb.
    + destruct (topological_error_names x' y') as [(pre & post & Heq) _].
      exists ("ERROR: " +:+ pre), post. by rewrite Heq, !string_app_assoc.
    + destruct (topological_error_names x' y') as [_ (pre & post & Heq)].
      exists ("ERROR: " +:+ pre), post. by rewrite Heq, !string_app_assoc.
    + intros Hxy. by destruct (first_missing_dependency_unique _ _ _ _ _ _ Hfirst Hxy).
  - intros Hk. split; [apply build_prereqs_total|].
    intros prereqs Hb [_ [_ [_ ?]]]%(elem_of_prereqs _ _ _ _ _ Hb). done.
Qed.

(** C7.  On a list of distinct mod IDs whose effective dependency graph
    has a cycle, [ensure_topological_order] fails; when the edge
    construction itself succeeds the failure is the cycle error, computed
    from the full set of mods that the elimination did not remove, which
    contains every mod on a cycle.  For the cycle A→B→C→A the error names
    A, B and C. *)
Theorem cycle_detected :
  (∀ (mod_ids : list string) (requires_map : gmap string (list string)) (x : string),
     NoDup mod_ids →
     tc (effective_edge mod_ids requires_map) x x →
     (∃ c e, ensure_topological_order mod_ids requires_map = Some (Exit c e))
     ∧ ((∀ a b, ¬ missing_dependency mod_ids requires_map a b) →
        ∃ prereqs result,
          build_prereqs mod_ids requires_map = Ok prereqs
          ∧ kahn_sort mod_ids (py.dict_of (py.enumerate mod_ids)) prereqs = Some result
          ∧ ensure_topological_order mod_ids requires_map
            = Some (_fatal (cycle_error (cycle_mods mod_ids result)))
          ∧ (∀ m, m ∈ cycle_mods mod_ids result ↔ m ∈ mod_ids ∧ m ∉ result)
          ∧ (∀ m, tc (effective_edge mod_ids requires_map) m m →
                  m ∈ cycle_mods mod_ids result)))
  ∧ ensure_topological_order ["A"; "B"; "C"]
      (py.dict_of [("A", ["B"]); ("B", ["C"]); ("C", ["A"])])
    = Some (Exit 1 "ERROR: Dependency cycle detected among 3 mod(s): A, B, C").
Proof.
  split; [|by vm_compute].
  intros mod_ids requires_map x Hnd Hcycle.
  assert (Hbuilt : ∀ prereqs, build_prereqs mod_ids requires_map = Ok prereqs →
    ∃ result,
      kahn_sort mod_ids (py.dict_of (py.enumerate mod_ids)) prereqs = Some result
      ∧ ensure_topological_order mod_ids requires_map
        = Some (_fatal (cycle_error (cycle_mods mod_ids result)))
      ∧ (∀ m, m ∈ cycle_mods mod_ids result ↔ m ∈ mod_ids ∧ m ∉ result)
      ∧ (∀ m, tc (effective_edge mod_ids requires_map) m m →
              m ∈ cycle_mods mod_ids result)).
  { intros prereqs Hb.
    destruct (ensure_topological_order_built _ _ Hnd _ Hb)
      as (in_degree & result & Hk & Hinv & Heq).
    assert (Hout : ∀ m, tc (effective_edge mod_ids requires_map) m m →
                        m ∈ mod_ids ∧ m ∉ result).
    { intros m Hm. split.
      - assert (Hl : ∀ a b, tc (effective_edge mod_ids requires_map) a b → a ∈ mod_ids)
          by (intros a b [? ? [? _]|? ? ? [? _] _]; done).
        by eapply Hl.
      - eapply prereqs_first_acyclic; [apply Hinv|apply Hinv|].
        by eapply tc_effective_edge. }
    assert (Hmem : ∀ m, m ∈ cycle_mods mod_ids result ↔ m ∈ mod_ids ∧ m ∉ result).
    { intros m. unfold cycle_mods.
      rewrite list_elem_of_filter, elem_of_list_to_set. tauto. }
    exists result. split_and!; [done| |done|].
    - rewrite Heq. destruct (order_is_valid _ _ prereqs) eqn:Hvalid.
      + exfalso. pose proof (proj1 (order_is_valid_spec _ _ Hnd _ Hb) Hvalid) as Hord.
        assert (Hdec : ∀ a b, tc (effective_edge mod_ids requires_map) a b →
                  ∃ i j, mod_ids !! i = Some b ∧ mod_ids !! j = Some a ∧ i < j).
        { intros a b Htc. induction Htc as [a b Hab|a b c Hab Hbc IH].
          - pose proof Hab as (Ha & Hb' & _).
            apply list_elem_of_lookup in Ha as [j Hj].
            apply list_elem_of_lookup in Hb' as [i Hi].
            exists i, j. split_and!; [done|done|]. by eapply Hord.
          - destruct IH as (i & j & Hi & Hj & Hij).
            pose proof Hab as (Ha & _).
            apply list_elem_of_lookup in Ha as [k Hk'].
            exists i, k. split_and!; [done|done|].
            assert (j < k) by (by eapply Hord). lia. }
        destruct (Hdec x x Hcycle) as (i & j & Hi & Hj & Hij).
        assert (i = j) by (by eapply NoDup_lookup). lia.
      + destruct (decide (length result ≠ length mod_ids)) as [|Hlen]; [done|].
        exfalso. destruct (Hout x Hcycle) as [Hx Hxr]. apply Hxr.
        assert (Hperm : result ≡ₚ mod_ids).
        { eapply kahn_result_permutation; [done|]. lia. }
        by rewrite Hperm.
    - intros m Hm. by apply Hmem, Hout. }
  split.
  - destruct (build_prereqs mod_ids requires_map) as [prereqs|c e] eqn:Hb.
    + destruct (Hbuilt prereqs eq_refl) as (result & _ & -> & _). by eexists _, _.
    + unfold ensure_topological_order. rewrite Hb. by eexists _, _.
  - intros Hnone. destruct (build_prereqs_total _ _ Hnone) as [prereqs Hb].
    destruct (Hbuilt prereqs Hb) as (result & ? & ? & ? & ?).
    by exists prereqs, result.
Qed.

(** ** Examples for the dependency sorter *)

Lemma ensure_topological_order_valid_witness :
  NoDup ["A"; "B"; "C"]
  ∧ ensure_topological_order ["A"; "B"; "C"] chain_requires
    = Some (Ok (["C"; "B"; "A"], ["  'A': position 0 → 2"; "  'C': position 2 → 0"]))
  ∧ ["C"; "B"; "A"] ≡ₚ ["A"; "B"; "C"]
  ∧ ∀ d p, effective_edge ["A"; "B"; "C"] chain_requires d p →
           ∃ i j, ["C"; "B"; "A"] !! i = Some p ∧ ["C"; "B"; "A"] !! j = Some d ∧ i < j.
Proof.
  assert (Hnd : NoDup ["A"; "B"; "C"]) by by_computation.
  assert (Hret : ensure_topological_order ["A"; "B"; "C"] chain_requires
                 = Some (Ok (["C"; "B"; "A"],
                             ["  'A': position 0 → 2"; "  'C': position 2 → 0"])))
    by (by vm_compute).
  split; [exact Hnd|]. split; [exact Hret|].
  exact (proj2 (ensure_topological_order_valid ["A"; "B"; "C"] chain_requires Hnd)
           _ _ Hret).
Defined.

(** The literal claim C5 fails where a known prerequisite is not listed:
    X requires Y, Y is known, and only X is listed.  No known, present
    prerequisite is out of place, yet the call does not return the list:
    it exits with the missing-dependency error. *)
Lemma fast_path_counterexample :
  NoDup ["X"]
  ∧ (∀ d p i j, effective_edge ["X"] x_requires_y d p →
                ["X"] !! i = Some p → ["X"] !! j = Some d → i < j)
  ∧ ensure_topological_order ["X"] x_requires_y ≠ Some (Ok (["X"], []))
  ∧ ensure_topological_order ["X"] x_requires_y
    = Some (Exit 1 "ERROR: Topological error: 'X' requires 'Y', but 'Y' is not listed in mods.txt.
Add 'Mod ID: Y' to mods.txt.").
Proof.
  split_and!.
  - by_computation.
  - intros d p i j (Hd & Hp & Hdecl & _) _ _.
    apply list_elem_of_singleton in Hd, Hp. subst d p.
    vm_compute in Hdecl. by apply list_elem_of_singleton in Hdecl.
  - by vm_compute.
  - by vm_compute.
Qed.

Lemma ensure_topological_order_fast_path_witness :
  ensure_topological_order ["B"; "A"] (py.dict_of [("A", ["B"]); ("B", [])])
  = Some (Ok (["B"; "A"], [])).
Proof.
  assert (Hnd : NoDup ["B"; "A"]) by by_computation.
  assert (Hb : build_prereqs ["B"; "A"] (py.dict_of [("A", ["B"]); ("B", [])])
               = Ok (py.dict_of [("B", ∅); ("A", {["B"]})])) by (by vm_compute).
  apply (ensure_topological_order_fast_path ["B"; "A"]
           (py.dict_of [("A", ["B"]); ("B", [])])).
  - exact Hnd.
  - exact (proj1 (build_prereqs_ok _ _ _ Hb)).
  - apply (proj1 (order_is_valid_spec _ _ Hnd _ Hb)). by vm_compute.
Defined.

(** The literal claim C6 fails where two dependencies are missing: the
    run stops at the first pair, (ModA, LibB), and its message names
    neither ModC nor LibD, although ModC is listed and requires the known,
    unlisted LibD. *)
Lemma missing_dependency_counterexample :
  "ModC" ∈ ["ModA"; "ModC"]
  ∧ "LibD" ∈ declared two_requirements "ModC"
  ∧ "LibD" ∈ dom two_requirements
  ∧ ("LibD" ∉ ["ModA"; "ModC"])
  ∧ ensure_topological_order ["ModA"; "ModC"] two_requirements
    = Some (Exit 1 "ERROR: Topological error: 'ModA' requires 'LibB', but 'LibB' is not listed in mods.txt.
Add 'Mod ID: LibB' to mods.txt.")
  ∧ ¬ names "ERROR: Topological error: 'ModA' requires 'LibB', but 'LibB' is not listed in mods.txt.
Add 'Mod ID: LibB' to mods.txt." "ModC"
  ∧ ¬ names "ERROR: Topological error: 'ModA' requires 'LibB', but 'LibB' is not listed in mods.txt.
Add 'Mod ID: LibB' to mods.txt." "LibD".
Proof.
  split_and!; try by_computation.
  - by vm_compute.
  - intros H%names_occurs. by vm_compute in H.
  - intros H%names_occurs. by vm_compute in H.
Qed.

Lemma missing_dependency_rejected_witness :
  ∃ x' y',
    first_missing_dependency ["ModA"] two_requirements x' y'
    ∧ ensure_topological_order ["ModA"] two_requirements
      = Some (Exit 1 ("ERROR: " +:+ topological_error x' y'))
    ∧ names ("ERROR: " +:+ topological_error x' y') x'
    ∧ names ("ERROR: " +:+ topological_error x' y') y'
    ∧ (first_missing_dependency ["ModA"] two_requirements "ModA" "LibB" →
       x' = "ModA" ∧ y' = "LibB").
Proof.
  assert (Hx : "ModA" ∈ ["ModA"]) by by_computation.
  assert (Hy : "LibB" ∈ declared two_requirements "ModA") by by_computation.
  apply (proj1 (missing_dependency_rejected ["ModA"] two_requirements "ModA" "LibB"
                  Hx Hy));
    by_computation.
Defined.

Lemma cycle_detected_witness :
  ∃ c e, ensure_topological_order ["A"; "B"; "C"] cycle_requires = Some (Exit c e).
Proof.
  assert (Hnd : NoDup ["A"; "B"; "C"]) by by_computation.
  assert (Hcycle : tc (effective_edge ["A"; "B"; "C"] cycle_requires) "A" "A").
  { apply (tc_l _ "A" "B" "A"); [effective_edge_holds|].
    apply (tc_l _ "B" "C" "A"); [effective_edge_holds|].
    apply tc_once. effective_edge_holds. }
  exact (proj1 (proj1 cycle_detected ["A"; "B"; "C"] cycle_requires "A" Hnd Hcycle)).
Defined.

(** ** Properties of [parse_mods_txt] *)

Lemma filter_all {A} (P : A → Prop) `{!∀ x, Decision (P x)} (l : list A) :
  (∀ x, P x) → filter P l = l.
Proof.
  intros HP. induction l as [|x l IH]; [done|].
  by rewrite filter_cons_True, IH.
Qed.

Lemma first_occurrences_filter (P : string → Prop) `{!∀ x, Decision (P x)}
    (l : list string) :
  filter P (first_occurrences l) = first_occurrences (filter P l).
Proof.
  induction l as [|x l IH]; [done|]. simpl.
  destruct (decide (P x)) as [Hx|Hx].
  - rewrite !filter_cons_True by done. simpl. f_equal.
    rewrite <-IH, !list_filter_filter. apply list_filter_iff. intros y. tauto.
  - rewrite !filter_cons_False by done. rewrite <-IH, list_filter_filter.
    apply list_filter_iff. intros y. split; [tauto|]. intros Hy. split; [done|].
    by intros ->.
Qed.

Lemma elem_of_first_occurrences (l : list string) (x : string) :
  x ∈ first_occurrences l ↔ x ∈ l.
Proof.
  induction l as [|y l IH]; [done|]. simpl.
  rewrite !elem_of_cons, list_elem_of_filter, IH.
  destruct (decide (x = y)); tauto.
Qed.

Lemma first_occurrences_nodup (l : list string) : NoDup (first_occurrences l).
Proof.
  induction l as [|x l IH]; simpl; [constructor|].
  apply NoDup_cons. split; [|by apply NoDup_filter].
  rewrite list_elem_of_filter. tauto.
Qed.

(** The loop "append when not yet seen", started with [seen] holding the
    elements of [out], keeps the first occurrences of the new elements. *)
Lemma seen_loop (keep : string → bool) (l out : list string) (seen : gset string) :
  seen = list_to_set out →
  (foldl (λ '(out, seen) x,
            if keep x && bool_decide (x ∉ seen)
            then (out ++ [x], seen ∪ {[x]}) else (out, seen))
         (out, seen) l).1
  = out ++ first_occurrences (filter (λ x, keep x ∧ x ∉ out) l).
Proof.
  revert out seen. induction l as [|x l IH]; intros out seen ->; simpl.
  - by rewrite app_nil_r.
  - destruct (keep x) eqn:Hk; simpl.
    + destruct (decide (x ∈ out)) as [Hin|Hout].
      * rewrite bool_decide_eq_false_2 by (rewrite elem_of_list_to_set; tauto).
        rewrite IH by done. by rewrite filter_cons_False by tauto.
      * rewrite bool_decide_eq_true_2 by (by rewrite elem_of_list_to_set).
        rewrite IH by (by rewrite list_to_set_app_L; simpl; set_solver).
        rewrite filter_cons_True by (by rewrite Hk). simpl.
        rewrite <-(assoc_L (++)). simpl. do 2 f_equal.
        rewrite first_occurrences_filter, list_filter_filter. f_equal.
        apply list_filter_iff. intros y. rewrite elem_of_app, list_elem_of_singleton.
        tauto.
    + rewrite IH by done. rewrite filter_cons_False; [done|]. rewrite Hk.
      intros [[] _].
Qed.

Lemma add_block_mods_app (acc : list string * gset string) (l1 l2 : list string) :
  add_block_mods acc (l1 ++ l2) = add_block_mods (add_block_mods acc l1) l2.
Proof. unfold add_block_mods. by rewrite foldl_app. Qed.

(** The loop over the blocks is the workshop loop over the workshop IDs of
    the blocks beside the mod loop over all their mod IDs. *)
Lemma parse_mods_txt_loop_split (bs : list ModBlock) :
  parse_mods_txt_loop bs
  = (foldl (λ '(workshop_ids, seen_workshops) wid,
              if true && bool_decide (wid ∉ seen_workshops)
              then (workshop_ids ++ [wid], seen_workshops ∪ {[wid]})
              else (workshop_ids, seen_workshops))
           ([], (∅ : gset string)) (workshop_id <$> bs),
     add_block_mods ([], ∅) (bs ≫= mod_ids)).
Proof.
  unfold parse_mods_txt_loop.
  induction bs as [|b bs IH] using rev_ind; [done|].
  rewrite foldl_snoc, IH, fmap_app, bind_app, foldl_app, add_block_mods_app.
  simpl. rewrite app_nil_r.
  by destruct (foldl _ ([], ∅) (workshop_id <$> bs)) as [ws seen].
Qed.

(** ** Properties of the conflict detectors *)

Section conflicts.
Context {V : Type} `{Countable V} (claims : ItemDir → list V).

(** One item adds its label once under each value it claims, however
    often it claims the value. *)
Lemma claim_item_fold (label : string) (cl : list V)
    (value_to_mods : gmap V (list string)) (seen : gset V) (v : V) :
  (foldl (λ '(value_to_mods, seen) v,
            if bool_decide (v ∉ seen)
            then (<[v := default [] (value_to_mods !! v) ++ [label]]> value_to_mods,
                  seen ∪ {[v]})
            else (value_to_mods, seen))
         (value_to_mods, seen) cl).1 !! v
  = if decide (v ∈ cl ∧ v ∉ seen)
    then Some (default [] (value_to_mods !! v) ++ [label])
    else value_to_mods !! v.
Proof.
  revert value_to_mods seen. induction cl as [|c cl IH]; intros m seen; simpl.
  - done.
  - destruct (decide (c ∈ seen)) as [Hc|Hc].
    + rewrite bool_decide_eq_false_2 by tauto. rewrite IH.
      destruct (decide (v ∈ cl ∧ v ∉ seen)) as [[Hv Hs]|Hn];
        destruct (decide (v ∈ c :: cl ∧ v ∉ seen)) as [[Hv' Hs']|Hn']; try done.
      * exfalso. apply Hn'. split; [by right|done].
      * exfalso. apply Hn. split; [|done].
        apply elem_of_cons in Hv' as [->|?]; done.
    + rewrite bool_decide_eq_true_2 by done. rewrite IH.
      destruct (decide (v = c)) as [->|Hne].
      * rewrite lookup_insert_eq.
        rewrite decide_False by (intros [_ Hs]; apply Hs, elem_of_union; right;
                                 by apply elem_of_singleton).
        rewrite decide_True; [done|]. split; [by left|done].
      * rewrite !lookup_insert_ne by done.
        destruct (decide (v ∈ cl ∧ v ∉ seen ∪ {[c]})) as [[Hv Hs]|Hn];
          destruct (decide (v ∈ c :: cl ∧ v ∉ seen)) as [[Hv' Hs']|Hn']; try done.
        -- exfalso. apply Hn'. split; [by right|].
           intros ?. apply Hs, elem_of_union. by left.
        -- exfalso. apply Hn. split.
           ++ apply elem_of_cons in Hv' as [->|?]; done.
           ++ intros [?|?%elem_of_singleton]%elem_of_union; done.
Qed.

Lemma claim_item_lookup (label : string) (cl : list V)
    (value_to_mods : gmap V (list string)) (v : V) :
  claim_item label cl value_to_mods !! v
  = if decide (v ∈ cl) then Some (default [] (value_to_mods !! v) ++ [label])
    else value_to_mods !! v.
Proof.
  unfold claim_item. rewrite claim_item_fold.
  destruct (decide (v ∈ cl ∧ v ∉ (∅ : gset V))) as [[Hv _]|Hn];
    destruct (decide (v ∈ cl)) as [Hv'|Hn']; try done.
  exfalso. apply Hn. split; [done|]. apply not_elem_of_empty.
Qed.

(** Before the filter, the table holds under each value the labels of
    its claimants, in processing order. *)
Lemma claims_table_lookup (workshop_root : gmap string ItemDir)
    (workshop_ids : list string) (v : V) :
  foldl (λ value_to_mods wid,
           match workshop_root !! wid with
           | None => value_to_mods
           | Some item =>
               claim_item (_mod_label_for_dir item) (claims item) value_to_mods
           end) ∅ workshop_ids !! v
  = match claimants claims workshop_root workshop_ids v with
    | [] => None
    | labels => Some labels
    end.
Proof.
  induction workshop_ids as [|wid wids IH] using rev_ind; [done|].
  rewrite foldl_snoc. unfold claimants in *. rewrite omap_app. simpl.
  destruct (workshop_root !! wid) as [item|] eqn:Hitem; simpl.
  - rewrite claim_item_lookup, IH. destruct (decide (v ∈ claims item)).
    + by destruct (omap _ wids).
    + rewrite app_nil_r. by destruct (omap _ wids).
  - rewrite IH, app_nil_r. by destruct (omap _ wids).
Qed.

(** The mapping returned: under [v], the labels of its claimants when
    there are at least two, nothing otherwise. *)
Lemma check_conflicts_lookup (workshop_root : gmap string ItemDir)
    (workshop_ids : list string) (v : V) :
  check_conflicts claims workshop_root workshop_ids !! v
  = if decide (1 < length (claimants claims workshop_root workshop_ids v))
    then Some (claimants claims workshop_root workshop_ids v) else None.
Proof.
  unfold check_conflicts. rewrite map_lookup_filter, claims_table_lookup.
  destruct (claimants claims workshop_root workshop_ids v) as [|l ls] eqn:Hc; simpl.
  - done.
  - rewrite option_guard_decide. simpl. by repeat case_decide.
Qed.

Lemma claimants_permutation (workshop_root : gmap string ItemDir)
    (workshop_ids workshop_ids' : list string) (v : V) :
  workshop_ids ≡ₚ workshop_ids' →
  claimants claims workshop_root workshop_ids v
  ≡ₚ claimants claims workshop_root workshop_ids' v.
Proof. intros Hp. unfold claimants. by rewrite Hp. Qed.

(** Among distinct workshop IDs, a value has at least two claimants
    exactly when two different workshop items claim it. *)
Lemma claimants_two (workshop_root : gmap string ItemDir)
    (workshop_ids : list string) (v : V) :
  NoDup workshop_ids →
  1 < length (claimants claims workshop_root workshop_ids v)
  ↔ ∃ w1 w2 item1 item2,
      w1 ≠ w2 ∧ w1 ∈ workshop_ids ∧ w2 ∈ workshop_ids
      ∧ workshop_root !! w1 = Some item1 ∧ workshop_root !! w2 = Some item2
      ∧ v ∈ claims item1 ∧ v ∈ claims item2.
Proof.
  set (claiming := λ wid, ∃ item, workshop_root !! wid = Some item ∧ v ∈ claims item).
  unfold claimants.
  set (f := λ wid, item ← workshop_root !! wid;
              if decide (v ∈ claims item) then Some (_mod_label_for_dir item)
              else None).
  assert (Hone : ∀ wid, f wid ≠ None ↔ claiming wid).
  { intros wid. unfold claiming, f.
    destruct (workshop_root !! wid) as [item|]; simpl.
    - destruct (decide (v ∈ claims item)); split; try done.
      + intros _. by exists item.
      + intros (? & [= <-] & ?). done.
    - split; [done|]. by intros (? & ? & ?). }
  intros Hnd. split.
  - induction Hnd as [|w ws Hw Hnd IH]; [simpl; lia|].
    change (omap f (w :: ws))
      with (match f w with Some y => y :: omap f ws | None => omap f ws end).
    destruct (f w) as [l|] eqn:Hl.
    + intros Hlen.
      destruct (omap f ws) as [|l' ls] eqn:Hom; [simpl in Hlen; lia|].
      assert (Hin : l' ∈ omap f ws) by (rewrite Hom; by left).
      apply list_elem_of_omap in Hin as (w2 & Hw2 & Hl2).
      destruct (proj1 (Hone w)) as (i1 & ? & ?); [by rewrite Hl|].
      destruct (proj1 (Hone w2)) as (i2 & ? & ?); [by rewrite Hl2|].
      exists w, w2, i1, i2. split_and!; try done; [by intros ->|by left|by right].
    + intros Hlen. destruct (IH Hlen) as (w1 & w2 & i1 & i2 & ? & ? & ? & ?).
      exists w1, w2, i1, i2. split_and!; try tauto; by right.
  - intros (w1 & w2 & i1 & i2 & Hne & Hw1 & Hw2 & H1 & H2 & Hv1 & Hv2).
    assert (Hsub : [w1; w2] ⊆+ workshop_ids).
    { apply NoDup_submseteq.
      - apply NoDup_cons. split; [by intros ?%list_elem_of_singleton|].
        apply NoDup_singleton.
      - intros x [->|[->|?%elem_of_nil]%elem_of_cons]%elem_of_cons; done. }
    apply submseteq_Permutation in Hsub as [k Hk].
    rewrite Hk, omap_app, length_app.
    assert (Hf1 : f w1 = Some (_mod_label_for_dir i1)).
    { unfold f. rewrite H1. simpl. by rewrite decide_True. }
    assert (Hf2 : f w2 = Some (_mod_label_for_dir i2)).
    { unfold f. rewrite H2. simpl. by rewrite decide_True. }
    change (omap f [w1; w2])
      with (match f w1 with
            | Some y => y :: match f w2 with Some z => [z] | None => [] end
            | None => match f w2 with Some z => [z] | None => [] end
            end).
    rewrite Hf1, Hf2. simpl. lia.
Qed.

End conflicts.

(** What both detectors do for distinct workshop IDs, for any way of
    reading the claims of an item. *)
Lemma check_conflicts_report {V} `{Countable V} (claims : ItemDir → list V)
    (workshop_root : gmap string ItemDir) (workshop_ids : list string) (v : V) :
  NoDup workshop_ids →
  (is_Some (check_conflicts claims workshop_root workshop_ids !! v)
   ↔ ∃ w1 w2 item1 item2,
       w1 ≠ w2 ∧ w1 ∈ workshop_ids ∧ w2 ∈ workshop_ids
       ∧ workshop_root !! w1 = Some item1 ∧ workshop_root !! w2 = Some item2
       ∧ v ∈ claims item1 ∧ v ∈ claims item2)
  ∧ (∀ labels, check_conflicts claims workshop_root workshop_ids !! v = Some labels →
               labels = claimants claims workshop_root workshop_ids v)
  ∧ (∀ workshop_ids' labels,
       workshop_ids ≡ₚ workshop_ids' →
       check_conflicts claims workshop_root workshop_ids !! v = Some labels →
       ∃ labels', check_conflicts claims workshop_root workshop_ids' !! v = Some labels'
                  ∧ labels' ≡ₚ labels).
Proof.
  intros Hnd. split_and!.
  - rewrite check_conflicts_lookup, <-(claimants_two claims _ _ _ Hnd).
    case_decide; split; [done|by eexists|by intros [? ?]|done].
  - intros labels. rewrite check_conflicts_lookup. case_decide; congruence.
  - intros workshop_ids' labels Hperm. rewrite !check_conflicts_lookup.
    pose proof (claimants_permutation claims workshop_root _ _ v Hperm) as Hcl.
    case_decide as Hlen; [|done]. intros [= <-].
    rewrite decide_True by (by rewrite <-Hcl). by eexists.
Qed.

(** C8.  For distinct workshop IDs, each detector reports a value exactly
    when two different workshop items that are directories claim it; the
    labels under a reported value are those of its claimants, one per
    workshop item however often the item repeats the claim, in processing
    order; processing the items in another order reports the same values
    with the same labels.  For two items that both hold the lotheader of
    cell (5,7), both labels stand under (5,7) in either order. *)
Theorem conflict_detectors_report :
  (∀ (workshop_root : gmap string ItemDir) (workshop_ids : list string),
     NoDup workshop_ids →
     (∀ n : Z,
        (is_Some (check_tiledef_conflicts workshop_root workshop_ids !! n)
         ↔ ∃ w1 w2 item1 item2,
             w1 ≠ w2 ∧ w1 ∈ workshop_ids ∧ w2 ∈ workshop_ids
             ∧ workshop_root !! w1 = Some item1 ∧ workshop_root !! w2 = Some item2
             ∧ n ∈ tiledef_claims item1 ∧ n ∈ tiledef_claims item2)
        ∧ (∀ labels,
             check_tiledef_conflicts workshop_root workshop_ids !! n = Some labels →
             labels = claimants tiledef_claims workshop_root workshop_ids n)
        ∧ (∀ workshop_ids' labels,
             workshop_ids ≡ₚ workshop_ids' →
             check_tiledef_conflicts workshop_root workshop_ids !! n = Some labels →
             ∃ labels',
               check_tiledef_conflicts workshop_root workshop_ids' !! n = Some labels'
               ∧ labels' ≡ₚ labels))
     ∧ (∀ c : Z * Z,
        (is_Some (check_map_coord_conflicts workshop_root workshop_ids !! c)
         ↔ ∃ w1 w2 item1 item2,
             w1 ≠ w2 ∧ w1 ∈ workshop_ids ∧ w2 ∈ workshop_ids
             ∧ workshop_root !! w1 = Some item1 ∧ workshop_root !! w2 = Some item2
             ∧ c ∈ coord_claims item1 ∧ c ∈ coord_claims item2)
        ∧ (∀ labels,
             check_map_coord_conflicts workshop_root workshop_ids !! c = Some labels →
             labels = claimants coord_claims workshop_root workshop_ids c)
        ∧ (∀ workshop_ids' labels,
             workshop_ids ≡ₚ workshop_ids' →
             check_map_coord_conflicts workshop_root workshop_ids !! c = Some labels →
             ∃ labels',
               check_map_coord_conflicts workshop_root workshop_ids' !! c = Some labels'
               ∧ labels' ≡ₚ labels)))
  ∧ check_map_coord_conflicts two_item_root ["111"; "222"] !! (5, 7)%Z
    = Some ["Mod A [111]"; "222"]
  ∧ check_map_coord_conflicts two_item_root ["222"; "111"] !! (5, 7)%Z
    = Some ["222"; "Mod A [111]"]
  ∧ check_tiledef_conflicts two_item_root ["111"; "222"] !! 100%Z
    = Some ["Mod A [111]"; "222"]
  ∧ check_tiledef_conflicts two_item_root ["111"; "222"] !! 101%Z = None.
Proof.
  split; [|split_and!; by vm_compute].
  intros workshop_root workshop_ids Hnd. split.
  - intros n. by apply check_conflicts_report.
  - intros c. by apply check_conflicts_report.
Qed.

Lemma conflict_detectors_report_witness :
  NoDup ["111"; "222"]
  ∧ check_map_coord_conflicts two_item_root ["111"; "222"] !! (5, 7)%Z
    = Some (claimants coord_claims two_item_root ["111"; "222"] (5, 7)%Z).
Proof.
  assert (Hnd : NoDup ["111"; "222"]) by by_computation.
  split; [exact Hnd|].
  assert (Hlk : check_map_coord_conflicts two_item_root ["111"; "222"] !! (5, 7)%Z
                = Some ["Mod A [111]"; "222"]) by (by vm_compute).
  rewrite Hlk. apply (f_equal Some).
  exact (proj1 (proj2 (proj2 (proj1 conflict_detectors_report two_item_root
                                ["111"; "222"] Hnd) (5, 7)%Z)) _ Hlk).
Defined.

(** ** Properties of the configuration rewriters *)

Lemma concat_splitlines_keepends (s : string) :
  py.concat (py.splitlines_keepends s) = s.
Proof.
  induction s as [|c s IH]; [done|]. simpl.
  assert (Hglue : py.concat
            match py.splitlines_keepends s with
            | [] => [String c ""]
            | line :: lines => String c line :: lines
            end = String c s).
  { rewrite <-IH at 2. by destruct (py.splitlines_keepends s). }
  destruct (py.is_linebreak c); [|done].
  assert (Hbreak : py.concat (String c "" :: py.splitlines_keepends s) = String c s).
  { unfold py.concat in *. simpl. by rewrite IH. }
  destruct c as [[] [] [] [] [] [] [] []]; try done; by destruct s as [|[[] [] [] [] [] [] [] []] ?].
Qed.

(** The loop on output and skip flag relates the lines to the output as
    [rewritten] says. *)
Lemma scan_rewritten (target : string → option string) (cont : string → bool)
    (lines : list string) :
  (∀ out0, ∃ out,
     rewritten target cont lines out
     ∧ (foldl (scan_step target cont) (out0, false) lines).1 = out0 ++ out)
  ∧ (∀ out0, ∃ conts rest out,
       lines = conts ++ rest
       ∧ Forall (λ l, cont (py.rstrip_crlf l) = true) conts
       ∧ (∀ l, head rest = Some l → cont (py.rstrip_crlf l) = false)
       ∧ rewritten target cont rest out
       ∧ (foldl (scan_step target cont) (out0, true) lines).1 = out0 ++ out).
Proof.
  induction lines as [|raw lines [IHP IHQ]].
  - split; intros out0.
    + exists []. split; [constructor|]. by rewrite app_nil_r.
    + exists [], [], []. split_and!; try done; [constructor|]. by rewrite app_nil_r.
  - assert (HP : ∀ out0, ∃ out,
       rewritten target cont (raw :: lines) out
       ∧ (foldl (scan_step target cont) (out0, false) (raw :: lines)).1 = out0 ++ out).
    { intros out0. simpl. unfold scan_step at 2. simpl.
      destruct (target (py.rstrip_crlf raw)) as [new|] eqn:Ht.
      - destruct (IHQ (out0 ++ [new])) as (conts & rest & out & -> & Hc & Hh & Hr & Heq).
        exists (new :: out). split; [by apply rewritten_key|].
        by rewrite Heq, <-(assoc_L (++)).
      - destruct (IHP (out0 ++ [raw])) as (out & Hr & Heq).
        exists (raw :: out). split; [by apply rewritten_keep|].
        by rewrite Heq, <-(assoc_L (++)). }
    split; [done|]. intros out0.
    destruct (cont (py.rstrip_crlf raw)) eqn:Hcont.
    + destruct (IHQ out0) as (conts & rest & out & -> & Hc & Hh & Hr & Heq).
      exists (raw :: conts), rest, out. split_and!; try done.
      * by constructor.
      * simpl. unfold scan_step at 2. simpl. by rewrite Hcont.
    + destruct (HP out0) as (out & Hr & Heq).
      exists [], (raw :: lines), out. split_and!; try done.
      * by intros l [= <-].
      * rewrite <-Heq. simpl. unfold scan_step at 2 4. simpl. by rewrite Hcont.
Qed.

(** *** Key lines are not continuation lines *)

Lemma rstrip_with_idem (p : ascii → bool) (s : string) :
  py.rstrip_with p (py.rstrip_with p s) = py.rstrip_with p s.
Proof.
  induction s as [|c s IH]; [done|]. simpl.
  destruct (py.rstrip_with p s) as [|c' r] eqn:Hr.
  - destruct (p c) eqn:Hp; [done|]. simpl. by rewrite Hp.
  - simpl in *. by rewrite IH.
Qed.

Lemma isalpha_lower_char (c : ascii) :
  py.isalpha (py.lower_char c) = true → py.isalpha c = true.
Proof. by destruct c as [[] [] [] [] [] [] [] []]; vm_compute. Qed.

Lemma isalpha_isword (c : ascii) : py.isalpha c = true → py.isword c = true.
Proof. unfold py.isword. by intros ->. Qed.

Lemma after_prefix_ci_word (key s r : string) :
  all_alpha key = true → py.after_prefix_ci key s = Some r →
  py.drop_while py.isword s = py.drop_while py.isword r
  ∧ (key ≠ "" → ∃ c s', s = String c s' ∧ py.isalpha c = true).
Proof.
  revert s. induction key as [|k key IH]; intros s Hall Hpre; simpl in *.
  - injection Hpre as ->. done.
  - destruct s as [|c s]; [done|].
    apply andb_true_iff in Hall as [Hk Hall].
    destruct (bool_decide (k = py.lower_char c)) eqn:Hc; [|done].
    apply bool_decide_eq_true_1 in Hc. subst k.
    apply isalpha_lower_char in Hk.
    destruct (IH s Hall Hpre) as [Hdrop _]. split.
    + simpl. by rewrite (isalpha_isword c Hk).
    + intros _. by exists c, s.
Qed.

Lemma matches_key_looks_like_key (key s : string) :
  key ≠ "" → all_alpha key = true →
  matches_key key s = true → looks_like_key s = true.
Proof.
  intros Hne Hall. unfold matches_key.
  destruct (py.after_prefix_ci key s) as [r|] eqn:Hpre; [|done]. intros Hm.
  destruct (after_prefix_ci_word key s r Hall Hpre) as [Hdrop Hhd].
  destruct (Hhd Hne) as (c & s' & -> & Hc). simpl. rewrite Hc. simpl.
  simpl in Hdrop. rewrite (isalpha_isword c Hc) in Hdrop. rewrite Hdrop.
  destruct r as [|a r]; [done|]. simpl.
  destruct (py.isword a) eqn:Hw; [|done].
  exfalso. simpl in Hm.
  destruct (py.isspace a) eqn:Hs.
  - by destruct a as [[] [] [] [] [] [] [] []].
  - unfold py.startswith in Hm. simpl in Hm.
    destruct (bool_decide ("="%char = a)) eqn:Ha; [|done].
    apply bool_decide_eq_true_1 in Ha. by subst a.
Qed.

Lemma continuation_not_key (key raw : string) :
  key ≠ "" → all_alpha key = true →
  _is_continuation (py.rstrip_crlf raw) = true →
  matches_key key (py.rstrip_crlf raw) = false.
Proof.
  intros Hne Hall. unfold _is_continuation, py.rstrip_crlf.
  rewrite rstrip_with_idem. intros Hc.
  destruct (matches_key key _) eqn:Hm; [|done].
  apply (matches_key_looks_like_key key _ Hne Hall) in Hm. rewrite Hm in Hc.
  by rewrite andb_false_r in Hc.
Qed.

Lemma mods_not_workshopitems (s : string) :
  matches_key "mods" s = true → matches_key "workshopitems" s = false.
Proof.
  unfold matches_key. destruct s as [|c s]; [done|]. simpl.
  destruct (bool_decide ("m"%char = py.lower_char c)) eqn:Hm; [|done].
  apply bool_decide_eq_true_1 in Hm. rewrite <-Hm. done.
Qed.

Lemma mods_not_map (s : string) :
  matches_key "mods" s = true → matches_key "map" s = false.
Proof.
  unfold matches_key. destruct s as [|c1 [|c2 s]]; [done|simpl..].
  - by destruct (bool_decide ("m"%char = py.lower_char c1)).
  - destruct (bool_decide ("m"%char = py.lower_char c1)); [|done].
    destruct (bool_decide ("o"%char = py.lower_char c2)) eqn:Ho; [|done].
    apply bool_decide_eq_true_1 in Ho. rewrite <-Ho. done.
Qed.

Lemma workshopitems_not_map (s : string) :
  matches_key "workshopitems" s = true → matches_key "map" s = false.
Proof.
  unfold matches_key. destruct s as [|c s]; [done|]. simpl.
  destruct (bool_decide ("w"%char = py.lower_char c)) eqn:Hm; [|done].
  apply bool_decide_eq_true_1 in Hm. rewrite <-Hm. done.
Qed.

(** *** The rewriters against the relation *)

Lemma has_key_cons (key raw : string) (lines : list string) :
  has_key key (raw :: lines)
  = matches_key key (py.rstrip_crlf raw) || has_key key lines.
Proof. done. Qed.

(** The loop of [update_ini]: its output and skip flag follow
    [scan_step], and a key is marked written exactly when a line of the
    document assigns it. *)
Lemma update_ini_loop (mods_csv workshop_csv : string) (lines : list string)
    (st : ini_state) :
  let st' := foldl (update_ini_step mods_csv workshop_csv) st lines in
  (output_lines st', skip_continuation st')
  = foldl (scan_step (update_ini_target mods_csv workshop_csv) _is_continuation)
          (output_lines st, skip_continuation st) lines
  ∧ wrote_mods st' = wrote_mods st || has_key "mods" lines
  ∧ wrote_workshop st' = wrote_workshop st || has_key "workshopitems" lines.
Proof.
  revert st. induction lines as [|raw lines IH]; intros st; cbn [foldl].
  - unfold has_key. simpl. by rewrite !orb_false_r.
  - destruct (IH (update_ini_step mods_csv workshop_csv st raw)) as (Hout & Hm & Hw).
    rewrite Hout, Hm, Hw, !has_key_cons. clear IH Hout Hm Hw.
    unfold update_ini_step, scan_step, update_ini_target. simpl.
    destruct (skip_continuation st && _is_continuation (py.rstrip_crlf raw)) eqn:Hskip.
    + apply andb_true_iff in Hskip as [_ Hc].
      rewrite (continuation_not_key "mods" raw) by done.
      by rewrite (continuation_not_key "workshopitems" raw) by done.
    + destruct (matches_key "mods" (py.rstrip_crlf raw)) eqn:Hmods; simpl.
      * rewrite (mods_not_workshopitems _ Hmods).
        by rewrite !orb_true_r, !orb_false_l.
      * destruct (matches_key "workshopitems" (py.rstrip_crlf raw)) eqn:Hws; simpl.
        -- by rewrite !orb_true_r.
        -- done.
Qed.

(** The loop of [rewrite_ini_keys], likewise. *)
Lemma rewrite_ini_keys_loop (mods_csv workshop_csv : string) (map_csv : option string)
    (lines : list string) (st : update_server_ini.keys_state) :
  let st' := foldl (update_server_ini.rewrite_ini_keys_step mods_csv workshop_csv map_csv)
                   st lines in
  (update_server_ini.out_lines st', update_server_ini.skipping st')
  = foldl (scan_step (rewrite_ini_keys_target mods_csv workshop_csv map_csv)
                     _is_continuation)
          (update_server_ini.out_lines st, update_server_ini.skipping st) lines
  ∧ update_server_ini.wrote_mods st'
    = update_server_ini.wrote_mods st || has_key "mods" lines
  ∧ update_server_ini.wrote_workshop st'
    = update_server_ini.wrote_workshop st || has_key "workshopitems" lines
  ∧ (is_Some map_csv →
     update_server_ini.wrote_map st'
     = update_server_ini.wrote_map st || has_key "map" lines).
Proof.
  revert st. induction lines as [|raw lines IH]; intros st; cbn [foldl].
  - unfold has_key. simpl. by rewrite !orb_false_r.
  - destruct (IH (update_server_ini.rewrite_ini_keys_step mods_csv workshop_csv
                    map_csv st raw)) as (Hout & Hm & Hw & Hmap).
    rewrite Hout, Hm, Hw, !has_key_cons. clear IH Hout Hm Hw.
    assert (Hgoal :
      (update_server_ini.out_lines
         (update_server_ini.rewrite_ini_keys_step mods_csv workshop_csv map_csv st raw),
       update_server_ini.skipping
         (update_server_ini.rewrite_ini_keys_step mods_csv workshop_csv map_csv st raw))
      = scan_step (rewrite_ini_keys_target mods_csv workshop_csv map_csv)
          _is_continuation
          (update_server_ini.out_lines st, update_server_ini.skipping st) raw
      ∧ update_server_ini.wrote_mods
          (update_server_ini.rewrite_ini_keys_step mods_csv workshop_csv map_csv st raw)
        = update_server_ini.wrote_mods st || matches_key "mods" (py.rstrip_crlf raw)
      ∧ update_server_ini.wrote_workshop
          (update_server_ini.rewrite_ini_keys_step mods_csv workshop_csv map_csv st raw)
        = update_server_ini.wrote_workshop st
          || matches_key "workshopitems" (py.rstrip_crlf raw)
      ∧ (is_Some map_csv →
         update_server_ini.wrote_map
           (update_server_ini.rewrite_ini_keys_step mods_csv workshop_csv map_csv st raw)
         = update_server_ini.wrote_map st || matches_key "map" (py.rstrip_crlf raw))).
    { unfold update_server_ini.rewrite_ini_keys_step, scan_step,
        rewrite_ini_keys_target, update_server_ini._is_continuation_line. simpl.
      fold (_is_continuation (py.rstrip_crlf raw)).
      destruct (update_server_ini.skipping st && _is_continuation (py.rstrip_crlf raw))
        eqn:Hskip.
      - apply andb_true_iff in Hskip as [_ Hc].
        rewrite (continuation_not_key "mods" raw) by done.
        rewrite (continuation_not_key "workshopitems" raw) by done.
        rewrite (continuation_not_key "map" raw) by done.
        by rewrite !orb_false_r.
      - destruct (matches_key "mods" (py.rstrip_crlf raw)) eqn:Hmods; simpl.
        + rewrite (mods_not_workshopitems _ Hmods), (mods_not_map _ Hmods).
          by rewrite !orb_true_r, !orb_false_r.
        + destruct (matches_key "workshopitems" (py.rstrip_crlf raw)) eqn:Hws; simpl.
          * rewrite (workshopitems_not_map _ Hws).
            by rewrite !orb_true_r, !orb_false_r.
          * destruct map_csv as [csv|]; simpl.
            -- destruct (matches_key "map" (py.rstrip_crlf raw)); simpl;
                 by rewrite ?orb_true_r, ?orb_false_r.
            -- rewrite !orb_false_r. split_and!; try done; intros [? ?]; done. }
    destruct Hgoal as (-> & -> & -> & Hmap').
    split_and!; try done; try by rewrite orb_assoc.
    intros Hsome. rewrite (Hmap Hsome), (Hmap' Hsome).
    by rewrite orb_assoc.
Qed.

(** ** File operations of the writers *)

Lemma string_length_app (a b : string) :
  String.length (a +:+ b) = String.length a + String.length b.
Proof. induction a as [|c a IH]; [done|]. rewrite string_app_cons. simpl. by rewrite IH. Qed.

Lemma tmp_path_ne (path : string) : path +:+ ".tmp" ≠ path.
Proof.
  intros Heq. apply (f_equal String.length) in Heq.
  rewrite string_length_app in Heq. simpl in Heq. lia.
Qed.

(** The literal claim C3 fails on [update_ini]: its only operations are
    the truncating open of the INI itself and the write into it, none is
    a rename, and a process stopped after the first one leaves the INI
    empty, which is neither the prior nor the new content. *)
Lemma update_ini_not_atomic :
  update_ini_ops "default.ini" "Port=16261
" "\A" "1"
  = [OpenTruncate "default.ini";
     WriteData "default.ini" "Port=16261
Mods=\A
WorkshopItems=1
"]
  ∧ existsb is_replace (update_ini_ops "default.ini" "Port=16261
" "\A" "1") = false
  ∧ interrupted one_setting_ini (update_ini_ops "default.ini" "Port=16261
" "\A" "1") 1 !! "default.ini" = Some ""
  ∧ ¬ atomic_on one_setting_ini (update_ini_ops "default.ini" "Port=16261
" "\A" "1") "default.ini".
Proof.
  split_and!; try by vm_compute.
  intros Hatomic. destruct (Hatomic 1) as [H|H]; by vm_compute in H.
Qed.

(** C3, as amended.  The rewriters of the key-value configuration
    document write the complete new text in place: [write_text] empties
    the file at its own path and then writes the text into it, with no
    temporary file and no rename, so a process stopped in between leaves
    the file empty.  The registry writer [save_json] does write to the
    temporary sibling [path + ".tmp"] and renames it over the original, and
    is atomic on the registry path. *)
Theorem config_writes_in_place_registry_atomic :
  (∀ (files : gmap string string) (ini_path original mods_csv workshop_csv : string),
     existsb is_replace (update_ini_ops ini_path original mods_csv workshop_csv) = false
     ∧ interrupted files (update_ini_ops ini_path original mods_csv workshop_csv) 1
         !! ini_path = Some ""
     ∧ foldl apply_op files (update_ini_ops ini_path original mods_csv workshop_csv)
         !! ini_path = Some (update_ini original mods_csv workshop_csv))
  ∧ (∀ (files : gmap string string) (ini_path original mods_csv workshop_csv : string)
       (map_csv : option string),
       existsb is_replace
         (update_server_ini.rewrite_ini_keys_ops ini_path original mods_csv
            workshop_csv map_csv) = false
       ∧ interrupted files
           (update_server_ini.rewrite_ini_keys_ops ini_path original mods_csv
              workshop_csv map_csv) 1 !! ini_path = Some ""
       ∧ foldl apply_op files
           (update_server_ini.rewrite_ini_keys_ops ini_path original mods_csv
              workshop_csv map_csv) !! ini_path
         = Some (update_server_ini.rewrite_ini_keys original mods_csv workshop_csv
                   map_csv))
  ∧ (∀ (files : gmap string string) (path json_text : string),
       atomic_on files (cleanup.save_json path json_text) path
       ∧ foldl apply_op files (cleanup.save_json path json_text) !! path
         = Some (json_text +:+ "
")).
Proof.
  assert (Hwrite : ∀ (files : gmap string string) path text,
    interrupted files (write_text_ops path text) 1 !! path = Some ""
    ∧ foldl apply_op files (write_text_ops path text) !! path = Some text).
  { intros files path text. unfold interrupted, write_text_ops.
    cbn [take foldl apply_op]. by rewrite !lookup_insert_eq. }
  split_and!.
  - intros files ini_path original mods_csv workshop_csv.
    split; [done|]. apply Hwrite.
  - intros files ini_path original mods_csv workshop_csv map_csv.
    split; [done|]. apply Hwrite.
  - intros files path json_text.
    pose proof (tmp_path_ne path) as Hne.
    assert (Hfinal : foldl apply_op files (cleanup.save_json path json_text) !! path
                     = Some (json_text +:+ "
")).
    { unfold cleanup.save_json. cbn [foldl apply_op].
      rewrite !lookup_insert_eq. done. }
    split; [|done]. intros n. unfold interrupted.
    destruct n as [|[|[|[|n]]]].
    + by left.
    + left. unfold cleanup.save_json. cbn [take foldl apply_op].
      by rewrite lookup_insert_ne.
    + left. unfold cleanup.save_json. cbn [take foldl apply_op].
      by rewrite !lookup_insert_ne.
    + left. unfold cleanup.save_json. cbn [take foldl apply_op].
      by rewrite !lookup_insert_ne.
    + right. by rewrite take_ge by (simpl; lia).
Qed.

(** ** Runs of the pipeline *)

(** C1.  On two workshop items that both hold the lotheader of cell
    (5,7), the coordinate-conflict report of [process_mods.py] is not empty,
    yet [main] only prints warnings, goes on to rewrite the INI twice and
    ends normally; the map step of [update_server_ini_map.py] exits with
    code 2 on the same overlap before any write.  A tiledef conflict alone
    is likewise only warned about. *)
Theorem coordinate_conflict_is_only_warned :
  check_map_coord_conflicts coord_conflict_root ["111"; "222"]
  = {[ (5, 7)%Z := ["Mod A [111]"; "222"] ]}
  ∧ observe (main (mkArgs "mods.txt" coord_conflict_root "default.ini" "")
                  (mkMachine two_item_files [] []))
    = Some
        (["mods.txt: 2 workshop IDs, 2 mod IDs";
          "mod.info: loaded metadata for 2 mod(s) across 2 workshop item(s) on disk";
          "WARNING: 1 map chunk coordinate conflict(s) detected:";
          "  (5,7): Mod A [111], 222";
          "WARNING: Continuing despite map conflicts — resolve before production use.";
          "Map= will contain 5 maps (0 from mods, 5 vanilla)";
          "Topological order: OK (stable)";
          "Updated default.ini: Mods=(2 entries), WorkshopItems=(2 entries)";
          "Updated Map=: 5 entries"],
         [OpenTruncate "default.ini";
          WriteData "default.ini" "Mods=\ModA;\LibB
Map=Muldraugh, KY
WorkshopItems=111;222
";
          OpenTruncate "default.ini";
          WriteData "default.ini" "Mods=\ModA;\LibB
Map=Muldraugh, KY;Riverside, KY;Rosewood, KY;West Point, KY;Louisville, KY
WorkshopItems=111;222
"],
         Ok ())
  ∧ update_server_ini_map.main_after_scan "server.ini" "Map=Muldraugh, KY
" "Muldraugh, KY" false ["111"; "222"] overlapping_map_sources
    = Exit 2 "ERROR: map overlap conflicts detected (multiple maps claim the same cell via .lotheader):
- cell 5_7 has 2 claims:
    map=MapA workshop_id=111 file=/w/111/media/maps/MapA/5_7.lotheader
    map=MapB workshop_id=222 file=/w/222/media/maps/MapB/5_7.lotheader"
  ∧ check_map_coord_conflicts tiledef_conflict_root ["111"; "222"] = ∅
  ∧ check_tiledef_conflicts tiledef_conflict_root ["111"; "222"]
    = {[ 100%Z := ["Mod A [111]"; "222"] ]}
  ∧ observe (main (mkArgs "mods.txt" tiledef_conflict_root "default.ini" "")
                  (mkMachine two_item_files [] []))
    = Some
        (["mods.txt: 2 workshop IDs, 2 mod IDs";
          "mod.info: loaded metadata for 2 mod(s) across 2 workshop item(s) on disk";
          "WARNING: 1 tiledef fileNumber conflict(s) detected:";
          "  fileNumber 100: Mod A [111], 222";
          "WARNING: Continuing despite map conflicts — resolve before production use.";
          "Map= will contain 5 maps (0 from mods, 5 vanilla)";
          "Topological order: OK (stable)";
          "Updated default.ini: Mods=(2 entries), WorkshopItems=(2 entries)";
          "Updated Map=: 5 entries"],
         [OpenTruncate "default.ini";
          WriteData "default.ini" "Mods=\ModA;\LibB
Map=Muldraugh, KY
WorkshopItems=111;222
";
          OpenTruncate "default.ini";
          WriteData "default.ini" "Mods=\ModA;\LibB
Map=Muldraugh, KY;Riverside, KY;Rosewood, KY;West Point, KY;Louisville, KY
WorkshopItems=111;222
"],
         Ok ()).
Proof. split_and!; by vm_compute. Qed.

(** C2.  With a block whose workshop item is not downloaded,
    [rewrite_mods_txt] moves the mod ID under the comment header, where
    [parse_mods_blocks] does not read it back: applied again to its own
    output with the same arguments it reports a change and writes again,
    and the second run of the pipeline stops with an error.  Independently,
    [update_ini] appends a missing key right after the last character of
    an INI text that does not end in a newline, so that a second
    application with the same values does not find the [Mods] line and
    appends it once more. *)
Theorem rewrite_mods_txt_repeats :
  rewrite_mods_txt not_downloaded_mods_txt ["1"] ["a"] ∅
  = ((true, []),
     Some "Workshop ID: 1
---

# Mod IDs not yet attributed to any downloaded workshop item
Mod ID: a
---
")
  ∧ rewrite_mods_txt "Workshop ID: 1
---

# Mod IDs not yet attributed to any downloaded workshop item
Mod ID: a
---
" ["1"] ["a"] ∅
    = ((true,
        ["  Workshop ID 1: empty block, not in cache — remove its block from mods.txt to stop tracking it"]),
       Some "Workshop ID: 1
---

# Mod IDs not yet attributed to any downloaded workshop item
Mod ID: a
---
")
  ∧ parse_mods_txt "Workshop ID: 1
---

# Mod IDs not yet attributed to any downloaded workshop item
Mod ID: a
---
" = (["1"], [])
  ∧ observe (main (mkArgs "mods.txt" ∅ "default.ini" "")
                  (mkMachine not_downloaded_files [] []))
    = Some
        (["mods.txt: 1 workshop IDs, 1 mod IDs";
          "mod.info: loaded metadata for 0 mod(s) across 0 workshop item(s) on disk";
          "Map conflict checks:  OK";
          "Map= will contain 5 maps (0 from mods, 5 vanilla)";
          "Topological order: OK (stable)";
          "Rewrote mods.txt";
          "Updated default.ini: Mods=(0 entries), WorkshopItems=(1 entries)";
          "Updated Map=: 5 entries"],
         [OpenTruncate "mods.txt";
          WriteData "mods.txt" "Workshop ID: 1
---

# Mod IDs not yet attributed to any downloaded workshop item
Mod ID: a
---
";
          OpenTruncate "default.ini";
          WriteData "default.ini" "Mods=
WorkshopItems=1
";
          OpenTruncate "default.ini";
          WriteData "default.ini" "Mods=
WorkshopItems=1
Map=Muldraugh, KY;Riverside, KY;Rosewood, KY;West Point, KY;Louisville, KY
"],
         Ok ())
  ∧ observe (run_twice (mkArgs "mods.txt" ∅ "default.ini" "")
                       (mkMachine not_downloaded_files [] []))
    = Some ([], [], Exit 1 "ERROR: mods.txt contains no 'Mod ID:' lines.")
  ∧ update_ini "PauseEmpty=true" "\a" "1" = "PauseEmpty=trueMods=\a
WorkshopItems=1
"
  ∧ update_ini "PauseEmpty=trueMods=\a
WorkshopItems=1
" "\a" "1" = "PauseEmpty=trueMods=\a
WorkshopItems=1
Mods=\a
".
Proof. split_and!; by vm_compute. Qed.

(** ** Lists and strings: further facts *)

Lemma sorted_by_perm {A K} (le : K → K → bool) (key : A → K) (l : list A) :
  sorted_by le key l ≡ₚ l.
Proof.
  unfold sorted_by. induction l as [|x l IH]; [done|]. simpl.
  rewrite <- IH at 2. generalize (foldr
    (fix insert (x0 : A) (l0 : list A) {struct l0} : list A :=
       match l0 with
       | [] => [x0]
       | y :: l' => if le (key x0) (key y) then x0 :: y :: l' else y :: insert x0 l'
       end) [] l).
  clear. intros l. induction l as [|y l IH]; [done|].
  destruct (le (key x) (key y)); [done|]. rewrite IH. apply Permutation_swap.
Qed.

Lemma head_not_drop_while (p : ascii → bool) (s : string) :
  head_not p (py.drop_while p s).
Proof. induction s as [|c s IH]; [done|]. simpl. by destruct (p c) eqn:Hc. Qed.

Lemma drop_while_head_not (p : ascii → bool) (s : string) :
  head_not p s → py.drop_while p s = s.
Proof. destruct s as [|c s]; [done|]. simpl. by intros ->. Qed.

Lemma head_not_rstrip_with (p : ascii → bool) (s : string) :
  head_not p s → head_not p (py.rstrip_with p s).
Proof.
  destruct s as [|c s]; [done|]. simpl. intros Hc.
  destruct (py.rstrip_with p s); [by rewrite Hc|done].
Qed.

Lemma strip_idem (s : string) : py.strip (py.strip s) = py.strip s.
Proof.
  unfold py.strip.
  rewrite (drop_while_head_not _ (py.rstrip_with _ _)).
  - apply rstrip_with_idem.
  - apply head_not_rstrip_with, head_not_drop_while.
Qed.

Lemma filter_all_elem {A} (P : A → Prop) `{!∀ x, Decision (P x)} (l : list A) :
  (∀ x, x ∈ l → P x) → filter P l = l.
Proof.
  induction l as [|x l IH]; intros Hall; [done|].
  rewrite filter_cons_True by (apply Hall; left).
  f_equal. apply IH. intros y Hy. apply Hall. by right.
Qed.

Lemma first_occurrences_idem (l : list string) :
  first_occurrences (first_occurrences l) = first_occurrences l.
Proof.
  induction l as [|x l IH]; [done|]. simpl. f_equal.
  rewrite <- first_occurrences_filter, IH, list_filter_filter.
  apply list_filter_iff. naive_solver.
Qed.

Lemma first_occurrences_head (l : list string) : head (first_occurrences l) = head l.
Proof. by destruct l. Qed.

(** ** De-duplication of identifier lists *)

Lemma unique_preserve_order_loop (items out : list string) (seen : gset string) :
  foldl (λ '(out, seen) x,
           let s := py.strip x in
           if bool_decide (s = "") || bool_decide (s ∈ seen) then (out, seen)
           else (out ++ [s], seen ∪ {[s]}))
        (out, seen) items
  = foldl (λ '(out, seen) s,
             if bool_decide (s ≠ "") && bool_decide (s ∉ seen)
             then (out ++ [s], seen ∪ {[s]}) else (out, seen))
          (out, seen) (py.strip <$> items).
Proof.
  revert out seen. induction items as [|x items IH]; intros out seen; [done|].
  rewrite fmap_cons. cbn [foldl].
  destruct (decide (py.strip x = "")) as [Heq|Hne].
  - rewrite (bool_decide_eq_true_2 (py.strip x = "")) by done.
    rewrite (bool_decide_eq_false_2 (py.strip x ≠ "")) by auto. apply IH.
  - rewrite (bool_decide_eq_false_2 (py.strip x = "")) by done.
    rewrite (bool_decide_eq_true_2 (py.strip x ≠ "")) by done.
    destruct (decide (py.strip x ∈ seen)).
    + rewrite (bool_decide_eq_true_2 (py.strip x ∈ seen)) by done.
      rewrite (bool_decide_eq_false_2 (py.strip x ∉ seen)) by auto. apply IH.
    + rewrite (bool_decide_eq_false_2 (py.strip x ∈ seen)) by done.
      rewrite (bool_decide_eq_true_2 (py.strip x ∉ seen)) by done. apply IH.
Qed.

Lemma unique_preserve_order_spec (items : list string) :
  update_server_ini_map._unique_preserve_order items
  = first_occurrences (filter (λ s, s ≠ "") (py.strip <$> items)).
Proof.
  unfold update_server_ini_map._unique_preserve_order.
  rewrite unique_preserve_order_loop.
  rewrite (seen_loop (λ s, bool_decide (s ≠ "")) (py.strip <$> items) [] ∅) by done.
  simpl. f_equal. apply list_filter_iff. intros s. rewrite bool_decide_spec.
  set_solver.
Qed.

Lemma unique_preserve_order_elem (items : list string) (s : string) :
  s ∈ update_server_ini_map._unique_preserve_order items
  ↔ s ≠ "" ∧ ∃ x, x ∈ items ∧ s = py.strip x.
Proof.
  rewrite unique_preserve_order_spec, elem_of_first_occurrences, list_elem_of_filter,
    list_elem_of_fmap. naive_solver.
Qed.

Lemma unique_preserve_order_fixed (l : list string) :
  NoDup l → Forall stripped_id l →
  update_server_ini_map._unique_preserve_order l = l.
Proof.
  intros Hnd Hall. rewrite unique_preserve_order_spec.
  assert (py.strip <$> l = l) as ->.
  { clear Hnd. induction Hall as [|x l [_ Hx] _ IH]; [done|]. by rewrite fmap_cons, Hx, IH. }
  assert (filter (λ s : string, s ≠ "") l = l) as ->.
  { clear Hnd. induction Hall as [|x l [Hx _] _ IH]; [done|].
    by rewrite filter_cons_True, IH. }
  clear Hall. induction Hnd as [|x l Hx _ IH]; [done|]. simpl. rewrite IH. f_equal.
  apply filter_all_elem. intros y Hy ->. done.
Qed.

(** X1.  [_unique_preserve_order] strips every item, drops the empty ones
    and keeps the first occurrence of each of the others, in order: its
    result is duplicate-free, holds only non-empty strings without
    surrounding whitespace, and is left unchanged by a second
    application. *)
Theorem unique_preserve_order_first_occurrences (items : list string) :
  update_server_ini_map._unique_preserve_order items
  = first_occurrences (filter (λ s, s ≠ "") (py.strip <$> items))
  ∧ NoDup (update_server_ini_map._unique_preserve_order items)
  ∧ Forall stripped_id (update_server_ini_map._unique_preserve_order items)
  ∧ update_server_ini_map._unique_preserve_order
      (update_server_ini_map._unique_preserve_order items)
    = update_server_ini_map._unique_preserve_order items.
Proof.
  assert (Hnd : NoDup (update_server_ini_map._unique_preserve_order items)).
  { rewrite unique_preserve_order_spec. apply first_occurrences_nodup. }
  assert (Hall : Forall stripped_id (update_server_ini_map._unique_preserve_order items)).
  { apply Forall_forall. intros s (Hne & x & _ & ->)%unique_preserve_order_elem.
    split; [done|]. apply strip_idem. }
  split_and!; [apply unique_preserve_order_spec|done|done|].
  by apply unique_preserve_order_fixed.
Qed.

(** ** Map order and map overlaps of update_server_ini_map.py *)

Lemma group_append_lookup {K V A} `{Countable K} (k : A → K) (v : A → V)
    (l : list A) (m0 : gmap K (list V)) (key : K) :
  default [] (foldl (λ m x, <[k x := default [] (m !! k x) ++ [v x]]> m) m0 l !! key)
  = default [] (m0 !! key) ++ (v <$> filter (λ x, k x = key) l).
Proof.
  revert m0. induction l as [|x l IH]; intros m0.
  - simpl. by rewrite app_nil_r.
  - cbn [foldl]. rewrite IH. destruct (decide (k x = key)) as [<-|Hne].
    + rewrite lookup_insert_eq, filter_cons_True by done. simpl.
      by rewrite <- app_assoc.
    + by rewrite lookup_insert_ne, filter_cons_False by done.
Qed.

Lemma group_append_is_Some {K V A} `{Countable K} (k : A → K) (v : A → V)
    (l : list A) (m0 : gmap K (list V)) (key : K) :
  is_Some (foldl (λ m x, <[k x := default [] (m !! k x) ++ [v x]]> m) m0 l !! key)
  ↔ is_Some (m0 !! key) ∨ ∃ x, x ∈ l ∧ k x = key.
Proof.
  revert m0. induction l as [|x l IH]; intros m0.
  - simpl. split; [by left|]. intros [?|(x & Hx & _)]; [done|]. by apply elem_of_nil in Hx.
  - cbn [foldl]. rewrite IH. destruct (decide (k x = key)) as [<-|Hne].
    + rewrite lookup_insert_eq. split; [|by left]. intros _. right. exists x. split; [left|done].
    + rewrite lookup_insert_ne by done. split.
      * intros [?|(y & Hy & Hk)]; [by left|]. right. exists y. split; [by right|done].
      * intros [?|(y & Hy & Hk)]; [by left|]. right. exists y. split; [|done].
        apply elem_of_cons in Hy as [->|Hy]; done.
Qed.

Lemma order_maps_names (map_sources : list update_server_ini_map.MapSource)
    (base_map : string) (workshop_ids_in_order : list string) :
  update_server_ini_map.order_maps map_sources base_map workshop_ids_in_order
  = update_server_ini_map._unique_preserve_order
      (base_map :: (wid ← workshop_ids_in_order;
                    update_server_ini_map.map_name
                      <$> filter (λ src, update_server_ini_map.workshop_id src = wid)
                                 map_sources)).
Proof.
  unfold update_server_ini_map.order_maps. do 2 f_equal.
  induction workshop_ids_in_order as [|wid wids IH]; [done|].
  rewrite !bind_cons, IH. f_equal.
  by rewrite (group_append_lookup update_server_ini_map.workshop_id
                update_server_ini_map.map_name map_sources ∅ wid).
Qed.

(** X2.  [order_maps] returns a duplicate-free list that starts with the
    base map (when its name is not blank) and holds, besides it, exactly
    the non-blank stripped names of the map sources whose workshop ID is
    among the IDs given; a source of any other workshop ID adds nothing. *)
Theorem order_maps_base_first (map_sources : list update_server_ini_map.MapSource)
    (base_map : string) (workshop_ids_in_order : list string) :
  NoDup (update_server_ini_map.order_maps map_sources base_map workshop_ids_in_order)
  ∧ (py.strip base_map ≠ "" →
     head (update_server_ini_map.order_maps map_sources base_map workshop_ids_in_order)
     = Some (py.strip base_map))
  ∧ ∀ x, x ∈ update_server_ini_map.order_maps map_sources base_map workshop_ids_in_order
         ↔ x ≠ ""
           ∧ (x = py.strip base_map
              ∨ ∃ src, src ∈ map_sources
                       ∧ update_server_ini_map.workshop_id src ∈ workshop_ids_in_order
                       ∧ x = py.strip (update_server_ini_map.map_name src)).
Proof.
  rewrite order_maps_names. split_and!.
  - rewrite unique_preserve_order_spec. apply first_occurrences_nodup.
  - intros Hbase. rewrite unique_preserve_order_spec, first_occurrences_head.
    rewrite fmap_cons, filter_cons_True by done. done.
  - intros x. rewrite unique_preserve_order_elem. split.
    + intros (Hne & y & Hy & ->). split; [done|].
      apply elem_of_cons in Hy as [->|Hy]; [by left|]. right.
      apply list_elem_of_bind in Hy as (wid & Hy & Hwid).
      apply list_elem_of_fmap in Hy as (src & -> & Hsrc).
      apply list_elem_of_filter in Hsrc as [<- Hsrc]. by exists src.
    + intros (Hne & [->|(src & Hsrc & Hwid & ->)]); (split; [done|]).
      * exists base_map. split; [left|done].
      * exists (update_server_ini_map.map_name src). split; [|done]. right.
        apply list_elem_of_bind. exists (update_server_ini_map.workshop_id src).
        split; [|done]. apply list_elem_of_fmap. exists src. split; [done|].
        by apply list_elem_of_filter.
Qed.

Lemma elem_of_discover_cell_claims (map_sources : list update_server_ini_map.MapSource)
    (c : update_server_ini_map.MapCellClaim) :
  c ∈ update_server_ini_map.discover_cell_claims map_sources
  ↔ ∃ src lh, src ∈ map_sources ∧ lh ∈ update_server_ini_map.lotheaders src
              ∧ update_server_ini_map.match_lotheader lh = Some (claim_cell c)
              ∧ claim_owner c = source_owner src
              ∧ update_server_ini_map.source_file c
                = update_server_ini_map.map_dir src +:+ "/" +:+ lh.
Proof.
  unfold update_server_ini_map.discover_cell_claims.
  rewrite list_elem_of_bind. split.
  - intros (src & Hc & Hsrc). apply list_elem_of_omap in Hc as (lh & Hlh & Hc).
    exists src, lh. destruct (update_server_ini_map.match_lotheader lh) as [[cx cy]|];
      [|done]. simpl in Hc. injection Hc as <-. done.
  - intros (src & lh & Hsrc & Hlh & Hm & Ho & Hf). exists src. split; [|done].
    apply list_elem_of_omap. exists lh. split; [done|]. rewrite Hm. simpl.
    destruct c as [n w x y f]. unfold claim_owner, source_owner in Ho. simpl in *.
    by injection Ho as <- <-; subst f.
Qed.

Lemma size_list_to_set_gt_1 {A} `{Countable A} (l : list A) :
  1 < size (list_to_set l : gset A) ↔ ∃ a b, a ∈ l ∧ b ∈ l ∧ a ≠ b.
Proof.
  split.
  - intros Hsize. destruct l as [|a l]; [rewrite list_to_set_nil, size_empty in Hsize; lia|].
    exists a. destruct (decide (Forall (λ b, b = a) l)) as [Hall|Hex].
    + exfalso. assert ((list_to_set (a :: l) : gset A) = {[a]}) as Heq.
      { apply set_eq. intros x. rewrite elem_of_list_to_set, elem_of_singleton, elem_of_cons.
        rewrite Forall_forall in Hall. naive_solver. }
      rewrite Heq, size_singleton in Hsize. lia.
    + apply not_Forall_Exists in Hex; [|apply _]. apply Exists_exists in Hex as (b & Hb & Hne).
      exists b. split_and!; [left|by right|]. intros Heq. by apply Hne.
  - intros (a & b & Ha & Hb & Hne).
    assert ({[a; b]} ⊆ (list_to_set l : gset A)) as Hsub.
    { intros x. rewrite elem_of_list_to_set. set_solver. }
    apply subseteq_size in Hsub. rewrite size_union in Hsub by set_solver.
    rewrite !size_singleton in Hsub. lia.
Qed.

Lemma filter_none {A} (P : A → Prop) `{!∀ x, Decision (P x)} (l : list A) :
  (∀ x, x ∈ l → ¬ P x) → filter P l = [].
Proof.
  induction l as [|x l IH]; intros Hall; [done|].
  rewrite filter_cons_False by (apply Hall; left).
  apply IH. intros y Hy. apply Hall. by right.
Qed.

Lemma overlaps_nil (map_sources : list update_server_ini_map.MapSource) :
  update_server_ini_map.overlaps map_sources = []
  ↔ ∀ c1 c2, c1 ∈ update_server_ini_map.discover_cell_claims map_sources →
             c2 ∈ update_server_ini_map.discover_cell_claims map_sources →
             claim_cell c1 = claim_cell c2 → claim_owner c1 = claim_owner c2.
Proof.
  unfold update_server_ini_map.overlaps.
  set (claims := update_server_ini_map.discover_cell_claims map_sources).
  change (foldl _ ∅ claims)
    with (foldl (λ (m : gmap (Z * Z) (list update_server_ini_map.MapCellClaim)) x,
                   <[claim_cell x := default [] (m !! claim_cell x) ++ [id x]]> m)
                ∅ claims).
  set (by_cell := foldl _ ∅ claims).
  assert (Hlk : ∀ cell cs, by_cell !! cell = Some cs →
                           cs = filter (λ c, claim_cell c = cell) claims).
  { intros cell cs Hcs.
    pose proof (group_append_lookup claim_cell id claims ∅ cell) as Hg.
    fold by_cell in Hg. rewrite Hcs, lookup_empty, list_fmap_id in Hg. done. }
  assert (Hsome : ∀ c, c ∈ claims → is_Some (by_cell !! claim_cell c)).
  { intros c Hc. apply (group_append_is_Some claim_cell id). right. by exists c. }
  split.
  - intros Hnil c1 c2 Hc1 Hc2 Hcell.
    destruct (Hsome c1 Hc1) as [cs Hcs]. pose proof (Hlk _ _ Hcs) as Heq.
    destruct (decide (claim_owner c1 = claim_owner c2)) as [|Hne]; [done|exfalso].
    assert (Hin : (claim_cell c1, cs) ∈
                  filter (λ '(_, cs0),
                            1 < size (list_to_set
                                        ((λ x, (update_server_ini_map.claim_map_name x,
                                                update_server_ini_map.claim_workshop_id x))
                                           <$> cs0) : gset (string * string)))
                         (map_to_list by_cell)).
    { apply list_elem_of_filter. split; [|by apply elem_of_map_to_list].
      apply size_list_to_set_gt_1. exists (claim_owner c1), (claim_owner c2).
      split_and!; [| |done]; apply list_elem_of_fmap.
      - exists c1. split; [done|]. rewrite Heq. by apply list_elem_of_filter.
      - exists c2. split; [done|]. rewrite Heq. by apply list_elem_of_filter. }
    rewrite <- (sorted_by_perm update_server_ini_map.cell_le fst) in Hin.
    rewrite Hnil in Hin. by apply elem_of_nil in Hin.
  - intros Hall. apply Permutation_nil_r. rewrite sorted_by_perm.
    rewrite filter_none; [done|].
    intros [cell cs] Hin%elem_of_map_to_list Hsize.
    apply size_list_to_set_gt_1 in Hsize as (a & b & Ha & Hb & Hne).
    apply list_elem_of_fmap in Ha as (c1 & -> & Hc1).
    apply list_elem_of_fmap in Hb as (c2 & -> & Hc2).
    rewrite (Hlk _ _ Hin) in Hc1, Hc2.
    apply list_elem_of_filter in Hc1 as [Hcell1 Hc1].
    apply list_elem_of_filter in Hc2 as [Hcell2 Hc2].
    apply Hne. apply (Hall c1 c2 Hc1 Hc2). congruence.
Qed.

(** X3.  [detect_conflicts] returns normally exactly when no cell is
    named by lotheader files of two map sources that differ in map name
    or workshop ID; otherwise it exits with code 2.  Two files of one map
    that name the same cell are no conflict. *)
Theorem detect_conflicts_overlap (map_sources : list update_server_ini_map.MapSource) :
  (update_server_ini_map.detect_conflicts map_sources = Ok ()
   ↔ ∀ s1 s2 cell, s1 ∈ map_sources → s2 ∈ map_sources →
                   source_claims s1 cell → source_claims s2 cell →
                   source_owner s1 = source_owner s2)
  ∧ (update_server_ini_map.detect_conflicts map_sources = Ok ()
     ∨ ∃ msg, update_server_ini_map.detect_conflicts map_sources = Exit 2 msg).
Proof.
  unfold update_server_ini_map.detect_conflicts.
  pose proof (overlaps_nil map_sources) as Hnil.
  destruct (decide (update_server_ini_map.overlaps map_sources = [])) as [Hov|Hov].
  - rewrite bool_decide_eq_false_2 by auto. split; [|by left]. split; [|done].
    intros _ s1 s2 cell Hs1 Hs2 (lh1 & Hlh1 & Hm1) (lh2 & Hlh2 & Hm2).
    set (c1 := update_server_ini_map.mkMapCellClaim
                 (update_server_ini_map.map_name s1) (update_server_ini_map.workshop_id s1)
                 cell.1 cell.2 (update_server_ini_map.map_dir s1 +:+ "/" +:+ lh1)).
    set (c2 := update_server_ini_map.mkMapCellClaim
                 (update_server_ini_map.map_name s2) (update_server_ini_map.workshop_id s2)
                 cell.1 cell.2 (update_server_ini_map.map_dir s2 +:+ "/" +:+ lh2)).
    apply (proj1 Hnil Hov c1 c2); [| |done].
    + apply elem_of_discover_cell_claims. exists s1, lh1. by destruct cell.
    + apply elem_of_discover_cell_claims. exists s2, lh2. by destruct cell.
  - rewrite bool_decide_eq_true_2 by done. split; [|right; by eexists].
    split; [done|]. intros Hall. exfalso. apply Hov, Hnil.
    intros c1 c2 (s1 & lh1 & Hs1 & Hlh1 & Hm1 & Ho1 & _)%elem_of_discover_cell_claims
      (s2 & lh2 & Hs2 & Hlh2 & Hm2 & Ho2 & _)%elem_of_discover_cell_claims Hcell.
    rewrite Ho1, Ho2. apply (Hall s1 s2 (claim_cell c1)); [done|done| |].
    + by exists lh1.
    + exists lh2. by rewrite Hcell.
Qed.

(** ** The sorter applied to its own result *)

(** What [ensure_topological_order] returns is a permutation of the list
    with every prerequisite before its dependent. *)
Lemma sorted_order_valid (mod_ids : list string)
    (requires_map : gmap string (list string)) (order notes : list string) :
  NoDup mod_ids →
  ensure_topological_order mod_ids requires_map = Some (Ok (order, notes)) →
  order ≡ₚ mod_ids
  ∧ ∀ d p, effective_edge mod_ids requires_map d p →
           ∃ i j, order !! i = Some p ∧ order !! j = Some d ∧ i < j.
Proof.
  intros Hnd Hret.
  destruct (build_prereqs mod_ids requires_map) as [prereqs|c e] eqn:Hb;
    [|unfold ensure_topological_order in Hret; by rewrite Hb in Hret].
  destruct (ensure_topological_order_built _ _ Hnd _ Hb)
    as (in_degree & result & _ & Hinv & Heq).
  rewrite Heq in Hret. clear Heq.
  destruct (order_is_valid _ _ prereqs) eqn:Hvalid.
  - injection Hret as <- <-. split; [done|].
    intros d p Hedge. pose proof Hedge as (Hd & Hp & _).
    apply list_elem_of_lookup in Hd as [j Hj].
    apply list_elem_of_lookup in Hp as [i Hi].
    exists i, j. split_and!; [done|done|].
    by eapply (proj1 (order_is_valid_spec _ _ Hnd _ Hb) Hvalid).
  - destruct (decide (length result ≠ length mod_ids)) as [Hlen|Hlen]; [done|].
    injection Hret as <- <-.
    assert (Hperm : result ≡ₚ mod_ids).
    { eapply kahn_result_permutation; [done|]. lia. }
    split; [done|]. intros d p Hedge.
    eapply prereqs_first_positions; [by apply Hinv| |by eapply elem_of_prereqs].
    rewrite Hperm. by destruct Hedge.
Qed.

Lemma effective_edge_permutation (l1 l2 : list string)
    (requires_map : gmap string (list string)) (d p : string) :
  l1 ≡ₚ l2 → effective_edge l1 requires_map d p → effective_edge l2 requires_map d p.
Proof. unfold effective_edge. intros Hperm. by rewrite Hperm. Qed.

Lemma missing_dependency_permutation (l1 l2 : list string)
    (requires_map : gmap string (list string)) (x y : string) :
  l1 ≡ₚ l2 → missing_dependency l1 requires_map x y →
  missing_dependency l2 requires_map x y.
Proof. unfold missing_dependency. intros Hperm. by rewrite Hperm. Qed.

Lemma reorder_notes_nil (mod_ids result : list string) :
  NoDup mod_ids → result ≡ₚ mod_ids →
  reorder_notes mod_ids (py.dict_of (py.enumerate mod_ids))
                (py.dict_of (py.enumerate result)) = []
  ↔ result = mod_ids.
Proof.
  intros Hnd Hperm. assert (Hnd' : NoDup result) by (by rewrite Hperm).
  unfold reorder_notes. split.
  - intros Hnil. apply fmap_nil_inv in Hnil.
    apply list_eq_same_length with (length mod_ids); [done|by rewrite Hperm|].
    intros i x y Hlt Hx Hy.
    assert (Hy' : y ∈ result) by (rewrite Hperm; by eapply list_elem_of_lookup_2).
    apply list_elem_of_lookup in Hy' as [j Hj].
    destruct (decide (i = j)) as [->|Hne]; [congruence|exfalso].
    assert (Hin : y ∈ filter (λ mid, py.dict_of (py.enumerate mod_ids) !!! mid
                                     ≠ py.dict_of (py.enumerate result) !!! mid) mod_ids).
    { apply list_elem_of_filter. split; [|by eapply list_elem_of_lookup_2].
      by rewrite (dict_of_enumerate_total mod_ids y i),
        (dict_of_enumerate_total result y j). }
    rewrite Hnil in Hin. by apply elem_of_nil in Hin.
  - intros ->. rewrite filter_none; [done|]. intros x _ Hne. by apply Hne.
Qed.

(** X4.  When [ensure_topological_order] returns an order for a list of
    distinct mod IDs, the list of reorder notes is empty exactly when the
    order is the list itself, and the order is accepted as it is by a
    second call: sorting again changes nothing and reports nothing. *)
Theorem ensure_topological_order_idempotent (mod_ids : list string)
    (requires_map : gmap string (list string)) (order notes : list string) :
  NoDup mod_ids →
  ensure_topological_order mod_ids requires_map = Some (Ok (order, notes)) →
  (notes = [] ↔ order = mod_ids)
  ∧ ensure_topological_order order requires_map = Some (Ok (order, [])).
Proof.
  intros Hnd Hret.
  destruct (sorted_order_valid _ _ _ _ Hnd Hret) as [Hperm Hedges].
  assert (Hnd' : NoDup order) by (by rewrite Hperm).
  destruct (build_prereqs mod_ids requires_map) as [prereqs|c e] eqn:Hb;
    [|unfold ensure_topological_order in Hret; by rewrite Hb in Hret].
  split.
  - destruct (ensure_topological_order_built _ _ Hnd _ Hb)
      as (in_degree & result & _ & Hinv & Heq).
    rewrite Heq in Hret. clear Heq.
    destruct (order_is_valid _ _ prereqs); [by injection Hret as <- <-|].
    destruct (decide (length result ≠ length mod_ids)) as [Hlen|Hlen]; [done|].
    injection Hret as <- <-. by apply reorder_notes_nil.
  - apply build_prereqs_ok in Hb as [Hnone _].
    destruct (build_prereqs_total order requires_map) as [prereqs' Hb'].
    { intros x y Hm. apply (Hnone x y).
      by eapply missing_dependency_permutation. }
    destruct (ensure_topological_order_built _ _ Hnd' _ Hb')
      as (in_degree & result & _ & _ & ->).
    rewrite (proj2 (order_is_valid_spec _ _ Hnd' _ Hb')); [done|].
    intros d p i j Hedge Hi Hj.
    destruct (Hedges d p) as (i' & j' & Hi' & Hj' & Hlt).
    { by eapply effective_edge_permutation. }
    assert (i = i') as -> by (by eapply NoDup_lookup).
    assert (j = j') as -> by (by eapply NoDup_lookup). done.
Qed.

Lemma ensure_topological_order_idempotent_witness :
  NoDup ["A"; "B"; "C"]
  ∧ (["  'A': position 0 → 2"; "  'C': position 2 → 0"] = [] ↔ ["C"; "B"; "A"] = ["A"; "B"; "C"])
  ∧ ensure_topological_order ["C"; "B"; "A"] chain_requires
    = Some (Ok (["C"; "B"; "A"], [])).
Proof.
  assert (Hnd : NoDup ["A"; "B"; "C"]) by by_computation.
  assert (Hret : ensure_topological_order ["A"; "B"; "C"] chain_requires
                 = Some (Ok (["C"; "B"; "A"],
                             ["  'A': position 0 → 2"; "  'C': position 2 → 0"])))
    by (by vm_compute).
  split; [exact Hnd|].
  exact (ensure_topological_order_idempotent ["A"; "B"; "C"] chain_requires _ _ Hnd Hret).
Defined.

(** ** Runs of process_mods.py: errors come before the first write *)

Lemma parse_mods_txt_spec (text : string) :
  parse_mods_txt text
  = (first_occurrences (workshop_id <$> parse_mods_blocks text),
     first_occurrences (filter (λ mid, mid ≠ "") (parse_mods_blocks text ≫= mod_ids))).
Proof.
  assert (Hpair : parse_mods_txt text
    = ((foldl (λ '(workshop_ids, seen_workshops) wid,
                 if true && bool_decide (wid ∉ seen_workshops)
                 then (workshop_ids ++ [wid], seen_workshops ∪ {[wid]})
                 else (workshop_ids, seen_workshops))
              ([], (∅ : gset string)) (workshop_id <$> parse_mods_blocks text)).1,
       (add_block_mods ([], ∅) (parse_mods_blocks text ≫= mod_ids)).1)).
  { unfold parse_mods_txt. rewrite parse_mods_txt_loop_split.
    destruct (foldl _ ([], ∅) (workshop_id <$> parse_mods_blocks text)) as [ws sw].
    by destruct (add_block_mods _ _) as [ms sm]. }
  rewrite Hpair. f_equal.
  - rewrite (seen_loop (λ _, true) _ [] ∅ eq_refl). simpl. f_equal.
    apply filter_all. intros x. split; [done|]. by intros ?%elem_of_nil.
  - unfold add_block_mods.
    rewrite (seen_loop (λ mid, bool_decide (mid ≠ "")) _ [] ∅ eq_refl). simpl.
    f_equal. apply list_filter_iff.
    intros x. rewrite bool_decide_spec. split; [tauto|].
    intros ?. split; [done|]. by intros ?%elem_of_nil.
Qed.

Lemma quiet_bind {A B} (p : prog A) (k : A → prog B) (m : machine) (Q : B → Prop) :
  quiet p m (λ a, ∀ m', files m' = files m → ops m' = ops m →
                        io_errors m' = io_errors m → quiet (k a) m' Q) →
  quiet (p ≫= k) m Q.
Proof.
  unfold quiet, mbind, prog_bind. destruct (p m) as [m1 [a|c e]]; [|done].
  intros (Hf & Ho & He & Hk). specialize (Hk m1 Hf Ho He).
  destruct (k a m1) as [m2 [b|c e]]; naive_solver congruence.
Qed.

Lemma quiet_ret {A} (a : A) (m : machine) (Q : A → Prop) : Q a → quiet (mret a) m Q.
Proof. by unfold quiet. Qed.

Lemma quiet_print (line : string) (m : machine) (Q : () → Prop) :
  Q () → quiet (print line) m Q.
Proof. by unfold quiet. Qed.

Lemma quiet_fatal {A} (msg : string) (m : machine) (Q : A → Prop) :
  quiet (fatal msg) m Q.
Proof. by unfold quiet. Qed.

Lemma quiet_path_exists (path : string) (m : machine) (Q : bool → Prop) :
  (∀ b, b = bool_decide (is_Some (files m !! path)) → Q b) →
  quiet (path_exists path) m Q.
Proof.
  intros HQ. unfold quiet, path_exists, request.
  destruct (io_errors m (io_count m)); simpl; [done|]. split_and!; [done..|by apply HQ].
Qed.

Lemma quiet_read_text (path : string) (m : machine) (Q : string → Prop) :
  (∀ text, Q text) → quiet (read_text path) m Q.
Proof.
  intros HQ. unfold quiet, read_text, request.
  destruct (io_errors m (io_count m)); simpl; [done|].
  destruct (files m !! path); simpl; [|done]. split_and!; [done..|by apply HQ].
Qed.

Lemma quiet_traverse {A} (found : A) (m : machine) (Q : A → Prop) :
  Q found → quiet (traverse found) m Q.
Proof.
  intros HQ. unfold quiet, traverse, request.
  destruct (io_errors m (io_count m)); simpl; [done|]. by split_and!.
Qed.

Lemma quiet_when (b : bool) (p : prog ()) (m : machine) (Q : () → Prop) :
  (b = true → quiet p m Q) → (b = false → Q ()) → quiet (when b p) m Q.
Proof. destruct b; simpl; auto using quiet_ret. Qed.

Lemma quiet_for_each {A} (l : list A) (body : A → prog ()) (m : machine)
    (Q : () → Prop) :
  (∀ x m', quiet (body x) m' (λ _, True)) → Q () → quiet (for_each l body) m Q.
Proof.
  intros Hbody HQ. revert m. induction l as [|x l IH]; intros m; [by apply quiet_ret|].
  simpl. apply quiet_bind. specialize (Hbody x m). unfold quiet in *.
  destruct (body x m) as [m1 [[]|c e]]; [|done].
  destruct Hbody as (Hf & Ho & He & _). split_and!; [done..|].
  intros m' Hf' Ho' He'. specialize (IH m').
  destruct (for_each l body m') as [m2 [[]|c e]].
  - destruct IH as (? & ? & ? & ?). split_and!; [congruence..|done].
  - destruct IH as (? & ? & ?). split_and!; [done|congruence..].
Qed.

Lemma guarded_bind {A B} (paths : list string) (p : prog A) (k : A → prog B) :
  guarded paths p → (∀ a, guarded paths (k a)) → guarded paths (p ≫= k).
Proof.
  intros Hp Hk m Hm. specialize (Hp m Hm). unfold mbind, prog_bind.
  destruct (p m) as [m1 [a|c e]]; [|done]. destruct Hp as [Hm1 He].
  specialize (Hk a m1 Hm1). destruct (k a m1) as [m2 [b|c e]].
  - destruct Hk as [? ?]. split; [done|congruence].
  - destruct Hk as [? (n & exc & Hn & ->)]. split; [done|].
    exists n, exc. by rewrite <- He.
Qed.

Lemma guarded_ret {A} (paths : list string) (a : A) : guarded paths (mret a : prog A).
Proof. by intros m Hm. Qed.

Lemma guarded_print (paths : list string) (line : string) : guarded paths (print line).
Proof. by intros m Hm. Qed.

Lemma guarded_request {A} (paths : list string) (answer : prog A) :
  guarded paths answer → guarded paths (request answer).
Proof.
  intros Ha m Hm. unfold request.
  destruct (io_errors m (io_count m)) as [exc|] eqn:Hexc.
  - split; [done|]. by exists (io_count m), exc.
  - by apply (Ha (Machine (files m) (stdout m) (ops m) (io_errors m) (S (io_count m)))).
Qed.

Lemma guarded_read_text (paths : list string) (path : string) :
  path ∈ paths → guarded paths (read_text path).
Proof.
  intros Hin. apply guarded_request. intros m Hm.
  destruct (proj1 (Forall_forall _ _) Hm path Hin) as [bytes ->]. done.
Qed.

Lemma guarded_write_text (paths : list string) (path data : string) :
  guarded paths (write_text path data).
Proof.
  assert (Hop : ∀ op, (∃ text, op = OpenTruncate path ∨ op = WriteData path text) →
                      guarded paths (perform op)).
  { intros op (text & Hop) m Hm. unfold perform. cbn [files io_errors]. split; [|done].
    eapply Forall_impl; [exact Hm|]. intros q Hq. cbv beta in *.
    destruct Hop as [-> | ->]; cbn [apply_op];
      (destruct (decide (path = q)) as [->|Hne];
       [rewrite lookup_insert_eq; by eexists|by rewrite lookup_insert_ne]). }
  apply guarded_bind; [|intros _]; apply guarded_request, Hop.
  - exists "". by left.
  - exists data. by right.
Qed.

Lemma guarded_when (paths : list string) (b : bool) (p : prog ()) :
  guarded paths p → guarded paths (when b p).
Proof. destruct b; [done|]. intros _. apply guarded_ret. Qed.

Lemma guarded_for_each {A} (paths : list string) (l : list A) (body : A → prog ()) :
  (∀ x, guarded paths (body x)) → guarded paths (for_each l body).
Proof.
  intros Hbody. induction l as [|x l IH]; [apply guarded_ret|].
  simpl. apply guarded_bind; [apply Hbody|by intros _].
Qed.

Lemma quiet_print_conflicts (tiledef_conflicts : gmap Z (list string))
    (map_coord_conflicts : gmap (Z * Z) (list string)) (m : machine) (Q : () → Prop) :
  Q () → quiet (print_conflicts tiledef_conflicts map_coord_conflicts) m Q.
Proof.
  intros HQ. unfold print_conflicts.
  destruct (_ || _); [|by apply quiet_print].
  apply quiet_bind, quiet_when; [intros _|intros _ m1 _ _ _].
  - apply quiet_bind, quiet_print. intros m1 _ _ _.
    apply quiet_for_each; [|intros m2 _ _ _].
    + intros x m'. by apply quiet_print.
    + apply quiet_bind, quiet_when; [intros _|intros _ m3 _ _ _; by apply quiet_print].
      apply quiet_bind, quiet_print. intros m3 _ _ _.
      apply quiet_bind, quiet_for_each.
      * intros [[cx cy] mods] m'. by apply quiet_print.
      * intros m4 _ _ _.
        apply quiet_when; [intros _|intros _ m5 _ _ _; by apply quiet_print].
        apply quiet_print. intros m5 _ _ _. by apply quiet_print.
  - apply quiet_bind, quiet_when; [intros _|intros _ m3 _ _ _; by apply quiet_print].
    apply quiet_bind, quiet_print. intros m3 _ _ _.
    apply quiet_bind, quiet_for_each.
    + intros [[cx cy] mods] m'. by apply quiet_print.
    + intros m4 _ _ _.
      apply quiet_when; [intros _|intros _ m5 _ _ _; by apply quiet_print].
      apply quiet_print. intros m5 _ _ _. by apply quiet_print.
Qed.

Lemma ensure_topological_order_exit_code (mod_ids : list string)
    (requires_map : gmap string (list string)) (c : Z) (e : string) :
  NoDup mod_ids →
  ensure_topological_order mod_ids requires_map = Some (Exit c e) → c = 1%Z.
Proof.
  intros Hnd Hret.
  destruct (build_prereqs mod_ids requires_map) as [prereqs|c' e'] eqn:Hb.
  - destruct (ensure_topological_order_built _ _ Hnd _ Hb)
      as (in_degree & result & _ & _ & Heq).
    rewrite Heq in Hret.
    destruct (order_is_valid _ _ prereqs); [done|].
    destruct (decide (length result ≠ length mod_ids)); [|done].
    unfold _fatal in Hret. congruence.
  - pose proof Hb as (x & y & _ & -> & _)%build_prereqs_exit.
    unfold ensure_topological_order in Hret. rewrite Hb in Hret. congruence.
Qed.

Lemma main_outcome (a : args) (m0 : machine) :
  (∃ m', main a m0 = Some (m', Ok ()))
  ∨ (∃ m' e, main a m0 = Some (m', Exit 1 e)
             ∧ ((files m' = files m0 ∧ ops m' = ops m0) ∨ raised m0 e)).
Proof.
  unfold main.
  match goal with |- context [match ?p m0 with _ => _ end] => set (before_sort := p) end.
  assert (Hq : quiet before_sort m0
                 (λ v, NoDup v.1.1.1.2
                       ∧ Forall (λ path, is_Some (files m0 !! path))
                                [arg_mods_txt a; arg_ini a])).
  { subst before_sort.
    apply quiet_bind, quiet_path_exists. intros ex Hex m1 Hf1 _ _.
    apply quiet_bind, quiet_when; [intros _; apply quiet_fatal|]. intros Hex1 m2 Hf2 _ _.
    apply quiet_bind, quiet_path_exists. intros ex' Hex' m3 Hf3 _ _.
    apply quiet_bind, quiet_when; [intros _; apply quiet_fatal|]. intros Hex2 m4 _ _ _.
    apply quiet_bind, quiet_read_text. intros text m5 _ _ _.
    pose proof (parse_mods_txt_spec text) as Hp.
    destruct (parse_mods_txt text) as [wids mids]. injection Hp as _ Hmids.
    apply quiet_bind, quiet_when; [intros _; apply quiet_fatal|]. intros _ m6 _ _ _.
    apply quiet_bind, quiet_when; [intros _; apply quiet_fatal|]. intros _ m7 _ _ _.
    apply quiet_bind, quiet_print. intros m8 _ _ _.
    apply quiet_bind, quiet_traverse. intros m9 _ _ _.
    destruct (collect_mod_info _ _) as [rm w2m].
    apply quiet_bind, quiet_print. intros m10 _ _ _.
    apply quiet_bind, quiet_traverse. intros m11 _ _ _.
    apply quiet_bind, quiet_traverse. intros m12 _ _ _.
    apply quiet_bind, quiet_print_conflicts. intros m13 _ _ _.
    apply quiet_bind, quiet_traverse. intros m14 _ _ _.
    apply quiet_bind, quiet_print. intros m15 _ _ _.
    apply quiet_ret. simpl. split; [rewrite Hmids; apply first_occurrences_nodup|].
    apply negb_false_iff in Hex1, Hex2. subst ex ex'.
    apply bool_decide_eq_true in Hex1, Hex2. rewrite Hf2, Hf1 in Hex2.
    by repeat constructor. }
  unfold quiet in Hq. destruct (before_sort m0) as [m1 [v|c e]].
  2: { right. destruct Hq as (-> & ? & ?). exists m1, e. split; [done|by left]. }
  destruct v as [[[[wids mids] maps] rm] w2m]. destruct Hq as (Hf & Ho & He & Hnd & Hpaths).
  simpl in Hnd.
  destruct (ensure_topological_order_terminates mids rm Hnd) as [sorted Hs].
  rewrite Hs. simpl. destruct sorted as [[mids' notes]|c e].
  - match goal with |- (∃ m', Some (?p m1) = _) ∨ _ =>
      assert (Hg : guarded [arg_mods_txt a; arg_ini a] p)
    end.
    { apply guarded_bind; [by intros m Hm|]. intros [mids2 notes2].
      apply guarded_bind; [|intros _].
      { destruct (bool_decide _); [|apply guarded_print].
        apply guarded_bind; [apply guarded_print|intros _].
        apply guarded_bind; [|intros _; apply guarded_print].
        apply guarded_for_each. intros note. apply guarded_print. }
      apply guarded_bind; [apply guarded_read_text; left|]. intros text.
      destruct (rewrite_mods_txt _ _ _ _) as [[changed val_warnings] written].
      apply guarded_bind; [|intros _].
      { destruct written; [apply guarded_write_text|apply guarded_ret]. }
      apply guarded_bind; [|intros _].
      { apply guarded_when, guarded_bind; [apply guarded_print|intros _].
        apply guarded_for_each. intros w. apply guarded_print. }
      apply guarded_bind; [|intros [wids3 mids3]].
      { destruct changed; [|apply guarded_ret].
        apply guarded_bind; [apply guarded_read_text; left|intros text'].
        apply guarded_bind; [apply guarded_print|intros _]. apply guarded_ret. }
      apply guarded_bind; [apply guarded_read_text; right; left|intros original].
      apply guarded_bind; [apply guarded_write_text|intros _].
      apply guarded_bind; [apply guarded_print|intros _].
      apply guarded_bind; [apply guarded_read_text; right; left|intros original'].
      apply guarded_bind; [apply guarded_write_text|intros _].
      apply guarded_bind; [apply guarded_print|intros _].
      apply guarded_when.
      apply guarded_bind; [apply guarded_read_text; right; left|intros original''].
      apply guarded_bind; [apply guarded_write_text|intros _]. apply guarded_print. }
    specialize (Hg m1). rewrite Hf in Hg. specialize (Hg Hpaths).
    match type of Hg with match ?p m1 with _ => _ end =>
      destruct (p m1) as [m' [[]|c e]]
    end.
    + left. by eexists.
    + right. destruct Hg as [-> (n & exc & Hn & ->)]. exists m', (traceback exc).
      split; [done|]. right. exists n, exc. by rewrite <- He.
  - right. exists m1, e.
    rewrite (ensure_topological_order_exit_code mids rm c e Hnd Hs).
    split; [done|by left].
Qed.

(** X5.  Every run of [main] of process_mods.py that has its arguments
    ends, and a run that ends with an error has exit status 1.  Unless a
    request to the file system raised an exception, such a run has
    performed no file operation: the checks of [main] itself (a missing
    mods.txt or INI, no workshop or mod ID, a missing dependency, a
    dependency cycle) all come before the first write.  A usage error of
    [parse_args] ends the run before anything else. *)
Theorem main_fails_before_writing (a : args) (m0 : machine) :
  is_Some (main a m0)
  ∧ (∀ m' c e, main a m0 = Some (m', Exit c e) →
               c = 1%Z ∧ ((files m' = files m0 ∧ ops m' = ops m0) ∨ raised m0 e))
  ∧ (∀ m' c e, (∀ n, io_errors m0 n = None) → main a m0 = Some (m', Exit c e) →
               c = 1%Z ∧ files m' = files m0 ∧ ops m' = ops m0)
  ∧ (∀ c e, main_from_argv (Exit c e) m0 = Some (m0, Exit c e))
  ∧ main_from_argv (Ok a) m0 = main a m0.
Proof.
  assert (Hexit : ∀ m' c e, main a m0 = Some (m', Exit c e) →
            c = 1%Z ∧ ((files m' = files m0 ∧ ops m' = ops m0) ∨ raised m0 e)).
  { intros m' c e Hmain.
    destruct (main_outcome a m0) as [(m1 & Hm1)|(m1 & e1 & Hm1 & Hcase)]; [congruence|].
    rewrite Hm1 in Hmain. by injection Hmain as <- <- <-. }
  split_and!; [|done| |done|done].
  - destruct (main_outcome a m0) as [(m1 & ->)|(m1 & e1 & -> & _)]; by eexists.
  - intros m' c e Hnone Hmain. destruct (Hexit m' c e Hmain) as [-> [?|Hr]]; [done|].
    destruct Hr as (n & exc & Hn & _). by rewrite Hnone in Hn.
Qed.

(** ** Lines, stripping and joining *)

Lemma drop_while_length (p : ascii → bool) (s : string) :
  String.length (py.drop_while p s) ≤ String.length s.
Proof. induction s as [|c s IH]; [done|]. simpl. destruct (p c); simpl; lia. Qed.

Lemma rstrip_with_length (p : ascii → bool) (s : string) :
  String.length (py.rstrip_with p s) ≤ String.length s.
Proof.
  induction s as [|c s IH]; [done|]. simpl.
  destruct (py.rstrip_with p s); [destruct (p c)|]; simpl in *; lia.
Qed.

Lemma drop_while_same_length (p : ascii → bool) (s : string) :
  String.length (py.drop_while p s) = String.length s → py.drop_while p s = s.
Proof.
  destruct s as [|c s]; [done|]. simpl. destruct (p c); [|done].
  pose proof (drop_while_length p s). simpl. lia.
Qed.

Lemma stripped_id_sides (s : string) :
  py.strip s = s →
  py.drop_while py.isspace s = s ∧ py.rstrip_with py.isspace s = s.
Proof.
  unfold py.strip. intros Heq.
  assert (py.drop_while py.isspace s = s) as Hl.
  { apply drop_while_same_length.
    pose proof (drop_while_length py.isspace s).
    pose proof (rstrip_with_length py.isspace (py.drop_while py.isspace s)).
    rewrite Heq in *. lia. }
  by rewrite Hl in Heq.
Qed.

Lemma rstrip_with_snoc (p : ascii → bool) (s : string) (c : ascii) :
  p c = true → py.rstrip_with p (s +:+ String c "") = py.rstrip_with p s.
Proof.
  intros Hc. induction s as [|a s IH].
  - rewrite string_app_nil_l. simpl. by rewrite Hc.
  - rewrite string_app_cons. simpl. by rewrite IH.
Qed.

Lemma rstrip_with_app_fixed (p : ascii → bool) (s t : string) :
  t ≠ "" → py.rstrip_with p t = t → py.rstrip_with p (s +:+ t) = s +:+ t.
Proof.
  intros Hne Ht. induction s as [|a s IH].
  - by rewrite string_app_nil_l.
  - rewrite string_app_cons. simpl. rewrite IH.
    destruct (s +:+ t) eqn:Hst; [|done]. by destruct s, t.
Qed.

Lemma strip_cons_space (c : ascii) (s : string) :
  py.isspace c = true → py.strip (String c s) = py.strip s.
Proof. unfold py.strip. simpl. by intros ->. Qed.

Lemma strip_snoc_space (s : string) (c : ascii) :
  py.isspace c = true → py.strip (s +:+ String c "") = py.strip s.
Proof.
  intros Hc. induction s as [|a s IH].
  - rewrite string_app_nil_l. unfold py.strip. simpl. by rewrite Hc.
  - rewrite string_app_cons. destruct (py.isspace a) eqn:Ha.
    + by rewrite !strip_cons_space.
    + unfold py.strip. cbn [py.drop_while]. rewrite Ha.
      rewrite <- string_app_cons, rstrip_with_snoc by done. done.
Qed.

Lemma strip_fixed (s : string) :
  head_not py.isspace s → py.rstrip_with py.isspace s = s → py.strip s = s.
Proof. intros Hh Hr. unfold py.strip. by rewrite drop_while_head_not. Qed.

Lemma all_chars_rstrip_fixed (p : ascii → bool) (s : string) :
  all_chars (λ c, negb (p c)) s = true → py.rstrip_with p s = s.
Proof.
  induction s as [|c s IH]; [done|]. simpl. intros [Hc Hs]%andb_true_iff.
  rewrite IH by done. destruct s; [|done]. by apply negb_true_iff in Hc as ->.
Qed.

Lemma all_chars_take_while (p : ascii → bool) (s : string) :
  all_chars p (py.take_while p s) = true.
Proof. induction s as [|c s IH]; [done|]. simpl. destruct (p c) eqn:Hc; [|done]. simpl. by rewrite Hc. Qed.

Lemma take_while_all_chars (p : ascii → bool) (s t : string) :
  all_chars p s = true → head_not p t →
  py.take_while p (s +:+ t) = s ∧ py.drop_while p (s +:+ t) = t.
Proof.
  intros Hs Ht. induction s as [|c s IH].
  - rewrite string_app_nil_l. destruct t as [|c t]; [done|]. simpl in *. by rewrite Ht.
  - rewrite string_app_cons. simpl in *. apply andb_true_iff in Hs as [-> Hs].
    destruct (IH Hs) as [-> ->]. done.
Qed.

Lemma all_chars_app (p : ascii → bool) (s t : string) :
  all_chars p (s +:+ t) = all_chars p s && all_chars p t.
Proof.
  induction s as [|c s IH]; [by rewrite string_app_nil_l|].
  rewrite string_app_cons. simpl. by rewrite IH, andb_assoc.
Qed.

Lemma all_chars_drop_while (p q : ascii → bool) (s : string) :
  all_chars p s = true → all_chars p (py.drop_while q s) = true.
Proof.
  induction s as [|c s IH]; [done|]. simpl. intros [Hc Hs]%andb_true_iff.
  destruct (q c); [by apply IH|]. simpl. by rewrite Hc, Hs.
Qed.

Lemma all_chars_rstrip_with (p q : ascii → bool) (s : string) :
  all_chars p s = true → all_chars p (py.rstrip_with q s) = true.
Proof.
  induction s as [|c s IH]; [done|]. simpl. intros [Hc Hs]%andb_true_iff.
  specialize (IH Hs). destruct (py.rstrip_with q s); [destruct (q c)|];
    simpl in *; by rewrite ?Hc.
Qed.

Lemma all_chars_after_prefix (p : ascii → bool) (prefix s r : string) :
  all_chars p s = true → py.after_prefix prefix s = Some r → all_chars p r = true.
Proof.
  revert s. induction prefix as [|a prefix IH]; intros s Hs Hr.
  - simpl in Hr. by destruct s; injection Hr as <-.
  - destruct s as [|c s]; [done|]. simpl in *. apply andb_true_iff in Hs as [_ Hs].
    destruct (bool_decide (a = c)); [|done]. by eapply IH.
Qed.

Lemma all_chars_after_prefix_ci (p : ascii → bool) (prefix s r : string) :
  all_chars p s = true → py.after_prefix_ci prefix s = Some r → all_chars p r = true.
Proof.
  revert s. induction prefix as [|a prefix IH]; intros s Hs Hr.
  - simpl in Hr. by destruct s; injection Hr as <-.
  - destruct s as [|c s]; [done|]. simpl in *. apply andb_true_iff in Hs as [_ Hs].
    destruct (bool_decide (a = py.lower_char c)); [|done]. by eapply IH.
Qed.

(** ** The lines of a text file *)

Lemma readlines_cons_other (c : ascii) (s : string) :
  is_newline c = false →
  py.readlines (String c s)
  = match py.readlines s with
    | [] => [String c ""]
    | line :: lines => String c line :: lines
    end.
Proof.
  intros Hc. destruct c as [[] [] [] [] [] [] [] []]; try done.
Qed.

Lemma readlines_line (l rest : string) :
  one_line l →
  py.readlines (l +:+ String "010" rest) = (l +:+ String "010" "") :: py.readlines rest.
Proof.
  unfold one_line. induction l as [|c l IH]; intros Hl.
  - by rewrite !string_app_nil_l.
  - simpl in Hl. apply andb_true_iff in Hl as [Hc Hl]. apply negb_true_iff in Hc.
    rewrite !string_app_cons, readlines_cons_other, IH by done. done.
Qed.

Lemma readlines_shape (text : string) :
  Forall (λ l, ∃ body, one_line body ∧ (l = body +:+ String "010" "" ∨ l = body))
         (py.readlines text).
Proof.
  remember (String.length text) as n eqn:Hn.
  revert text Hn. induction (lt_wf n) as [n _ IH']. intros text ->.
  assert (IH : ∀ t, String.length t < String.length text →
                    Forall (λ l, ∃ body, one_line body
                                   ∧ (l = body +:+ String "010" "" ∨ l = body))
                           (py.readlines t)).
  { intros t Ht. by eapply IH'. }
  clear IH'. destruct text as [|c text]; [constructor|].
  destruct (is_newline c) eqn:Hc.
  - assert (c = "010"%char ∨ c = "013"%char) as [->| ->].
    { unfold is_newline in Hc. apply orb_true_iff in Hc as [?%bool_decide_eq_true|?%bool_decide_eq_true]; auto. }
    + change (py.readlines (String "010" text)) with (String "010" "" :: py.readlines text).
      constructor; [exists ""; split; [done|by left]|]. apply IH. simpl. lia.
    + destruct text as [|c' text].
      * constructor; [exists ""; split; [done|by left]|constructor].
      * destruct (decide (c' = "010"%char)) as [->|Hne].
        -- change (py.readlines (String "013" (String "010" text)))
             with (py.readlines (String "010" text)).
           apply IH. simpl. lia.
        -- assert (py.readlines (String "013" (String c' text))
                   = String "010" "" :: py.readlines (String c' text)) as ->.
           { destruct c' as [[] [] [] [] [] [] [] []]; try done. }
           constructor; [exists ""; split; [done|by left]|]. apply IH. simpl. lia.
  - rewrite readlines_cons_other by done.
    assert (Hrec : Forall (λ l, ∃ body, one_line body
                                  ∧ (l = body +:+ String "010" "" ∨ l = body))
                     (py.readlines text)) by (apply IH; simpl; lia).
    destruct (py.readlines text) as [|line lines].
    + constructor; [|constructor]. exists (String c ""). split; [|by right].
      unfold one_line. simpl. by rewrite Hc.
    + apply Forall_cons in Hrec as [(body & Hbody & Hline) Hrec].
      constructor; [|done]. exists (String c body). split.
      * unfold one_line in *. simpl. by rewrite Hc.
      * destruct Hline as [-> | ->]; [left|right]; done.
Qed.

(** ** What the parser of mods.txt reads *)

Lemma one_line_strip (s : string) : one_line s → one_line (py.strip s).
Proof.
  unfold one_line, py.strip. intros Hs.
  by apply all_chars_rstrip_with, all_chars_drop_while.
Qed.

Lemma one_line_strip_raw (raw : string) :
  (∃ body, one_line body ∧ (raw = body +:+ String "010" "" ∨ raw = body)) →
  one_line (py.strip raw).
Proof.
  intros (body & Hbody & [-> | ->]); [|by apply one_line_strip].
  rewrite strip_snoc_space by done. by apply one_line_strip.
Qed.

Lemma match_workshop_id_token (line wid : string) :
  match_workshop_id line = Some wid → workshop_token wid.
Proof.
  unfold match_workshop_id. intros Hm.
  apply bind_Some in Hm as (r1 & H1 & Hm).
  destruct (bool_decide (py.take_while py.isspace r1 = "")); [done|].
  apply bind_Some in Hm as (r2 & H2 & Hm).
  apply bind_Some in Hm as (r3 & H3 & Hm).
  destruct (bool_decide _) eqn:Hg; [done|]. injection Hm as <-.
  apply bool_decide_eq_false in Hg. split; [done|]. apply all_chars_take_while.
Qed.

Lemma match_mod_id_token (line mid : string) :
  one_line line → match_mod_id line = Some mid → mid ≠ "" → mod_token mid.
Proof.
  unfold match_mod_id. intros Hline Hm Hne.
  apply bind_Some in Hm as (r1 & H1 & Hm).
  destruct (bool_decide (py.take_while py.isspace r1 = "")); [done|].
  apply bind_Some in Hm as (r2 & H2 & Hm).
  apply bind_Some in Hm as (r3 & H3 & Hm).
  destruct (bool_decide (r3 = "")); [done|]. injection Hm as <-.
  split; [split; [done|apply strip_idem]|]. apply one_line_strip.
  eapply all_chars_after_prefix; [|done]. apply all_chars_drop_while.
  eapply all_chars_after_prefix_ci; [|done]. apply all_chars_drop_while.
  by eapply all_chars_after_prefix_ci.
Qed.

Lemma parse_line_tokens (st : parser) (raw_line : string) :
  one_line (py.strip raw_line) →
  Forall (λ b, workshop_token (workshop_id b) ∧ NoDup (mod_ids b)
               ∧ Forall mod_token (mod_ids b)) (blocks st) →
  Forall (λ b, workshop_token (workshop_id b) ∧ NoDup (mod_ids b)
               ∧ Forall mod_token (mod_ids b)) (blocks (parse_line st raw_line)).
Proof.
  intros Hline Hst. unfold parse_line.
  destruct (_ || _); [done|]. destruct (bool_decide (py.strip raw_line = "---")); [done|].
  destruct (match_workshop_id _) as [wid|] eqn:Hw.
  - simpl. apply Forall_app. split; [done|]. constructor; [|done].
    split_and!; [by eapply match_workshop_id_token|constructor|constructor].
  - destruct (current st) as [cur|]; [|done].
    destruct (match_mod_id _) as [mid|] eqn:Hm; [|done].
    destruct (bool_decide (mid ≠ "")) eqn:Hne; [|done].
    destruct (bool_decide (mid ∉ _)) eqn:Hnew; [|done]. simpl.
    apply bool_decide_eq_true in Hne, Hnew.
    apply Forall_alter; [done|]. intros b Hb. simpl.
    rewrite Hb in Hnew. simpl in Hnew.
    rewrite Forall_lookup in Hst. destruct (Hst _ _ Hb) as (Hwid & Hnd & Hall).
    intros _. split_and!; [done| |].
    + apply NoDup_app. split_and!; [done| |apply NoDup_singleton].
      intros x Hx ->%list_elem_of_singleton. done.
    + apply Forall_app. split; [done|]. constructor; [|done].
      by eapply match_mod_id_token.
Qed.

(** X6.  Every block that [parse_mods_blocks] reads has a workshop ID
    that is a non-empty run of non-whitespace characters, and a
    duplicate-free list of mod IDs, each of them non-empty, within one
    line and without surrounding whitespace. *)
Theorem parse_mods_blocks_tokens (text : string) :
  Forall (λ b, workshop_token (workshop_id b) ∧ NoDup (mod_ids b)
               ∧ Forall mod_token (mod_ids b)) (parse_mods_blocks text).
Proof.
  unfold parse_mods_blocks.
  assert (Hgen : ∀ lines st,
    Forall (λ l, one_line (py.strip l)) lines →
    Forall (λ b, workshop_token (workshop_id b) ∧ NoDup (mod_ids b)
                 ∧ Forall mod_token (mod_ids b)) (blocks st) →
    Forall (λ b, workshop_token (workshop_id b) ∧ NoDup (mod_ids b)
                 ∧ Forall mod_token (mod_ids b)) (blocks (foldl parse_line st lines))).
  { induction lines as [|l lines IH]; intros st Hlines Hst; [done|].
    apply Forall_cons in Hlines as [Hl Hlines]. simpl.
    apply IH; [done|]. by apply parse_line_tokens. }
  apply Hgen; [|constructor].
  eapply Forall_impl; [apply readlines_shape|]. intros l. apply one_line_strip_raw.
Qed.

(** ** mods.txt written and read back *)

Lemma match_workshop_id_prefix (wid : string) :
  match_workshop_id ("Workshop ID: " +:+ wid)
  = (let g := py.take_while (λ c, negb (py.isspace c)) (py.drop_while py.isspace wid) in
     if bool_decide (g = "") then None else Some g).
Proof. by vm_compute. Qed.

Lemma head_not_nonspace (s : string) :
  all_chars (λ c, negb (py.isspace c)) s = true → head_not py.isspace s.
Proof. destruct s as [|c s]; [done|]. simpl. intros [Hc _]%andb_true_iff. by apply negb_true_iff. Qed.

Lemma match_workshop_id_written (wid : string) :
  workshop_token wid → match_workshop_id ("Workshop ID: " +:+ wid) = Some wid.
Proof.
  intros [Hne Hall]. rewrite match_workshop_id_prefix. cbv zeta.
  rewrite drop_while_head_not by (by apply head_not_nonspace).
  pose proof (take_while_all_chars _ wid "" Hall I) as [Ht _].
  rewrite string_app_nil_r in Ht. rewrite Ht.
  by rewrite bool_decide_eq_false_2.
Qed.

Lemma match_workshop_id_mod_line (rest : string) :
  match_workshop_id (String "M" rest) = None.
Proof. by vm_compute. Qed.

Lemma match_mod_id_prefix (mid : string) :
  match_mod_id ("Mod ID: " +:+ mid)
  = Some (py.strip (String " " mid)).
Proof. by vm_compute. Qed.

Lemma match_mod_id_written (mid : string) :
  stripped_id mid → match_mod_id ("Mod ID: " +:+ mid) = Some mid.
Proof.
  intros [_ Hs]. rewrite match_mod_id_prefix, strip_cons_space by done. by rewrite Hs.
Qed.

Lemma strip_written_line (prefix s : string) (c : ascii) :
  py.isspace c = false → py.rstrip_with py.isspace s = s → s ≠ "" →
  py.strip ((String c prefix +:+ s) +:+ String "010" "") = String c prefix +:+ s.
Proof.
  intros Hc Hs Hne. rewrite strip_snoc_space by done. apply strip_fixed.
  - by rewrite string_app_cons.
  - by apply rstrip_with_app_fixed.
Qed.

Lemma strip_cons_nonspace (c : ascii) (s : string) :
  py.isspace c = false → ∃ r, py.strip (String c s) = String c r.
Proof.
  intros Hc. unfold py.strip. cbn [py.drop_while]. rewrite Hc. cbn [py.rstrip_with].
  destruct (py.rstrip_with py.isspace s); [rewrite Hc|]; by eexists.
Qed.

Lemma parse_line_workshop (st : parser) (wid : string) :
  workshop_token wid →
  parse_line st (("Workshop ID: " +:+ wid) +:+ String "010" "")
  = mkParser (blocks st ++ [mkModBlock wid []]) (Some (length (blocks st))).
Proof.
  intros Hwid. unfold parse_line.
  change ("Workshop ID: " +:+ wid) with (String "W" "orkshop ID: " +:+ wid).
  rewrite strip_written_line; [|done|by apply all_chars_rstrip_fixed, Hwid|apply Hwid].
  change (String "W" "orkshop ID: " +:+ wid) with ("Workshop ID: " +:+ wid).
  rewrite match_workshop_id_written by done.
  assert (py.startswith ("Workshop ID: " +:+ wid) "#" = false) as -> by (by vm_compute).
  rewrite !bool_decide_eq_false_2; [done|by rewrite !string_app_cons..].
Qed.

Lemma parse_line_mod (st : parser) (mid : string) (cur : nat) (b : ModBlock) :
  stripped_id mid → current st = Some cur → blocks st !! cur = Some b →
  mid ∉ mod_ids b →
  parse_line st (("Mod ID: " +:+ mid) +:+ String "010" "")
  = mkParser (alter (λ b, mkModBlock (workshop_id b) (mod_ids b ++ [mid])) cur (blocks st))
             (Some cur).
Proof.
  intros Hmid Hcur Hb Hnew. unfold parse_line.
  change ("Mod ID: " +:+ mid) with (String "M" "od ID: " +:+ mid).
  rewrite strip_written_line; [|done|by apply stripped_id_sides, Hmid|apply Hmid].
  change (String "M" "od ID: " +:+ mid) with ("Mod ID: " +:+ mid).
  rewrite match_mod_id_written by done.
  assert (match_workshop_id ("Mod ID: " +:+ mid) = None) as -> by (by vm_compute).
  assert (py.startswith ("Mod ID: " +:+ mid) "#" = false) as -> by (by vm_compute).
  rewrite (bool_decide_eq_false_2 (_ = "")) by (by rewrite !string_app_cons).
  rewrite (bool_decide_eq_false_2 (_ = "---")) by (by rewrite !string_app_cons).
  rewrite Hcur, Hb. simpl.
  rewrite (bool_decide_eq_true_2 (mid ≠ "")) by apply Hmid.
  by rewrite (bool_decide_eq_true_2 (mid ∉ mod_ids b)) by done.
Qed.

Lemma parse_line_orphan (st : parser) (mid : string) :
  current st = None →
  parse_line st (("Mod ID: " +:+ mid) +:+ String "010" "") = st.
Proof.
  intros Hcur. unfold parse_line.
  change (("Mod ID: " +:+ mid) +:+ String "010" "")
    with (String "M" (("od ID: " +:+ mid) +:+ String "010" "")).
  destruct (strip_cons_nonspace "M" (("od ID: " +:+ mid) +:+ String "010" "") eq_refl)
    as [r ->].
  rewrite match_workshop_id_mod_line, Hcur.
  assert (py.startswith (String "M" r) "#" = false) as -> by (by vm_compute).
  by rewrite !bool_decide_eq_false_2 by done.
Qed.

Lemma parse_line_separator (st : parser) :
  parse_line st (String "-" (String "-" (String "-" (String "010" ""))))
  = mkParser (blocks st) None.
Proof. by vm_compute. Qed.

Lemma parse_line_blank (st : parser) : parse_line st (String "010" "") = st.
Proof. by vm_compute. Qed.

Lemma parse_line_comment (st : parser) (s : string) :
  parse_line st (String "#" s) = st.
Proof.
  unfold parse_line.
  destruct (strip_cons_nonspace "#" s eq_refl) as [r ->].
  assert (py.startswith (String "#" r) "#" = true) as -> by (by vm_compute).
  by rewrite orb_true_r.
Qed.

Lemma parse_mod_lines (bs : list ModBlock) (wid : string) (todo done : list string) :
  NoDup (done ++ todo) → Forall stripped_id todo →
  foldl parse_line (mkParser (bs ++ [mkModBlock wid done]) (Some (length bs)))
        ((λ l, l +:+ String "010" "") <$> ((λ mid, "Mod ID: " +:+ mid) <$> todo))
  = mkParser (bs ++ [mkModBlock wid (done ++ todo)]) (Some (length bs)).
Proof.
  revert done. induction todo as [|m todo IH]; intros done Hnd Hall.
  - by rewrite app_nil_r.
  - apply Forall_cons in Hall as [Hm Hall]. rewrite !fmap_cons. cbn [foldl].
    rewrite (parse_line_mod _ m (length bs) (mkModBlock wid done)); [|done|done| |].
    + cbn [blocks]. rewrite <- (Nat.add_0_r (length bs)) at 1. rewrite alter_app_r.
      cbn [alter list_alter workshop_id mod_ids].
      rewrite IH; [by rewrite <- app_assoc| |done].
      by rewrite <- app_assoc.
    + cbn [blocks]. by rewrite list_lookup_middle.
    + cbn [mod_ids]. apply NoDup_app in Hnd as (_ & Hdisj & _).
      intros Hin. apply (Hdisj m Hin). left.
Qed.

(** The lines of one block as [rewrite_mods_txt] appends them. *)
Lemma parse_block_lines (st : parser) (wid : string) (group : list string) :
  workshop_token wid → NoDup group → Forall stripped_id group →
  foldl parse_line st
        ((λ l, l +:+ String "010" "")
           <$> (["Workshop ID: " +:+ wid]
                ++ ((λ mid, "Mod ID: " +:+ mid) <$> group) ++ ["---"; ""]))
  = mkParser (blocks st ++ [mkModBlock wid group]) None.
Proof.
  intros Hwid Hnd Hall. rewrite !fmap_app, !foldl_app. cbn [fmap list_fmap foldl].
  rewrite parse_line_workshop by done.
  rewrite (parse_mod_lines (blocks st) wid group []) by done.
  change ("---" +:+ String "010" "")
    with (String "-" (String "-" (String "-" (String "010" "")))).
  rewrite parse_line_separator. change ("" +:+ String "010" "") with (String "010" "").
  by rewrite parse_line_blank.
Qed.

Lemma parse_written_blocks (st : parser) (workshop_ids : list string)
    (new_groups : gmap string (list string)) :
  Forall workshop_token workshop_ids →
  (∀ wid group, wid ∈ workshop_ids → new_groups !! wid = Some group →
                NoDup group ∧ Forall stripped_id group) →
  foldl parse_line st
        ((λ l, l +:+ String "010" "")
           <$> (wid ← workshop_ids;
                ["Workshop ID: " +:+ wid]
                ++ ((λ mid, "Mod ID: " +:+ mid) <$> default [] (new_groups !! wid))
                ++ ["---"; ""]))
  = mkParser (blocks st ++ written_blocks workshop_ids new_groups)
             (match workshop_ids with [] => current st | _ => None end).
Proof.
  intros Hwids Hgroups. revert st.
  induction workshop_ids as [|wid wids IH] using rev_ind; intros st.
  - simpl. rewrite app_nil_r. by destruct st.
  - apply Forall_app in Hwids as [Hwids [Hwid _]%Forall_cons].
    rewrite bind_app, fmap_app, foldl_app, IH; [|done|].
    2: { intros w g Hw. apply Hgroups. apply elem_of_app. by left. }
    rewrite bind_cons. cbn [mbind list_bind]. rewrite app_nil_r.
    rewrite parse_block_lines; [|done|..].
    + cbn [blocks]. unfold written_blocks. rewrite fmap_app, app_assoc.
      by destruct wids.
    + destruct (new_groups !! wid) as [g|] eqn:Hg; [|constructor].
      apply (Hgroups wid g); [|done]. apply elem_of_app. right. left.
    + destruct (new_groups !! wid) as [g|] eqn:Hg; [|constructor].
      apply (Hgroups wid g); [|done]. apply elem_of_app. right. left.
Qed.

Lemma parse_orphan_lines (st : parser) (orphans : list string) :
  current st = None →
  foldl parse_line st
        ((λ l, l +:+ String "010" "") <$> ((λ mid, "Mod ID: " +:+ mid) <$> orphans))
  = st.
Proof.
  intros Hcur. induction orphans as [|o orphans IH]; [done|].
  rewrite !fmap_cons. cbn [foldl]. by rewrite parse_line_orphan.
Qed.

Lemma join_cons_cons (sep x y : string) (l : list string) :
  py.join sep (x :: y :: l) = x +:+ sep +:+ py.join sep (y :: l).
Proof. done. Qed.

Lemma join_snoc (sep x : string) (l : list string) :
  l ≠ [] → py.join sep (l ++ [x]) = py.join sep l +:+ sep +:+ x.
Proof.
  induction l as [|y l IH]; [done|]. intros _. destruct l as [|z l]; [done|].
  change ((y :: z :: l) ++ [x]) with (y :: z :: (l ++ [x])).
  rewrite !join_cons_cons. change (z :: l ++ [x]) with ((z :: l) ++ [x]).
  rewrite IH by done. by rewrite !string_app_assoc.
Qed.

Lemma readlines_join (ls : list string) :
  ls ≠ [] → Forall one_line ls →
  py.readlines (py.join (String "010" "") ls +:+ String "010" "")
  = (λ l, l +:+ String "010" "") <$> ls.
Proof.
  induction ls as [|x ls IH]; [done|]. intros _ [Hx Hls]%Forall_cons.
  destruct ls as [|y ls].
  - simpl. by rewrite readlines_line.
  - rewrite join_cons_cons, !string_app_assoc.
    change (String "010" "" +:+ ?s) with (String "010" s).
    rewrite readlines_line by done. rewrite fmap_cons. f_equal. by apply IH.
Qed.

Lemma parse_text_of_lines (st : parser) (A : list string) :
  Forall one_line A →
  foldl parse_line st
        (py.readlines (py.rstrip_lf (py.join (String "010" "") (A ++ ["---"; ""]))
                       +:+ String "010" ""))
  = foldl parse_line st ((λ l, l +:+ String "010" "") <$> (A ++ ["---"; ""])).
Proof.
  intros HA.
  change (A ++ ["---"; ""]) with (A ++ ["---"] ++ [""]). rewrite app_assoc.
  rewrite join_snoc by (by destruct A). rewrite string_app_nil_r.
  assert (Hfix : py.rstrip_lf (py.join (String "010" "") (A ++ ["---"]))
                 = py.join (String "010" "") (A ++ ["---"])).
  { unfold py.rstrip_lf. destruct (decide (A = [])) as [->|HA'].
    - by vm_compute.
    - rewrite join_snoc by done. rewrite <- string_app_assoc.
      by apply rstrip_with_app_fixed. }
  unfold py.rstrip_lf in *. rewrite rstrip_with_snoc by done. rewrite Hfix.
  rewrite readlines_join; [|by destruct A|].
  - rewrite (fmap_app _ (A ++ ["---"]) [""]), foldl_app. cbn [fmap list_fmap foldl].
    change ("" +:+ String "010" "") with (String "010" "").
    by rewrite parse_line_blank.
  - apply Forall_app. split; [done|]. by repeat constructor.
Qed.

Lemma workshop_token_one_line (s : string) : workshop_token s → one_line s.
Proof.
  intros [_ Hs]. unfold one_line. induction s as [|c s IH]; [done|].
  simpl in *. apply andb_true_iff in Hs as [Hc Hs]. rewrite IH by done.
  rewrite andb_true_r. by destruct c as [[] [] [] [] [] [] [] []].
Qed.

Lemma one_line_app (s t : string) : one_line s → one_line t → one_line (s +:+ t).
Proof. unfold one_line. intros Hs Ht. by rewrite all_chars_app, Hs, Ht. Qed.

Lemma written_lines_one_line (workshop_ids : list string)
    (new_groups : gmap string (list string)) :
  Forall workshop_token workshop_ids →
  (∀ wid group, wid ∈ workshop_ids → new_groups !! wid = Some group →
                Forall one_line group) →
  Forall one_line
    (wid ← workshop_ids;
     ["Workshop ID: " +:+ wid]
     ++ ((λ mid, "Mod ID: " +:+ mid) <$> default [] (new_groups !! wid))
     ++ ["---"; ""]).
Proof.
  intros Hwids Hgroups. apply Forall_forall. intros l Hl.
  apply list_elem_of_bind in Hl as (wid & Hl & Hwid).
  rewrite Forall_forall in Hwids.
  apply elem_of_app in Hl as [Hl|Hl]; [apply list_elem_of_singleton in Hl as ->|].
  - apply one_line_app; [done|]. by apply workshop_token_one_line, Hwids.
  - apply elem_of_app in Hl as [Hl|Hl].
    + apply list_elem_of_fmap in Hl as (m & -> & Hm). apply one_line_app; [done|].
      destruct (new_groups !! wid) as [g|] eqn:Hg; [|by apply elem_of_nil in Hm].
      specialize (Hgroups wid g Hwid Hg). rewrite Forall_forall in Hgroups. by apply Hgroups.
    + apply elem_of_cons in Hl as [->|Hl]; [done|].
      by apply list_elem_of_singleton in Hl as ->.
Qed.

Lemma parse_mods_txt_text (workshop_ids : list string)
    (new_groups : gmap string (list string)) (new_orphans : list string) :
  Forall workshop_token workshop_ids →
  (∀ wid group, wid ∈ workshop_ids → new_groups !! wid = Some group →
                NoDup group ∧ Forall mod_token group) →
  Forall one_line new_orphans →
  parse_mods_blocks (mods_txt_text workshop_ids new_groups new_orphans)
  = written_blocks workshop_ids new_groups.
Proof.
  intros Hwids Hgroups Horph. unfold parse_mods_blocks, mods_txt_text.
  set (block_lines := workshop_ids ≫= _).
  assert (Hone : Forall one_line block_lines).
  { apply written_lines_one_line; [done|]. intros wid g Hwid Hg.
    destruct (Hgroups wid g Hwid Hg) as [_ Hall].
    eapply Forall_impl; [done|]. by intros m [_ ?]. }
  assert (Hparse : ∀ st, current st = None →
            foldl parse_line st ((λ l, l +:+ String "010" "") <$> block_lines)
            = mkParser (blocks st ++ written_blocks workshop_ids new_groups) None).
  { intros st Hcur. subst block_lines. rewrite parse_written_blocks; [|done|].
    - rewrite Hcur. by destruct workshop_ids.
    - intros wid g Hwid Hg. destruct (Hgroups wid g Hwid Hg) as [Hnd Hall].
      split; [done|]. eapply Forall_impl; [done|]. by intros m [? _]. }
  destruct (decide (new_orphans = [])) as [->|Hne].
  - rewrite bool_decide_eq_false_2 by auto. rewrite app_nil_r.
    destruct workshop_ids as [|wid wids _] using rev_ind; [by vm_compute|].
    assert (∃ A, block_lines = A ++ ["---"; ""]) as [A HA].
    { subst block_lines. rewrite bind_app, bind_cons. cbn [mbind list_bind].
      rewrite app_nil_r. eexists. by rewrite !app_assoc. }
    rewrite HA in *. rewrite parse_text_of_lines.
    + by rewrite Hparse.
    + by apply Forall_app in Hone as [? _].
  - rewrite bool_decide_eq_true_2 by done.
    rewrite !app_assoc. rewrite parse_text_of_lines.
    + rewrite <- !app_assoc. rewrite fmap_app, foldl_app, Hparse by done.
      rewrite !fmap_app, !foldl_app. cbn [fmap list_fmap foldl].
      change ("# Mod IDs not yet attributed to any downloaded workshop item"
              +:+ String "010" "")
        with (String "#" (" Mod IDs not yet attributed to any downloaded workshop item"
                          +:+ String "010" "")).
      rewrite parse_line_comment, parse_orphan_lines by done.
      change ("---" +:+ String "010" "")
        with (String "-" (String "-" (String "-" (String "010" "")))).
      rewrite parse_line_separator.
      change ("" +:+ String "010" "") with (String "010" "").
      by rewrite parse_line_blank.
    + rewrite !Forall_app. split_and!; [done|by repeat constructor|].
      apply Forall_fmap. eapply Forall_impl; [done|]. intros m Hm.
      by apply one_line_app.
Qed.

Lemma written_blocks_ids (workshop_ids : list string)
    (new_groups : gmap string (list string)) :
  workshop_id <$> written_blocks workshop_ids new_groups = workshop_ids.
Proof.
  unfold written_blocks. rewrite <- list_fmap_compose. apply list_fmap_id.
Qed.

Lemma written_blocks_mods (workshop_ids : list string)
    (new_groups : gmap string (list string)) :
  written_blocks workshop_ids new_groups ≫= mod_ids
  = wid ← workshop_ids; default [] (new_groups !! wid).
Proof.
  unfold written_blocks. induction workshop_ids as [|wid wids IH]; [done|].
  rewrite fmap_cons, !bind_cons, IH. done.
Qed.

(** X7.  What [rewrite_mods_txt] writes reads back as it was written, as
    far as the blocks go: for workshop IDs without whitespace and
    duplicate-free groups of well-formed mod IDs, [parse_mods_blocks]
    returns one block per workshop ID written, in order, each with its
    group, and [parse_mods_txt] returns the first occurrences of the
    workshop IDs and of the mod IDs of the groups.  The mod IDs written
    below the comment header are not among them. *)
Theorem written_mods_txt_reads_back (workshop_ids : list string)
    (new_groups : gmap string (list string)) (new_orphans : list string) :
  Forall workshop_token workshop_ids →
  (∀ wid group, wid ∈ workshop_ids → new_groups !! wid = Some group →
                NoDup group ∧ Forall mod_token group) →
  Forall one_line new_orphans →
  parse_mods_blocks (mods_txt_text workshop_ids new_groups new_orphans)
  = written_blocks workshop_ids new_groups
  ∧ parse_mods_txt (mods_txt_text workshop_ids new_groups new_orphans)
    = (first_occurrences workshop_ids,
       first_occurrences (wid ← workshop_ids; default [] (new_groups !! wid))).
Proof.
  intros Hwids Hgroups Horph.
  pose proof (parse_mods_txt_text _ _ _ Hwids Hgroups Horph) as Hblocks.
  split; [done|].
  rewrite parse_mods_txt_spec, Hblocks, written_blocks_ids, written_blocks_mods.
  do 2 f_equal. apply filter_all_elem. intros m Hm.
  apply list_elem_of_bind in Hm as (wid & Hm & Hwid).
  destruct (new_groups !! wid) as [g|] eqn:Hg; [|by apply elem_of_nil in Hm].
  destruct (Hgroups wid g Hwid Hg) as [_ Hall]. rewrite Forall_forall in Hall.
  apply (Hall m Hm).
Qed.

Lemma written_mods_txt_reads_back_witness :
  parse_mods_blocks (mods_txt_text ["1"; "2"] {[ "1" := ["a"; "b"] ]} ["c"])
  = written_blocks ["1"; "2"] {[ "1" := ["a"; "b"] ]}
  ∧ parse_mods_txt (mods_txt_text ["1"; "2"] {[ "1" := ["a"; "b"] ]} ["c"])
    = (first_occurrences ["1"; "2"],
       first_occurrences (wid ← ["1"; "2"];
                          default [] (({[ "1" := ["a"; "b"] ]} : gmap string (list string))
                                        !! wid))).
Proof.
  apply written_mods_txt_reads_back.
  - repeat constructor; by vm_compute.
  - intros wid group _ Hg.
    destruct (decide (wid = "1")) as [->|Hne].
    + rewrite lookup_singleton_eq in Hg. injection Hg as <-. split.
      * by_computation.
      * repeat constructor; by vm_compute.
    + by rewrite lookup_singleton_ne in Hg.
  - repeat constructor.
Defined.

Lemma group_for_elem (workshop_to_mods : gmap string (list string))
    (mod_ids_set : gset string) (sorted_pos : gmap string nat) (wid m : string) :
  m ∈ _group_for workshop_to_mods mod_ids_set sorted_pos wid
  ↔ m ∈ mod_ids_set ∧ m ∈ default [] (workshop_to_mods !! wid).
Proof.
  unfold _group_for.
  destruct (decide (default [] (workshop_to_mods !! wid) = [])) as [Hnil|Hne].
  - rewrite bool_decide_eq_true_2, Hnil by done. split; [by intros ?%elem_of_nil|].
    by intros [_ ?%elem_of_nil].
  - rewrite bool_decide_eq_false_2 by done.
    by rewrite sorted_by_perm, list_elem_of_filter.
Qed.

Lemma group_for_nodup (workshop_to_mods : gmap string (list string))
    (mod_ids_set : gset string) (sorted_pos : gmap string nat) (wid : string) :
  NoDup (default [] (workshop_to_mods !! wid)) →
  NoDup (_group_for workshop_to_mods mod_ids_set sorted_pos wid).
Proof.
  intros Hnd. unfold _group_for. destruct (bool_decide _); [constructor|].
  rewrite sorted_by_perm. by apply NoDup_filter.
Qed.

Lemma elem_of_mod_to_workshop (workshop_to_mods : gmap string (list string)) (m : string) :
  m ∈ mod_to_workshop workshop_to_mods
  ↔ ∃ wid mods, workshop_to_mods !! wid = Some mods ∧ m ∈ mods.
Proof.
  unfold mod_to_workshop.
  apply (map_fold_weak_ind
    (λ keys w2m, m ∈ keys ↔ ∃ wid mods, w2m !! wid = Some mods ∧ m ∈ mods)).
  - split; [by intros ?%elem_of_empty|]. by intros (? & ? & ? & _).
  - intros wid mods w2m keys Hnone IH. rewrite elem_of_union, elem_of_list_to_set, IH.
    split.
    + intros [Hm|(wid' & mods' & Hlk & Hm)].
      * exists wid, mods. by rewrite lookup_insert_eq.
      * exists wid', mods'. rewrite lookup_insert_ne; [done|]. by intros ->; simplify_eq.
    + intros (wid' & mods' & Hlk & Hm). destruct (decide (wid = wid')) as [->|Hne].
      * rewrite lookup_insert_eq in Hlk. injection Hlk as ->. by left.
      * rewrite lookup_insert_ne in Hlk by done. right. by exists wid', mods'.
Qed.

Lemma bind_nil_all {A B} (f : A → list B) (l : list A) :
  (∀ x, x ∈ l → f x = []) → l ≫= f = [].
Proof.
  induction l as [|x l IH]; intros Hall; [done|].
  rewrite bind_cons, (Hall x) by left. apply IH. intros y Hy. apply Hall. by right.
Qed.

(** X8.  When no listed mod ID is an orphan (each one belongs to a
    downloaded workshop item), a rewrite of mods.txt is final:
    [rewrite_mods_txt] applied to the text it wrote, with the same
    arguments, reports no change and writes nothing. *)
Theorem rewrite_mods_txt_settles (text text' : string)
    (workshop_ids mod_ids_sorted warnings : list string)
    (workshop_to_mods : gmap string (list string)) :
  Forall workshop_token workshop_ids → Forall mod_token mod_ids_sorted →
  (∀ wid cache, workshop_to_mods !! wid = Some cache → NoDup cache) →
  (∀ m, m ∈ mod_ids_sorted → m ∈ mod_to_workshop workshop_to_mods) →
  rewrite_mods_txt text workshop_ids mod_ids_sorted workshop_to_mods
  = ((true, warnings), Some text') →
  ∃ warnings',
    rewrite_mods_txt text' workshop_ids mod_ids_sorted workshop_to_mods
    = ((false, warnings'), None).
Proof.
  intros Hwids Hmids Hcache Hattr Hfirst.
  unfold rewrite_mods_txt in Hfirst |- *.
  set (mod_ids_set := list_to_set mod_ids_sorted : gset string) in *.
  set (sorted_pos := py.dict_of (py.enumerate mod_ids_sorted)) in *.
  set (group := _group_for workshop_to_mods mod_ids_set sorted_pos) in *.
  set (new_groups := py.dict_of ((λ wid, (wid, group wid)) <$> workshop_ids)) in *.
  assert (Horph : filter (λ m, m ∉ mod_to_workshop workshop_to_mods) mod_ids_sorted = []).
  { apply filter_none. intros m Hm Hn. by apply Hn, Hattr. }
  rewrite Horph in Hfirst |- *.
  destruct (_ || _) in Hfirst; [|done]. injection Hfirst as _ <-.
  assert (Hgroups : ∀ wid g, wid ∈ workshop_ids → new_groups !! wid = Some g →
                             NoDup g ∧ Forall mod_token g).
  { intros wid g Hwid Hg. unfold new_groups in Hg.
    rewrite dict_of_keys_lookup, decide_True in Hg by done. injection Hg as <-. split.
    - apply group_for_nodup. destruct (workshop_to_mods !! wid) eqn:Hc; [|constructor].
      by eapply Hcache.
    - apply Forall_forall. intros m [Hm _]%group_for_elem.
      rewrite Forall_forall in Hmids. apply Hmids. by apply elem_of_list_to_set in Hm. }
  rewrite (parse_mods_txt_text workshop_ids new_groups []) by (done || constructor).
  rewrite written_blocks_ids.
  assert (Hpairs : (λ b, (workshop_id b, mod_ids b))
                     <$> written_blocks workshop_ids new_groups
                   = (λ wid, (wid, default [] (new_groups !! wid))) <$> workshop_ids).
  { unfold written_blocks. by rewrite <- list_fmap_compose. }
  rewrite Hpairs.
  assert (Hsame : existsb (λ wid, bool_decide
              (default [] (py.dict_of ((λ wid, (wid, default [] (new_groups !! wid)))
                                         <$> workshop_ids) !! wid)
               ≠ new_groups !!! wid)) workshop_ids = false).
  { apply not_true_iff_false. intros (wid & Hwid & Hne)%existsb_exists.
    apply bool_decide_eq_true in Hne. apply Hne.
    rewrite (dict_of_keys_lookup (λ wid, default [] (new_groups !! wid))).
    rewrite decide_True by (by apply list_elem_of_In). simpl.
    by rewrite lookup_total_alt. }
  rewrite Hsame.
  assert (Hnone : (written_blocks workshop_ids new_groups ≫=
                     λ b, if bool_decide (workshop_id b
                                          ∉ (list_to_set workshop_ids : gset string))
                          then mod_ids b else []) = []).
  { apply bind_nil_all. intros b (wid & -> & Hwid)%list_elem_of_fmap. cbn [workshop_id].
    rewrite bool_decide_eq_false_2; [done|]. intros Hn. apply Hn.
    by apply elem_of_list_to_set. }
  rewrite Hnone.
  rewrite (bool_decide_eq_false_2 (workshop_ids ≠ workshop_ids)) by auto.
  rewrite (bool_decide_eq_false_2 ([] ≠ [])) by auto.
  by eexists.
Qed.

Lemma rewrite_mods_txt_settles_witness :
  ∃ warnings',
    rewrite_mods_txt "Workshop ID: 1
Mod ID: a
Mod ID: b
---
" ["1"] ["a"; "b"] {[ "1" := ["b"; "a"] ]} = ((false, warnings'), None).
Proof.
  apply (rewrite_mods_txt_settles "Workshop ID: 1
Mod ID: a
---
" _ ["1"] ["a"; "b"] [] {[ "1" := ["b"; "a"] ]}).
  - repeat constructor; by vm_compute.
  - repeat constructor; by vm_compute.
  - intros wid cache Hc. destruct (decide (wid = "1")) as [->|Hne].
    + rewrite lookup_singleton_eq in Hc. injection Hc as <-. by_computation.
    + by rewrite lookup_singleton_ne in Hc.
  - intros m Hm. apply elem_of_mod_to_workshop. exists "1", ["b"; "a"].
    split; [apply lookup_singleton_eq|]. set_solver.
  - by vm_compute.
Defined.

(** ** Pruning and verifying the workshop cache (cleanup.py) *)

Lemma list_item_dirs_nodup (entries : gmap string cleanup.Entry) :
  NoDup (cleanup.list_item_dirs (Some entries)).
Proof.
  unfold cleanup.list_item_dirs.
  eapply sublist_NoDup; [apply (NoDup_fst_map_to_list entries)|].
  apply fmap_sublist, sublist_filter.
Qed.

Lemma elem_of_list_item_dirs (entries : gmap string cleanup.Entry) (k : string) :
  k ∈ cleanup.list_item_dirs (Some entries)
  ↔ ∃ e, entries !! k = Some e ∧ cleanup.is_item_dir e = true.
Proof.
  unfold cleanup.list_item_dirs. rewrite list_elem_of_fmap. split.
  - intros ([k' e] & -> & [He Hin]%list_elem_of_filter). exists e.
    split; [by apply elem_of_map_to_list|done].
  - intros (e & Hlk & He). exists (k, e). split; [done|].
    apply list_elem_of_filter. split; [done|]. by apply elem_of_map_to_list.
Qed.

Lemma prune_fold (removable : string → bool) (keep_ids : gset string) (dry_run : bool)
    (items : list string) (st : cleanup.prune_state) :
  NoDup items →
  (∀ k, k ∈ items → ∃ e, cleanup.entries st !! k = Some e ∧ cleanup.is_item_dir e = true) →
  let st' := foldl (cleanup.prune_item removable keep_ids dry_run) st items in
  cleanup.kept st' = cleanup.kept st ++ filter (λ k, k ∈ keep_ids) items
  ∧ cleanup.pruned st' = cleanup.pruned st ++ filter (λ k, k ∉ keep_ids) items
  ∧ ∀ k, cleanup.entries st' !! k
         = if decide (k ∈ items)
           then cleanup.entries st !! k ≫= after_prune removable keep_ids dry_run k
           else cleanup.entries st !! k.
Proof.
  revert st. induction items as [|x items IH]; intros st Hnd Hitems.
  - simpl. rewrite !app_nil_r. split_and!; [done|done|]. intros k.
    by destruct (decide (k ∈ [])) as [?%elem_of_nil|].
  - apply NoDup_cons in Hnd as [Hx Hnd]. cbn [foldl].
    destruct (Hitems x) as (e & Hlk & He); [left|].
    assert (Hstep : ∃ st1,
      cleanup.prune_item removable keep_ids dry_run st x = st1
      ∧ cleanup.kept st1 = cleanup.kept st ++ filter (λ k, k ∈ keep_ids) [x]
      ∧ cleanup.pruned st1 = cleanup.pruned st ++ filter (λ k, k ∉ keep_ids) [x]
      ∧ ∀ k, cleanup.entries st1 !! k
             = if decide (k = x)
               then cleanup.entries st !! k ≫= after_prune removable keep_ids dry_run k
               else cleanup.entries st !! k).
    { eexists. split; [done|]. unfold cleanup.prune_item, after_prune.
      destruct (decide (x ∈ keep_ids)) as [Hk|Hk].
      - rewrite bool_decide_eq_true_2 by done. cbn [cleanup.kept cleanup.pruned cleanup.entries].
        rewrite filter_cons_True, filter_cons_False, app_nil_r by auto.
        split_and!; [done|done|]. intros k. destruct (decide (k = x)) as [->|]; [|done].
        rewrite Hlk. simpl. rewrite (bool_decide_eq_false_2 (x ∉ keep_ids)) by auto.
        by rewrite andb_false_r.
      - rewrite bool_decide_eq_false_2 by done. rewrite Hlk, He.
        cbn [cleanup.kept cleanup.pruned cleanup.entries].
        rewrite filter_cons_False, filter_cons_True, app_nil_r by auto.
        split_and!; [done|done|]. intros k. destruct (decide (k = x)) as [->|Hne].
        + rewrite Hlk. simpl. rewrite He, (bool_decide_eq_true_2 (x ∉ keep_ids)) by done.
          simpl. destruct dry_run; [done|]. simpl. unfold cleanup.remove_item.
          destruct (removable x); [by rewrite lookup_delete_eq|].
          destruct e; [by rewrite lookup_insert_eq|done..].
        + destruct dry_run; [done|]. unfold cleanup.remove_item.
          destruct (removable x); [by rewrite lookup_delete_ne|].
          destruct e; [by rewrite lookup_insert_ne|done..]. }
    destruct Hstep as (st1 & -> & Hkept & Hpruned & Hentries).
    specialize (IH st1 Hnd). destruct IH as (IHk & IHp & IHe).
    { intros k Hk. rewrite Hentries, decide_False by (by intros ->).
      apply Hitems. by right. }
    split_and!.
    + rewrite IHk, Hkept, <- app_assoc. f_equal.
      by rewrite (filter_app _ [x] items).
    + rewrite IHp, Hpruned, <- app_assoc. f_equal.
      by rewrite (filter_app _ [x] items).
    + intros k. rewrite IHe, Hentries.
      destruct (decide (k = x)) as [->|Hne].
      * rewrite (decide_False (P := x ∈ items)) by done.
        rewrite decide_True; [done|left].
      * destruct (decide (k ∈ items)) as [Hin|Hout].
        -- rewrite decide_True; [done|by right].
        -- rewrite decide_False; [done|]. by intros [?|?]%elem_of_cons.
Qed.

Lemma prune_workshop_dirs_spec (removable : string → bool)
    (entries : gmap string cleanup.Entry) (keep_ids : gset string) (dry_run : bool) :
  ∃ entries',
    cleanup.prune_workshop_dirs removable (Some entries) keep_ids dry_run
    = ((filter (λ k, k ∉ keep_ids)
          (sorted_by String.leb id (cleanup.list_item_dirs (Some entries))),
        filter (λ k, k ∈ keep_ids)
          (sorted_by String.leb id (cleanup.list_item_dirs (Some entries)))),
       Some entries')
    ∧ ∀ k, entries' !! k = entries !! k ≫= after_prune removable keep_ids dry_run k.
Proof.
  unfold cleanup.prune_workshop_dirs.
  set (items := sorted_by String.leb id (cleanup.list_item_dirs (Some entries))).
  destruct (prune_fold removable keep_ids dry_run items
              (cleanup.mkPrune [] [] entries)) as (Hk & Hp & He).
  { unfold items. rewrite sorted_by_perm. apply list_item_dirs_nodup. }
  { intros k Hk. unfold items in Hk. rewrite sorted_by_perm in Hk.
    by apply elem_of_list_item_dirs. }
  eexists. split.
  - change (default ∅ (Some entries)) with entries. rewrite Hk, Hp. done.
  - intros k. rewrite He. cbn [cleanup.entries].
    destruct (decide (k ∈ items)) as [Hin|Hout]; [done|].
    destruct (entries !! k) as [e|] eqn:Hlk; [|done]. simpl. unfold after_prune.
    destruct (cleanup.is_item_dir e) eqn:Hdir; [|done].
    exfalso. apply Hout. unfold items. rewrite sorted_by_perm.
    apply elem_of_list_item_dirs. by exists e.
Qed.

(** X9.  [prune_workshop_dirs] sorts the item directories of the content
    root into [kept] (those named in [keep_ids]) and [pruned] (the
    others), and removes only what it reports as pruned: an entry named
    in [keep_ids] and an entry that is neither a directory nor a symlink
    stay as they are, and a dry run leaves the whole content root as it
    is.  (A stale directory whose removal raises stays as well,
    damaged.) *)
Theorem prune_workshop_dirs_keeps (removable : string → bool)
    (entries : gmap string cleanup.Entry) (keep_ids : gset string) (dry_run : bool) :
  let result := cleanup.prune_workshop_dirs removable (Some entries) keep_ids dry_run in
  (∀ k, k ∈ result.1.2 ↔ k ∈ keep_ids ∧ k ∈ cleanup.list_item_dirs (Some entries))
  ∧ (∀ k, k ∈ result.1.1 ↔ (k ∉ keep_ids) ∧ k ∈ cleanup.list_item_dirs (Some entries))
  ∧ ∃ entries',
      result.2 = Some entries'
      ∧ (∀ k, entries' !! k = entries !! k ≫= after_prune removable keep_ids dry_run k)
      ∧ (∀ k, k ∈ keep_ids → entries' !! k = entries !! k)
      ∧ (∀ k e, entries !! k = Some e → cleanup.is_item_dir e = false →
                entries' !! k = Some e)
      ∧ (∀ k, entries !! k = None → entries' !! k = None)
      ∧ (dry_run = true → entries' = entries).
Proof.
  destruct (prune_workshop_dirs_spec removable entries keep_ids dry_run)
    as (entries' & Heq & Hlk).
  cbv zeta. rewrite Heq. cbn [fst snd]. split_and!.
  - intros k. by rewrite list_elem_of_filter, sorted_by_perm.
  - intros k. by rewrite list_elem_of_filter, sorted_by_perm.
  - exists entries'. split_and!; [done|done|..].
    + intros k Hk. rewrite Hlk. destruct (entries !! k) as [e|]; [|done]. simpl.
      unfold after_prune. rewrite (bool_decide_eq_false_2 (k ∉ keep_ids)) by auto.
      by rewrite andb_false_r.
    + intros k e He Hdir. rewrite Hlk, He. simpl. unfold after_prune. by rewrite Hdir.
    + intros k Hnone. by rewrite Hlk, Hnone.
    + intros ->. apply map_eq. intros k. rewrite Hlk.
      destruct (entries !! k) as [e|]; [|done]. simpl. unfold after_prune.
      by rewrite andb_false_r.
Qed.

(** X10.  Pruning does not make an enabled workshop item missing that is
    no symlink: when every desired ID is in [keep_ids] and names no
    symlink, [verify_workshop_dirs] reports the same missing items after
    [prune_workshop_dirs] as before it.  A kept symlink to a stale item
    directory, however, is reported missing after the prune and not
    before it. *)
Theorem verify_after_prune (removable : string → bool)
    (content_root : cleanup.ContentRoot) (keep_ids : gset string) (dry_run : bool)
    (desired_ids : list string) :
  Forall (λ wid, wid ∈ keep_ids) desired_ids →
  Forall (λ wid, ∀ entries e, content_root = Some entries → entries !! wid = Some e →
                              cleanup.entry_is_symlink e = false) desired_ids →
  cleanup.verify_workshop_dirs
    (cleanup.prune_workshop_dirs removable content_root keep_ids dry_run).2 desired_ids
  = cleanup.verify_workshop_dirs content_root desired_ids
  ∧ cleanup.verify_workshop_dirs (Some linked_root) ["111"] = []
  ∧ cleanup.prune_workshop_dirs (λ _, true) (Some linked_root) {[ "111" ]} false
    = ((["999"], ["111"]), Some (delete "999" linked_root))
  ∧ cleanup.verify_workshop_dirs (Some (delete "999" linked_root)) ["111"] = ["111"].
Proof.
  intros Hall Hlinks. split_and!; [|by vm_compute..].
  destruct content_root as [entries|]; [|done].
  destruct (prune_workshop_dirs_spec removable entries keep_ids dry_run)
    as (entries' & -> & Hlk).
  cbn [snd]. unfold cleanup.verify_workshop_dirs. apply filter_ext_elem_of.
  intros wid Hwid. rewrite Forall_forall in Hall, Hlinks.
  rewrite Hlk. specialize (Hlinks wid Hwid entries).
  destruct (entries !! wid) as [e|]; [|done]. simpl. unfold after_prune.
  rewrite (bool_decide_eq_false_2 (wid ∉ keep_ids)) by (intros Hn; by apply Hn, Hall).
  rewrite andb_false_r. simpl. specialize (Hlinks e eq_refl eq_refl).
  by destruct e.
Qed.

Lemma verify_after_prune_witness :
  cleanup.verify_workshop_dirs
    (cleanup.prune_workshop_dirs (λ _, true)
       (Some {[ "111" := cleanup.Directory true; "999" := cleanup.Directory true ]})
       {[ "111"; "222" ]} false).2 ["111"; "222"]
  = cleanup.verify_workshop_dirs
      (Some {[ "111" := cleanup.Directory true; "999" := cleanup.Directory true ]})
      ["111"; "222"].
Proof.
  refine (proj1 (verify_after_prune (λ _, true) _ {[ "111"; "222" ]} false
                   ["111"; "222"] _ _)).
  - repeat constructor; by_computation.
  - repeat constructor; intros entries e [= <-]; vm_compute; intros Heq; by simplify_eq.
Defined.

(** ** The Mods= value (update_server_ini.py and process_mods.py) *)

Lemma pz_norm_prefixed (m : string) :
  stripped_id m →
  update_server_ini.normalized (String "\" m)
  = Some (update_server_ini.strip_backslashes m).
Proof.
  intros [Hne Hs]. unfold update_server_ini.normalized. cbv zeta.
  assert (py.strip (String "\" m) = String "\" m) as ->.
  { apply strip_fixed; [done|].
    change (String "\" m) with (String "\" "" +:+ m).
    apply rstrip_with_app_fixed; [done|]. by apply stripped_id_sides. }
  by rewrite bool_decide_eq_false_2.
Qed.

Lemma pz_norm_stripped (m : string) :
  stripped_id m →
  update_server_ini.normalized m = Some (update_server_ini.strip_backslashes m).
Proof.
  intros [Hne Hs]. unfold update_server_ini.normalized. cbv zeta. rewrite Hs.
  by rewrite bool_decide_eq_false_2.
Qed.

(** X11.  For mod IDs that are not empty and have no surrounding
    whitespace, [mod_ids_to_pz_mods_csv] gives the same value whether or
    not the IDs already carry the leading backslash, and for IDs without
    a leading backslash it gives the value that [main] of process_mods.py
    writes: every ID prefixed with one backslash, joined by [;]. *)
Theorem mod_ids_to_pz_mods_csv_prefix (mod_ids : list string) :
  Forall stripped_id mod_ids →
  update_server_ini.mod_ids_to_pz_mods_csv ((λ m, "\" +:+ m) <$> mod_ids)
  = update_server_ini.mod_ids_to_pz_mods_csv mod_ids
  ∧ (Forall (head_not (λ c, bool_decide (c = "\"%char))) mod_ids →
     update_server_ini.mod_ids_to_pz_mods_csv mod_ids
     = py.join ";" ((λ m, "\" +:+ m) <$> mod_ids)).
Proof.
  intros Hall. unfold update_server_ini.mod_ids_to_pz_mods_csv. cbv zeta. split.
  - do 2 f_equal. induction Hall as [|m l Hm _ IH]; [done|].
    rewrite fmap_cons. cbn [omap list_omap].
    change ("\" +:+ m) with (String "\" m).
    by rewrite (pz_norm_prefixed m Hm), (pz_norm_stripped m Hm), IH.
  - intros Hhead. do 2 f_equal. induction Hall as [|m l Hm _ IH]; [done|].
    apply Forall_cons in Hhead as [Hh Hhead]. cbn [omap list_omap].
    rewrite (pz_norm_stripped m Hm), IH by done. f_equal.
    unfold update_server_ini.strip_backslashes. by rewrite drop_while_head_not.
Qed.

Lemma mod_ids_to_pz_mods_csv_prefix_witness :
  update_server_ini.mod_ids_to_pz_mods_csv ((λ m, "\" +:+ m) <$> ["ModA"; "Lib B"])
  = update_server_ini.mod_ids_to_pz_mods_csv ["ModA"; "Lib B"]
  ∧ (Forall (head_not (λ c, bool_decide (c = "\"%char))) ["ModA"; "Lib B"] →
     update_server_ini.mod_ids_to_pz_mods_csv ["ModA"; "Lib B"]
     = py.join ";" ((λ m, "\" +:+ m) <$> ["ModA"; "Lib B"])).
Proof.
  apply mod_ids_to_pz_mods_csv_prefix. repeat constructor; by vm_compute.
Defined.

(** ** Lines of a text cut by [splitlines(keepends=True)] *)

Lemma splitlines_cons_other (c : ascii) (s : string) :
  py.is_linebreak c = false →
  py.splitlines_keepends (String c s)
  = match py.splitlines_keepends s with
    | [] => [String c ""]
    | line :: lines => String c line :: lines
    end.
Proof. intros Hc. cbn [py.splitlines_keepends]. by rewrite Hc. Qed.

Lemma splitlines_cons_break (c : ascii) (s : string) :
  py.is_linebreak c = true →
  bool_decide (c = "013"%char) && starts_lf s = false →
  py.splitlines_keepends (String c s) = String c "" :: py.splitlines_keepends s.
Proof.
  intros Hc Hcr. cbn [py.splitlines_keepends]. rewrite Hc.
  destruct c as [[] [] [] [] [] [] [] []]; try done.
  destruct s as [|[[] [] [] [] [] [] [] []] s]; done.
Qed.

Lemma splitlines_crlf (s : string) :
  py.splitlines_keepends (String "013" (String "010" s))
  = String "013" (String "010" "") :: py.splitlines_keepends s.
Proof.
  change (py.splitlines_keepends (String "013" (String "010" s)))
    with (match py.splitlines_keepends (String "010" s) with
          | [] => [String "013" ""]
          | line :: lines => String "013" line :: lines
          end).
  by rewrite (splitlines_cons_break "010" s).
Qed.

Lemma splitlines_nil (s : string) : py.splitlines_keepends s = [] → s = "".
Proof.
  intros Hnil. apply (f_equal py.concat) in Hnil.
  by rewrite concat_splitlines_keepends in Hnil.
Qed.

Lemma last_char_cons (c : ascii) (s : string) :
  s ≠ "" → last_char (String c s) = last_char s.
Proof. by destruct s. Qed.

Lemma terminated_nonempty (l : string) : terminated l = true → l ≠ "".
Proof. by destruct l. Qed.

(** A terminated line in front of a text is the first line of the text. *)
Lemma splitlines_line (a t : string) :
  terminated a = true → ends_cr a && starts_lf t = false →
  py.splitlines_keepends (a +:+ t) = a :: py.splitlines_keepends t.
Proof.
  induction a as [|c a IH]; [done|]. intros Hterm Hadj.
  rewrite string_app_cons. cbn [terminated] in Hterm.
  destruct (py.is_linebreak c) eqn:Hc.
  - apply orb_true_iff in Hterm as [Ha|[Hcr Ha]%andb_true_iff].
    + apply bool_decide_eq_true in Ha as ->. rewrite string_app_nil_l.
      apply splitlines_cons_break; [done|]. unfold ends_cr in Hadj. simpl in Hadj.
      destruct (decide (c = "013"%char)) as [->|Hne]; [done|].
      by rewrite bool_decide_eq_false_2.
    + apply bool_decide_eq_true in Hcr as ->. apply bool_decide_eq_true in Ha as ->.
      apply splitlines_crlf.
  - rewrite splitlines_cons_other by done. rewrite IH; [done|done|].
    pose proof (terminated_nonempty a Hterm).
    unfold ends_cr in *. by rewrite last_char_cons in Hadj.
Qed.

Lemma chain_tail (a : string) (ls : list string) : chain (a :: ls) → chain ls.
Proof. inversion 1; [constructor|done]. Qed.

Lemma chain_head (a : string) (ls : list string) : chain (a :: ls) → terminated a = true.
Proof. by inversion 1. Qed.

Lemma starts_lf_app (a t : string) : a ≠ "" → starts_lf (a +:+ t) = starts_lf a.
Proof. by destruct a. Qed.

(** Concatenated and cut again, a chain of lines is what it was. *)
Lemma splitlines_concat_chain (ls : list string) :
  chain ls → py.splitlines_keepends (py.concat ls) = ls.
Proof.
  induction 1 as [|a Ha|a b rest Ha Hadj Hchain IH].
  - done.
  - unfold py.concat. simpl. rewrite splitlines_line; [done|done|].
    by rewrite andb_false_r.
  - change (py.concat (a :: b :: rest)) with (a +:+ py.concat (b :: rest)).
    rewrite splitlines_line, IH; [done|done|].
    change (py.concat (b :: rest)) with (b +:+ py.concat rest).
    rewrite starts_lf_app; [done|]. eapply terminated_nonempty, chain_head. done.
Qed.

Lemma chain_cons_head (a : string) (ls : list string) :
  terminated a = true →
  (∀ b, head ls = Some b → ends_cr a && starts_lf b = false) →
  chain ls → chain (a :: ls).
Proof.
  intros Ha Hadj Hls. destruct ls as [|b rest]; [by constructor|].
  constructor; [done| |done]. by apply Hadj.
Qed.

Lemma splitlines_nonempty (s : string) : Forall (λ l, l ≠ "") (py.splitlines_keepends s).
Proof.
  induction s as [|c s IH]; [constructor|]. cbn [py.splitlines_keepends].
  assert (Hglue : Forall (λ l, l ≠ "")
                    match py.splitlines_keepends s with
                    | [] => [String c ""]
                    | line :: lines => String c line :: lines
                    end).
  { destruct (py.splitlines_keepends s); [by repeat constructor|].
    apply Forall_cons in IH as [_ IH]. by constructor. }
  destruct (py.is_linebreak c); [|done].
  assert (Hbreak : Forall (λ l, l ≠ "") (String c "" :: py.splitlines_keepends s))
    by (by constructor).
  destruct c as [[] [] [] [] [] [] [] []]; try done.
  by destruct s as [|[[] [] [] [] [] [] [] []] s].
Qed.

Lemma splitlines_head_starts_lf (s l : string) (ls : list string) :
  py.splitlines_keepends s = l :: ls → starts_lf l = starts_lf s.
Proof.
  intros Hs. pose proof (splitlines_nonempty s) as Hne. rewrite Hs in Hne.
  apply Forall_cons in Hne as [Hl _].
  rewrite <- (concat_splitlines_keepends s), Hs.
  change (py.concat (l :: ls)) with (l +:+ py.concat ls). by rewrite starts_lf_app.
Qed.

Lemma ends_with_newline_tail (c : ascii) (s : string) :
  ends_with_newline (String c s) → ends_with_newline s.
Proof.
  intros [?|(c' & Hlast & Hc')]; [done|]. destruct s as [|c2 s]; [by left|].
  right. exists c'. by rewrite last_char_cons in Hlast.
Qed.

Lemma splitlines_chain (s : string) :
  ends_with_newline s → chain (py.splitlines_keepends s).
Proof.
  remember (String.length s) as n eqn:Hn.
  revert s Hn. induction (lt_wf n) as [n _ IH']. intros s -> Hend.
  assert (IH : ∀ t, String.length t < String.length s → ends_with_newline t →
                    chain (py.splitlines_keepends t)).
  { intros t Ht. by eapply IH'. }
  clear IH'. destruct s as [|c s]; [constructor|].
  pose proof (ends_with_newline_tail c s Hend) as Hend'.
  destruct (py.is_linebreak c) eqn:Hc.
  - destruct (bool_decide (c = "013"%char) && starts_lf s) eqn:Hcr.
    + apply andb_true_iff in Hcr as [->%bool_decide_eq_true Hlf].
      destruct s as [|c' s]; [done|]. simpl in Hlf.
      apply bool_decide_eq_true in Hlf as ->. rewrite splitlines_crlf.
      apply chain_cons_head; [done|done|].
      apply IH; [simpl; lia|]. by eapply ends_with_newline_tail.
    + rewrite splitlines_cons_break by done. apply chain_cons_head.
      * simpl. by rewrite Hc.
      * intros b Hb. destruct (py.splitlines_keepends s) as [|b' ls] eqn:Hs; [done|].
        injection Hb as ->. rewrite (splitlines_head_starts_lf s b ls Hs).
        unfold ends_cr. simpl. apply andb_false_iff in Hcr as [Hcr|Hcr]; [|by rewrite Hcr, andb_false_r].
        apply bool_decide_eq_false in Hcr.
        rewrite bool_decide_eq_false_2; [done|]. by intros [= ->].
      * apply IH; [simpl; lia|done].
  - rewrite splitlines_cons_other by done.
    assert (Hs : s ≠ "").
    { intros ->. destruct Hend as [?|(c' & Hlast & Hc')]; [done|].
      simpl in Hlast. injection Hlast as ->. congruence. }
    assert (Hchain : chain (py.splitlines_keepends s)) by (apply IH; [simpl; lia|done]).
    destruct (py.splitlines_keepends s) as [|line lines] eqn:Hls.
    { by apply splitlines_nil in Hls. }
    pose proof (splitlines_nonempty s) as Hne. rewrite Hls in Hne.
    apply Forall_cons in Hne as [Hline _].
    inversion Hchain as [|a Ha|a b rest Ha Hadj Hrest]; subst.
    + constructor. simpl. by rewrite Hc.
    + constructor; [simpl; by rewrite Hc| |done].
      unfold ends_cr in *. by rewrite last_char_cons.
Qed.

(** ** A rewritten INI is settled *)

Section settled.
Context (target : string → option string) (cont : string → bool).

Lemma rewritten_head (lines out : list string) (b : string) :
rewritten target cont lines out → head out = Some b →
head lines = Some b ∨ ∃ s, target s = Some b.
Proof.
intros Hrw Hb. destruct Hrw as [|line lines out Hline Hrw|line new conts lines out Hline].
- done.
- left. simpl in *. done.
- right. simpl in Hb. injection Hb as <-. by eexists.
Qed.

Lemma rewritten_Forall (P : string → Prop) (lines out : list string) :
rewritten target cont lines out → Forall P lines →
(∀ s new, target s = Some new → P new) → Forall P out.
Proof.
intros Hrw Hlines Hnew.
induction Hrw as [|line lines out Hline Hrw IH|line new conts lines out Hline Hc Hh Hrw IH].
- done.
- apply Forall_cons in Hlines as [? ?]. constructor; auto.
- apply Forall_cons in Hlines as [_ [_ ?]%Forall_app]. constructor; eauto.
Qed.

Lemma rewritten_elem (lines out : list string) (raw new : string) :
rewritten target cont lines out → raw ∈ lines →
target (py.rstrip_crlf raw) = Some new → cont (py.rstrip_crlf raw) = false →
new ∈ out.
Proof.
intros Hrw Hraw Hnew Hcont.
induction Hrw as [|line lines out Hline Hrw IH|line new' conts lines out Hline Hc Hh Hrw IH].
- by apply elem_of_nil in Hraw.
- apply elem_of_cons in Hraw as [->|Hraw]; [congruence|]. right. by apply IH.
- apply elem_of_cons in Hraw as [->|Hraw].
  { assert (new = new') as -> by congruence. left. }
  right.
  apply elem_of_app in Hraw as [Hraw|Hraw]; [|by apply IH].
  rewrite Forall_forall in Hc. specialize (Hc raw Hraw). congruence.
Qed.

Lemma chain_app_r (l1 l2 : list string) : chain (l1 ++ l2) → chain l2.
Proof. induction l1 as [|a l1 IH]; [done|]. intros H%chain_tail. by apply IH. Qed.

Lemma chain_head_adjacent (a b : string) (ls : list string) :
chain (a :: ls) → head ls = Some b → ends_cr a && starts_lf b = false.
Proof. inversion 1; [done|]. simpl. by intros [= <-]. Qed.

Lemma rewritten_chain (lines out : list string) :
(∀ s new, target s = Some new →
          terminated new = true ∧ starts_lf new = false ∧ ends_cr new = false) →
rewritten target cont lines out → chain lines → chain out.
Proof.
intros Hnew Hrw.
induction Hrw as [|line lines out Hline Hrw IH|line new conts lines out Hline Hc Hh Hrw IH];
  intros Hchain.
- constructor.
- apply chain_cons_head; [by eapply chain_head| |by eapply IH, chain_tail].
  intros b Hb. destruct (rewritten_head _ _ _ Hrw Hb) as [Hl|(s & Hs)].
  + by eapply chain_head_adjacent.
  + destruct (Hnew s b Hs) as (_ & -> & _). apply andb_false_r.
- destruct (Hnew _ _ Hline) as (Hterm & _ & Hcr).
  apply chain_cons_head; [done|intros b _; by rewrite Hcr|].
  apply IH. apply chain_tail in Hchain. by eapply chain_app_r.
Qed.

Hypothesis target_fixed : ∀ s new,
target s = Some new →
target (py.rstrip_crlf new) = Some new ∧ cont (py.rstrip_crlf new) = false.

Lemma rewritten_settled (lines out : list string) :
rewritten target cont lines out → settled target cont out.
Proof.
intros Hrw.
induction Hrw as [|line lines out Hline Hrw IH|line new conts lines out Hline Hc Hh Hrw IH].
- constructor.
- by apply settled_keep.
- apply settled_key; [by eapply target_fixed| |done].
  intros b Hb. destruct (rewritten_head _ _ _ Hrw Hb) as [Hl|(s & Hs)].
  + by apply Hh.
  + by eapply target_fixed.
Qed.

Lemma settled_app (l1 l2 : list string) :
settled target cont l1 → settled target cont l2 →
(∀ b, head l2 = Some b → cont (py.rstrip_crlf b) = false) →
settled target cont (l1 ++ l2).
Proof.
intros H1 H2 Hh. induction H1 as [|l ls Hl Hls IH|l ls Hl Hb Hls IH]; [done| |].
- by apply settled_keep.
- apply settled_key; [done| |done]. intros b. destruct ls; [apply Hh|apply Hb].
Qed.

Lemma settled_scan (ls acc : list string) (skip : bool) :
settled target cont ls →
(skip = true → ∀ b, head ls = Some b → cont (py.rstrip_crlf b) = false) →
(foldl (scan_step target cont) (acc, skip) ls).1 = acc ++ ls.
Proof.
intros Hs. revert acc skip.
induction Hs as [|l ls Hl Hls IH|l ls Hl Hb Hls IH]; intros acc skip Hskip.
- simpl. by rewrite app_nil_r.
- cbn [foldl]. unfold scan_step at 2. cbn [fst snd].
  assert (skip && cont (py.rstrip_crlf l) = false) as ->.
  { destruct skip; [|done]. by rewrite (Hskip eq_refl l). }
  rewrite Hl, IH by done. by rewrite <- app_assoc.
- cbn [foldl]. unfold scan_step at 2. cbn [fst snd].
  assert (skip && cont (py.rstrip_crlf l) = false) as ->.
  { destruct skip; [|done]. by rewrite (Hskip eq_refl l). }
  rewrite Hl, IH by (intros _; apply Hb). by rewrite <- app_assoc.
Qed.

End settled.

(** ** The rewriters as tables of keys *)

Lemma table_target_Some (table : list (string * string)) (s new : string) :
  table_target table s = Some new →
  ∃ key, (key, new) ∈ table ∧ matches_key key s = true.
Proof.
  induction table as [|[k l] table IH]; [done|]. simpl.
  destruct (matches_key k s) eqn:Hk.
  - intros [= <-]. exists k. split; [left|done].
  - intros (key & Hin & Hm)%IH. exists key. split; [by right|done].
Qed.

Lemma table_line_not_continuation (table : list (string * string)) (key line : string) :
  table_ok table → (key, line) ∈ table → _is_continuation (py.rstrip_crlf line) = false.
Proof.
  intros Hok Hin. destruct (Hok key line Hin) as (Hne & Halpha & Hm & _).
  destruct (_is_continuation (py.rstrip_crlf line)) eqn:Hc; [|done].
  by rewrite (continuation_not_key key line Hne Halpha Hc) in Hm.
Qed.

Lemma table_target_fixed (table : list (string * string)) (s new : string) :
  table_ok table → table_target table s = Some new →
  table_target table (py.rstrip_crlf new) = Some new
  ∧ _is_continuation (py.rstrip_crlf new) = false.
Proof.
  intros Hok (key & Hin & _)%table_target_Some. split.
  - destruct (Hok key new Hin) as (_ & _ & Hm & _ & _ & _ & _ & Hall). by apply Hall.
  - by eapply table_line_not_continuation.
Qed.

Lemma has_key_true (key : string) (lines : list string) :
  has_key key lines = true
  ↔ ∃ raw, raw ∈ lines ∧ matches_key key (py.rstrip_crlf raw) = true.
Proof.
  unfold has_key. rewrite existsb_exists. split; intros (raw & Hraw & Hm); exists raw.
  - split; [by apply list_elem_of_In|done].
  - split; [by apply list_elem_of_In|done].
Qed.

Lemma elem_of_missing_keys (table : list (string * string)) (lines : list string)
    (line : string) :
  line ∈ missing_keys table lines
  ↔ ∃ key, (key, line) ∈ table ∧ has_key key lines = false.
Proof.
  unfold missing_keys. rewrite list_elem_of_omap. split.
  - intros ([k l] & Hin & Hsome). destruct (has_key k lines) eqn:Hk; [done|].
    injection Hsome as ->. by exists k.
  - intros (key & Hin & Hk). exists (key, line). by rewrite Hk.
Qed.

Lemma table_lines_settled (table : list (string * string)) (ls : list string) :
  table_ok table → Forall (λ l, ∃ key, (key, l) ∈ table) ls →
  settled (table_target table) _is_continuation ls
  ∧ Forall (λ l, _is_continuation (py.rstrip_crlf l) = false) ls.
Proof.
  intros Hok Hall.
  induction Hall as [|l ls (key & Hin) Hall [IH1 IH2]].
  { split; [apply settled_nil|apply Forall_nil_2]. }
  assert (Hc : _is_continuation (py.rstrip_crlf l) = false)
    by (by eapply table_line_not_continuation).
  split; [|by constructor]. apply settled_key; [| |done].
  2: { intros b Hb. destruct IH2 as [|? ? Hc2 _]; [done|]. by injection Hb as <-. }
  destruct (Hok key l Hin) as (_ & _ & Hm & _ & _ & _ & _ & Hfix). by apply Hfix.
Qed.

Lemma chain_app_lines (l1 l2 : list string) :
  chain l1 → Forall (λ l, terminated l = true ∧ starts_lf l = false ∧ ends_cr l = false) l2 →
  chain (l1 ++ l2).
Proof.
  intros H1 H2. induction H1 as [|a Ha|a b rest Ha Hadj Hchain IH].
  - simpl. induction H2 as [|l ls (Hl & _ & Hcr) Hls IH]; [constructor|].
    apply chain_cons_head; [done| |done]. intros b _. by rewrite Hcr.
  - simpl. apply chain_cons_head; [done| |].
    + intros b Hb. destruct H2 as [|l ls (_ & Hlf & _) _]; [done|].
      injection Hb as <-. by rewrite Hlf, andb_false_r.
    + clear Ha. induction H2 as [|l ls (Hl & _ & Hcr) Hls IH]; [constructor|].
      apply chain_cons_head; [done| |done]. intros b _. by rewrite Hcr.
  - simpl. by constructor.
Qed.

Lemma all_chars_concat (p : ascii → bool) (ls : list string) :
  all_chars p (py.concat ls) = true ↔ Forall (λ l, all_chars p l = true) ls.
Proof.
  induction ls as [|l ls IH]; [done|].
  change (py.concat (l :: ls)) with (l +:+ py.concat ls).
  rewrite all_chars_app, andb_true_iff, IH, Forall_cons. done.
Qed.

Lemma strip_nul_no_nul (s : string) : no_nul (py.strip_nul s).
Proof.
  unfold no_nul. induction s as [|c s IH]; [done|]. simpl.
  destruct (bool_decide (c = "000"%char)) eqn:Hc; [done|]. simpl. by rewrite Hc.
Qed.

Lemma strip_nul_fixed (s : string) : no_nul s → py.strip_nul s = s.
Proof.
  unfold no_nul. induction s as [|c s IH]; [done|]. simpl.
  intros [Hc Hs]%andb_true_iff. apply negb_true_iff in Hc. rewrite Hc. by rewrite IH.
Qed.

Lemma omap_none {A B} (f : A → option B) (l : list A) :
  (∀ x, x ∈ l → f x = None) → omap f l = [].
Proof.
  induction l as [|x l IH]; intros Hall; [done|]. cbn [omap list_omap].
  rewrite (Hall x) by left. apply IH. intros y Hy. apply Hall. by right.
Qed.

(** The lines of a rewritten text. *)
Lemma rewrite_with_lines (table : list (string * string)) (original : string) :
  table_ok table → ends_with_newline (py.strip_nul original) →
  let lines := py.splitlines_keepends (py.strip_nul original) in
  ∃ out,
    rewritten (table_target table) _is_continuation lines out
    ∧ rewrite_with table original = py.concat (out ++ missing_keys table lines)
    ∧ py.strip_nul (rewrite_with table original) = rewrite_with table original
    ∧ py.splitlines_keepends (rewrite_with table original)
      = out ++ missing_keys table lines
    ∧ (foldl (scan_step (table_target table) _is_continuation) ([], false) lines).1 = out.
Proof.
  intros Hok Hend lines.
  destruct (proj1 (scan_rewritten (table_target table) _is_continuation lines) [])
    as (out & Hrw & Hscan). rewrite app_nil_l in Hscan.
  set (missing := missing_keys table lines).
  assert (Heq : rewrite_with table original = py.concat (out ++ missing)).
  { unfold rewrite_with. fold lines. by rewrite Hscan. }
  assert (Hnew : ∀ s new, table_target table s = Some new →
            terminated new = true ∧ starts_lf new = false ∧ ends_cr new = false).
  { intros s new (key & Hin & _)%table_target_Some.
    destruct (Hok key new Hin) as (_ & _ & _ & ? & ? & ? & _). done. }
  assert (Hmissing : Forall (λ l, ∃ key, (key, l) ∈ table) missing).
  { apply Forall_forall. intros l (key & Hin & _)%elem_of_missing_keys. by exists key. }
  exists out. rewrite Heq. split_and!; [done|done| | |done].
  - apply strip_nul_fixed, all_chars_concat, Forall_app. split.
    + eapply (rewritten_Forall _ _ no_nul); [done| |].
      * apply all_chars_concat. unfold lines. rewrite concat_splitlines_keepends.
        apply strip_nul_no_nul.
      * intros s new (key & Hin & _)%table_target_Some.
        by destruct (Hok key new Hin) as (_ & _ & _ & _ & _ & _ & ? & _).
    + eapply Forall_impl; [done|]. intros l (key & Hin).
      by destruct (Hok key l Hin) as (_ & _ & _ & _ & _ & _ & ? & _).
  - apply splitlines_concat_chain, chain_app_lines.
    + eapply rewritten_chain; [exact Hnew|exact Hrw|]. by apply splitlines_chain.
    + eapply Forall_impl; [done|]. intros l (key & Hin).
      by destruct (Hok key l Hin) as (_ & _ & _ & ? & ? & ? & _).
Qed.

(** The scheme applied to its own output gives the output again. *)
Lemma rewrite_with_idempotent (table : list (string * string)) (original : string) :
  table_ok table → ends_with_newline (py.strip_nul original) →
  rewrite_with table (rewrite_with table original) = rewrite_with table original.
Proof.
  intros Hok Hend.
  destruct (rewrite_with_lines table original Hok Hend)
    as (out & Hrw & Heq & Hnul & Hsplit & _).
  set (lines := py.splitlines_keepends (py.strip_nul original)) in *.
  set (missing := missing_keys table lines) in *.
  assert (Hmissing : Forall (λ l, ∃ key, (key, l) ∈ table) missing).
  { apply Forall_forall. intros l (key & Hin & _)%elem_of_missing_keys. by exists key. }
  unfold rewrite_with at 1. rewrite Hnul, Hsplit, Heq.
  destruct (table_lines_settled table missing Hok Hmissing) as [Hms Hmc].
  rewrite settled_scan; [|apply settled_app|done].
  2: { eapply rewritten_settled; [|done]. intros s new. by apply table_target_fixed. }
  2: { done. }
  2: { intros b Hb. destruct Hmc; [done|]. by injection Hb as <-. }
  assert (missing_keys table (out ++ missing) = []) as ->; [|by rewrite app_nil_r].
  apply omap_none. intros [key line] Hin.
  assert (has_key key (out ++ missing) = true) as ->; [|done].
  destruct (Hok key line Hin) as (Hne & Halpha & Hm & _ & _ & _ & _ & Hfix).
  apply has_key_true. exists line. split; [|done]. apply elem_of_app.
  destruct (has_key key lines) eqn:Hk.
  - left. apply has_key_true in Hk as (raw & Hraw & Hmraw).
    eapply rewritten_elem; [done|done|by apply Hfix|].
    destruct (_is_continuation (py.rstrip_crlf raw)) eqn:Hc; [|done].
    by rewrite (continuation_not_key key raw Hne Halpha Hc) in Hmraw.
  - right. apply elem_of_missing_keys. by exists key.
Qed.

(** In a rewritten text every key of the table is assigned, and every
    line that assigns it is the line of the table. *)
Lemma rewrite_with_assigns (table : list (string * string)) (original key line : string) :
  table_ok table → ends_with_newline (py.strip_nul original) →
  (key, line) ∈ table →
  line ∈ py.splitlines_keepends (rewrite_with table original)
  ∧ ∀ raw, raw ∈ py.splitlines_keepends (rewrite_with table original) →
           matches_key key (py.rstrip_crlf raw) = true → raw = line.
Proof.
  intros Hok Hend Hin.
  destruct (rewrite_with_lines table original Hok Hend) as (out & Hrw & _ & _ & -> & _).
  set (lines := py.splitlines_keepends (py.strip_nul original)) in *.
  destruct (Hok key line Hin) as (Hne & Halpha & Hm & _ & _ & _ & _ & Hfix).
  split.
  - apply elem_of_app. destruct (has_key key lines) eqn:Hk.
    + left. apply has_key_true in Hk as (raw & Hraw & Hmraw).
      eapply rewritten_elem; [done|done|by apply Hfix|].
      destruct (_is_continuation (py.rstrip_crlf raw)) eqn:Hc; [|done].
      by rewrite (continuation_not_key key raw Hne Halpha Hc) in Hmraw.
    + right. apply elem_of_missing_keys. by exists key.
  - intros raw Hraw Hmraw. specialize (Hfix _ Hmraw).
    assert (Hall : Forall (λ l, table_target table (py.rstrip_crlf l) = None
                                ∨ table_target table (py.rstrip_crlf l) = Some l)
                     (out ++ missing_keys table lines)).
    { apply Forall_app. split.
      - clear -Hrw Hok. induction Hrw as [|l ls out Hl Hrw IH|l new conts ls out Hl Hc Hh Hrw IH].
        + constructor.
        + constructor; [by left|done].
        + constructor; [|done]. right. by eapply table_target_fixed.
      - apply Forall_forall. intros l (k & Hk & _)%elem_of_missing_keys. right.
        destruct (Hok k l Hk) as (_ & _ & Hml & _ & _ & _ & _ & Hfixl). by apply Hfixl. }
    rewrite Forall_forall in Hall. destruct (Hall raw Hraw) as [Hn|Hs]; congruence.
Qed.

(** ** The rewriters of the scripts in the common scheme *)

Lemma foldl_ext_fn {A B} (f g : A → B → A) (a : A) (l : list B) :
  (∀ a b, f a b = g a b) → foldl f a l = foldl g a l.
Proof. intros Hext. revert a. induction l as [|b l IH]; intros a; [done|]. simpl. by rewrite Hext, IH. Qed.

Lemma scan_step_ext (t1 t2 : string → option string) (cont : string → bool)
    (st : list string * bool) (lines : list string) :
  (∀ s, t1 s = t2 s) →
  foldl (scan_step t1 cont) st lines = foldl (scan_step t2 cont) st lines.
Proof. intros Hext. apply foldl_ext_fn. intros a b. unfold scan_step. by rewrite Hext. Qed.

Lemma update_ini_rewrite_with (original mods_csv workshop_csv : string) :
  update_ini original mods_csv workshop_csv
  = rewrite_with (update_ini_table mods_csv workshop_csv) original.
Proof.
  unfold update_ini, rewrite_with.
  set (lines := py.splitlines_keepends (py.strip_nul original)).
  pose proof (update_ini_loop mods_csv workshop_csv lines (mkIni [] false false false))
    as Hloop. cbv zeta in Hloop. cbn [output_lines skip_continuation wrote_mods
                                       wrote_workshop] in Hloop.
  destruct Hloop as (Hout & Hm & Hw).
  set (st := foldl _ (mkIni [] false false false) lines) in *.
  rewrite Hm, Hw. simpl orb.
  rewrite (scan_step_ext _ (table_target (update_ini_table mods_csv workshop_csv)))
    in Hout by done.
  apply (f_equal fst) in Hout. cbn [fst] in Hout. rewrite Hout.
  unfold missing_keys, update_ini_table. cbn [omap list_omap].
  by destruct (has_key "mods" lines), (has_key "workshopitems" lines).
Qed.

Lemma rewrite_ini_keys_rewrite_with (original mods_csv workshop_csv : string)
    (map_csv : option string) :
  update_server_ini.rewrite_ini_keys original mods_csv workshop_csv map_csv
  = rewrite_with (rewrite_ini_keys_table mods_csv workshop_csv map_csv) original.
Proof.
  unfold update_server_ini.rewrite_ini_keys, rewrite_with.
  set (lines := py.splitlines_keepends (py.strip_nul original)).
  pose proof (rewrite_ini_keys_loop mods_csv workshop_csv map_csv lines
                (update_server_ini.mkKeys [] false false false false)) as Hloop.
  cbv zeta in Hloop.
  cbn [update_server_ini.out_lines update_server_ini.skipping update_server_ini.wrote_mods
         update_server_ini.wrote_workshop update_server_ini.wrote_map] in Hloop.
  destruct Hloop as (Hout & Hm & Hw & Hmap).
  set (st := foldl _ (update_server_ini.mkKeys [] false false false false) lines) in *.
  rewrite Hm, Hw. simpl orb.
  rewrite (scan_step_ext _ (table_target
                              (rewrite_ini_keys_table mods_csv workshop_csv map_csv)))
    in Hout.
  2: { intros s. unfold rewrite_ini_keys_target, rewrite_ini_keys_table, update_ini_table.
       cbn [app table_target]. destruct (matches_key "mods" s); [done|].
       destruct (matches_key "workshopitems" s); [done|]. by destruct map_csv. }
  apply (f_equal fst) in Hout. cbn [fst] in Hout. rewrite Hout.
  unfold missing_keys, rewrite_ini_keys_table, update_ini_table.
  destruct map_csv as [csv|].
  - rewrite Hmap by done. simpl orb. cbn [app omap list_omap map_table].
    by destruct (has_key "mods" lines), (has_key "workshopitems" lines),
      (has_key "map" lines).
  - cbn [app omap list_omap].
    by destruct (has_key "mods" lines), (has_key "workshopitems" lines).
Qed.

Lemma map_loop (map_csv : string) (lines out : list string) (wrote skip : bool) :
  foldl (update_map_line_step map_csv) (out, wrote, skip) lines
  = ((foldl (scan_step (table_target (map_table map_csv)) _is_continuation)
            (out, skip) lines).1,
     wrote || has_key "map" lines,
     (foldl (scan_step (table_target (map_table map_csv)) _is_continuation)
            (out, skip) lines).2).
Proof.
  revert out wrote skip. induction lines as [|raw lines IH]; intros out wrote skip.
  - simpl. by rewrite orb_false_r.
  - cbn [foldl]. rewrite has_key_cons.
    unfold update_map_line_step at 2, scan_step at 2 4. cbn [fst snd table_target map_table].
    destruct (skip && _is_continuation (py.rstrip_crlf raw)) eqn:Hskip.
    + rewrite IH. destruct skip; [|done]. simpl in Hskip.
      rewrite (continuation_not_key "map" raw) by done. done.
    + destruct (matches_key "map" (py.rstrip_crlf raw)); rewrite IH.
      * by rewrite orb_true_r.
      * done.
Qed.

Lemma update_map_line_rewrite_with (original map_csv : string) :
  update_map_line original map_csv = rewrite_with (map_table map_csv) original.
Proof.
  unfold update_map_line, rewrite_with.
  set (lines := py.splitlines_keepends (py.strip_nul original)).
  rewrite map_loop. simpl orb. unfold missing_keys, map_table. cbn [omap list_omap].
  by destruct (has_key "map" lines).
Qed.

Lemma rewrite_ini_map_key_rewrite_with (original map_csv : string) :
  update_server_ini_map.rewrite_ini_map_key original map_csv
  = rewrite_with (map_table map_csv) original.
Proof.
  rewrite <- update_map_line_rewrite_with. reflexivity.
Qed.

Lemma last_char_snoc (s : string) (c : ascii) : last_char (s +:+ String c "") = Some c.
Proof.
  induction s as [|a s IH]; [done|]. rewrite string_app_cons.
  rewrite last_char_cons; [done|]. by destruct s.
Qed.

Lemma terminated_snoc (body : string) :
  all_chars (λ c, negb (py.is_linebreak c)) body = true →
  terminated (body +:+ String "010" "") = true.
Proof.
  induction body as [|c body IH]; [done|]. simpl. intros [Hc Hb]%andb_true_iff.
  apply negb_true_iff in Hc. rewrite Hc. by apply IH.
Qed.

Lemma rstrip_crlf_line (body : string) :
  all_chars (λ c, negb (py.is_linebreak c)) body = true →
  py.rstrip_crlf (body +:+ String "010" "") = body.
Proof.
  intros Hb. unfold py.rstrip_crlf. rewrite rstrip_with_snoc by done.
  apply all_chars_rstrip_fixed. clear -Hb.
  induction body as [|c body IH]; [done|]. simpl in *.
  apply andb_true_iff in Hb as [Hc Hb]. rewrite IH by done. rewrite andb_true_r.
  by destruct c as [[] [] [] [] [] [] [] []].
Qed.

(** The line [key=value] of a value within one line. *)
Lemma key_line_ok (name key value : string) :
  all_chars (λ c, negb (py.is_linebreak c)) name = true → no_nul name →
  (∀ v, matches_key key (name +:+ "=" +:+ v) = true) →
  (∀ v, starts_lf (name +:+ "=" +:+ v) = false) →
  ini_value value →
  matches_key key (py.rstrip_crlf (key_line name value)) = true
  ∧ terminated (key_line name value) = true
  ∧ starts_lf (key_line name value) = false
  ∧ ends_cr (key_line name value) = false
  ∧ no_nul (key_line name value).
Proof.
  intros Hname Hnul Hmatch Hlf [Hval Hvnul]. unfold key_line.
  assert (Hbody : all_chars (λ c, negb (py.is_linebreak c)) (name +:+ "=" +:+ value) = true).
  { by rewrite !all_chars_app, Hname, Hval. }
  assert (Heq : name +:+ "=" +:+ value +:+ String "010" ""
                = (name +:+ "=" +:+ value) +:+ String "010" "").
  { by rewrite !string_app_assoc. }
  rewrite Heq. split_and!.
  - rewrite rstrip_crlf_line by done. apply Hmatch.
  - by apply terminated_snoc.
  - rewrite <- Heq. apply Hlf.
  - unfold ends_cr. by rewrite last_char_snoc.
  - unfold no_nul in *. by rewrite !all_chars_app, Hnul, Hvnul.
Qed.

Lemma mods_line_ok (value : string) :
  ini_value value →
  matches_key "mods" (py.rstrip_crlf (key_line "Mods" value)) = true
  ∧ terminated (key_line "Mods" value) = true
  ∧ starts_lf (key_line "Mods" value) = false
  ∧ ends_cr (key_line "Mods" value) = false
  ∧ no_nul (key_line "Mods" value).
Proof. apply key_line_ok; try done; intros v; by vm_compute. Qed.

Lemma workshopitems_line_ok (value : string) :
  ini_value value →
  matches_key "workshopitems" (py.rstrip_crlf (key_line "WorkshopItems" value)) = true
  ∧ terminated (key_line "WorkshopItems" value) = true
  ∧ starts_lf (key_line "WorkshopItems" value) = false
  ∧ ends_cr (key_line "WorkshopItems" value) = false
  ∧ no_nul (key_line "WorkshopItems" value).
Proof. apply key_line_ok; try done; intros v; by vm_compute. Qed.

Lemma map_line_ok (value : string) :
  ini_value value →
  matches_key "map" (py.rstrip_crlf (key_line "Map" value)) = true
  ∧ terminated (key_line "Map" value) = true
  ∧ starts_lf (key_line "Map" value) = false
  ∧ ends_cr (key_line "Map" value) = false
  ∧ no_nul (key_line "Map" value).
Proof. apply key_line_ok; try done; intros v; by vm_compute. Qed.

Lemma not_mods_of_workshopitems (s : string) :
  matches_key "workshopitems" s = true → matches_key "mods" s = false.
Proof.
  intros Hw. destruct (matches_key "mods" s) eqn:Hm; [|done].
  by rewrite (mods_not_workshopitems s Hm) in Hw.
Qed.

Lemma not_keys_of_map (s : string) :
  matches_key "map" s = true →
  matches_key "mods" s = false ∧ matches_key "workshopitems" s = false.
Proof.
  intros Hmap. split.
  - destruct (matches_key "mods" s) eqn:Hm; [|done]. by rewrite (mods_not_map s Hm) in Hmap.
  - destruct (matches_key "workshopitems" s) eqn:Hw; [|done].
    by rewrite (workshopitems_not_map s Hw) in Hmap.
Qed.

Lemma rewrite_ini_keys_table_ok (mods_csv workshop_csv : string) (map_csv : option string) :
  ini_value mods_csv → ini_value workshop_csv →
  (∀ csv, map_csv = Some csv → ini_value csv) →
  table_ok (rewrite_ini_keys_table mods_csv workshop_csv map_csv).
Proof.
  intros Hm Hw Hmap key line Hin.
  unfold rewrite_ini_keys_table, update_ini_table in *.
  apply elem_of_app in Hin as [Hin|Hin].
  - apply elem_of_cons in Hin as [[= -> ->]|Hin].
    + destruct (mods_line_ok mods_csv Hm) as (? & ? & ? & ? & ?).
      split_and!; try done. intros s Hs. cbn [app table_target]. by rewrite Hs.
    + apply list_elem_of_singleton in Hin as [= -> ->].
      destruct (workshopitems_line_ok workshop_csv Hw) as (? & ? & ? & ? & ?).
      split_and!; try done. intros s Hs. cbn [app table_target].
      by rewrite (not_mods_of_workshopitems s Hs), Hs.
  - destruct map_csv as [csv|]; [|by apply elem_of_nil in Hin].
    apply list_elem_of_singleton in Hin as [= -> ->].
    destruct (map_line_ok csv (Hmap csv eq_refl)) as (? & ? & ? & ? & ?).
    split_and!; try done. intros s Hs. cbn [app table_target map_table].
    destruct (not_keys_of_map s Hs) as [-> ->]. by rewrite Hs.
Qed.

Lemma update_ini_table_ok (mods_csv workshop_csv : string) :
  ini_value mods_csv → ini_value workshop_csv →
  table_ok (update_ini_table mods_csv workshop_csv).
Proof.
  intros Hm Hw.
  pose proof (rewrite_ini_keys_table_ok mods_csv workshop_csv None Hm Hw) as Hok.
  unfold rewrite_ini_keys_table in Hok. rewrite app_nil_r in Hok. by apply Hok.
Qed.

Lemma map_table_ok (map_csv : string) : ini_value map_csv → table_ok (map_table map_csv).
Proof.
  intros Hmap key line Hin. apply list_elem_of_singleton in Hin as [= -> ->].
  destruct (map_line_ok map_csv Hmap) as (? & ? & ? & ? & ?).
  split_and!; try done. intros s Hs. cbn [table_target map_table]. by rewrite Hs.
Qed.

(** X12.  On an INI text that is empty or ends with a line boundary, and
    for values within one line, every rewriter of the INI is idempotent:
    applied to its own output with the same values it returns the output
    unchanged.  This holds for [update_ini] and [update_map_line] of
    process_mods.py, for [rewrite_ini_keys] of update_server_ini.py (with
    or without a Map value) and for [rewrite_ini_map_key] of
    update_server_ini_map.py. *)
Theorem ini_rewriters_idempotent (original mods_csv workshop_csv map_csv : string) :
  ends_with_newline (py.strip_nul original) →
  ini_value mods_csv → ini_value workshop_csv → ini_value map_csv →
  update_ini (update_ini original mods_csv workshop_csv) mods_csv workshop_csv
  = update_ini original mods_csv workshop_csv
  ∧ update_map_line (update_map_line original map_csv) map_csv
    = update_map_line original map_csv
  ∧ (∀ map_opt, map_opt = None ∨ map_opt = Some map_csv →
       update_server_ini.rewrite_ini_keys
         (update_server_ini.rewrite_ini_keys original mods_csv workshop_csv map_opt)
         mods_csv workshop_csv map_opt
       = update_server_ini.rewrite_ini_keys original mods_csv workshop_csv map_opt)
  ∧ update_server_ini_map.rewrite_ini_map_key
      (update_server_ini_map.rewrite_ini_map_key original map_csv) map_csv
    = update_server_ini_map.rewrite_ini_map_key original map_csv.
Proof.
  intros Hend Hm Hw Hc. split_and!.
  - rewrite !update_ini_rewrite_with.
    by apply rewrite_with_idempotent; [apply update_ini_table_ok|].
  - rewrite !update_map_line_rewrite_with.
    by apply rewrite_with_idempotent; [apply map_table_ok|].
  - intros map_opt Hopt. rewrite !rewrite_ini_keys_rewrite_with.
    apply rewrite_with_idempotent; [|done].
    apply rewrite_ini_keys_table_ok; [done|done|].
    intros csv ->. by destruct Hopt as [|[= ->]].
  - rewrite !rewrite_ini_map_key_rewrite_with.
    by apply rewrite_with_idempotent; [apply map_table_ok|].
Qed.

Lemma ini_rewriters_idempotent_witness :
  update_ini (update_ini "PauseEmpty=true
Mods=a
 b
" "\x;\y" "1;2") "\x;\y" "1;2"
  = update_ini "PauseEmpty=true
Mods=a
 b
" "\x;\y" "1;2".
Proof.
  refine (proj1 (ini_rewriters_idempotent "PauseEmpty=true
Mods=a
 b
" "\x;\y" "1;2" "Muldraugh, KY" _ _ _ _)).
  - right. exists "010"%char. by vm_compute.
  - split; by vm_compute.
  - split; by vm_compute.
  - split; by vm_compute.
Defined.

(** X13.  On an INI text that is empty or ends with a line boundary, and
    for values within one line, the text that [update_ini] returns holds
    the line [Mods=<mods_csv>] and the line [WorkshopItems=<workshop_csv>],
    and no other line of it assigns [Mods] or [WorkshopItems]; likewise
    the text that [update_map_line] returns holds [Map=<map_csv>] as its
    only line that assigns [Map]. *)
Theorem rewritten_ini_assigns (original mods_csv workshop_csv map_csv : string) :
  ends_with_newline (py.strip_nul original) →
  ini_value mods_csv → ini_value workshop_csv → ini_value map_csv →
  let updated := py.splitlines_keepends (update_ini original mods_csv workshop_csv) in
  let mapped := py.splitlines_keepends (update_map_line original map_csv) in
  key_line "Mods" mods_csv ∈ updated
  ∧ key_line "WorkshopItems" workshop_csv ∈ updated
  ∧ key_line "Map" map_csv ∈ mapped
  ∧ (∀ raw, raw ∈ updated → matches_key "mods" (py.rstrip_crlf raw) = true →
            raw = key_line "Mods" mods_csv)
  ∧ (∀ raw, raw ∈ updated → matches_key "workshopitems" (py.rstrip_crlf raw) = true →
            raw = key_line "WorkshopItems" workshop_csv)
  ∧ (∀ raw, raw ∈ mapped → matches_key "map" (py.rstrip_crlf raw) = true →
            raw = key_line "Map" map_csv).
Proof.
  intros Hend Hm Hw Hc. cbv zeta.
  rewrite update_ini_rewrite_with, update_map_line_rewrite_with.
  pose proof (update_ini_table_ok mods_csv workshop_csv Hm Hw) as Hok.
  pose proof (map_table_ok map_csv Hc) as Hokm.
  destruct (rewrite_with_assigns _ original "mods" (key_line "Mods" mods_csv) Hok Hend)
    as [? ?]; [left|].
  destruct (rewrite_with_assigns _ original "workshopitems"
              (key_line "WorkshopItems" workshop_csv) Hok Hend) as [? ?];
    [right; left|].
  destruct (rewrite_with_assigns _ original "map" (key_line "Map" map_csv) Hokm Hend)
    as [? ?]; [left|].
  done.
Qed.

Lemma rewritten_ini_assigns_witness :
  key_line "Mods" "\x" ∈ py.splitlines_keepends (update_ini "Mods=a
mods = b
" "\x" "1").
Proof.
  refine (proj1 (rewritten_ini_assigns "Mods=a
mods = b
" "\x" "1" "Muldraugh, KY" _ _ _ _)).
  - right. exists "010"%char. by vm_compute.
  - split; by vm_compute.
  - split; by vm_compute.
  - split; by vm_compute.
Defined.

(** ** One pass over two tables, and one pass for each *)

Lemma table_target_app (t1 t2 : list (string * string)) (s : string) :
  table_target (t1 ++ t2) s
  = match table_target t1 s with Some new => Some new | None => table_target t2 s end.
Proof. induction t1 as [|[k l] t1 IH]; [done|]. simpl. by destruct (matches_key k s). Qed.

Lemma missing_keys_app (t1 t2 : list (string * string)) (lines : list string) :
  missing_keys (t1 ++ t2) lines = missing_keys t1 lines ++ missing_keys t2 lines.
Proof. unfold missing_keys. apply omap_app. Qed.

Lemma missing_keys_ext (table : list (string * string)) (l1 l2 : list string) :
  (∀ key line, (key, line) ∈ table → has_key key l1 = has_key key l2) →
  missing_keys table l1 = missing_keys table l2.
Proof.
  unfold missing_keys. induction table as [|[k l] table IH]; intros Hext; [done|].
  cbn [omap list_omap]. rewrite (Hext k l) by left.
  rewrite IH; [done|]. intros key line Hin. apply (Hext key line). by right.
Qed.

Lemma has_key_app (key : string) (l1 l2 : list string) :
  has_key key (l1 ++ l2) = has_key key l1 || has_key key l2.
Proof. unfold has_key. apply existsb_app. Qed.

Lemma continuation_no_target (table : list (string * string)) (raw : string) :
  table_ok table → _is_continuation (py.rstrip_crlf raw) = true →
  table_target table (py.rstrip_crlf raw) = None.
Proof.
  intros Hok Hc. destruct (table_target table (py.rstrip_crlf raw)) as [new|] eqn:Ht; [|done].
  apply table_target_Some in Ht as (key & Hin & Hm).
  destruct (Hok key new Hin) as (Hne & Halpha & _).
  by rewrite (continuation_not_key key raw Hne Halpha Hc) in Hm.
Qed.

Lemma no_target_no_match (table : list (string * string)) (key line s : string) :
  table_ok table → (key, line) ∈ table → table_target table s = None →
  matches_key key s = false.
Proof.
  intros Hok Hin Ht. destruct (matches_key key s) eqn:Hm; [|done].
  destruct (Hok key line Hin) as (_ & _ & _ & _ & _ & _ & _ & Hall).
  by rewrite (Hall s Hm) in Ht.
Qed.

Section two_tables.
Context (t2 tm : list (string * string)).
Hypothesis t2_ok : table_ok t2.
Hypothesis tm_ok : table_ok tm.
Hypothesis apart_lines :
  ∀ key line, (key, line) ∈ t2 → table_target tm (py.rstrip_crlf line) = None.
Hypothesis apart_keys :
  ∀ s new, table_target t2 s = Some new → table_target tm s = None.

Lemma two_pass_scan (lines acc3 acc2 : list string) (skip3 skip2 skipm : bool) :
  foldl (scan_step (table_target tm) _is_continuation) ([], false) acc2 = (acc3, skipm) →
  skip3 = skip2 || skipm →
  ∃ skipm',
    foldl (scan_step (table_target tm) _is_continuation) ([], false)
      (foldl (scan_step (table_target t2) _is_continuation) (acc2, skip2) lines).1
    = ((foldl (scan_step (table_target (t2 ++ tm)) _is_continuation) (acc3, skip3) lines).1,
       skipm').
Proof.
  revert acc3 acc2 skip3 skip2 skipm.
  induction lines as [|raw lines IH]; intros acc3 acc2 skip3 skip2 skipm Hacc Hskip.
  - simpl. by exists skipm.
  - cbn [foldl].
    set (s2 := scan_step (table_target t2) _is_continuation (acc2, skip2) raw).
    set (s3 := scan_step (table_target (t2 ++ tm)) _is_continuation (acc3, skip3) raw).
    assert (∃ skipm1,
              foldl (scan_step (table_target tm) _is_continuation) ([], false) s2.1
              = (s3.1, skipm1) ∧ s3.2 = s2.2 || skipm1) as (skipm1 & H1 & H2).
    { clear IH. set (pm := foldl (scan_step (table_target tm) _is_continuation)) in *.
      assert (Hpm : ∀ acc x, pm ([], false) (acc ++ [x])
                    = scan_step (table_target tm) _is_continuation (pm ([], false) acc) x).
      { intros acc x. unfold pm. by rewrite foldl_app. }
      clearbody pm. unfold s2, s3, scan_step. cbn [fst snd]. rewrite table_target_app.
      destruct (_is_continuation (py.rstrip_crlf raw)) eqn:Hc.
      - rewrite (continuation_no_target t2 raw t2_ok Hc).
        rewrite (continuation_no_target tm raw tm_ok Hc).
        subst skip3. destruct skip2; cbn [orb andb fst snd].
        + by exists skipm.
        + destruct skipm; cbn [fst snd].
          * exists true. rewrite Hpm, Hacc. unfold scan_step.
            cbn [fst snd andb]. by rewrite Hc.
          * exists false. rewrite Hpm, Hacc. unfold scan_step.
            cbn [fst snd andb].
            by rewrite (continuation_no_target tm raw tm_ok Hc).
      - rewrite !andb_false_r.
        destruct (table_target t2 (py.rstrip_crlf raw)) as [new|] eqn:Ht2; cbn [fst snd].
        + exists false. rewrite Hpm, Hacc. unfold scan_step.
          cbn [fst snd].
          destruct (table_target_fixed t2 _ new t2_ok Ht2) as [_ ->].
          rewrite andb_false_r.
          apply table_target_Some in Ht2 as (key & Hin & _).
          by rewrite (apart_lines key new Hin).
        + destruct (table_target tm (py.rstrip_crlf raw)) as [new|] eqn:Htm; cbn [fst snd].
          * exists true. rewrite Hpm, Hacc. unfold scan_step.
            cbn [fst snd]. by rewrite Hc, andb_false_r, Htm.
          * exists false. rewrite Hpm, Hacc. unfold scan_step.
            cbn [fst snd]. by rewrite Hc, andb_false_r, Htm. }
    destruct s2 as [acc2' skip2'], s3 as [acc3' skip3']. cbn [fst snd] in H1, H2.
    by apply (IH acc3' acc2' skip3' skip2' skipm1).
Qed.

Lemma scan_table_lines (ls acc : list string) (skip : bool) :
  Forall (λ l, ∃ key, (key, l) ∈ t2) ls →
  (foldl (scan_step (table_target tm) _is_continuation) (acc, skip) ls).1 = acc ++ ls.
Proof.
  intros Hall. revert acc skip. induction Hall as [|l ls (key & Hin) _ IH]; intros acc skip.
  - simpl. by rewrite app_nil_r.
  - cbn [foldl]. unfold scan_step at 2. cbn [fst snd].
    rewrite (table_line_not_continuation t2 key l t2_ok Hin), andb_false_r.
    rewrite (apart_lines key l Hin), IH. by rewrite <- app_assoc.
Qed.

Lemma scan_has_key (key line : string) (lines acc : list string) (skip : bool) :
  (key, line) ∈ tm →
  has_key key (foldl (scan_step (table_target t2) _is_continuation) (acc, skip) lines).1
  = has_key key acc || has_key key lines.
Proof.
  intros Hin. revert acc skip. induction lines as [|raw lines IH]; intros acc skip.
  - simpl. by rewrite orb_false_r.
  - cbn [foldl]. rewrite has_key_cons. unfold scan_step at 2. cbn [fst snd].
    destruct (skip && _is_continuation (py.rstrip_crlf raw)) eqn:Hs.
    + apply andb_true_iff in Hs as [_ Hc]. rewrite IH.
      destruct (tm_ok key line Hin) as (Hne & Halpha & _).
      by rewrite (continuation_not_key key raw Hne Halpha Hc).
    + destruct (table_target t2 (py.rstrip_crlf raw)) as [new|] eqn:Ht2.
      * rewrite IH, has_key_app. unfold has_key at 2. cbn [existsb].
        rewrite (no_target_no_match tm key line _ tm_ok Hin (apart_keys _ _ Ht2)).
        apply table_target_Some in Ht2 as (k2 & Hin2 & _).
        rewrite (no_target_no_match tm key line _ tm_ok Hin (apart_lines _ _ Hin2)).
        by rewrite !orb_false_r.
      * rewrite IH, has_key_app. unfold has_key at 2. cbn [existsb].
        by rewrite orb_false_r, orb_assoc.
Qed.

Lemma rewrite_with_app (original : string) :
  ends_with_newline (py.strip_nul original) →
  rewrite_with (t2 ++ tm) original = rewrite_with tm (rewrite_with t2 original).
Proof.
  intros Hend.
  destruct (rewrite_with_lines t2 original t2_ok Hend)
    as (out2 & Hrw & _ & Hnul & Hsplit & Hscan).
  set (X := rewrite_with t2 original) in *.
  unfold rewrite_with. rewrite Hnul, Hsplit.
  set (lines := py.splitlines_keepends (py.strip_nul original)) in *.
  assert (Hmissing : Forall (λ l, ∃ key, (key, l) ∈ t2) (missing_keys t2 lines)).
  { apply Forall_forall. intros l (key & Hin & _)%elem_of_missing_keys. by exists key. }
  destruct (two_pass_scan lines [] [] false false false eq_refl eq_refl) as (skipm & Hm).
  rewrite Hscan in Hm. cbn [fst] in Hm.
  rewrite foldl_app, Hm, scan_table_lines by done.
  rewrite missing_keys_app, app_assoc. do 2 f_equal.
  apply missing_keys_ext. intros key line Hin.
  rewrite has_key_app, <- Hscan, (scan_has_key key line) by done. cbn [has_key existsb orb].
  assert (has_key key (missing_keys t2 lines) = false) as ->; [|by rewrite orb_false_r].
  destruct (has_key key (missing_keys t2 lines)) eqn:Hk; [|done].
  apply has_key_true in Hk as (raw & (k2 & Hin2 & _)%elem_of_missing_keys & Hmatch).
  by rewrite (no_target_no_match tm key line _ tm_ok Hin (apart_lines _ _ Hin2)) in Hmatch.
Qed.

End two_tables.

Lemma update_ini_table_apart_keys (mods_csv workshop_csv map_csv s new : string) :
  table_target (update_ini_table mods_csv workshop_csv) s = Some new →
  table_target (map_table map_csv) s = None.
Proof.
  unfold update_ini_table, map_table. cbn [table_target].
  destruct (matches_key "mods" s) eqn:Hm.
  - intros _. by rewrite (mods_not_map s Hm).
  - destruct (matches_key "workshopitems" s) eqn:Hw; [|done].
    intros _. by rewrite (workshopitems_not_map s Hw).
Qed.

Lemma update_ini_table_apart_lines (mods_csv workshop_csv map_csv key line : string) :
  ini_value mods_csv → ini_value workshop_csv →
  (key, line) ∈ update_ini_table mods_csv workshop_csv →
  table_target (map_table map_csv) (py.rstrip_crlf line) = None.
Proof.
  intros Hm Hw Hin. apply (update_ini_table_apart_keys mods_csv workshop_csv map_csv _ line).
  destruct (update_ini_table_ok mods_csv workshop_csv Hm Hw key line Hin)
    as (_ & _ & Hmatch & _ & _ & _ & _ & Hall).
  by apply Hall.
Qed.

(** X14.  On an INI text that is empty or ends with a line boundary, and
    for values within one line, the single pass of [rewrite_ini_keys]
    with a Map value returns the same text as the two passes of
    process_mods.py, [update_ini] and then [update_map_line]; it is also
    [rewrite_ini_keys] without a Map value followed by
    [rewrite_ini_map_key]. *)
Theorem rewrite_ini_keys_two_passes (original mods_csv workshop_csv map_csv : string) :
  ends_with_newline (py.strip_nul original) →
  ini_value mods_csv → ini_value workshop_csv → ini_value map_csv →
  update_server_ini.rewrite_ini_keys original mods_csv workshop_csv (Some map_csv)
  = update_map_line (update_ini original mods_csv workshop_csv) map_csv
  ∧ update_server_ini.rewrite_ini_keys original mods_csv workshop_csv (Some map_csv)
    = update_server_ini_map.rewrite_ini_map_key
        (update_server_ini.rewrite_ini_keys original mods_csv workshop_csv None) map_csv.
Proof.
  intros Hend Hm Hw Hc.
  assert (Hboth : rewrite_with (update_ini_table mods_csv workshop_csv ++ map_table map_csv)
                    original
                  = rewrite_with (map_table map_csv)
                      (rewrite_with (update_ini_table mods_csv workshop_csv) original)).
  { apply rewrite_with_app; [by apply update_ini_table_ok|by apply map_table_ok| | |done].
    - intros key line. by apply update_ini_table_apart_lines.
    - apply update_ini_table_apart_keys. }
  rewrite !rewrite_ini_keys_rewrite_with, rewrite_ini_map_key_rewrite_with,
    update_map_line_rewrite_with, update_ini_rewrite_with.
  unfold rewrite_ini_keys_table. by rewrite app_nil_r.
Qed.

Lemma rewrite_ini_keys_two_passes_witness :
  update_server_ini.rewrite_ini_keys "Map=Riverside
 more
Mods=a
" "\x;\y" "1;2" (Some "Muldraugh, KY")
  = update_map_line (update_ini "Map=Riverside
 more
Mods=a
" "\x;\y" "1;2") "Muldraugh, KY".
Proof.
  refine (proj1 (rewrite_ini_keys_two_passes "Map=Riverside
 more
Mods=a
" "\x;\y" "1;2" "Muldraugh, KY" _ _ _ _)).
  - right. exists "010"%char. by vm_compute.
  - split; by vm_compute.
  - split; by vm_compute.
  - split; by vm_compute.
Defined.

(** ** [update_public_name] *)

Lemma update_public_name_lines (original public_name : string) :
  let lines := py.splitlines_keepends original in
  update_public_name original public_name
  = py.concat ((public_name_line public_name <$> lines)
               ++ (if has_key "publicname" lines then []
                   else [key_line "PublicName" public_name])).
Proof.
  intros lines. unfold update_public_name. fold lines.
  assert (Hloop : ∀ ls out wrote,
    foldl (λ '(output_lines, wrote) raw,
             if matches_key "publicname" (py.rstrip_crlf raw)
             then (output_lines ++ [key_line "PublicName" public_name], true)
             else (output_lines ++ [raw], wrote)) (out, wrote) ls
    = (out ++ (public_name_line public_name <$> ls), wrote || has_key "publicname" ls)).
  { induction ls as [|raw ls IH]; intros out wrote.
    - simpl. by rewrite app_nil_r, orb_false_r.
    - cbn [foldl]. rewrite has_key_cons, fmap_cons.
      change (public_name_line public_name raw)
        with (if matches_key "publicname" (py.rstrip_crlf raw)
              then key_line "PublicName" public_name else raw).
      destruct (matches_key "publicname" (py.rstrip_crlf raw)); rewrite IH.
      + by rewrite <- app_assoc, orb_true_r.
      + by rewrite <- app_assoc. }
  by rewrite Hloop.
Qed.

Lemma public_name_line_ok (public_name : string) :
  all_chars (λ c, negb (py.is_linebreak c)) public_name = true →
  matches_key "publicname" (py.rstrip_crlf (key_line "PublicName" public_name)) = true
  ∧ terminated (key_line "PublicName" public_name) = true
  ∧ starts_lf (key_line "PublicName" public_name) = false
  ∧ ends_cr (key_line "PublicName" public_name) = false.
Proof.
  intros Hval. unfold key_line.
  assert (Hbody : all_chars (λ c, negb (py.is_linebreak c))
                    ("PublicName" +:+ "=" +:+ public_name) = true).
  { by rewrite !all_chars_app, Hval. }
  assert (Heq : "PublicName" +:+ "=" +:+ public_name +:+ String "010" ""
                = ("PublicName" +:+ "=" +:+ public_name) +:+ String "010" "").
  { by rewrite !string_app_assoc. }
  rewrite Heq. split_and!.
  - rewrite rstrip_crlf_line by done. by vm_compute.
  - by apply terminated_snoc.
  - by vm_compute.
  - unfold ends_cr. by rewrite last_char_snoc.
Qed.

Lemma public_name_line_rewritten (public_name : string) (lines : list string) :
  rewritten (λ s, if matches_key "publicname" s
                  then Some (key_line "PublicName" public_name) else None)
    (λ _, false) lines (public_name_line public_name <$> lines).
Proof.
  induction lines as [|raw lines IH]; [constructor|]. rewrite fmap_cons.
  unfold public_name_line at 1.
  destruct (matches_key "publicname" (py.rstrip_crlf raw)) eqn:Hm.
  - apply (rewritten_key _ _ raw _ [] lines); [by rewrite Hm|done|done|done].
  - apply rewritten_keep; [by rewrite Hm|done].
Qed.

(** X15.  On an INI text that is empty or ends with a line boundary, and
    for a name within one line, the text that [update_public_name]
    returns holds the line [PublicName=<public_name>], no other line of
    it assigns [PublicName], the lines that do not assign [PublicName]
    are those of the original in the same order (so the continuation
    lines of an old value stay), and [update_public_name] applied again
    with the same name returns the text unchanged. *)
Theorem update_public_name_settles (original public_name : string) :
  ends_with_newline original →
  all_chars (λ c, negb (py.is_linebreak c)) public_name = true →
  let result := update_public_name original public_name in
  key_line "PublicName" public_name ∈ py.splitlines_keepends result
  ∧ (∀ raw, raw ∈ py.splitlines_keepends result →
            matches_key "publicname" (py.rstrip_crlf raw) = true →
            raw = key_line "PublicName" public_name)
  ∧ filter other_line (py.splitlines_keepends result)
    = filter other_line (py.splitlines_keepends original)
  ∧ update_public_name result public_name = result.
Proof.
  intros Hend Hval result.
  destruct (public_name_line_ok public_name Hval) as (Hmatch & Hterm & Hlf & Hcr).
  set (line := key_line "PublicName" public_name) in *.
  set (lines := py.splitlines_keepends original).
  set (missing := if has_key "publicname" lines then [] else [line]).
  assert (Hres : result = py.concat ((public_name_line public_name <$> lines) ++ missing)).
  { apply update_public_name_lines. }
  assert (Hsplit : py.splitlines_keepends result
                   = (public_name_line public_name <$> lines) ++ missing).
  { rewrite Hres. apply splitlines_concat_chain, chain_app_lines.
    - eapply rewritten_chain; [|apply public_name_line_rewritten|by apply splitlines_chain].
      intros s new. cbv beta. destruct (matches_key "publicname" s); [|done]. intros [= <-].
      by split_and!.
    - unfold missing. destruct (has_key "publicname" lines); [done|].
      by repeat constructor. }
  assert (Hin : line ∈ (public_name_line public_name <$> lines) ++ missing).
  { apply elem_of_app. unfold missing. destruct (has_key "publicname" lines) eqn:Hk.
    - left. apply has_key_true in Hk as (raw & Hraw & Hm).
      apply list_elem_of_fmap. exists raw. split; [|done].
      unfold public_name_line. by rewrite Hm.
    - right. left. }
  assert (Honly : ∀ raw, raw ∈ (public_name_line public_name <$> lines) ++ missing →
                    matches_key "publicname" (py.rstrip_crlf raw) = true → raw = line).
  { intros raw Hraw Hm. apply elem_of_app in Hraw as [Hraw|Hraw].
    - apply list_elem_of_fmap in Hraw as (raw0 & -> & _). unfold public_name_line in *.
      destruct (matches_key "publicname" (py.rstrip_crlf raw0)) eqn:Hm0; [done|congruence].
    - unfold missing in Hraw. destruct (has_key "publicname" lines).
      + by apply elem_of_nil in Hraw.
      + by apply list_elem_of_singleton in Hraw. }
  rewrite Hsplit. split_and!; [done|done| |].
  - rewrite filter_app.
    assert (filter other_line missing = []) as ->.
    { unfold missing. destruct (has_key "publicname" lines); [done|].
      rewrite filter_cons_False; [done|]. unfold other_line. by rewrite Hmatch. }
    rewrite app_nil_r. clear -Hmatch. induction lines as [|raw lines IH]; [done|].
    rewrite fmap_cons. unfold public_name_line at 1.
    destruct (matches_key "publicname" (py.rstrip_crlf raw)) eqn:Hm.
    + rewrite (filter_cons_False _ raw) by (unfold other_line; by rewrite Hm).
      destruct (decide (other_line (key_line "PublicName" public_name))) as [Ho|Ho].
      * unfold other_line in Ho. fold line in Ho. by rewrite Hmatch in Ho.
      * by rewrite filter_cons_False.
    + rewrite !filter_cons_True by done. by rewrite IH.
  - rewrite update_public_name_lines. cbv zeta. rewrite Hsplit.
    assert (has_key "publicname" ((public_name_line public_name <$> lines) ++ missing)
            = true) as ->.
    { apply has_key_true. by exists line. }
    rewrite app_nil_r, Hres. f_equal.
    etrans; [|apply list_fmap_id]. apply Forall_fmap_ext, Forall_forall.
    intros raw Hraw. unfold public_name_line, id.
    destruct (matches_key "publicname" (py.rstrip_crlf raw)) eqn:Hm; [|done].
    symmetry. by apply Honly.
Qed.

Lemma update_public_name_settles_witness :
  update_public_name (update_public_name "publicname = old
 rest
Map=x
" "My Server") "My Server"
  = update_public_name "publicname = old
 rest
Map=x
" "My Server".
Proof.
  refine (proj2 (proj2 (proj2 (update_public_name_settles "publicname = old
 rest
Map=x
" "My Server" _ _)))).
  - right. exists "010"%char. by vm_compute.
  - by vm_compute.
Defined.

(** ** The cache of [collect_mod_info] *)

Lemma parse_require_stripped (raw_require : string) :
  Forall stripped_id (parse_require raw_require).
Proof.
  unfold parse_require. destruct (bool_decide (raw_require = "")); [done|].
  apply Forall_forall. intros d [Hne (x & -> & _)%list_elem_of_fmap]%list_elem_of_filter.
  split; [done|apply strip_idem].
Qed.

Lemma item_mod_ids_stripped (item : ItemDir) : Forall stripped_id (item_mod_ids item).
Proof.
  apply Forall_forall. intros m. unfold item_mod_ids.
  rewrite elem_of_first_occurrences, list_elem_of_filter, list_elem_of_fmap.
  intros [Hne (mi & -> & _)]. split; [done|]. apply strip_idem.
Qed.

Lemma collect_item_spec (wid : string) (item : ItemDir)
    (requires workshop_to_mods : gmap string (list string)) :
  ∃ requires',
    collect_item wid item (requires, workshop_to_mods, dom requires)
    = (requires',
       (if bool_decide (item_mod_ids item ≠ [])
        then <[wid := item_mod_ids item]> workshop_to_mods else workshop_to_mods),
       dom requires')
    ∧ dom requires' = dom requires ∪ list_to_set (item_mod_ids item)
    ∧ ∀ m deps, requires' !! m = Some deps →
                requires !! m = Some deps ∨ Forall stripped_id deps.
Proof.
  unfold collect_item, item_mod_ids.
  generalize (sorted_by path_le mi_path (item_mod_infos item)). intros mis.
  match goal with |- context [foldl ?f _ mis] => set (step := f) end.
  assert (Hloop : ∀ mis requires item_mods, ∃ requires',
    foldl step (requires, workshop_to_mods, dom requires, item_mods) mis
    = (requires', workshop_to_mods, dom requires',
       item_mods ++ first_occurrences
                      (filter (λ x, x ≠ "" ∧ x ∉ item_mods) (mod_info_id <$> mis)))
    ∧ dom requires'
      = dom requires ∪ list_to_set (filter (λ s, s ≠ "") (mod_info_id <$> mis))
    ∧ ∀ m deps, requires' !! m = Some deps →
                requires !! m = Some deps ∨ Forall stripped_id deps).
  { clear. induction mis as [|mi mis IH]; intros requires item_mods.
    - exists requires. simpl. rewrite app_nil_r. split_and!; [done|set_solver|auto].
    - cbn [foldl]. rewrite fmap_cons.
      assert (Hstep : step (requires, workshop_to_mods, dom requires, item_mods) mi
                = if bool_decide (mod_info_id mi = "")
                  then (requires, workshop_to_mods, dom requires, item_mods)
                  else
                    let requires1 :=
                      if bool_decide (mod_info_id mi ∉ dom requires)
                      then <[mod_info_id mi :=
                               parse_require
                                 (info_get (_parse_mod_info_file (mi_text mi)) "require")]>
                             requires
                      else requires in
                    (requires1, workshop_to_mods, dom requires1,
                     if bool_decide (mod_info_id mi ∉ item_mods)
                     then item_mods ++ [mod_info_id mi] else item_mods)).
      { unfold step, mod_info_id. cbv zeta.
        destruct (bool_decide (info_get _ "id" = "")); [done|].
        destruct (bool_decide (info_get _ "id" ∉ dom requires)); [|done].
        by rewrite dom_insert_L, (comm_L (∪)). }
      rewrite Hstep. clear Hstep.
      destruct (decide (mod_info_id mi = "")) as [Hid|Hid].
      { rewrite bool_decide_eq_true_2 by done.
        destruct (IH requires item_mods) as (requires' & Heq & Hdom & Hdeps).
        exists requires'. rewrite !filter_cons_False by tauto. done. }
      rewrite bool_decide_eq_false_2 by done. cbv zeta.
      set (requires1 := if bool_decide (mod_info_id mi ∉ dom requires) then _ else _).
      assert (Hdom1 : dom requires1 = dom requires ∪ {[mod_info_id mi]}).
      { unfold requires1. destruct (decide (mod_info_id mi ∈ dom requires)).
        - rewrite bool_decide_eq_false_2 by auto. set_solver.
        - rewrite bool_decide_eq_true_2 by done. rewrite dom_insert_L. set_solver. }
      assert (Hdeps1 : ∀ m deps, requires1 !! m = Some deps →
                         requires !! m = Some deps ∨ Forall stripped_id deps).
      { intros m deps. unfold requires1.
        destruct (bool_decide (mod_info_id mi ∉ dom requires)); [|auto].
        destruct (decide (m = mod_info_id mi)) as [->|Hne].
        - rewrite lookup_insert_eq. intros [= <-]. right. apply parse_require_stripped.
        - rewrite lookup_insert_ne by done. auto. }
      rewrite (filter_cons_True (λ s, s ≠ "")) by done.
      destruct (decide (mod_info_id mi ∈ item_mods)) as [Hin|Hout].
      + rewrite bool_decide_eq_false_2 by auto.
        destruct (IH requires1 item_mods) as (requires' & Heq & Hdom & Hdeps).
        exists requires'. rewrite filter_cons_False by tauto.
        split_and!; [done|rewrite Hdom, Hdom1; set_solver|].
        intros m deps Hm. destruct (Hdeps m deps Hm); auto.
      + rewrite bool_decide_eq_true_2 by done.
        destruct (IH requires1 (item_mods ++ [mod_info_id mi]))
          as (requires' & Heq & Hdom & Hdeps).
        exists requires'. rewrite filter_cons_True by done.
        split_and!; [|rewrite Hdom, Hdom1; set_solver|].
        * rewrite Heq. rewrite <- app_assoc. do 2 f_equal. simpl. f_equal.
          rewrite first_occurrences_filter, list_filter_filter. f_equal.
          apply list_filter_iff. intros y. rewrite elem_of_app, list_elem_of_singleton.
          tauto.
        * intros m deps Hm. destruct (Hdeps m deps Hm); auto. }
  destruct (Hloop mis requires []) as (requires' & Heq & Hdom & Hdeps).
  exists requires'. rewrite Heq. cbn [app].
  assert (Hf : filter (λ x, x ≠ "" ∧ x ∉ []) (mod_info_id <$> mis)
               = filter (λ s, s ≠ "") (mod_info_id <$> mis)).
  { apply list_filter_iff. intros y. rewrite elem_of_nil. tauto. }
  rewrite Hf. split_and!; [done| |done].
  rewrite Hdom. f_equal. apply set_eq. intros m.
  by rewrite !elem_of_list_to_set, elem_of_first_occurrences.
Qed.

Lemma collect_mod_info_loop (workshop_root : gmap string ItemDir)
    (workshop_ids visited : list string)
    (requires workshop_to_mods : gmap string (list string)) :
  (∀ wid, workshop_to_mods !! wid = cached_mods workshop_root visited wid) →
  (∀ m, m ∈ dom requires ↔ m ∈ mod_to_workshop workshop_to_mods) →
  (∀ m deps, requires !! m = Some deps → Forall stripped_id deps) →
  ∃ requires' workshop_to_mods' seen,
    foldl (λ st wid,
             match workshop_root !! wid with
             | None => st
             | Some item => collect_item wid item st
             end) (requires, workshop_to_mods, dom requires) workshop_ids
    = (requires', workshop_to_mods', seen)
    ∧ (∀ wid, workshop_to_mods' !! wid
              = cached_mods workshop_root (visited ++ workshop_ids) wid)
    ∧ (∀ m, m ∈ dom requires' ↔ m ∈ mod_to_workshop workshop_to_mods')
    ∧ (∀ m deps, requires' !! m = Some deps → Forall stripped_id deps).
Proof.
  revert visited requires workshop_to_mods.
  induction workshop_ids as [|wid workshop_ids IH];
    intros visited requires workshop_to_mods Hcache Hdom Hdeps.
  - exists requires, workshop_to_mods, (dom requires). by rewrite app_nil_r.
  - cbn [foldl].
    assert (Hvisited : visited ++ wid :: workshop_ids = (visited ++ [wid]) ++ workshop_ids).
    { by rewrite <- app_assoc. }
    rewrite Hvisited.
    destruct (workshop_root !! wid) as [item|] eqn:Hitem.
    + destruct (collect_item_spec wid item requires workshop_to_mods)
        as (requires1 & -> & Hdom1 & Hdeps1).
      apply IH.
      * intros wid'. unfold cached_mods in *.
        destruct (decide (wid' = wid)) as [->|Hne].
        -- rewrite (bool_decide_eq_true_2 (wid ∈ visited ++ [wid])) by set_solver.
           rewrite Hitem. cbn [mbind option_bind].
           destruct (decide (item_mod_ids item = [])) as [Hnil|Hnil].
           ++ rewrite (bool_decide_eq_false_2 (item_mod_ids item ≠ [])) by auto.
              rewrite (bool_decide_eq_true_2 (item_mod_ids item = [])) by done.
              rewrite Hcache, Hitem. cbn [mbind option_bind].
              rewrite (bool_decide_eq_true_2 (item_mod_ids item = [])) by done.
              by destruct (bool_decide (wid ∈ visited)).
           ++ rewrite (bool_decide_eq_true_2 (item_mod_ids item ≠ [])) by done.
              rewrite (bool_decide_eq_false_2 (item_mod_ids item = [])) by done.
              by rewrite lookup_insert_eq.
        -- assert (Hlk : (if bool_decide (item_mod_ids item ≠ [])
                          then <[wid := item_mod_ids item]> workshop_to_mods
                          else workshop_to_mods) !! wid' = workshop_to_mods !! wid').
           { destruct (bool_decide (item_mod_ids item ≠ [])); [|done].
             by rewrite lookup_insert_ne. }
           rewrite Hlk, Hcache.
           destruct (decide (wid' ∈ visited)) as [Hin|Hout].
           ++ rewrite !bool_decide_eq_true_2; [done|set_solver|done].
           ++ rewrite !bool_decide_eq_false_2; [done|set_solver|done].
      * intros m. rewrite Hdom1, elem_of_union, Hdom, elem_of_list_to_set,
          !elem_of_mod_to_workshop.
        destruct (decide (item_mod_ids item = [])) as [Hnil|Hnil].
        { rewrite (bool_decide_eq_false_2 (item_mod_ids item ≠ [])) by auto.
          rewrite Hnil. set_solver. }
        rewrite (bool_decide_eq_true_2 (item_mod_ids item ≠ [])) by done. split.
        -- intros [(wid' & mods & Hlk & Hm)|Hm].
           ++ destruct (decide (wid' = wid)) as [->|Hne].
              ** exists wid, (item_mod_ids item). rewrite lookup_insert_eq. split; [done|].
                 rewrite Hcache in Hlk. unfold cached_mods in Hlk. rewrite Hitem in Hlk.
                 cbn [mbind option_bind] in Hlk.
                 destruct (bool_decide (wid ∈ visited)); [|done].
                 destruct (bool_decide (item_mod_ids item = [])); [done|].
                 by injection Hlk as <-.
              ** exists wid', mods. by rewrite lookup_insert_ne.
           ++ exists wid, (item_mod_ids item). by rewrite lookup_insert_eq.
        -- intros (wid' & mods & Hlk & Hm).
           destruct (decide (wid' = wid)) as [->|Hne].
           ++ rewrite lookup_insert_eq in Hlk. injection Hlk as <-. by right.
           ++ rewrite lookup_insert_ne in Hlk by done. left. by exists wid', mods.
      * intros m deps Hm. destruct (Hdeps1 m deps Hm); eauto.
    + apply IH; [|done|done].
      intros wid'. rewrite Hcache. unfold cached_mods.
      destruct (decide (wid' = wid)) as [->|Hne].
      * rewrite Hitem. cbn [mbind option_bind].
        by destruct (bool_decide (wid ∈ visited)), (bool_decide (wid ∈ visited ++ [wid])).
      * destruct (decide (wid' ∈ visited)) as [Hin|Hout].
        -- rewrite !bool_decide_eq_true_2; [done|set_solver|done].
        -- rewrite !bool_decide_eq_false_2; [done|set_solver|done].
Qed.

(** X16.  [collect_mod_info] records under a workshop ID the mod IDs of
    its item (the non-empty, stripped IDs of the [mod.info] files in path
    order, first occurrences only) exactly when the ID is listed, its
    directory exists and declares at least one mod.  Every recorded list
    is therefore non-empty and duplicate-free; the mods with an entry in
    [requires] are exactly the mods that [mod_to_workshop] indexes; and
    every recorded requirement is non-empty and stripped. *)
Theorem collect_mod_info_cache (workshop_root : gmap string ItemDir)
    (workshop_ids : list string) :
  let cache := collect_mod_info workshop_root workshop_ids in
  (∀ wid, cache.2 !! wid = cached_mods workshop_root workshop_ids wid)
  ∧ (∀ wid mods, cache.2 !! wid = Some mods →
                 mods ≠ [] ∧ NoDup mods ∧ Forall stripped_id mods)
  ∧ (∀ m, is_Some (cache.1 !! m) ↔ m ∈ mod_to_workshop cache.2)
  ∧ (∀ m deps, cache.1 !! m = Some deps → Forall stripped_id deps).
Proof.
  intros cache. unfold collect_mod_info in cache.
  destruct (collect_mod_info_loop workshop_root workshop_ids [] ∅ ∅)
    as (requires & workshop_to_mods & seen & Heq & Hcache & Hdom & Hdeps).
  - intros wid. by rewrite lookup_empty.
  - intros m. rewrite dom_empty_L, elem_of_mod_to_workshop. split; [set_solver|].
    intros (wid & mods & Hlk & _). by rewrite lookup_empty in Hlk.
  - intros m deps. by rewrite lookup_empty.
  - rewrite dom_empty_L in Heq. unfold cache. rewrite Heq. cbn [fst snd].
    split_and!; [done| | |done].
    + intros wid mods. rewrite Hcache. unfold cached_mods.
      destruct (bool_decide (wid ∈ [] ++ workshop_ids)); [|done].
      destruct (workshop_root !! wid) as [item|]; [|done]. cbn [mbind option_bind].
      destruct (decide (item_mod_ids item = [])) as [Hnil|Hnil].
      * by rewrite bool_decide_eq_true_2.
      * rewrite bool_decide_eq_false_2 by done. intros [= <-].
        split_and!; [done|apply first_occurrences_nodup|apply item_mod_ids_stripped].
    + intros m. by rewrite <- Hdom, elem_of_dom.
Qed.

(** ** [collect_workshop_maps] *)

Lemma sorted_by_sorted {A K} (le : K → K → bool) (key : A → K) (l : list A) :
  (∀ a b, le a b = true ∨ le b a = true) →
  Sorted (λ x y, le (key x) (key y) = true) (sorted_by le key l).
Proof.
  intros Htotal. unfold sorted_by. induction l as [|x l IH]; [constructor|].
  cbn [foldr]. revert IH. generalize (foldr
    (fix insert (x : A) (l : list A) {struct l} : list A :=
       match l with
       | [] => [x]
       | y :: l' => if le (key x) (key y) then x :: y :: l' else y :: insert x l'
       end) [] l).
  clear l. intros l Hl. induction Hl as [|y l Hl IH Hhd].
  - by repeat constructor.
  - destruct (le (key x) (key y)) eqn:Hxy.
    + by repeat constructor.
    + constructor; [done|].
      destruct l as [|z l].
      * constructor. by destruct (Htotal (key x) (key y)) as [Hle|Hle]; [congruence|].
      * destruct (le (key x) (key z)).
        -- constructor. by destruct (Htotal (key x) (key y)) as [Hle|Hle]; [congruence|].
        -- constructor. by inversion Hhd.
Qed.

Lemma foldl_bind {A B C} (f : A → C → A) (g : B → list C) (a : A) (l : list B) :
  foldl f a (l ≫= g) = foldl (λ a x, foldl f a (g x)) a l.
Proof.
  revert a. induction l as [|x l IH]; intros a; [done|].
  cbn [mbind list_bind]. change (foldl f a (g x ++ (l ≫= g)) = foldl (λ a x, foldl f a (g x)) (foldl f a (g x)) l).
  by rewrite foldl_app, IH.
Qed.

Lemma visited_maps_found (pairs : list (string * string))
    (found : gset string) (seen_mod_map : gset (string * string)) :
  (∀ name, name ∈ found ↔ ∃ mod_id, (mod_id, name) ∈ seen_mod_map) →
  ∀ name,
    name ∈ (foldl (λ '(found, seen_mod_map) '(mod_id, name),
                     if bool_decide ((mod_id, name) ∉ seen_mod_map)
                     then (found ∪ {[name]}, seen_mod_map ∪ {[(mod_id, name)]})
                     else (found, seen_mod_map)) (found, seen_mod_map) pairs).1
    ↔ name ∈ found ∨ name ∈ pairs.*2.
Proof.
  revert found seen_mod_map.
  induction pairs as [|[mod_id n] pairs IH]; intros found seen_mod_map Hinv name.
  - simpl. rewrite elem_of_nil. tauto.
  - cbn [foldl]. rewrite fmap_cons, elem_of_cons. cbn [snd].
    destruct (decide ((mod_id, n) ∈ seen_mod_map)) as [Hin|Hout].
    + rewrite bool_decide_eq_false_2 by auto. rewrite IH by done.
      assert (n ∈ found) by (apply Hinv; by exists mod_id).
      split; [tauto|]. intros [?|[->|?]]; auto.
    + rewrite bool_decide_eq_true_2 by done. rewrite IH.
      * rewrite elem_of_union, elem_of_singleton. tauto.
      * intros name'. rewrite elem_of_union, elem_of_singleton, Hinv. split.
        -- intros [(m & Hm)| ->]; [exists m|exists mod_id]; set_solver.
        -- intros (m & [Hm|[= -> ->]%elem_of_singleton]%elem_of_union); eauto.
Qed.

Lemma collect_workshop_maps_found (workshop_root : gmap string ItemDir)
    (workshop_ids : list string) (active_mod_ids : gset string) :
  collect_workshop_maps workshop_root workshop_ids active_mod_ids
  ≡ₚ elements (list_to_set (C := gset string)
                 (visited_maps workshop_root workshop_ids active_mod_ids).*2).
Proof.
  unfold collect_workshop_maps. rewrite sorted_by_perm.
  apply NoDup_Permutation; [apply NoDup_elements|apply NoDup_elements|].
  intros name. rewrite !elem_of_elements, elem_of_list_to_set.
  match goal with |- _ ∈ (foldl ?f _ _).1 ↔ _ => set (outer := f) end.
  pose proof (visited_maps_found
                (visited_maps workshop_root workshop_ids active_mod_ids) ∅ ∅) as Hfound.
  match type of Hfound with context [foldl ?f _ _] => set (pair_step := f) in * end.
  assert (foldl outer (∅, ∅) workshop_ids
          = foldl pair_step (∅, ∅)
              (visited_maps workshop_root workshop_ids active_mod_ids)) as ->.
  { unfold visited_maps. rewrite foldl_bind. apply foldl_ext_fn. intros st wid.
    unfold outer. destruct (workshop_root !! wid) as [item|]; [|done].
    rewrite foldl_bind. apply foldl_ext_fn. clear. intros [found seen_mod_map] modinfo.
    change (info_get (_parse_mod_info_file (mi_text modinfo)) "id")
      with (mod_info_id modinfo).
    destruct (bool_decide (mod_info_id modinfo = "")
              || bool_decide (mod_info_id modinfo ∉ active_mod_ids)); [done|].
    rewrite foldl_fmap. apply foldl_ext_fn. by intros [found' seen'] n. }
  rewrite Hfound; [set_solver|]. intros name'. split; [set_solver|].
  intros (m & Hm). set_solver.
Qed.

(** X17.  [collect_workshop_maps] returns, sorted and without
    duplicates, exactly the names of the map folders of the active mods:
    the folders under [media/maps] beside a [mod.info] file whose [id] is
    not empty and in [active_mod_ids], inside a listed workshop item
    whose directory exists. *)
Theorem collect_workshop_maps_active (workshop_root : gmap string ItemDir)
    (workshop_ids : list string) (active_mod_ids : gset string) :
  let maps := collect_workshop_maps workshop_root workshop_ids active_mod_ids in
  NoDup maps
  ∧ Sorted (λ a b, String.leb a b = true) maps
  ∧ ∀ name, name ∈ maps ↔
      ∃ wid item modinfo,
        wid ∈ workshop_ids ∧ workshop_root !! wid = Some item
        ∧ modinfo ∈ item_mod_infos item
        ∧ mod_info_id modinfo ≠ "" ∧ mod_info_id modinfo ∈ active_mod_ids
        ∧ name ∈ mi_maps modinfo.
Proof.
  intros maps. split_and!.
  - unfold maps. rewrite collect_workshop_maps_found. apply NoDup_elements.
  - apply (sorted_by_sorted String.leb id). apply String.leb_total.
  - intros name. unfold maps.
    rewrite collect_workshop_maps_found, elem_of_elements, elem_of_list_to_set.
    rewrite list_elem_of_fmap. unfold visited_maps. split.
    + intros ([m n] & -> & Hin). cbn [snd].
      apply list_elem_of_bind in Hin as (wid & Hin & Hwid).
      apply list_elem_of_bind in Hin as (modinfo & Hin & Hmi).
      destruct (workshop_root !! wid) as [item|] eqn:Hitem; [|by apply elem_of_nil in Hmi].
      destruct (decide (mod_info_id modinfo = "")) as [Hid|Hid].
      { rewrite bool_decide_eq_true_2 in Hin by done. by apply elem_of_nil in Hin. }
      destruct (decide (mod_info_id modinfo ∈ active_mod_ids)) as [Hact|Hact].
      2: { rewrite (bool_decide_eq_true_2 (_ ∉ _)), orb_true_r in Hin by done.
           by apply elem_of_nil in Hin. }
      rewrite bool_decide_eq_false_2, (bool_decide_eq_false_2 (_ ∉ _)) in Hin by auto.
      apply list_elem_of_fmap in Hin as (n' & [= -> ->] & Hn).
      by exists wid, item, modinfo.
    + intros (wid & item & modinfo & Hwid & Hitem & Hmi & Hid & Hact & Hn).
      exists (mod_info_id modinfo, name). split; [done|].
      apply list_elem_of_bind. exists wid. split; [|done].
      apply list_elem_of_bind. exists modinfo. rewrite Hitem. split; [|done].
      rewrite bool_decide_eq_false_2, (bool_decide_eq_false_2 (_ ∉ _)) by auto.
      apply list_elem_of_fmap. by exists name.
Qed.

(** ** The files that [main] of process_mods.py touches *)

Lemma touches_only_refl (paths : list string) (m m' : machine) :
  files m' = files m → ops m' = ops m → touches_only paths m m'.
Proof.
  intros Hf Ho. split; [by rewrite Hf|]. exists []. by rewrite app_nil_r.
Qed.

Lemma touches_only_trans (paths : list string) (m1 m2 m3 : machine) :
  touches_only paths m1 m2 → touches_only paths m2 m3 → touches_only paths m1 m3.
Proof.
  intros [Hf1 (ops1 & Ho1 & Hw1)] [Hf2 (ops2 & Ho2 & Hw2)]. split.
  - intros path Hp. by rewrite Hf2, Hf1.
  - exists (ops1 ++ ops2). split; [by rewrite Ho2, Ho1, app_assoc|by apply Forall_app].
Qed.

Lemma confined_bind {A B} (paths : list string) (p : prog A) (k : A → prog B) :
  confined paths p → (∀ a, confined paths (k a)) → confined paths (p ≫= k).
Proof.
  intros Hp Hk m. specialize (Hp m). unfold mbind, prog_bind.
  destruct (p m) as [m1 [a|c e]]; [|done].
  eapply touches_only_trans; [done|apply Hk].
Qed.

Lemma confined_ret {A} (paths : list string) (a : A) : confined paths (mret a : prog A).
Proof. intros m. by apply touches_only_refl. Qed.

Lemma confined_print (paths : list string) (line : string) : confined paths (print line).
Proof. intros m. by apply touches_only_refl. Qed.

Lemma confined_fatal {A} (paths : list string) (msg : string) :
  confined paths (fatal msg : prog A).
Proof. intros m. by apply touches_only_refl. Qed.

Lemma confined_lift {A} (paths : list string) (r : result A) : confined paths (lift r).
Proof. intros m. by apply touches_only_refl. Qed.

Lemma confined_request {A} (paths : list string) (answer : prog A) :
  confined paths answer → confined paths (request answer).
Proof.
  intros Ha m. unfold request. destruct (io_errors m (io_count m)).
  - by apply touches_only_refl.
  - apply (Ha (Machine (files m) (stdout m) (ops m) (io_errors m) (S (io_count m)))).
Qed.

Lemma confined_traverse {A} (paths : list string) (found : A) :
  confined paths (traverse found).
Proof. apply confined_request. intros m. by apply touches_only_refl. Qed.

Lemma confined_path_exists (paths : list string) (path : string) :
  confined paths (path_exists path).
Proof. apply confined_request. intros m. by apply touches_only_refl. Qed.

Lemma confined_read_text (paths : list string) (path : string) :
  confined paths (read_text path).
Proof.
  apply confined_request. intros m.
  destruct (files m !! path); by apply touches_only_refl.
Qed.

Lemma confined_write_text (paths : list string) (path data : string) :
  path ∈ paths → confined paths (write_text path data).
Proof.
  intros Hin.
  assert (Hop : ∀ op, writes_to paths op →
                      (∀ files path', path' ∉ paths →
                                      apply_op files op !! path' = files !! path') →
                      confined paths (perform op)).
  { intros op Hop Hfiles m. split; [intros path' Hp; by apply Hfiles|].
    exists [op]. split; [done|by constructor]. }
  assert (Hne : ∀ path', path' ∉ paths → path ≠ path') by (by intros path' Hp ->).
  apply confined_bind; [|intros _]; apply confined_request, Hop; try done.
  - intros files path' Hp. cbn [apply_op]. rewrite lookup_insert_ne; [done|by apply Hne].
  - intros files path' Hp. cbn [apply_op]. rewrite lookup_insert_ne; [done|by apply Hne].
Qed.

Lemma confined_when (paths : list string) (b : bool) (p : prog ()) :
  confined paths p → confined paths (when b p).
Proof. destruct b; [done|]. intros _. apply confined_ret. Qed.

Lemma confined_for_each {A} (paths : list string) (l : list A) (body : A → prog ()) :
  (∀ x, confined paths (body x)) → confined paths (for_each l body).
Proof.
  intros Hbody. induction l as [|x l IH]; [apply confined_ret|].
  simpl. apply confined_bind; [apply Hbody|by intros _].
Qed.

Lemma confined_print_conflicts (paths : list string)
    (tiledef_conflicts : gmap Z (list string))
    (map_coord_conflicts : gmap (Z * Z) (list string)) :
  confined paths (print_conflicts tiledef_conflicts map_coord_conflicts).
Proof.
  unfold print_conflicts. destruct (_ || _); [|apply confined_print].
  apply confined_bind; [|intros _].
  { apply confined_when, confined_bind; [apply confined_print|intros _].
    apply confined_for_each. intros num. apply confined_print. }
  apply confined_bind; [|intros _; apply confined_print].
  apply confined_when, confined_bind; [apply confined_print|intros _].
  apply confined_bind; [|intros _].
  { apply confined_for_each. intros [[cx cy] mods]. apply confined_print. }
  apply confined_when, confined_print.
Qed.

(** X18.  Every run of [main] of process_mods.py ends, whatever it
    returns, having changed no file other than [mods.txt] and the INI:
    each of its file operations truncates or writes one of these two
    files in place, none renames a file, and every other file keeps its
    content. *)
Theorem main_touches_only (a : args) (m0 : machine) :
  ∃ m' r, main a m0 = Some (m', r)
          ∧ touches_only [arg_mods_txt a; arg_ini a] m0 m'.
Proof.
  assert (∃ m' r, main a m0 = Some (m', r)) as (m' & r & Hmain).
  { destruct (main_outcome a m0) as [(m' & Hmain)|(m' & e & Hmain & _)]; by eexists _, _. }
  exists m', r. split; [done|]. revert Hmain. unfold main.
  set (paths := [arg_mods_txt a; arg_ini a]).
  assert (Hmods : arg_mods_txt a ∈ paths) by left.
  assert (Hini : arg_ini a ∈ paths) by (right; left).
  match goal with |- context [match ?p m0 with _ => _ end] => set (before_sort := p) end.
  assert (Hc : confined paths before_sort).
  { subst before_sort.
    apply confined_bind; [apply confined_path_exists|intros ex].
    apply confined_bind; [apply confined_when, confined_fatal|intros _].
    apply confined_bind; [apply confined_path_exists|intros ex'].
    apply confined_bind; [apply confined_when, confined_fatal|intros _].
    apply confined_bind; [apply confined_read_text|intros text].
    destruct (parse_mods_txt text) as [wids mids].
    apply confined_bind; [apply confined_when, confined_fatal|intros _].
    apply confined_bind; [apply confined_when, confined_fatal|intros _].
    apply confined_bind; [apply confined_print|intros _].
    apply confined_bind; [apply confined_traverse|intros [rm w2m]].
    apply confined_bind; [apply confined_print|intros _].
    apply confined_bind; [apply confined_traverse|intros tiledef_conflicts].
    apply confined_bind; [apply confined_traverse|intros map_coord_conflicts].
    apply confined_bind; [apply confined_print_conflicts|intros _].
    apply confined_bind; [apply confined_traverse|intros workshop_maps].
    apply confined_bind; [apply confined_print|intros _].
    apply confined_ret. }
  specialize (Hc m0). destruct (before_sort m0) as [m1 [v|c e]]; [|by intros [= <- <-]].
  destruct v as [[[[wids mids] maps] rm] w2m]. cbn [fst] in Hc.
  destruct (ensure_topological_order mids rm) as [sorted|]; [|done].
  cbn [mbind option_bind].
  match goal with |- Some (?p m1) = _ → _ =>
    assert (Hp : confined paths p);
    [|intros [= Hrun]; specialize (Hp m1); rewrite Hrun in Hp;
      by eapply touches_only_trans]
  end.
  apply confined_bind; [apply confined_lift|]. intros [mids2 notes2].
  apply confined_bind; [|intros _].
  { destruct (bool_decide _); [|apply confined_print].
    apply confined_bind; [apply confined_print|intros _].
    apply confined_bind; [|intros _; apply confined_print].
    apply confined_for_each. intros note. apply confined_print. }
  apply confined_bind; [apply confined_read_text|]. intros text.
  destruct (rewrite_mods_txt _ _ _ _) as [[changed val_warnings] written].
  apply confined_bind; [|intros _].
  { destruct written; [by apply confined_write_text|apply confined_ret]. }
  apply confined_bind; [|intros _].
  { apply confined_when, confined_bind; [apply confined_print|intros _].
    apply confined_for_each. intros w. apply confined_print. }
  apply confined_bind; [|intros [wids3 mids3]].
  { destruct changed; [|apply confined_ret].
    apply confined_bind; [apply confined_read_text|intros text'].
    apply confined_bind; [apply confined_print|intros _]. apply confined_ret. }
  apply confined_bind; [apply confined_read_text|intros original].
  apply confined_bind; [by apply confined_write_text|intros _].
  apply confined_bind; [apply confined_print|intros _].
  apply confined_bind; [apply confined_read_text|intros original'].
  apply confined_bind; [by apply confined_write_text|intros _].
  apply confined_bind; [apply confined_print|intros _].
  apply confined_when.
  apply confined_bind; [apply confined_read_text|intros original''].
  apply confined_bind; [by apply confined_write_text|intros _]. apply confined_print.
Qed.

(** ** Reading a file as text *)

Lemma decode_utf8_ascii (s : string) : is_ascii s = true → py.decode_utf8 s = s.
Proof.
  unfold py.decode_utf8, is_ascii. induction s as [|c s IH]; [done|].
  cbn [all_chars py.decode_from]. intros [Hc Hs]%andb_true_iff.
  rewrite bool_decide_eq_true_2 by done. cbn [negb andb]. rewrite Hc.
  rewrite string_app_nil_l. by rewrite IH.
Qed.

Lemma universal_newlines_fixed (s : string) :
  all_chars (λ c, negb (bool_decide (c = "013"%char))) s = true →
  py.universal_newlines s = s.
Proof.
  induction s as [|c s IH]; [done|]. cbn [all_chars]. intros [Hc Hs]%andb_true_iff.
  apply negb_true_iff, bool_decide_eq_false in Hc. cbn [py.universal_newlines].
  rewrite IH by done. by destruct c as [[] [] [] [] [] [] [] []].
Qed.

Lemma all_chars_impl (p q : ascii → bool) (s : string) :
  (∀ c, p c = true → q c = true) → all_chars p s = true → all_chars q s = true.
Proof.
  intros Hpq. induction s as [|c s IH]; [done|]. cbn [all_chars].
  intros [Hc Hs]%andb_true_iff. by rewrite (Hpq c Hc), IH.
Qed.

Lemma text_of_ascii (s : string) :
  is_ascii s = true → text_of s = py.universal_newlines s.
Proof. intros Hs. unfold text_of. by rewrite decode_utf8_ascii. Qed.


(** ** The registry document *)

Lemma first_occurrences_app (l1 l2 : list string) :
  first_occurrences (l1 ++ l2)
  = first_occurrences l1 ++ filter (λ y, y ∉ l1) (first_occurrences l2).
Proof.
  induction l1 as [|x l1 IH].
  - simpl. symmetry. apply filter_all_elem. intros y _. apply not_elem_of_nil.
  - simpl. rewrite IH, filter_app, list_filter_filter. do 2 f_equal.
    apply list_filter_iff. intros y. rewrite not_elem_of_cons. tauto.
Qed.

Lemma first_occurrences_app_dup (l1 l2 : list string) (x : string) :
  x ∈ l1 → first_occurrences (l1 ++ x :: l2) = first_occurrences (l1 ++ l2).
Proof.
  intros Hx. rewrite !first_occurrences_app. f_equal. simpl.
  rewrite filter_cons_False by (intros Hn; by apply Hn). rewrite list_filter_filter.
  apply list_filter_iff. intros y. cbv beta. split; [by intros [? ?]|].
  intros Hy. split; [done|]. by intros ->.
Qed.

Lemma bind_one {A B} (f : A → list B) (x : A) : [x] ≫= f = f x.
Proof. cbn [mbind list_bind]. apply app_nil_r. Qed.

Lemma parse_line_mod_again (st : parser) (mid : string) (cur : nat) (b : ModBlock) :
  stripped_id mid → current st = Some cur → blocks st !! cur = Some b →
  mid ∈ mod_ids b →
  parse_line st (("Mod ID: " +:+ mid) +:+ String "010" "") = st.
Proof.
  intros Hmid Hcur Hb Hold. unfold parse_line.
  change ("Mod ID: " +:+ mid) with (String "M" "od ID: " +:+ mid).
  rewrite strip_written_line; [|done|by apply stripped_id_sides, Hmid|apply Hmid].
  change (String "M" "od ID: " +:+ mid) with ("Mod ID: " +:+ mid).
  rewrite match_mod_id_written by done.
  assert (match_workshop_id ("Mod ID: " +:+ mid) = None) as -> by (by vm_compute).
  assert (py.startswith ("Mod ID: " +:+ mid) "#" = false) as -> by (by vm_compute).
  rewrite (bool_decide_eq_false_2 (_ = "")) by (by rewrite !string_app_cons).
  rewrite (bool_decide_eq_false_2 (_ = "---")) by (by rewrite !string_app_cons).
  rewrite Hcur, Hb. simpl.
  rewrite (bool_decide_eq_false_2 (mid ∉ mod_ids b)) by auto.
  by rewrite andb_false_r.
Qed.

Lemma parse_registry_lines (doc : list registry_line) (st : parser) :
  Forall well_formed_line doc →
  (current st = None
   ∨ ∃ bs b, blocks st = bs ++ [b] ∧ current st = Some (length bs)) →
  let st' := foldl parse_line st ((λ l, render_line l +:+ String "010" "") <$> doc) in
  workshop_id <$> blocks st' = (workshop_id <$> blocks st) ++ registry_workshop_ids doc
  ∧ first_occurrences (blocks st' ≫= mod_ids)
    = first_occurrences
        ((blocks st ≫= mod_ids)
         ++ block_entries (bool_decide (is_Some (current st))) doc).
Proof.
  intros Hdoc. revert st. induction Hdoc as [|l doc Hl Hdoc IH]; intros st Hst.
  { simpl. by rewrite !app_nil_r. }
  rewrite fmap_cons. cbn [foldl]. cbv zeta in IH.
  destruct l as [wid|mid| | |text]; cbn [render_line well_formed_line] in *.
  - destruct Hl as [Hwid _]. rewrite parse_line_workshop by done.
    destruct (IH (mkParser (blocks st ++ [mkModBlock wid []]) (Some (length (blocks st)))))
      as [IH1 IH2]; [right; by eexists _, _|].
    cbn [blocks current] in IH1, IH2. rewrite IH1, IH2.
    rewrite fmap_app, bind_app. cbn [registry_workshop_ids omap list_omap block_entries].
    rewrite <- !app_assoc. split; [done|].
    rewrite bool_decide_eq_true_2 by (by eexists).
    by rewrite bind_one.
  - destruct Hl as [[Hmid _] _]. destruct Hst as [Hnone|(bs & b & Hbs & Hcur)].
    + rewrite parse_line_orphan by done. destruct (IH st) as [IH1 IH2]; [by left|].
      rewrite IH1, IH2, Hnone. cbn [registry_workshop_ids omap list_omap block_entries].
      rewrite bool_decide_eq_false_2; [done|]. by intros [? ?].
    + assert (Hb : blocks st !! length bs = Some b).
      { rewrite Hbs. by rewrite lookup_app_r, Nat.sub_diag by lia. }
      cbn [registry_workshop_ids omap list_omap block_entries].
      rewrite Hcur, bool_decide_eq_true_2 by (by eexists).
      destruct (decide (mid ∈ mod_ids b)) as [Hold|Hnew].
      * rewrite (parse_line_mod_again st mid (length bs) b) by done.
        destruct (IH st) as [IH1 IH2]; [right; by eexists _, _|].
        rewrite IH1, IH2, Hcur, bool_decide_eq_true_2 by (by eexists).
        split; [done|]. symmetry. apply first_occurrences_app_dup.
        rewrite Hbs, bind_app, elem_of_app. right. by rewrite bind_one.
      * rewrite (parse_line_mod st mid (length bs) b) by done.
        assert (Halter : alter (λ b, mkModBlock (workshop_id b) (mod_ids b ++ [mid]))
                           (length bs) (blocks st)
                         = bs ++ [mkModBlock (workshop_id b) (mod_ids b ++ [mid])]).
        { rewrite Hbs. rewrite <- (Nat.add_0_r (length bs)) at 1.
          by rewrite alter_app_r. }
        rewrite Halter.
        destruct (IH (mkParser (bs ++ [mkModBlock (workshop_id b) (mod_ids b ++ [mid])])
                               (Some (length bs)))) as [IH1 IH2];
          [right; by eexists _, _|].
        cbn [blocks current] in IH1, IH2. rewrite IH1, IH2.
        rewrite bool_decide_eq_true_2 by (by eexists).
        rewrite Hbs, !fmap_app, !bind_app. cbn [fmap list_fmap workshop_id].
        split; [done|]. rewrite !bind_one. cbn [mod_ids].
        by rewrite <- !app_assoc.
  - change (String "-" (String "-" (String "-" "")) +:+ String "010" "")
      with (String "-" (String "-" (String "-" (String "010" "")))).
    rewrite parse_line_separator.
    destruct (IH (mkParser (blocks st) None)) as [IH1 IH2]; [by left|].
    cbn [blocks current] in IH1, IH2. rewrite IH1, IH2.
    cbn [registry_workshop_ids omap list_omap block_entries].
    rewrite bool_decide_eq_false_2; [done|]. by intros [? ?].
  - rewrite string_app_nil_l, parse_line_blank. destruct (IH st Hst) as [IH1 IH2].
    by rewrite IH1, IH2.
  - rewrite string_app_cons, parse_line_comment. destruct (IH st Hst) as [IH1 IH2].
    by rewrite IH1, IH2.
Qed.

Lemma render_line_one_line (l : registry_line) :
  well_formed_line l → one_line (render_line l) ∧ is_ascii (render_line l) = true.
Proof.
  destruct l as [wid|mid| | |text]; cbn [well_formed_line render_line]; [| |done..|].
  - intros [Hwid Hascii]. split.
    + apply one_line_app; [done|by apply workshop_token_one_line].
    + unfold is_ascii in *. by rewrite all_chars_app, Hascii.
  - intros [[_ Hmid] Hascii]. split.
    + by apply one_line_app.
    + unfold is_ascii in *. by rewrite all_chars_app, Hascii.
  - intros [Htext Hascii]. split.
    + by apply (one_line_app (String "#" "") text).
    + unfold is_ascii in *. cbn [all_chars]. by rewrite Hascii.
Qed.

Lemma readlines_concat (ls : list string) :
  Forall one_line ls →
  py.readlines (py.concat ((λ l, l +:+ String "010" "") <$> ls))
  = (λ l, l +:+ String "010" "") <$> ls.
Proof.
  induction 1 as [|l ls Hl Hls IH]; [done|]. rewrite fmap_cons.
  change (py.concat ((l +:+ String "010" "") :: ((λ l, l +:+ String "010" "") <$> ls)))
    with ((l +:+ String "010" "")
          +:+ py.concat ((λ l, l +:+ String "010" "") <$> ls)).
  rewrite string_app_assoc.
  change (String "010" "" +:+ py.concat ((λ l, l +:+ String "010" "") <$> ls))
    with (String "010" (py.concat ((λ l, l +:+ String "010" "") <$> ls))).
  by rewrite readlines_line, IH.
Qed.

Lemma registry_text_of (doc : list registry_line) :
  Forall well_formed_line doc → text_of (registry_text doc) = registry_text doc.
Proof.
  intros Hdoc. unfold registry_text. rewrite text_of_ascii, universal_newlines_fixed.
  - done.
  - apply all_chars_concat, Forall_fmap. eapply Forall_impl; [exact Hdoc|]. intros l Hl.
    unfold compose. cbv beta. destruct (render_line_one_line l Hl) as [Hone _].
    rewrite all_chars_app, andb_true_iff. split; [|done]. revert Hone.
    apply all_chars_impl. intros c Hc. by destruct c as [[] [] [] [] [] [] [] []].
  - apply all_chars_concat, Forall_fmap. eapply Forall_impl; [exact Hdoc|]. intros l Hl.
    unfold compose. cbv beta. destruct (render_line_one_line l Hl) as [_ Hascii].
    unfold is_ascii in Hascii. by rewrite all_chars_app, Hascii.
Qed.

Lemma block_entries_nonempty (doc : list registry_line) (in_block : bool) :
  Forall well_formed_line doc → Forall (λ mid, mid ≠ "") (block_entries in_block doc).
Proof.
  intros Hdoc. revert in_block. induction Hdoc as [|l doc Hl Hdoc IH]; intros in_block.
  { constructor. }
  destruct l as [wid|mid| | |text]; cbn [block_entries]; try apply IH.
  destruct in_block; [|apply IH]. constructor; [|apply IH]. apply Hl.
Qed.

Lemma parse_registry_text (doc : list registry_line) :
  Forall well_formed_line doc →
  parse_mods_txt (text_of (registry_text doc))
  = (first_occurrences (registry_workshop_ids doc),
     first_occurrences (registry_mod_ids doc)).
Proof.
  intros Hdoc.
  rewrite registry_text_of, parse_mods_txt_spec by done. unfold parse_mods_blocks, registry_text.
  assert (Hlines : py.readlines
                     (py.concat ((λ l, render_line l +:+ String "010" "") <$> doc))
                   = (λ l, render_line l +:+ String "010" "") <$> doc).
  { pose proof (readlines_concat (render_line <$> doc)) as Hlines.
    rewrite <- !list_fmap_compose in Hlines. apply Hlines.
    apply Forall_fmap. eapply Forall_impl; [exact Hdoc|]. intros l Hl.
    by apply render_line_one_line. }
  rewrite Hlines.
  destruct (parse_registry_lines doc (mkParser [] None) Hdoc) as [H1 H2]; [by left|].
  cbn [blocks current] in H1, H2. rewrite H1. f_equal.
  rewrite <- first_occurrences_filter, H2, first_occurrences_filter.
  rewrite bool_decide_eq_false_2 by (by intros [? ?]). cbn [mbind list_bind app].
  f_equal. apply filter_all_elem. intros mid Hmid.
  pose proof (block_entries_nonempty doc false Hdoc) as Hne.
  rewrite Forall_forall in Hne. by apply Hne.
Qed.

(** C10.  For a registry file in the block format (lines
    [Workshop ID: <id>], [Mod ID: <id>], [---], blank lines and comments,
    the IDs being ASCII tokens), [parse_mods_txt] returns the workshop IDs
    of the document and the mod IDs of its blocks with only the first
    occurrence of each, in document order: an ID that appears in more
    than one block, or more than once in a block, is kept once and the
    later occurrences are dropped, without an error.  For every text the
    two lists returned are free of duplicates.  The document
    [duplicates_doc], also with CRLF line ends, is read as
    [["1"; "2"]] and [["a"; "b"; "c"; "d"]]. *)
Theorem parse_mods_txt_first_occurrences :
  (∀ doc : list registry_line,
     Forall well_formed_line doc →
     parse_mods_txt (text_of (registry_text doc))
     = (first_occurrences (registry_workshop_ids doc),
        first_occurrences (registry_mod_ids doc)))
  ∧ (∀ text : string, NoDup (parse_mods_txt text).1 ∧ NoDup (parse_mods_txt text).2)
  ∧ registry_text duplicates_doc
    = "# server mods
Workshop ID: 1
Mod ID: a
Mod ID: a
Mod ID: b
---

Workshop ID: 2
Mod ID: b
Mod ID: c
---
Mod ID: orphan
Workshop ID: 1
Mod ID: d
---
"
  ∧ parse_mods_txt (text_of (registry_text duplicates_doc))
    = (["1"; "2"], ["a"; "b"; "c"; "d"])
  ∧ parse_mods_txt (text_of duplicates_crlf) = (["1"; "2"], ["a"; "b"; "c"; "d"]).
Proof.
  split_and!; [apply parse_registry_text| |by vm_compute..].
  intros text. rewrite parse_mods_txt_spec. cbn [fst snd].
  split; apply first_occurrences_nodup.
Qed.

Lemma parse_mods_txt_first_occurrences_witness :
  parse_mods_txt (text_of (registry_text duplicates_doc))
  = (first_occurrences (registry_workshop_ids duplicates_doc),
     first_occurrences (registry_mod_ids duplicates_doc)).
Proof.
  apply (proj1 parse_mods_txt_first_occurrences duplicates_doc).
  unfold duplicates_doc.
  repeat constructor; try done; try (by vm_compute); by intros [=].
Defined.

(** ** The tests of the scan, in words *)















